(** * libconutils: the surface compositor, embedded and verified

    A shallow embedding of [geometry.cpp], [surface.cpp], [screen.cpp] and
    [keyboard.cpp] (with the declarations of [conutils.h]), the proofs of
    the properties the specification states about them, and the proofs of
    further properties of the code: the contracts of the operations, the
    invariants they keep, and how they compose.

    Conventions of the embedding.
    - [ssize_t] and [size_t] are 64-bit; their values are carried in [Z].
      Every conversion to [size_t] is written [to_size] (reduction modulo
      2^64) and every result stored in an [ssize_t] is written [to_ssize]
      (two's complement reinterpretation), so wrap-around is explicit.
    - A [Surface *] is an index into a store of surfaces ([heap]); the null
      pointer is [None].  [std::set<Surface *>] iterates in address order,
      here increasing index order; [std::map<int, ...>] iterates in
      increasing key order.
    - An operation yields [None] where the C++ program has no defined
      result: a dangling pointer, a buffer access outside the allocation,
      a division by zero, or (for [render]) recursion deeper than the fuel;
      and where it throws instead of returning: [resize] asked for an array
      larger than the largest object.  Exhaustion of memory is not
      modelled: a result describes the run in which the machine provided
      the memory asked for.
    - [renderDone] is a virtual hook; [render] returns the list of hook
      invocations (surface, rectangle) it performed, in call order.
    - [Screen] ([screen.cpp]) writes to [cout]: [drawChar] and [renderDone]
      return the list of the items inserted, one per [<<], with the buffer
      [renderDone] reads as an argument.
    - [Keyboard] ([keyboard.cpp]) calls [poll] and [read] on standard input:
      [pollOnce], [parseEsc] and [waitForKey] take the results of these
      calls, in the order the program makes them, and return the key with
      the results not yet consumed. *)

From Stdlib Require Import ZArith Lia Bool List.
From Stdlib Require Import Sorted.
From Stdlib Require String Ascii.
From stdpp Require Import base option list sorting.
Import String.StringSyntax.

Local Open Scope Z_scope.
Delimit Scope string_scope with string.

(** ** Machine integers *)

Definition to_size (z : Z) : Z := z mod 2 ^ 64.
Definition to_ssize (z : Z) : Z := (z + 2 ^ 63) mod 2 ^ 64 - 2 ^ 63.

(** [errno] values of Linux, returned negated by the surface operations. *)
Definition ENOMEM : Z := 12.
Definition EINVAL : Z := 22.
Definition ENOLINK : Z := 67.

(** ** Geometry primitives ([conutils.h], [geometry.cpp]) *)

Record Point := mkPoint { x : Z; y : Z }.

Record Rect := mkRect { top : Point; bottom : Point }.

(** [Rect()] : both corners default-constructed. *)
Definition Rect0 : Rect := mkRect (mkPoint 0 0) (mkPoint 0 0).

(** [Rect(tx, ty, bx, by)] *)
Definition Rect4 (tx ty bx by_ : Z) : Rect := mkRect (mkPoint tx ty) (mkPoint bx by_).

Definition width (r : Rect) : Z := to_size (x (bottom r) - x (top r)).
Definition height (r : Rect) : Z := to_size (y (bottom r) - y (top r)).
Definition size (r : Rect) : Z := to_size (width r * height r).

Definition index_for (r : Rect) (p : Point) : Z :=
  to_size ((y p - y (top r)) * width r + (x p - x (top r))).

(** Modelled from the spec: [Rect::offset], which [surface.cpp] calls but
    [conutils.h] does not declare.  The specification knows one
    point-to-index mapping, "row-major linear mapping relative to the
    rect's own top-left", which is [index_for]. *)
Definition offset (r : Rect) (p : Point) : Z := index_for r p.

(** [index % width()] and [index / width()] have no result for a rectangle
    of width 0. *)
Definition point_for (r : Rect) (index : Z) : option Point :=
  if width r =? 0 then None
  else Some (mkPoint (to_ssize (x (top r) + index mod width r))
                     (to_ssize (y (top r) + index / width r))).

Definition valid (r : Rect) : bool :=
  (x (top r) <? x (bottom r)) && (y (top r) <? y (bottom r)).

Definition intersect (r1 r2 : Rect) : Rect :=
  mkRect (mkPoint (Z.max (x (top r1)) (x (top r2))) (Z.max (y (top r1)) (y (top r2))))
         (mkPoint (Z.min (x (bottom r1)) (x (bottom r2)))
                  (Z.min (y (bottom r1)) (y (bottom r2)))).

Definition boundingRect (r1 r2 : Rect) : Rect :=
  mkRect (mkPoint (Z.min (x (top r1)) (x (top r2))) (Z.min (y (top r1)) (y (top r2))))
         (mkPoint (Z.max (x (bottom r1)) (x (bottom r2)))
                  (Z.max (y (bottom r1)) (y (bottom r2)))).

(** [Rect::move]: the width and height pass through [ssize_t] locals. *)
Definition move (r : Rect) (pos : Point) : Rect :=
  let w := to_ssize (width r) in
  let h := to_ssize (height r) in
  mkRect pos (mkPoint (to_ssize (x pos + w)) (to_ssize (y pos + h))).

(** The cells of a rectangle: the points of its half-open extent. *)
Definition inside (r : Rect) (p : Point) : Prop :=
  x (top r) <= x p < x (bottom r) /\ y (top r) <= y p < y (bottom r).

Definition insideb (r : Rect) (p : Point) : bool :=
  (x (top r) <=? x p) && (x p <? x (bottom r)) &&
  (y (top r) <=? y p) && (y p <? y (bottom r)).

(** Geometric containment: every cell of [inner] is a cell of [outer]. *)
Definition covers (outer inner : Rect) : Prop :=
  forall p, inside inner p -> inside outer p.

(** Two rectangles overlap when both are valid and share a cell. *)
Definition overlap (r1 r2 : Rect) : Prop :=
  valid r1 = true /\ valid r2 = true /\ exists p, inside r1 p /\ inside r2 p.

(** Componentwise containment, meaningful for invalid rectangles too. *)
Definition encloses (outer inner : Rect) : Prop :=
  x (top outer) <= x (top inner) /\ y (top outer) <= y (top inner) /\
  x (bottom inner) <= x (bottom outer) /\ y (bottom inner) <= y (bottom outer).

(** ** Cell model ([conutils.h]) *)

Record Char := mkChar { val : Z; fg : Z; bg : Z; attr : Z }.

(** Character attributes. *)
Definition none : Z := 0x00.
Definition bold : Z := 0x01.
Definition underscore : Z := 0x02.
Definition blink : Z := 0x04.
Definition reverse : Z := 0x08.
Definition transparent : Z := 0x80.

(** The two palette entries the default cell uses. *)
Definition black : Z := 0.
Definition white : Z := 7.

(** [Char(val)] with the defaulted palette and attributes. *)
Definition Char1 (v : Z) : Char := mkChar v white black none.

(** [Char()] and [Char(' ')]: the blank cell. *)
Definition blank : Char := Char1 32.

(** [ch.attr & Char::transparent] is non-zero. *)
Definition is_transparent (ch : Char) : bool :=
  negb (Z.land (attr ch) transparent =? 0).

(** ** Surfaces ([conutils.h], [surface.cpp]) *)

Abbreviation ptr := nat.

Record Surface := mkSurface {
  mBounds : Rect;
  mDirty : Rect;
  mPos : Point;
  mVisible : bool;
  mParent : option ptr;
  mData : list Char;
  mLayerMap : list (Z * list ptr)
}.

(** [Surface()] : the member initialisers of the class. *)
Definition Surface0 : Surface :=
  mkSurface Rect0 Rect0 (mkPoint 0 0) true None [] [].

Definition set_mBounds (b : Rect) (s : Surface) : Surface :=
  mkSurface b (mDirty s) (mPos s) (mVisible s) (mParent s) (mData s) (mLayerMap s).
Definition set_mDirty (d : Rect) (s : Surface) : Surface :=
  mkSurface (mBounds s) d (mPos s) (mVisible s) (mParent s) (mData s) (mLayerMap s).
Definition set_mPos (p : Point) (s : Surface) : Surface :=
  mkSurface (mBounds s) (mDirty s) p (mVisible s) (mParent s) (mData s) (mLayerMap s).
Definition set_mVisible (v : bool) (s : Surface) : Surface :=
  mkSurface (mBounds s) (mDirty s) (mPos s) v (mParent s) (mData s) (mLayerMap s).
Definition set_mParent (q : option ptr) (s : Surface) : Surface :=
  mkSurface (mBounds s) (mDirty s) (mPos s) (mVisible s) q (mData s) (mLayerMap s).
Definition set_mData (d : list Char) (s : Surface) : Surface :=
  mkSurface (mBounds s) (mDirty s) (mPos s) (mVisible s) (mParent s) d (mLayerMap s).
Definition set_mLayerMap (m : list (Z * list ptr)) (s : Surface) : Surface :=
  mkSurface (mBounds s) (mDirty s) (mPos s) (mVisible s) (mParent s) (mData s) m.

(** [bounds()] : the bounds placed at the surface's position. *)
Definition bounds (s : Surface) : Rect := move (mBounds s) (mPos s).

(** *** Invalidation (operations on one surface)

    The three overloads return a reference to [mDirty]: the value returned
    is [mDirty] of the resulting surface. *)

(** [invalidate()] *)
Definition invalidate (s : Surface) : Surface := set_mDirty (mBounds s) s.

(** [invalidate(const Rect&)] *)
Definition invalidate_rect (r : Rect) (s : Surface) : Surface :=
  if valid (mDirty s)
  then set_mDirty (boundingRect (mDirty s) (intersect (mBounds s) r)) s
  else set_mDirty (intersect (mBounds s) r) s.

(** The rectangle [invalidate(start, end)] builds from the buffer range. *)
Definition range_rect (b : Rect) (start end_ : Z) : option Rect :=
  start_p ← point_for b start;
  end_p ← point_for b (to_size (end_ - 1));
  if y start_p =? y end_p
  then Some (Rect4 (x start_p) (y start_p)
                   (to_ssize (x end_p + 1)) (to_ssize (y end_p + 1)))
  else Some (Rect4 0 (y start_p) (to_ssize (width b)) (to_ssize (y end_p + 1))).

(** [invalidate(start, end)] *)
Definition invalidate_range (start end_ : Z) (s : Surface) : option Surface :=
  dirty ← range_rect (mBounds s) start end_;
  Some (invalidate_rect dirty s).

(** *** Buffer accesses and counted loops *)

Definition buf_read (data : list Char) (i : Z) : option Char :=
  data !! Z.to_nat i.

Definition buf_write (data : list Char) (i : Z) (c : Char) : option (list Char) :=
  if (Z.to_nat i <? length data)%nat then Some (<[Z.to_nat i := c]> data) else None.

(** [n] iterations of [body], the counter starting at [i]. *)
Fixpoint loop {St : Type} (n : nat) (i : Z) (body : Z -> St -> option St) (s : St)
  : option St :=
  match n with
  | O => Some s
  | S n' => match body i s with
            | Some s' => loop n' (i + 1) body s'
            | None => None
            end
  end.

(** [for (size_t i = 0; i < n; i++) body] *)
Definition for_ {St : Type} (n : Z) (body : Z -> St -> option St) (s : St) : option St :=
  loop (Z.to_nat n) 0 body s.

(** Monadic iteration over the elements of a container, in order. *)
Fixpoint for_each {A St : Type} (l : list A) (body : A -> St -> option St) (s : St)
  : option St :=
  match l with
  | [] => Some s
  | a :: l' => match body a s with
               | Some s' => for_each l' body s'
               | None => None
               end
  end.

(** *** Fill and clear (operations on one surface) *)

(** The two nested loops of [fill] over the clipped crop. *)
Definition fill_rows (b dirty : Rect) (pattern : Char) (data : list Char)
  : option (list Char) :=
  for_ (height dirty) (fun yy d =>
    for_ (width dirty) (fun xx d' =>
      let p := mkPoint (to_ssize (x (top dirty) + xx)) (to_ssize (y (top dirty) + yy)) in
      buf_write d' (offset b p) pattern) d) data.

(** [while (sz--) data[sz] = pattern;] *)
Fixpoint fill_all (sz : nat) (pattern : Char) (data : list Char) : option (list Char) :=
  match sz with
  | O => Some data
  | S k => match buf_write data (Z.of_nat k) pattern with
           | Some d => fill_all k pattern d
           | None => None
           end
  end.

Definition fill (pattern : Char) (crop : Rect) (s : Surface) : option (Z * Surface) :=
  if valid crop then
    let dirty := intersect (mBounds s) crop in
    if negb (valid dirty) then Some (- EINVAL, s)
    else
      d ← fill_rows (mBounds s) dirty pattern (mData s);
      Some (0, invalidate_rect dirty (set_mData d s))
  else
    d ← fill_all (Z.to_nat (size (mBounds s))) pattern (mData s);
    Some (0, invalidate_rect (mBounds s) (set_mData d s)).

Definition clear (crop : Rect) (s : Surface) : option (Z * Surface) :=
  fill blank crop s.

(** *** The store of surfaces *)

Abbreviation heap := (list Surface).

(** Run a one-surface operation on the surface [p] points to. *)
Definition update (p : ptr) (f : Surface -> Surface) (h : heap) : option heap :=
  s ← h !! p; Some (<[p := f s]> h).

Definition on_surface {A : Type} (p : ptr) (f : Surface -> option (A * Surface))
  (h : heap) : option (A * heap) :=
  s ← h !! p;
  r ← f s;
  Some (fst r, <[p := snd r]> h).

Definition read_cell (p : ptr) (i : Z) (h : heap) : option Char :=
  s ← h !! p; buf_read (mData s) i.

Definition write_cell (p : ptr) (i : Z) (c : Char) (h : heap) : option heap :=
  s ← h !! p;
  d ← buf_write (mData s) i c;
  Some (<[p := set_mData d s]> h).

(** *** Blend *)

(** The body of the inner loop of [blend]. *)
Definition blend_cell (this other : ptr) (tb ob s_crop d_crop : Rect) (xx yy : Z)
  (h : heap) : option heap :=
  let src_p := mkPoint (to_ssize (x (top s_crop) + xx)) (to_ssize (y (top s_crop) + yy)) in
  let dst_p := mkPoint (to_ssize (x (top d_crop) + xx)) (to_ssize (y (top d_crop) + yy)) in
  src_ch ← read_cell other (offset ob src_p) h;
  if negb (is_transparent src_ch)
  then write_cell this (offset tb dst_p) src_ch h
  else Some h.

Definition blend (this other : ptr) (src_crop : Rect) (pos : Point) (h : heap)
  : option (Z * heap) :=
  t ← h !! this;
  o ← h !! other;
  let s_crop := intersect (mBounds o) src_crop in
  let d_crop := intersect (mBounds t) (move s_crop pos) in
  if negb (valid s_crop) || negb (valid d_crop) then Some (- EINVAL, h)
  else
    h1 ← for_ (height d_crop) (fun yy g =>
            for_ (width d_crop) (fun xx g' =>
              blend_cell this other (mBounds t) (mBounds o) s_crop d_crop xx yy g') g) h;
    h2 ← update this (invalidate_rect d_crop) h1;
    Some (0, h2).

(** *** The layer map: [std::map<int, std::set<Surface *>>] *)

Fixpoint set_insert (sf : ptr) (l : list ptr) : list ptr :=
  match l with
  | [] => [sf]
  | a :: l' => if (sf <? a)%nat then sf :: l
               else if (sf =? a)%nat then l
               else a :: set_insert sf l'
  end.

Definition set_mem (sf : ptr) (l : list ptr) : bool := existsb (Nat.eqb sf) l.

Definition set_erase (sf : ptr) (l : list ptr) : list ptr :=
  filter (fun a => a <> sf) l.

Fixpoint map_find (k : Z) (m : list (Z * list ptr)) : option (list ptr) :=
  match m with
  | [] => None
  | (k', l) :: m' => if k =? k' then Some l else map_find k m'
  end.

(** [m[k] = l], the entries kept in increasing key order. *)
Fixpoint map_set (k : Z) (l : list ptr) (m : list (Z * list ptr)) : list (Z * list ptr) :=
  match m with
  | [] => [(k, l)]
  | (k', l') :: m' => if k <? k' then (k, l) :: m
                      else if k =? k' then (k, l) :: m'
                      else (k', l') :: map_set k l m'
  end.

Definition map_erase (k : Z) (m : list (Z * list ptr)) : list (Z * list ptr) :=
  filter (fun e => fst e <> k) m.

(** The insertion both [addLayer] overloads and [moveLayer] perform. *)
Definition layer_insert (k : Z) (sf : ptr) (m : list (Z * list ptr)) : list (Z * list ptr) :=
  match map_find k m with
  | None => map_set k (set_insert sf []) m
  | Some l => map_set k (set_insert sf l) m
  end.

(** The first bucket, in key order, that holds [sf]. *)
Fixpoint layer_of (sf : ptr) (m : list (Z * list ptr)) : option Z :=
  match m with
  | [] => None
  | (k, l) :: m' => if set_mem sf l then Some k else layer_of sf m'
  end.

(** Erase [sf] from the bucket [k], dropping the bucket when it empties. *)
Definition layer_erase (k : Z) (sf : ptr) (m : list (Z * list ptr)) : list (Z * list ptr) :=
  match map_find k m with
  | None => m
  | Some l => let l' := set_erase sf l in
              match l' with
              | [] => map_erase k m
              | _ => map_set k l' m
              end
  end.

(** The children in the order the two loops of [render] visit them. *)
Definition layers (m : list (Z * list ptr)) : list ptr := concat (map snd m).

(** *** Tree operations *)

(** [addLayer(sf, Z)] *)
Definition addLayer (this sf : ptr) (k : Z) (h : heap) : option (Z * heap) :=
  c ← h !! sf;
  match mParent c with
  | Some _ => Some (- EINVAL, h)
  | None =>
      t ← h !! this;
      h1 ← update this (set_mLayerMap (layer_insert k sf (mLayerMap t))) h;
      c1 ← h1 !! sf;
      h2 ← update this (invalidate_rect (bounds c1)) h1;
      h3 ← update sf (set_mParent (Some this)) h2;
      Some (0, h3)
  end.

(** [addLayer(sf, pos, Z)] *)
Definition addLayer_at (this sf : ptr) (pos : Point) (k : Z) (h : heap)
  : option (Z * heap) :=
  c ← h !! sf;
  match mParent c with
  | Some _ => Some (- EINVAL, h)
  | None =>
      h0 ← update sf (set_mPos pos) h;
      t ← h0 !! this;
      h1 ← update this (set_mLayerMap (layer_insert k sf (mLayerMap t))) h0;
      c1 ← h1 !! sf;
      h2 ← update this (invalidate_rect (bounds c1)) h1;
      h3 ← update sf (set_mParent (Some this)) h2;
      Some (0, h3)
  end.

Definition removeLayer (this sf : ptr) (h : heap) : option (Z * heap) :=
  c ← h !! sf;
  if negb (bool_decide (mParent c = Some this)) then Some (- EINVAL, h)
  else
    t ← h !! this;
    match layer_of sf (mLayerMap t) with
    | None => Some (- EINVAL, h)
    | Some k =>
        h1 ← update this (set_mLayerMap (layer_erase k sf (mLayerMap t))) h;
        c1 ← h1 !! sf;
        h2 ← update this (invalidate_rect (bounds c1)) h1;
        h3 ← update sf (set_mParent None) h2;
        Some (0, h3)
    end.

Definition moveLayer (this sf : ptr) (k : Z) (h : heap) : option (Z * heap) :=
  c ← h !! sf;
  if negb (bool_decide (mParent c = Some this)) then Some (- EINVAL, h)
  else
    t ← h !! this;
    match layer_of sf (mLayerMap t) with
    | None => Some (- EINVAL, h)
    | Some old_z =>
        h1 ← update this
               (set_mLayerMap (layer_insert k sf (layer_erase old_z sf (mLayerMap t)))) h;
        c1 ← h1 !! sf;
        h2 ← update this (invalidate_rect (bounds c1)) h1;
        Some (0, h2)
    end.

Definition containsLayer (this sf : ptr) (h : heap) : option bool :=
  t ← h !! this;
  Some (set_mem sf (layers (mLayerMap t))).

(** *** Visibility and placement *)

Definition show (this : ptr) (h : heap) : option heap :=
  h1 ← update this invalidate h;
  update this (set_mVisible true) h1.

(** The prologue [move], [hide] (and, with [moveLayer], [move(pos, Z)])
    share: an attached surface marks itself and its footprint dirty. *)
Definition invalidate_in_parent (this : ptr) (h : heap) : option heap :=
  t ← h !! this;
  match mParent t with
  | Some q =>
      h1 ← update this invalidate h;
      t1 ← h1 !! this;
      update q (invalidate_rect (bounds t1)) h1
  | None => Some h
  end.

Definition hide (this : ptr) (h : heap) : option heap :=
  h1 ← invalidate_in_parent this h;
  update this (set_mVisible false) h1.

(** [Surface::move(const Point&)] *)
Definition move_to (this : ptr) (pos : Point) (h : heap) : option (Z * heap) :=
  h1 ← invalidate_in_parent this h;
  h2 ← update this (set_mPos pos) h1;
  Some (0, h2).

(** [Surface::move(const Point&, int)] : the result of [moveLayer] is
    dropped. *)
Definition move_to_z (this : ptr) (pos : Point) (k : Z) (h : heap) : option (Z * heap) :=
  t ← h !! this;
  h2 ← match mParent t with
       | Some q =>
           h1 ← invalidate_in_parent this h;
           r ← moveLayer q this k h1;
           Some (snd r)
       | None => Some h
       end;
  h3 ← update this (set_mPos pos) h2;
  Some (0, h3).

Definition moveZ (this : ptr) (k : Z) (h : heap) : option (Z * heap) :=
  t ← h !! this;
  match mParent t with
  | Some q =>
      h1 ← update this invalidate h;
      moveLayer q this k h1
  | None => Some (- ENOLINK, h)
  end.

(** *** Resize and construction *)

(** [sizeof(Char)]: a [char] and three [uint8_t], without padding. *)
Definition sizeof_Char : Z := 4.

(** [PTRDIFF_MAX]: the size in bytes of the largest object. *)
Definition PTRDIFF_MAX : Z := 2 ^ 63 - 1.

(** [new Char[n]]: [n] default-constructed (blank) cells.  For an array
    larger than the largest object the expression throws
    [std::bad_array_new_length]: the function that evaluates it returns
    nothing, and the model has no result.  The expression also throws
    ([std::bad_alloc]) when the machine cannot provide the memory, which no
    size decides: a result of the model describes the call whose allocation
    has succeeded. *)
Definition new_Char_array (n : Z) : option (list Char) :=
  if n * sizeof_Char <=? PTRDIFF_MAX
  then Some (replicate (Z.to_nat n) blank)
  else None.

(** [Surface::resize].  The allocation comes first: when it throws, nothing
    has been changed.  An allocation that fails throws, so the [-ENOMEM]
    return of the source is never taken. *)
Definition resize (this : ptr) (w hh : Z) (h : heap) : option (Z * heap) :=
  d ← new_Char_array (to_size (w * hh));
  h1 ← update this (set_mData d) h;
  t ← h1 !! this;
  h2 ← match mParent t with
       | Some q => update q (invalidate_rect (bounds t)) h1
       | None => Some h1
       end;
  h3 ← update this (set_mBounds (Rect4 0 0 (to_ssize w) (to_ssize hh))) h2;
  r ← on_surface this (clear Rect0) h3;
  Some (0, snd r).

(** [Surface(width, height)] : a fresh object, then [resize].  The new
    surface lives at the first free address; the pair returned is the store
    and that address. *)
Definition new_Surface (w hh : Z) (h : heap) : option (heap * ptr) :=
  r ← resize (length h) w hh (h ++ [Surface0]);
  Some (snd r, length h).

(** *** Render *)

(** One hook invocation: [renderDone(dirty)] on the surface [hook_on]. *)
Record HookCall := mkHook { hook_on : ptr; hook_dirty : Rect }.

(** A child's dirty rectangle in its parent's coordinates. *)
Definition to_parent (d : Rect) (pos : Point) : Rect :=
  Rect4 (to_ssize (x (top d) + x pos)) (to_ssize (y (top d) + y pos))
        (to_ssize (x (bottom d) + x pos)) (to_ssize (y (bottom d) + y pos)).

(** A rectangle of the parent in a child's coordinates. *)
Definition to_child (r : Rect) (pos : Point) : Rect :=
  Rect4 (to_ssize (x (top r) - x pos)) (to_ssize (y (top r) - y pos))
        (to_ssize (x (bottom r) - x pos)) (to_ssize (y (bottom r) - y pos)).

(** Body of the first loop: fold a visible dirty child into [mDirty]. *)
Definition collect_dirty (this sf : ptr) (h : heap) : option heap :=
  c ← h !! sf;
  if mVisible c && valid (mDirty c)
  then update this (invalidate_rect (to_parent (mDirty c) (mPos c))) h
  else Some h.

(** Body of the second loop: blend a visible child, then mark it clean.
    The result of [blend] is dropped. *)
Definition blend_layer (this sf : ptr) (h : heap) : option heap :=
  c ← h !! sf;
  if mVisible c && valid (mBounds c) then
    t ← h !! this;
    let src_crop := intersect (mDirty t) (bounds c) in
    let pos := top src_crop in
    r ← blend this sf (to_child src_crop (mPos c)) pos h;
    update sf (set_mDirty Rect0) (snd r)
  else Some h.

(** The body of [render]; [up] stands for the recursive call
    [mParent->render()]. *)
Definition render_body (up : ptr -> heap -> option (heap * list HookCall))
  (this : ptr) (h : heap) : option (heap * list HookCall) :=
  t ← h !! this;
  let kids := layers (mLayerMap t) in
  h1 ← for_each kids (collect_dirty this) h;
  t1 ← h1 !! this;
  if negb (valid (mDirty t1)) then Some (h1, [])
  else
    h2 ← match mLayerMap t1 with
         | [] => Some h1
         | _ => r ← on_surface this (clear (mDirty t1)) h1; Some (snd r)
         end;
    h3 ← for_each kids (blend_layer this) h2;
    t3 ← h3 !! this;
    r ← match mParent t3 with
        | Some q => up q h3
        | None => Some (h3, [])
        end;
    t4 ← fst r !! this;
    h5 ← update this (set_mDirty Rect0) (fst r);
    Some (h5, snd r ++ [mkHook this (mDirty t4)]).

(** [render], the depth of the recursion towards the root bounded by
    [fuel]. *)
Fixpoint render (fuel : nat) : ptr -> heap -> option (heap * list HookCall) :=
  match fuel with
  | O => fun _ _ => None
  | S fuel' => render_body (render fuel')
  end.

(** The dirty rectangle [render] holds after its first loop. *)
Definition accumulated_dirty (this : ptr) (h : heap) : option Rect :=
  t ← h !! this;
  h1 ← for_each (layers (mLayerMap t)) (collect_dirty this) h;
  t1 ← h1 !! this;
  Some (mDirty t1).

(** *** Invariants of the data model *)

(** A valid dirty rectangle lies within the surface's own bounds. *)
Definition dirty_in_bounds (s : Surface) : Prop :=
  valid (mDirty s) = true -> covers (mBounds s) (mDirty s).

(** The same of every surface of the store. *)
Definition heap_dirty_ok (h : heap) : Prop :=
  forall p s, h !! p = Some s -> dirty_in_bounds s.

(** What no rendering step changes on a surface. *)
Definition shape_eq (s s' : Surface) : Prop :=
  mBounds s' = mBounds s /\ mPos s' = mPos s /\ mVisible s' = mVisible s /\
  mParent s' = mParent s /\ mLayerMap s' = mLayerMap s.

(** A step from [h] to [h'] that keeps every surface's shape and makes no
    surface other than [this] dirty. *)
Definition frame (this : ptr) (h h' : heap) : Prop :=
  length h' = length h /\
  forall q s s', h !! q = Some s -> h' !! q = Some s' ->
    shape_eq s s' /\
    (q <> this -> valid (mDirty s') = true -> valid (mDirty s) = true).

(** What a completed [render] on [this] guarantees of the store: shapes
    kept, no surface made dirty, and [this] itself clean. *)
Definition settled (this : ptr) (h h' : heap) : Prop :=
  length h' = length h /\
  forall q s s', h !! q = Some s -> h' !! q = Some s' ->
    shape_eq s s' /\
    (valid (mDirty s') = true -> valid (mDirty s) = true) /\
    (q = this -> valid (mDirty s') = false).

(** The store [h] with the dirty rectangle of [this] (whose record in [h]
    is [t]) replaced by [d]. *)
Definition with_dirty (this : ptr) (t : Surface) (d : Rect) (h : heap) : heap :=
  <[this := set_mDirty d t]> h.

(** The cell at column [cx], row [cy] of a row-major buffer [W] wide. *)
Definition cell_at (W : Z) (data : list Char) (cx cy : Z) : option Char :=
  data !! Z.to_nat (cy * W + cx).

(** The cells a pair of nested counted loops has visited when the outer
    counter is [yy] and the inner one [xx]: entire rows below [yy], and the
    first [xx] cells of row [yy]; [a], [b] are relative to the crop. *)
Definition visited (wid yy xx a b : Z) : Prop :=
  0 <= a < wid /\ 0 <= b /\ (b < yy \/ (b = yy /\ a < xx)).

(** A surface as [resize] leaves it: bounds anchored at the origin, of
    moderate extent, and a buffer of exactly that many cells. *)
Definition sized (W H : Z) (s : Surface) : Prop :=
  0 <= W < 2 ^ 31 /\ 0 <= H < 2 ^ 31 /\
  mBounds s = Rect4 0 0 W H /\ length (mData s) = Z.to_nat (W * H).

(** Coordinates far from the limits of [ssize_t]: translating them by one
    another does not wrap. *)
Definition small (z : Z) : Prop := - 2 ^ 62 <= z < 2 ^ 62.
Definition small_point (p : Point) : Prop := small (x p) /\ small (y p).
Definition small_rect (r : Rect) : Prop := small_point (top r) /\ small_point (bottom r).

(** *** Sequences of invalidations *)

Inductive InvCall : Type :=
  | InvAll
  | InvRect (r : Rect)
  | InvRange (start end_ : Z).

Definition run_call (c : InvCall) (s : Surface) : option Surface :=
  match c with
  | InvAll => Some (invalidate s)
  | InvRect r => Some (invalidate_rect r s)
  | InvRange a b => invalidate_range a b s
  end.

(** The region a call asks to invalidate. *)
Definition requested (c : InvCall) (s : Surface) : option Rect :=
  match c with
  | InvAll => Some (mBounds s)
  | InvRect r => Some r
  | InvRange a b => range_rect (mBounds s) a b
  end.

Definition run_calls (cs : list InvCall) (s : Surface) : option Surface :=
  for_each cs run_call s.

(** *** Scenarios *)

(** [Surface s(10, 10); s.resize(2, 2);] in an empty store. *)
Definition shrunk_surface : option heap :=
  r ← new_Surface 10 10 [];
  z ← resize (snd r) 2 2 (fst r);
  Some (snd z).

(** A clean 10 by 10 root (constructed, then rendered once) to which a
    freshly constructed 2 by 2 child is added at (20, 20), outside the
    root's bounds. *)
Definition offscreen_child_scene : option heap :=
  r ← new_Surface 10 10 [];
  r1 ← render 1 (snd r) (fst r);
  c ← new_Surface 2 2 (fst r1);
  a ← addLayer_at (snd r) (snd c) (mkPoint 20 20) 0 (fst c);
  Some (snd a).

(** [Char('b')] *)
Definition glyph_b : Char := Char1 98.

(** A transparent cell. *)
Definition glass : Char := mkChar 98 white black transparent.

(** The scenario of the 2 by 2 child as a program would first write it:
    [Surface root(10, 10), child(2, 2); child.fill(Char('b'));
    root.addLayer(&child, {2, 2}, 1);].  The root is at address 0, the
    child at address 1. *)
Definition fresh_root_scene : option heap :=
  r ← new_Surface 10 10 [];
  c ← new_Surface 2 2 (fst r);
  fc ← on_surface (snd c) (fill glyph_b Rect0) (fst c);
  a ← addLayer_at (snd r) (snd c) (mkPoint 2 2) 1 (snd fc);
  Some (snd a).

(** The same with a root that is clean when the child arrives: the root is
    filled with [pat] and rendered once before. *)
Definition clean_root_scene (pat : Char) : option heap :=
  r ← new_Surface 10 10 [];
  f ← on_surface (snd r) (fill pat Rect0) (fst r);
  r1 ← render 1 (snd r) (snd f);
  c ← new_Surface 2 2 (fst r1);
  fc ← on_surface (snd c) (fill glyph_b Rect0) (fst c);
  a ← addLayer_at (snd r) (snd c) (mkPoint 2 2) 1 (snd fc);
  Some (snd a).

(** A 10 by 10 root with a 2 by 2 child of ['b'] at (1, 1), rendered once:
    both clean. *)
Definition settled_scene : option heap :=
  r ← new_Surface 10 10 [];
  c ← new_Surface 2 2 (fst r);
  fc ← on_surface (snd c) (fill glyph_b Rect0) (fst c);
  a ← addLayer_at (snd r) (snd c) (mkPoint 1 1) 0 (snd fc);
  rd ← render 1 (snd r) (snd a);
  Some (fst rd).

(** Two detached surfaces: a 3 by 3 one of ['b'] at address 0 and a 2 by 2
    one of transparent cells at address 1. *)
Definition glass_scene : option heap :=
  r ← new_Surface 3 3 [];
  f ← on_surface (snd r) (fill glyph_b Rect0) (fst r);
  c ← new_Surface 2 2 (snd f);
  fc ← on_surface (snd c) (fill glass Rect0) (fst c);
  Some (snd fc).

(** The root and the child of [settled_scene], the child hidden before the
    rendering (which is called on the child): both clean, the child
    invisible. *)
Definition hidden_child_scene : option heap :=
  r ← new_Surface 10 10 [];
  c ← new_Surface 2 2 (fst r);
  fc ← on_surface (snd c) (fill glyph_b Rect0) (fst c);
  a ← addLayer_at (snd r) (snd c) (mkPoint 1 1) 0 (snd fc);
  hd ← hide (snd c) (snd a);
  rd ← render 2 (snd c) hd;
  Some (fst rd).

(** Three levels: a 20 by 20 root (address 0) holding a 10 by 10 surface
    (address 1) at (0, 0), which holds a 2 by 2 child of ['b'] (address 2)
    at (1, 1); rendered once from the child, all clean. *)
Definition nested_scene : option heap :=
  g ← new_Surface 20 20 [];
  p ← new_Surface 10 10 (fst g);
  c ← new_Surface 2 2 (fst p);
  fc ← on_surface (snd c) (fill glyph_b Rect0) (fst c);
  a ← addLayer_at (snd p) (snd c) (mkPoint 1 1) 0 (snd fc);
  b ← addLayer (snd g) (snd p) 0 (snd a);
  rd ← render 3 (snd c) (snd b);
  Some (fst rd).

(** A 10 by 10 root holding a child that [resize(0, 0)] emptied: the
    child keeps the dirty rectangle of its construction. *)
Definition stale_child_scene : option heap :=
  r ← new_Surface 10 10 [];
  c ← new_Surface 2 2 (fst r);
  a ← addLayer_at (snd r) (snd c) (mkPoint 1 1) 0 (fst c);
  z ← resize (snd c) 0 0 (snd a);
  Some (snd z).



(** The stores of these scenes, evaluated. *)
Definition clean_root_heap : heap :=
  Eval vm_compute in default [] (clean_root_scene blank).
Definition settled_heap : heap :=
  Eval vm_compute in default [] settled_scene.
Definition glass_heap : heap :=
  Eval vm_compute in default [] glass_scene.

(** *** Proof automation *)

(** Case analysis on the first step of a monadic sequence known to
    succeed. *)
Ltac bind_inv H :=
  match type of H with
  | (mbind _ ?m) = Some _ =>
      let E := fresh "E" in
      destruct m eqn:E; simpl in H; [|discriminate H]
  end.

(** *** Well-formed layer maps *)

(** The layer map as [std::map<int, std::set<Surface *>>] keeps it and the
    tree operations leave it: keys in increasing order, no empty layer, each
    layer in increasing address order, and no surface in two places. *)
Definition layer_map_wf (m : list (Z * list ptr)) : Prop :=
  StronglySorted Z.lt (map fst m) /\
  Forall (fun e => snd e <> [] /\ StronglySorted Nat.lt (snd e)) m /\
  NoDup (layers m).

(** The entry of key [k] in a layer map, if there is one. *)
Definition mid_entry (k : Z) (o : option (list ptr)) : list (Z * list ptr) :=
  match o with
  | Some l => [(k, l)]
  | None => []
  end.

(** *** Consistent trees *)

(** The parent pointers and the layer maps of a store agree: every layer
    map is well formed, a surface listed in a layer map is allocated and has
    the listing surface as parent, and a surface with a parent is allocated
    in that parent's layer map. *)
Definition tree_ok (h : heap) : Prop :=
  (forall p s, h !! p = Some s -> layer_map_wf (mLayerMap s)) /\
  (forall p s c, h !! p = Some s -> c ∈ layers (mLayerMap s) ->
     exists sc, h !! c = Some sc /\ mParent sc = Some p) /\
  (forall c sc p, h !! c = Some sc -> mParent sc = Some p ->
     exists s, h !! p = Some s /\ c ∈ layers (mLayerMap s)).

(** The effect of a step on the links of the tree: in [h'] the surface at
    [q] (whose record in [h] is [s]) has parent [par q s] and layer map
    [lm q s]. *)
Definition links_are (h h' : heap) (par : ptr -> Surface -> option ptr)
    (lm : ptr -> Surface -> list (Z * list ptr)) : Prop :=
  length h' = length h /\
  forall q s, h !! q = Some s ->
    exists s', h' !! q = Some s' /\ mParent s' = par q s /\ mLayerMap s' = lm q s.

(** A step that changes no parent pointer and no layer map. *)
Definition links_eq (h h' : heap) : Prop :=
  links_are h h' (fun _ s => mParent s) (fun _ s => mLayerMap s).

(** *** Buffers, and sequences of operations *)

(** [data()] holds exactly [size()] cells. *)
Definition buffer_ok (s : Surface) : Prop :=
  length (mData s) = Z.to_nat (size (mBounds s)).

(** The same of every surface of the store. *)
Definition heap_buffer_ok (h : heap) : Prop :=
  forall p s, h !! p = Some s -> buffer_ok s.

(** A step that reallocates no buffer and changes no bounds. *)
Definition buf_eq (h h' : heap) : Prop :=
  length h' = length h /\
  forall q s s', h !! q = Some s -> h' !! q = Some s' ->
    mBounds s' = mBounds s /\ length (mData s') = length (mData s).

(** The calls a program can make on the surfaces of a store: the
    constructor, the public member functions of [Surface] and a write
    through [data()]. *)
Inductive Op : Type :=
  | OpNew (w hh : Z)
  | OpResize (p : ptr) (w hh : Z)
  | OpInvalidate (p : ptr)
  | OpInvalidateRect (p : ptr) (r : Rect)
  | OpInvalidateRange (p : ptr) (start end_ : Z)
  | OpWrite (p : ptr) (i : Z) (c : Char)
  | OpFill (p : ptr) (pattern : Char) (crop : Rect)
  | OpClear (p : ptr) (crop : Rect)
  | OpBlend (this other : ptr) (src_crop : Rect) (pos : Point)
  | OpMove (p : ptr) (pos : Point)
  | OpMoveTo (p : ptr) (pos : Point) (k : Z)
  | OpMoveZ (p : ptr) (k : Z)
  | OpShow (p : ptr)
  | OpHide (p : ptr)
  | OpAddLayer (this sf : ptr) (k : Z)
  | OpAddLayerAt (this sf : ptr) (pos : Point) (k : Z)
  | OpRemoveLayer (this sf : ptr)
  | OpMoveLayer (this sf : ptr) (k : Z)
  | OpRender (fuel : nat) (p : ptr).

(** The store after one call, whatever the call returns. *)
Definition run_op (o : Op) (h : heap) : option heap :=
  match o with
  | OpNew w hh => fst <$> new_Surface w hh h
  | OpResize p w hh => snd <$> resize p w hh h
  | OpInvalidate p => update p invalidate h
  | OpInvalidateRect p r => update p (invalidate_rect r) h
  | OpInvalidateRange p a b =>
      s ← h !! p; s' ← invalidate_range a b s; Some (<[p := s']> h)
  | OpWrite p i c => write_cell p i c h
  | OpFill p pattern crop => snd <$> on_surface p (fill pattern crop) h
  | OpClear p crop => snd <$> on_surface p (clear crop) h
  | OpBlend this other src_crop pos => snd <$> blend this other src_crop pos h
  | OpMove p pos => snd <$> move_to p pos h
  | OpMoveTo p pos k => snd <$> move_to_z p pos k h
  | OpMoveZ p k => snd <$> moveZ p k h
  | OpShow p => show p h
  | OpHide p => hide p h
  | OpAddLayer this sf k => snd <$> addLayer this sf k h
  | OpAddLayerAt this sf pos k => snd <$> addLayer_at this sf pos k h
  | OpRemoveLayer this sf => snd <$> removeLayer this sf h
  | OpMoveLayer this sf k => snd <$> moveLayer this sf k h
  | OpRender fuel p => fst <$> render fuel p h
  end.

(** The store after a sequence of calls. *)
Definition run_ops (os : list Op) (h : heap) : option heap := for_each os run_op h.

(** The call is a [resize]. *)
Definition is_resize (o : Op) : bool :=
  match o with
  | OpResize _ _ _ => true
  | _ => false
  end.

(** *** What the layers show *)

(** The cell a layer contributes at the point (cx, cy) of its parent: the
    cell of its buffer placed there, when the layer is visible, not empty,
    covers the point and is not transparent at it. *)
Definition layer_cell (h : heap) (c : ptr) (cx cy : Z) : option Char :=
  sc ← h !! c;
  if mVisible sc && valid (mBounds sc) && insideb (bounds sc) (mkPoint cx cy) then
    ch ← cell_at (width (mBounds sc)) (mData sc) (cx - x (mPos sc)) (cy - y (mPos sc));
    if is_transparent ch then None else Some ch
  else None.

(** Painting the layers [kids] in order over the cell [init]. *)
Definition paint (h : heap) (kids : list ptr) (cx cy : Z) (init : option Char)
  : option Char :=
  fold_left (fun acc c => match layer_cell h c cx cy with
                          | Some ch => Some ch
                          | None => acc
                          end) kids init.

(** A layer as the compositor expects it: allocated, with a buffer of the
    size of its bounds and a position of moderate size. *)
Definition layer_ready (h : heap) (c : ptr) : Prop :=
  exists sc w hh, h !! c = Some sc /\ sized w hh sc /\
    - 2 ^ 31 <= x (mPos sc) < 2 ^ 31 /\ - 2 ^ 31 <= y (mPos sc) < 2 ^ 31.

(** What [layer_cell] reads of a surface. *)
Definition same_picture (s s' : Surface) : Prop :=
  mVisible s' = mVisible s /\ mBounds s' = mBounds s /\ mPos s' = mPos s /\
  mData s' = mData s.


(** ** The terminal screen ([screen.cpp]) *)

(** What the program inserts into [cout], one item per [<<]; an integer is
    written in decimal. *)
Inductive Out : Type :=
  | OutStr (s : String.string)
  | OutNum (n : Z)
  | OutChar (c : Z)
  | OutFlush.

(** A literal that starts with the escape character, ["\x1b..."]. *)
Definition esc (s : String.string) : String.string :=
  String.String (Ascii.ascii_of_nat 27) s.

(** The members [Screen] adds to its [Surface] base, which lives in the
    store at [scr_base].  [Screen::mBounds] hides the private
    [Surface::mBounds]. *)
Record Screen := mkScreen {
  scr_base : ptr;
  scr_mBounds : Rect;
  mCurrentAttr : Char;
  mCursorVisible : bool;
  mWinchFd : Z
}.

Definition set_mCurrentAttr (c : Char) (sc : Screen) : Screen :=
  mkScreen (scr_base sc) (scr_mBounds sc) c (mCursorVisible sc) (mWinchFd sc).

(** [isprint] in the C locale. *)
Definition isprint (v : Z) : bool := (32 <=? v) && (v <=? 126).

(** [ch.attr & flag] is non-zero. *)
Definition has_attr (ch : Char) (flag : Z) : bool := negb (Z.land (attr ch) flag =? 0).

(** [Screen::drawChar]: the screen after the call and the items written. *)
Definition drawChar (ch : Char) (sc : Screen) : Screen * list Out :=
  let cur := mCurrentAttr sc in
  let reset := negb (attr ch =? attr cur) || (val cur =? 0) in
  let o1 := if reset
            then [OutStr (esc "[0m"%string)]
                 ++ (if has_attr ch bold then [OutStr (esc "[1m"%string)] else [])
                 ++ (if has_attr ch underscore then [OutStr (esc "[4m"%string)] else [])
                 ++ (if has_attr ch blink then [OutStr (esc "[5m"%string)] else [])
                 ++ (if has_attr ch reverse then [OutStr (esc "[7m"%string)] else [])
            else [] in
  let fg_changed := reset || negb (fg ch =? fg cur) in
  let o2 := if fg_changed
            then [OutStr (esc "[38;5;"%string); OutNum (fg ch); OutStr "m"%string]
            else [] in
  let bg_changed := fg_changed || negb (bg ch =? bg cur) in
  let o3 := if bg_changed
            then [OutStr (esc "[48;5;"%string); OutNum (bg ch); OutStr "m"%string]
            else [] in
  (if bg_changed then set_mCurrentAttr ch sc else sc,
   o1 ++ o2 ++ o3 ++ [OutChar (if isprint (val ch) then val ch else 32)]).

(** The inner loop of [renderDone]: one row, the cells read at [offset++]. *)
Definition draw_row (buf : list Char) (n : nat) (x0 : Z)
    (st : Z * Screen * list Out) : option (Z * Screen * list Out) :=
  loop n x0 (fun _ st =>
    let '(off, sc, out) := st in
    ch ← buf_read buf off;
    let r := drawChar ch sc in
    Some (to_size (off + 1), fst r, out ++ snd r)) st.

(** [Screen::renderDone]; [buf] is [data()], the buffer of the base. *)
Definition Screen_renderDone (dirty : Rect) (buf : list Char) (sc : Screen)
  : option (Screen * list Out) :=
  let x0 := to_size (x (top dirty) + 1) in
  let y0 := to_size (y (top dirty) + 1) in
  let x_cnt := to_size (x0 + width dirty) in
  let y_cnt := to_size (y0 + height dirty) in
  let sc0 := set_mCurrentAttr (mkChar 0 0 0 0) sc in
  r ← loop (Z.to_nat (y_cnt - y0)) y0 (fun yy st =>
         let '(sc1, out) := st in
         let offset := index_for (scr_mBounds sc1)
                         (mkPoint (to_ssize (to_size (x0 - 1)))
                                  (to_ssize (to_size (yy - 1)))) in
         let out1 := out ++ [OutStr (esc "["%string); OutNum yy; OutStr ";"%string;
                             OutNum x0; OutStr "H"%string] in
         r ← draw_row buf (Z.to_nat (x_cnt - x0)) x0 (offset, sc1, out1);
         Some (snd (fst r), snd r)) (sc0, []);
  Some (fst r, snd r ++ [OutFlush]).

(** [Screen::clear]: the terminal is cleared and the whole base surface
    marked dirty. *)
Definition Screen_clear (sc : Screen) (h : heap) : option (heap * list Out) :=
  h1 ← update (scr_base sc) invalidate h;
  Some (h1, [OutStr (String.append (esc "[0m"%string)
                       (String.append (esc "[2J"%string) (esc "[1;1H"%string)));
             OutFlush]).

(** The characters among the items written. *)
Definition glyphs (out : list Out) : list Z :=
  flat_map (fun o => match o with OutChar c => [c] | _ => [] end) out.

(** The character shown for a cell. *)
Definition shown (ch : Char) : Z := if isprint (val ch) then val ch else 32.

(** The cells of row [yy], columns [tx] to [bx], of a buffer [W] wide. *)
Definition row_cells (W : Z) (buf : list Char) (tx bx yy : Z) : list Char :=
  take (Z.to_nat (bx - tx)) (drop (Z.to_nat (yy * W + tx)) buf).

(** Drawing a list of cells one after the other. *)
Fixpoint draw_cells (cells : list Char) (sc : Screen) : Screen * list Out :=
  match cells with
  | [] => (sc, [])
  | ch :: rest =>
      let r1 := drawChar ch sc in
      let r2 := draw_cells rest (fst r1) in
      (fst r2, snd r1 ++ snd r2)
  end.

(** The items that move the cursor to row [r], column [c]. *)
Definition goto (r c : Z) : list Out :=
  [OutStr (esc "["%string); OutNum r; OutStr ";"%string; OutNum c; OutStr "H"%string].

(** Drawing the rows [rows] of the columns [tx] to [bx]. *)
Fixpoint draw_rows (W : Z) (buf : list Char) (tx bx : Z) (rows : list Z) (sc : Screen)
  : Screen * list Out :=
  match rows with
  | [] => (sc, [])
  | yy :: rest =>
      let r1 := draw_cells (row_cells W buf tx bx yy) sc in
      let r2 := draw_rows W buf tx bx rest (fst r1) in
      (fst r2, goto (yy + 1) (tx + 1) ++ snd r1 ++ snd r2)
  end.

(** ** The keyboard ([keyboard.cpp], [conutils.h]) *)

(** Special keys. *)
Definition KEY_UNKNOWN : Z := 0.
Definition KEY_ESC : Z := 27.
Definition KEY_F1 : Z := 10000.
Definition KEY_F2 : Z := 10001.
Definition KEY_F3 : Z := 10002.
Definition KEY_F4 : Z := 10003.
Definition KEY_F5 : Z := 10004.
Definition KEY_F6 : Z := 10005.
Definition KEY_F7 : Z := 10006.
Definition KEY_F8 : Z := 10007.
Definition KEY_F9 : Z := 10008.
Definition KEY_F10 : Z := 10009.
Definition KEY_F11 : Z := 10010.
Definition KEY_F12 : Z := 10011.
Definition KEY_INS : Z := 10012.
Definition KEY_DEL : Z := 10013.
Definition KEY_HOME : Z := 10014.
Definition KEY_END : Z := 10015.
Definition KEY_PGUP : Z := 10016.
Definition KEY_PGDOWN : Z := 10017.
Definition KEY_UP : Z := 10018.
Definition KEY_DOWN : Z := 10019.
Definition KEY_LEFT : Z := 10020.
Definition KEY_RIGHT : Z := 10021.
Definition KEY_ESC_SEQ : Z := 10022.

(** Modification keys. *)
Definition MOD_META : Z := 1000.
Definition MOD_ALT : Z := 3000.

(** [errno.h] *)
Definition ETIMEDOUT : Z := 110.

(** The value of an [int] expression; signed overflow has no defined
    result. *)
Definition int_ok (z : Z) : option Z :=
  if (- 2 ^ 31 <=? z) && (z <? 2 ^ 31) then Some z else None.

(** [esc_seq_param]: [key] is a key of the table and [params.back()] at most
    8 where it is added, so the sum does not overflow. *)
Definition esc_seq_param (params : list Z) (key : Z) : Z :=
  match last params with
  | None => key
  | Some b => if (1 <=? b) && (b <=? 8) then key + b * MOD_META else KEY_UNKNOWN
  end.

(** The [switch] of the ['~'] entry. *)
Definition tilde_key (p0 : Z) : option Z :=
  if p0 =? 2 then Some KEY_INS
  else if p0 =? 3 then Some KEY_DEL
  else if p0 =? 5 then Some KEY_PGUP
  else if p0 =? 6 then Some KEY_PGDOWN
  else if p0 =? 15 then Some KEY_F5
  else if p0 =? 17 then Some KEY_F6
  else if p0 =? 18 then Some KEY_F7
  else if p0 =? 19 then Some KEY_F8
  else if p0 =? 20 then Some KEY_F9
  else if p0 =? 21 then Some KEY_F10
  else if p0 =? 23 then Some KEY_F11
  else if p0 =? 24 then Some KEY_F12
  else None.

(** The ['~'] entry of the xterm key map. *)
Definition xterm_tilde (params : list Z) : Z :=
  match params with
  | [] => KEY_UNKNOWN
  | p0 :: rest =>
      match tilde_key p0 with
      | None => KEY_UNKNOWN
      | Some key =>
          let key1 := match rest with
                      | [p1] => if (1 <=? p1) && (p1 <=? 8) then key + p1 * MOD_META
                                else key
                      | _ => key
                      end in
          if (2 <? length params)%nat then KEY_UNKNOWN else key1
      end
  end.

(** [xterm_keymap.map.find(c)]: the entries of the initializer list (the
    second ['H'] and ['F'] entries repeat the first). *)
Definition xterm_keymap (c : Z) : option (list Z -> Z) :=
  if c =? 126 then Some xterm_tilde
  else if c =? 65 then Some (fun params => esc_seq_param params KEY_UP)
  else if c =? 66 then Some (fun params => esc_seq_param params KEY_DOWN)
  else if c =? 67 then Some (fun params => esc_seq_param params KEY_RIGHT)
  else if c =? 68 then Some (fun params => esc_seq_param params KEY_LEFT)
  else if c =? 72 then Some (fun params => esc_seq_param params KEY_HOME)
  else if c =? 70 then Some (fun params => esc_seq_param params KEY_END)
  else if c =? 80 then Some (fun params => esc_seq_param params KEY_F1)
  else if c =? 81 then Some (fun params => esc_seq_param params KEY_F2)
  else if c =? 82 then Some (fun params => esc_seq_param params KEY_F3)
  else if c =? 83 then Some (fun params => esc_seq_param params KEY_F4)
  else None.

(** The terminal as the keyboard sees it: the results of the system calls
    the program makes on standard input, in the order it makes them. *)
Inductive Sys : Type :=
  | SysPoll (rc : Z)
  | SysRead (rc : Z) (byte : Z).

(** [poll(&mFds, 1, timeout_ms)] *)
Definition sys_poll (timeout_ms : Z) (w : list Sys) : option (Z * list Sys) :=
  match w with
  | SysPoll rc :: w' => Some (rc, w')
  | _ => None
  end.

(** [read(STDIN_FILENO, &key, 1)] into [int key = 0]: the byte read is the
    low byte of [key] (the targets are little-endian). *)
Definition sys_read (w : list Sys) : option (Z * Z * list Sys) :=
  match w with
  | SysRead rc b :: w' => Some (rc, if rc =? 1 then b else 0, w')
  | _ => None
  end.

(** [Keyboard::pollOnce] *)
Definition pollOnce (timeout_ms : Z) (w : list Sys) : option (Z * list Sys) :=
  p ← sys_poll timeout_ms w;
  let rc := fst p in
  if rc <? 0 then Some (rc, snd p)
  else if rc =? 0 then Some (- ETIMEDOUT, snd p)
  else
    r ← sys_read (snd p);
    let rc2 := fst (fst r) in
    let key := snd (fst r) in
    if rc2 <? 0 then Some (rc2, snd r)
    else if key =? KEY_ESC then
      q ← sys_poll 1 (snd r);
      if fst q <? 0 then Some (fst q, snd q)
      else if 0 <? fst q then Some (KEY_ESC_SEQ, snd q)
      else Some (key, snd q)
    else Some (key, snd r).

(** The loop of [Keyboard::parseEsc] and the look-up that follows it; every
    iteration consumes a result of the terminal, which bounds their number. *)
Fixpoint parseEsc_loop (fuel : nat) (p : Z) (params : list Z) (w : list Sys)
  : option (Z * list Sys) :=
  match fuel with
  | O => None
  | S fuel' =>
      r ← pollOnce (-1) w;
      let key := fst r in
      if key <? 0 then Some (key, snd r)
      else if (48 <=? key) && (key <=? 57) then
        p' ← int_ok (if p =? 0 then key - 48 else p * 10 + (key - 48));
        parseEsc_loop fuel' p' params (snd r)
      else if key =? 59 then parseEsc_loop fuel' 0 (params ++ [p]) (snd r)
      else
        let params' := if p =? 0 then params else params ++ [p] in
        Some (match xterm_keymap (key mod 256) with
              | Some f => f params'
              | None => KEY_UNKNOWN
              end, snd r)
  end.

(** [Keyboard::parseEsc] *)
Definition parseEsc (w : list Sys) : option (Z * list Sys) :=
  parseEsc_loop (S (length w)) 0 [] w.

(** [Keyboard::waitForKey] *)
Definition waitForKey (timeout_ms : Z) (w : list Sys) : option (Z * list Sys) :=
  r ← pollOnce timeout_ms w;
  let key := fst r in
  if negb (key =? KEY_ESC_SEQ) || (key <? 0) then Some (key, snd r)
  else
    r2 ← pollOnce (-1) (snd r);
    let key2 := fst r2 in
    if key2 <? 0 then Some (key2, snd r2)
    else if (key2 =? 91) || (key2 =? 79) then parseEsc (snd r2)
    else Some (key2 + MOD_ALT, snd r2).

(** What the terminal answers when the bytes of one key press arrive
    together: every byte is ready when polled and read at once, and the
    poll that follows an escape byte finds the next byte, if there is one. *)
Fixpoint burst (bytes : list Z) : list Sys :=
  match bytes with
  | [] => []
  | b :: rest =>
      SysPoll 1 :: SysRead 1 b ::
      (if b =? KEY_ESC then [SysPoll (match rest with [] => 0 | _ => 1 end)] else [])
      ++ burst rest
  end.

(** The decimal digits of [n], as bytes; [fuel] bounds their number. *)
Fixpoint dec_digits (fuel : nat) (n : Z) : list Z :=
  match fuel with
  | O => []
  | S fuel' => if n <? 10 then [48 + n]
               else dec_digits fuel' (n / 10) ++ [48 + n mod 10]
  end.

(** [n] in decimal; an [int] has at most ten digits. *)
Definition decimal (n : Z) : list Z := dec_digits 10 n.

(** The parameters of an escape sequence as the terminal sends them:
    in decimal, separated by [';']. *)
Fixpoint encode_params (params : list Z) : list Z :=
  match params with
  | [] => []
  | [p] => decimal p
  | p :: rest => decimal p ++ [59] ++ encode_params rest
  end.

(** The letters of the xterm key map and their keys. *)
Definition xterm_letters : list (Z * Z) :=
  [(65, KEY_UP); (66, KEY_DOWN); (67, KEY_RIGHT); (68, KEY_LEFT); (72, KEY_HOME);
   (70, KEY_END); (80, KEY_F1); (81, KEY_F2); (82, KEY_F3); (83, KEY_F4)].

(** The number a list of decimal digits stands for, after the digits read
    so far gave [p]. *)
Definition digits_val (ds : list Z) (p : Z) : Z := fold_left (fun a d => a * 10 + d) ds p.

(** What [parseEsc] returns for the final byte [c] after the parameters
    [params]. *)
Definition key_of (c : Z) (params : list Z) : Z :=
  match xterm_keymap c with
  | Some f => f params
  | None => KEY_UNKNOWN
  end.

(** A byte that ends the parameters of an escape sequence: no digit, no
    [';'], and not the escape character. *)
Definition final_byte (c : Z) : Prop :=
  0 <= c < 256 /\ c <> KEY_ESC /\ c <> 59 /\ ~ (48 <= c <= 57).

(** [k] is the code of a failure among the results [w]: a time-out of
    [poll], or a negative result of [poll] or [read]. *)
Definition terminal_error (k : Z) (w : list Sys) : Prop :=
  (k = - ETIMEDOUT /\ In (SysPoll 0) w) \/
  (k < 0 /\ (In (SysPoll k) w \/ exists b, In (SysRead k b) w)).

(** Every byte read is a byte. *)
Definition bytes_ok (w : list Sys) : Prop :=
  Forall (fun s => match s with SysRead _ b => 0 <= b < 256 | SysPoll _ => True end) w.

(** *** A further scenario *)

(** The store of [hidden_child_scene], evaluated. *)
Definition hidden_child_heap : heap :=
  Eval vm_compute in default [] hidden_child_scene.

(** *** A scene with two layers *)

(** A 10 by 10 root (address 0) with two layers, rendered once: a 2 by 2
    child of ['b'] at (1, 1) in layer 0 (address 1) and a 3 by 3 child of
    blanks at (4, 4) in layer 1 (address 2); all clean. *)
Definition two_layers_scene : option heap :=
  r ← new_Surface 10 10 [];
  c ← new_Surface 2 2 (fst r);
  fc ← on_surface (snd c) (fill glyph_b Rect0) (fst c);
  a ← addLayer_at (snd r) (snd c) (mkPoint 1 1) 0 (snd fc);
  e ← new_Surface 3 3 (snd a);
  b ← addLayer_at (snd r) (snd e) (mkPoint 4 4) 1 (fst e);
  rd ← render 1 (snd r) (snd b);
  Some (fst rd).

Definition two_layers_heap : heap :=
  Eval vm_compute in default [] two_layers_scene.

(** * Properties *)

(** ** Geometry: basic facts *)

Lemma valid_spec r :
  valid r = true <-> x (top r) < x (bottom r) /\ y (top r) < y (bottom r).
Proof. unfold valid. rewrite andb_true_iff, !Z.ltb_lt. tauto. Qed.

Lemma valid_false_spec r :
  valid r = false <-> x (bottom r) <= x (top r) \/ y (bottom r) <= y (top r).
Proof. unfold valid. rewrite andb_false_iff, !Z.ltb_ge. tauto. Qed.

Lemma inside_valid r p : inside r p -> valid r = true.
Proof. unfold inside. rewrite valid_spec. lia. Qed.

Lemma valid_inside_top r : valid r = true -> inside r (top r).
Proof. rewrite valid_spec. unfold inside. lia. Qed.

Lemma invalid_no_cell r p : valid r = false -> ~ inside r p.
Proof. intros Hv Hp. apply inside_valid in Hp. congruence. Qed.

Lemma covers_refl r : covers r r.
Proof. intros p Hp. exact Hp. Qed.

Lemma covers_trans a b c : covers a b -> covers b c -> covers a c.
Proof. intros Hab Hbc p Hp. apply Hab, Hbc, Hp. Qed.

Lemma covers_invalid outer inner : valid inner = false -> covers outer inner.
Proof. intros Hv p Hp. destruct (invalid_no_cell _ _ Hv Hp). Qed.

Lemma encloses_covers outer inner : encloses outer inner -> covers outer inner.
Proof. unfold encloses, covers, inside. intros H p Hp. lia. Qed.

Lemma covers_encloses outer inner :
  valid inner = true -> covers outer inner -> encloses outer inner.
Proof.
  intros Hv Hc. apply valid_spec in Hv.
  pose proof (Hc (top inner)) as Ht.
  pose proof (Hc (mkPoint (x (bottom inner) - 1) (y (bottom inner) - 1))) as Hb.
  unfold inside, encloses in *. simpl in *. lia.
Qed.

Lemma intersect_inside r1 r2 p :
  inside (intersect r1 r2) p <-> inside r1 p /\ inside r2 p.
Proof. unfold inside, intersect. simpl. lia. Qed.

Lemma intersect_valid_l r1 r2 : valid (intersect r1 r2) = true -> valid r1 = true.
Proof. rewrite !valid_spec. unfold intersect. simpl. lia. Qed.

Lemma intersect_valid_r r1 r2 : valid (intersect r1 r2) = true -> valid r2 = true.
Proof. rewrite !valid_spec. unfold intersect. simpl. lia. Qed.

Lemma intersect_enclosed_l r1 r2 : encloses r1 (intersect r1 r2).
Proof. unfold encloses, intersect. simpl. lia. Qed.

Lemma intersect_enclosed_r r1 r2 : encloses r2 (intersect r1 r2).
Proof. unfold encloses, intersect. simpl. lia. Qed.

Lemma boundingRect_encloses_l r1 r2 : encloses (boundingRect r1 r2) r1.
Proof. unfold encloses, boundingRect. simpl. lia. Qed.

Lemma boundingRect_encloses_r r1 r2 : encloses (boundingRect r1 r2) r2.
Proof. unfold encloses, boundingRect. simpl. lia. Qed.

Lemma boundingRect_valid_l r1 r2 :
  valid r1 = true -> valid (boundingRect r1 r2) = true.
Proof. rewrite !valid_spec. unfold boundingRect. simpl. lia. Qed.

Lemma boundingRect_valid_r r1 r2 :
  valid r2 = true -> valid (boundingRect r1 r2) = true.
Proof. rewrite !valid_spec. unfold boundingRect. simpl. lia. Qed.

Lemma boundingRect_enclosed b r1 r2 :
  encloses b r1 -> encloses b r2 -> encloses b (boundingRect r1 r2).
Proof. unfold encloses, boundingRect. simpl. lia. Qed.

(** C8. For all rectangles [r1] and [r2]: [intersect r1 r2] is valid exactly
    when [r1] and [r2] overlap (both valid, and a cell in common);
    [boundingRect r1 r2] contains every cell of [r1] and of [r2] (and
    encloses both componentwise), and is valid as soon as one of them is. *)
Theorem intersect_boundingRect_geometry (r1 r2 : Rect) :
  (valid (intersect r1 r2) = true <-> overlap r1 r2) /\
  covers (boundingRect r1 r2) r1 /\ covers (boundingRect r1 r2) r2 /\
  encloses (boundingRect r1 r2) r1 /\ encloses (boundingRect r1 r2) r2 /\
  (valid r1 = true \/ valid r2 = true -> valid (boundingRect r1 r2) = true).
Proof.
  split; [split|].
  - intros Hv. split; [|split].
    + eapply intersect_valid_l; eassumption.
    + eapply intersect_valid_r; eassumption.
    + exists (top (intersect r1 r2)).
      apply intersect_inside, valid_inside_top, Hv.
  - intros (_ & _ & p & H1 & H2).
    apply (inside_valid _ p), intersect_inside. split; assumption.
  - split; [|split; [|split; [|split]]].
    + apply encloses_covers, boundingRect_encloses_l.
    + apply encloses_covers, boundingRect_encloses_r.
    + apply boundingRect_encloses_l.
    + apply boundingRect_encloses_r.
    + intros [H|H]; [apply boundingRect_valid_l | apply boundingRect_valid_r]; exact H.
Qed.

(** ** Machine integers *)

Lemma to_size_small z : 0 <= z < 2 ^ 64 -> to_size z = z.
Proof. intros H. unfold to_size. apply Z.mod_small, H. Qed.

Lemma to_ssize_small z : - 2 ^ 63 <= z < 2 ^ 63 -> to_ssize z = z.
Proof. intros H. unfold to_ssize. rewrite Z.mod_small; lia. Qed.

Lemma to_size_range z : 0 <= to_size z < 2 ^ 64.
Proof. unfold to_size. apply Z.mod_pos_bound. lia. Qed.

(** ** The store *)

Lemma update_Some p f (h h' : heap) :
  update p f h = Some h' <-> exists s, h !! p = Some s /\ h' = <[p := f s]> h.
Proof.
  unfold update. destruct (h !! p) as [s|]; simpl; split.
  - intros [= <-]. eauto.
  - intros (s' & [= <-] & ->). reflexivity.
  - discriminate.
  - intros (s' & Hs & _). discriminate.
Qed.

Lemma update_lookup p f (h : heap) s :
  h !! p = Some s -> update p f h = Some (<[p := f s]> h).
Proof. intros Hs. unfold update. rewrite Hs. reflexivity. Qed.

Lemma heap_lookup_insert (h : heap) p q s s0 :
  h !! p = Some s0 ->
  <[p := s]> h !! q = if decide (p = q) then Some s else h !! q.
Proof.
  intros Hp. apply lookup_lt_Some in Hp.
  rewrite list_lookup_insert. destruct (decide (p = q)) as [->|Hne].
  - rewrite decide_True; [reflexivity | split; [reflexivity | exact Hp]].
  - rewrite decide_False; [reflexivity | intros [? _]; contradiction].
Qed.

Lemma heap_insert_same (h : heap) p s : h !! p = Some s -> <[p := s]> h = h.
Proof. apply list_insert_id. Qed.

Lemma on_surface_Some {A} p (f : Surface -> option (A * Surface)) (h : heap) a h' :
  on_surface p f h = Some (a, h') <->
  exists s s', h !! p = Some s /\ f s = Some (a, s') /\ h' = <[p := s']> h.
Proof.
  unfold on_surface. destruct (h !! p) as [s|]; simpl.
  - destruct (f s) as [[a' s']|] eqn:E; simpl.
    + split.
      * intros [= <- <-]. eauto.
      * intros (s1 & s2 & [= <-] & Hf & ->). rewrite E in Hf.
        injection Hf as <- <-. reflexivity.
    + split; [discriminate|].
      intros (s1 & s2 & [= <-] & Hf & _). congruence.
  - split; [discriminate | intros (s1 & s2 & Hs & _); discriminate].
Qed.

(** ** Loops *)

Lemma loop_fixed {St} (body : Z -> St -> option St) (s0 : St) :
  (forall i s', body i s0 = Some s' -> s' = s0) ->
  forall n i s', loop n i body s0 = Some s' -> s' = s0.
Proof.
  intros Hb n. induction n as [|n IH]; intros i s'; simpl.
  - intros [= <-]. reflexivity.
  - destruct (body i s0) as [s1|] eqn:E; [|discriminate].
    apply Hb in E. subst s1. apply IH.
Qed.

Lemma for_fixed {St} (body : Z -> St -> option St) (s0 : St) n s' :
  (forall i s', body i s0 = Some s' -> s' = s0) ->
  for_ n body s0 = Some s' -> s' = s0.
Proof. intros Hb. unfold for_. apply loop_fixed, Hb. Qed.

(** ** Tree operations: rejecting a second attachment *)

(** C7. [addLayer(sf, Z)] and [addLayer(sf, pos, Z)], called with a surface
    [sf] that already has a parent, fail (the code's return for the
    specification's AlreadyAttached condition is [-EINVAL]) and leave the
    whole store as it was: the target's layer map and dirty rectangle and
    [sf]'s parent, position and layer are those of before the call. *)
Theorem addLayer_already_attached (this sf : ptr) (pos : Point) (k : Z) (h : heap)
    (c : Surface) (q : ptr) :
  h !! sf = Some c ->
  mParent c = Some q ->
  addLayer this sf k h = Some (- EINVAL, h) /\
  addLayer_at this sf pos k h = Some (- EINVAL, h) /\
  - EINVAL < 0.
Proof.
  intros Hc Hq. unfold addLayer, addLayer_at. rewrite Hc. simpl. rewrite Hq.
  repeat split.
Qed.

(** ** Moving a surface *)

Lemma invalidate_in_parent_detached this (h : heap) t :
  h !! this = Some t -> mParent t = None -> invalidate_in_parent this h = Some h.
Proof. intros Ht Hp. unfold invalidate_in_parent. rewrite Ht. simpl. rewrite Hp. reflexivity. Qed.

Lemma invalidate_in_parent_total this (h : heap) t :
  h !! this = Some t ->
  (forall q, mParent t = Some q -> is_Some (h !! q)) ->
  exists h1, invalidate_in_parent this h = Some h1 /\
             exists t1, h1 !! this = Some t1.
Proof.
  intros Ht Hq. unfold invalidate_in_parent. rewrite Ht. simpl.
  destruct (mParent t) as [q|] eqn:Hp.
  - destruct (Hq q eq_refl) as [sq Hsq].
    rewrite (update_lookup _ _ _ _ Ht). simpl.
    rewrite (heap_lookup_insert _ _ this _ _ Ht), decide_True by reflexivity. simpl.
    assert (Hq' : exists sq', <[this := invalidate t]> h !! q = Some sq').
    { rewrite (heap_lookup_insert _ _ q _ _ Ht). destruct (decide (this = q)); eauto. }
    destruct Hq' as [sq' Hsq'].
    rewrite (update_lookup _ _ _ _ Hsq').
    eexists. split; [reflexivity|].
    rewrite (heap_lookup_insert _ _ this _ _ Hsq').
    destruct (decide (q = this)); [eauto|].
    rewrite (heap_lookup_insert _ _ this _ _ Ht), decide_True by reflexivity. eauto.
  - eauto.
Qed.

(** C10. [move(pos)] returns 0 on every surface, attached or not (the
    surface and its parent, if any, being live objects), and the surface is
    then at [pos].  On a detached surface the only effect is the new
    position: bounds, dirty rectangle, visibility, parent, buffer and layers
    of the surface are those of before the call, and so is every other
    surface of the store. *)
Theorem move_to_returns_zero (this : ptr) (pos : Point) (h : heap) (t : Surface) :
  h !! this = Some t ->
  (forall q, mParent t = Some q -> is_Some (h !! q)) ->
  exists h' t', move_to this pos h = Some (0, h') /\
    h' !! this = Some t' /\ mPos t' = pos /\
    (mParent t = None ->
       h' = <[this := set_mPos pos t]> h /\
       mBounds t' = mBounds t /\ mDirty t' = mDirty t /\ mVisible t' = mVisible t /\
       mParent t' = None /\ mData t' = mData t /\ mLayerMap t' = mLayerMap t /\
       length h' = length h /\ forall q, q <> this -> h' !! q = h !! q).
Proof.
  intros Ht Hq. unfold move_to.
  destruct (invalidate_in_parent_total _ _ _ Ht Hq) as (h1 & Hh1 & t1 & Ht1).
  rewrite Hh1. simpl. rewrite (update_lookup _ _ _ _ Ht1). simpl.
  exists (<[this := set_mPos pos t1]> h1), (set_mPos pos t1).
  split; [reflexivity|].
  split; [apply list_lookup_insert_eq; apply lookup_lt_Some in Ht1; exact Ht1|].
  split; [reflexivity|].
  intros Hp. rewrite (invalidate_in_parent_detached _ _ _ Ht Hp) in Hh1.
  injection Hh1 as <-. rewrite Ht in Ht1. injection Ht1 as <-.
  split; [reflexivity|]. repeat (split; [reflexivity|]).
  split; [exact Hp|]. repeat (split; [reflexivity|]).
  split; [apply length_insert|].
  intros q Hne. apply list_lookup_insert_ne. congruence.
Qed.

(** ** Invalidation *)

Lemma invalidate_rect_mBounds r s : mBounds (invalidate_rect r s) = mBounds s.
Proof. unfold invalidate_rect. destruct (valid (mDirty s)); reflexivity. Qed.

Lemma invalidate_rect_mData r s : mData (invalidate_rect r s) = mData s.
Proof. unfold invalidate_rect. destruct (valid (mDirty s)); reflexivity. Qed.

Lemma invalidate_rect_mDirty r s :
  mDirty (invalidate_rect r s) =
  if valid (mDirty s) then boundingRect (mDirty s) (intersect (mBounds s) r)
  else intersect (mBounds s) r.
Proof. unfold invalidate_rect. destruct (valid (mDirty s)); reflexivity. Qed.

Lemma invalidate_rect_stays_valid r s :
  valid (mDirty s) = true -> valid (mDirty (invalidate_rect r s)) = true.
Proof.
  intros Hv. rewrite invalidate_rect_mDirty, Hv. apply boundingRect_valid_l, Hv.
Qed.

(** The dirty rectangle after [invalidate(bounds)] contains the clipped
    request and, when there was one, the previous dirty rectangle. *)
Lemma invalidate_rect_grows r s :
  covers (mDirty (invalidate_rect r s)) (intersect (mBounds s) r) /\
  (valid (mDirty s) = true -> covers (mDirty (invalidate_rect r s)) (mDirty s)).
Proof.
  rewrite invalidate_rect_mDirty. destruct (valid (mDirty s)) eqn:Hv.
  - split; [|intros _]; apply encloses_covers.
    + apply boundingRect_encloses_r.
    + apply boundingRect_encloses_l.
  - split; [apply covers_refl | discriminate].
Qed.

Lemma invalidate_dirty_in_bounds s : dirty_in_bounds (invalidate s).
Proof. intros _. apply covers_refl. Qed.

Lemma invalidate_rect_dirty_in_bounds r s :
  dirty_in_bounds s -> dirty_in_bounds (invalidate_rect r s).
Proof.
  unfold dirty_in_bounds. intros Hs _.
  rewrite invalidate_rect_mBounds, invalidate_rect_mDirty.
  apply encloses_covers. destruct (valid (mDirty s)) eqn:Hv.
  - apply boundingRect_enclosed.
    + apply covers_encloses; [exact Hv | apply Hs; reflexivity].
    + apply intersect_enclosed_l.
  - apply intersect_enclosed_l.
Qed.

Lemma run_call_mBounds c s s' : run_call c s = Some s' -> mBounds s' = mBounds s.
Proof.
  destruct c as [|r|a b]; simpl.
  - intros [= <-]. reflexivity.
  - intros [= <-]. apply invalidate_rect_mBounds.
  - unfold invalidate_range. destruct (range_rect (mBounds s) a b); simpl; [|discriminate].
    intros [= <-]. apply invalidate_rect_mBounds.
Qed.

Lemma run_call_dirty_in_bounds c s s' :
  dirty_in_bounds s -> run_call c s = Some s' -> dirty_in_bounds s'.
Proof.
  intros Hs. destruct c as [|r|a b]; simpl.
  - intros [= <-]. apply invalidate_dirty_in_bounds.
  - intros [= <-]. apply invalidate_rect_dirty_in_bounds, Hs.
  - unfold invalidate_range. destruct (range_rect (mBounds s) a b); simpl; [|discriminate].
    intros [= <-]. apply invalidate_rect_dirty_in_bounds, Hs.
Qed.

(** One call, on a surface whose dirty rectangle respects the bounds: the
    rectangle returned contains the clipped request and the previous valid
    dirty rectangle. *)
Lemma run_call_grows c s s' :
  dirty_in_bounds s -> run_call c s = Some s' ->
  (forall r, requested c s = Some r -> covers (mDirty s') (intersect (mBounds s) r)) /\
  (valid (mDirty s) = true -> covers (mDirty s') (mDirty s)).
Proof.
  intros Hs. destruct c as [|r|a b]; simpl.
  - intros [= <-]. split.
    + intros r [= <-]. intros p Hp. apply intersect_inside in Hp. apply Hp.
    + exact Hs.
  - intros [= <-]. split.
    + intros r' [= <-]. apply invalidate_rect_grows.
    + apply invalidate_rect_grows.
  - unfold invalidate_range. destruct (range_rect (mBounds s) a b) as [d|]; simpl; [|discriminate].
    intros [= <-]. split.
    + intros r' [= <-]. apply invalidate_rect_grows.
    + apply invalidate_rect_grows.
Qed.

(** Any sequence of invalidations, from a surface whose dirty rectangle
    respects the bounds: the final dirty rectangle contains every clipped
    request of the sequence and the initial valid dirty rectangle; whatever
    was valid stays valid. *)
Lemma run_calls_grow cs : forall s s',
  dirty_in_bounds s -> run_calls cs s = Some s' ->
  dirty_in_bounds s' /\ mBounds s' = mBounds s /\
  (valid (mDirty s) = true ->
     valid (mDirty s') = true /\ covers (mDirty s') (mDirty s)) /\
  (forall pre c post r s1,
     cs = pre ++ c :: post -> run_calls pre s = Some s1 ->
     requested c s1 = Some r ->
     covers (mDirty s') (intersect (mBounds s) r)).
Proof.
  unfold run_calls. induction cs as [|c cs IH]; intros s s' Hs; simpl.
  - intros [= <-]. split; [exact Hs|]. split; [reflexivity|]. split.
    + intros Hv. split; [exact Hv | apply covers_refl].
    + intros [|? ?] ? ? ? ? Hcs; discriminate.
  - destruct (run_call c s) as [s1|] eqn:Hc; [|discriminate]. intros Hrest.
    pose proof (run_call_dirty_in_bounds _ _ _ Hs Hc) as Hs1.
    pose proof (run_call_mBounds _ _ _ Hc) as Hb1.
    destruct (run_call_grows _ _ _ Hs Hc) as [Hreq Hold].
    destruct (IH _ _ Hs1 Hrest) as (Hs' & Hb' & Hkeep & Hall).
    assert (Hstay : valid (mDirty s) = true -> valid (mDirty s1) = true).
    { intros Hv. destruct c as [|r|a b]; simpl in Hc.
      - injection Hc as <-. simpl. apply (inside_valid _ (top (mDirty s))).
        apply Hs; [exact Hv | apply valid_inside_top, Hv].
      - injection Hc as <-. apply invalidate_rect_stays_valid, Hv.
      - unfold invalidate_range in Hc.
        destruct (range_rect (mBounds s) a b); simpl in Hc; [|discriminate].
        injection Hc as <-. apply invalidate_rect_stays_valid, Hv. }
    split; [exact Hs'|]. split; [congruence|]. split.
    + intros Hv. destruct (Hkeep (Hstay Hv)) as [Hv' Hcov]. split; [exact Hv'|].
      eapply covers_trans; [exact Hcov | apply Hold, Hv].
    + intros pre c0 post r s2 Hcs Hpre Hr.
      destruct pre as [|c1 pre]; simpl in *.
      * injection Hcs as <- <-. injection Hpre as <-.
        specialize (Hreq _ Hr).
        destruct (valid (intersect (mBounds s) r)) eqn:Hvr;
          [|apply covers_invalid, Hvr].
        assert (Hv1 : valid (mDirty s1) = true).
        { apply (inside_valid _ (top (intersect (mBounds s) r))).
          apply Hreq, valid_inside_top, Hvr. }
        eapply covers_trans; [apply Hkeep, Hv1 | exact Hreq].
      * injection Hcs as <- ->. rewrite Hc in Hpre.
        rewrite <- Hb1. eapply Hall; [reflexivity | exact Hpre | exact Hr].
Qed.

(** C3 (the code at the failing input).  After [Surface s(10, 10);
    s.resize(2, 2);] the surface has bounds (0,0,2,2) and the stale valid
    dirty rectangle (0,0,10,10); [invalidate()] then returns (0,0,2,2),
    which does not contain the previous dirty rectangle. *)
Theorem invalidate_after_resize_shrinks :
  exists s, shrunk_surface = Some [s] /\
    mBounds s = Rect4 0 0 2 2 /\
    mDirty s = Rect4 0 0 10 10 /\ valid (mDirty s) = true /\
    run_call InvAll s = Some (invalidate s) /\
    mDirty (invalidate s) = Rect4 0 0 2 2 /\
    ~ covers (mDirty (invalidate s)) (mDirty s).
Proof.
  eexists. split; [vm_compute; reflexivity|]. simpl.
  repeat split. intros Hc.
  specialize (Hc (mkPoint 5 5)). unfold inside in Hc. simpl in Hc. lia.
Qed.

(** C4 (the code at the failing input).  A freshly constructed 10 by 10
    surface satisfies the invariant (its dirty rectangle is its bounds);
    [resize(2, 2)] returns 0 and leaves bounds (0,0,2,2) with the valid
    dirty rectangle (0,0,10,10), which is not contained in the bounds. *)
Theorem resize_breaks_dirty_in_bounds :
  exists s s',
    new_Surface 10 10 [] = Some ([s], 0%nat) /\ dirty_in_bounds s /\
    resize 0 2 2 [s] = Some (0, [s']) /\
    mBounds s' = Rect4 0 0 2 2 /\ mDirty s' = Rect4 0 0 10 10 /\
    valid (mDirty s') = true /\ ~ dirty_in_bounds s'.
Proof.
  eexists. eexists. split; [vm_compute; reflexivity|].
  split; [intros _; apply covers_refl|].
  split; [vm_compute; reflexivity|]. simpl.
  repeat split. intros Hinv.
  specialize (Hinv eq_refl (mkPoint 5 5)). unfold inside in Hinv. simpl in Hinv. lia.
Qed.

(** ** Blend *)

Lemma blend_cell_transparent this other tb ob s_crop d_crop xx yy (h : heap) o h' :
  h !! other = Some o ->
  Forall (fun ch => is_transparent ch = true) (mData o) ->
  blend_cell this other tb ob s_crop d_crop xx yy h = Some h' -> h' = h.
Proof.
  intros Ho Hall. unfold blend_cell, read_cell. rewrite Ho. simpl.
  unfold buf_read.
  destruct (mData o !! _) as [ch|] eqn:Hch; simpl; [|discriminate].
  rewrite (Forall_lookup_1 _ _ _ _ Hall Hch). simpl. intros [= <-]. reflexivity.
Qed.

(** C6. Blending a source all of whose cells are transparent: whenever
    [blend] returns, no cell of any buffer of the store has changed; when it
    returns 0, the only change to the store is that the destination crop has
    been invalidated on the destination. *)
Theorem blend_transparent_source (this other : ptr) (src_crop : Rect) (pos : Point)
    (h h' : heap) (o : Surface) (rc : Z) :
  h !! other = Some o ->
  Forall (fun ch => is_transparent ch = true) (mData o) ->
  blend this other src_crop pos h = Some (rc, h') ->
  exists t, h !! this = Some t /\
    let d_crop := intersect (mBounds t) (move (intersect (mBounds o) src_crop) pos) in
    (rc = 0 -> valid d_crop = true /\ h' = <[this := invalidate_rect d_crop t]> h) /\
    (rc <> 0 -> h' = h) /\
    (forall p s, h !! p = Some s -> exists s', h' !! p = Some s' /\ mData s' = mData s).
Proof.
  intros Ho Hall. unfold blend. destruct (h !! this) as [t|] eqn:Ht; simpl; [|discriminate].
  rewrite Ho. simpl. intros Hb. exists t. split; [reflexivity|].
  destruct (negb (valid (intersect (mBounds o) src_crop)) ||
            negb (valid (intersect (mBounds t) (move (intersect (mBounds o) src_crop) pos))))
    eqn:Hcrop.
  - injection Hb as <- <-. split; [|split].
    + unfold EINVAL. lia.
    + reflexivity.
    + intros p s Hs. eauto.
  - apply orb_false_iff in Hcrop as [_ Hd]. apply negb_false_iff in Hd.
    destruct (for_ _ _ h) as [h1|] eqn:Hloop; simpl in Hb; [|discriminate Hb].
    assert (h1 = h) as ->.
    { eapply for_fixed; [|exact Hloop]. intros yy g Hin. cbv beta in Hin.
      eapply for_fixed; [|exact Hin]. intros xx g' Hcell. cbv beta in Hcell.
      eapply blend_cell_transparent; [exact Ho | exact Hall | exact Hcell]. }
    rewrite (update_lookup _ _ _ _ Ht) in Hb. simpl in Hb. injection Hb as <- <-.
    split; [|split].
    + intros _. split; [exact Hd | reflexivity].
    + intros Hne. contradiction.
    + intros p s Hs. rewrite (heap_lookup_insert _ _ p _ _ Ht).
      destruct (decide (this = p)) as [->|Hne].
      * rewrite Ht in Hs. injection Hs as <-. eexists. split; [reflexivity|].
        apply invalidate_rect_mData.
      * eauto.
Qed.

(** ** Frames of the rendering steps *)

Lemma shape_eq_refl s : shape_eq s s.
Proof. repeat split. Qed.

Lemma shape_eq_trans s1 s2 s3 : shape_eq s1 s2 -> shape_eq s2 s3 -> shape_eq s1 s3.
Proof. unfold shape_eq. intros (?&?&?&?&?) (?&?&?&?&?). repeat split; congruence. Qed.

Lemma shape_eq_set_mDirty d s : shape_eq s (set_mDirty d s).
Proof. repeat split. Qed.

Lemma shape_eq_set_mData d s : shape_eq s (set_mData d s).
Proof. repeat split. Qed.

Lemma shape_eq_invalidate_rect r s : shape_eq s (invalidate_rect r s).
Proof. unfold invalidate_rect. destruct (valid (mDirty s)); repeat split. Qed.

Lemma shape_eq_fill pattern crop s rc s' :
  fill pattern crop s = Some (rc, s') -> shape_eq s s'.
Proof.
  unfold fill. destruct (valid crop).
  - destruct (negb (valid (intersect (mBounds s) crop))).
    + intros [= _ <-]. apply shape_eq_refl.
    + intros H. bind_inv H. injection H as _ <-.
      eapply shape_eq_trans; [apply (shape_eq_set_mData l) | apply shape_eq_invalidate_rect].
  - intros H. bind_inv H. injection H as _ <-.
    eapply shape_eq_trans; [apply (shape_eq_set_mData l) | apply shape_eq_invalidate_rect].
Qed.

Lemma frame_refl this (h : heap) : frame this h h.
Proof.
  split; [reflexivity|]. intros q s s' Hs Hs'. rewrite Hs in Hs'. injection Hs' as <-.
  split; [apply shape_eq_refl | auto].
Qed.

Lemma frame_trans this (h1 h2 h3 : heap) :
  frame this h1 h2 -> frame this h2 h3 -> frame this h1 h3.
Proof.
  intros [L12 F12] [L23 F23]. split; [congruence|].
  intros q s1 s3 H1 H3.
  destruct (lookup_lt_is_Some_2 h2 q) as [s2 H2].
  { rewrite L12. eapply lookup_lt_Some, H1. }
  destruct (F12 _ _ _ H1 H2) as [Sa Da]. destruct (F23 _ _ _ H2 H3) as [Sb Db].
  split; [eapply shape_eq_trans; eassumption | auto].
Qed.

Lemma frame_insert this (h : heap) p s s' :
  h !! p = Some s -> shape_eq s s' ->
  (p <> this -> valid (mDirty s') = true -> valid (mDirty s) = true) ->
  frame this h (<[p := s']> h).
Proof.
  intros Hp Hsh Hd. split; [apply length_insert|].
  intros q a b Ha Hb. rewrite (heap_lookup_insert _ _ q _ _ Hp) in Hb.
  destruct (decide (p = q)) as [->|Hne].
  - rewrite Hp in Ha. injection Ha as <-. injection Hb as <-. split; assumption.
  - rewrite Ha in Hb. injection Hb as <-. split; [apply shape_eq_refl | auto].
Qed.

Lemma loop_rel {St} (R : St -> St -> Prop) (body : Z -> St -> option St) :
  (forall s, R s s) -> (forall a b c, R a b -> R b c -> R a c) ->
  (forall i s s', body i s = Some s' -> R s s') ->
  forall n i s s', loop n i body s = Some s' -> R s s'.
Proof.
  intros Hrefl Htrans Hb n. induction n as [|n IH]; intros i s s'; simpl.
  - intros [= <-]. apply Hrefl.
  - destruct (body i s) as [s1|] eqn:E; [|discriminate].
    intros Hl. eapply Htrans; [eapply Hb, E | eapply IH, Hl].
Qed.

Lemma for_each_rel {A St} (R : St -> St -> Prop) (body : A -> St -> option St) :
  (forall s, R s s) -> (forall a b c, R a b -> R b c -> R a c) ->
  (forall a s s', body a s = Some s' -> R s s') ->
  forall l s s', for_each l body s = Some s' -> R s s'.
Proof.
  intros Hrefl Htrans Hb l. induction l as [|a l IH]; intros s s'; simpl.
  - intros [= <-]. apply Hrefl.
  - destruct (body a s) as [s1|] eqn:E; [|discriminate].
    intros Hl. eapply Htrans; [eapply Hb, E | eapply IH, Hl].
Qed.

Lemma update_frame this p f (h h' : heap) :
  (forall s, shape_eq s (f s)) ->
  (p <> this -> forall s, valid (mDirty (f s)) = true -> valid (mDirty s) = true) ->
  update p f h = Some h' -> frame this h h'.
Proof.
  intros Hsh Hd Hu. apply update_Some in Hu as (s & Hs & ->).
  eapply frame_insert; [exact Hs | apply Hsh | intros Hne; apply Hd, Hne].
Qed.

Lemma write_cell_frame this p i c (h h' : heap) :
  write_cell p i c h = Some h' -> frame this h h'.
Proof.
  unfold write_cell. intros H. bind_inv H. bind_inv H. injection H as <-.
  eapply frame_insert; [exact E | apply shape_eq_set_mData | auto].
Qed.

Lemma blend_cell_frame this other tb ob s_crop d_crop xx yy (h h' : heap) :
  blend_cell this other tb ob s_crop d_crop xx yy h = Some h' -> frame this h h'.
Proof.
  unfold blend_cell. intros H. bind_inv H.
  destruct (negb (is_transparent c)).
  - eapply write_cell_frame, H.
  - injection H as <-. apply frame_refl.
Qed.

Lemma blend_frame this other src_crop pos (h h' : heap) rc :
  blend this other src_crop pos h = Some (rc, h') -> frame this h h'.
Proof.
  unfold blend. intros H. bind_inv H. bind_inv H.
  destruct (negb _ || negb _).
  - injection H as _ <-. apply frame_refl.
  - bind_inv H. bind_inv H. injection H as _ <-.
    eapply frame_trans.
    + unfold for_ in E1.
      eapply (loop_rel (frame this)); [apply frame_refl | apply frame_trans | | exact E1].
      intros yy g g' Hin. unfold for_ in Hin.
      eapply (loop_rel (frame this)); [apply frame_refl | apply frame_trans | | exact Hin].
      intros xx a b Hc. eapply blend_cell_frame, Hc.
    + eapply update_frame; [apply shape_eq_invalidate_rect | | exact E2].
      intros Hne. contradiction.
Qed.

Lemma collect_dirty_frame this sf (h h' : heap) :
  collect_dirty this sf h = Some h' -> frame this h h'.
Proof.
  unfold collect_dirty. intros H. bind_inv H.
  destruct (mVisible s && valid (mDirty s)).
  - eapply update_frame; [apply shape_eq_invalidate_rect | | exact H].
    intros Hne. contradiction.
  - injection H as <-. apply frame_refl.
Qed.

Lemma clear_frame this r (h h' : heap) rc :
  on_surface this (clear r) h = Some (rc, h') -> frame this h h'.
Proof.
  intros H. apply on_surface_Some in H as (s & s' & Hs & Hf & ->).
  eapply frame_insert; [exact Hs | eapply shape_eq_fill, Hf |].
  intros Hne. contradiction.
Qed.

Lemma blend_layer_frame this sf (h h' : heap) :
  blend_layer this sf h = Some h' -> frame this h h'.
Proof.
  unfold blend_layer. intros H. bind_inv H.
  destruct (mVisible s && valid (mBounds s)).
  - bind_inv H. bind_inv H. destruct p as [rc g]. simpl in H.
    eapply frame_trans; [eapply blend_frame, E1|].
    eapply update_frame; [apply shape_eq_set_mDirty | | exact H].
    intros _ a Hv. discriminate Hv.
  - injection H as <-. apply frame_refl.
Qed.

Lemma collect_loop_frame this kids (h h' : heap) :
  for_each kids (collect_dirty this) h = Some h' -> frame this h h'.
Proof.
  apply (for_each_rel (frame this)); [apply frame_refl | apply frame_trans |].
  intros a s s'. apply collect_dirty_frame.
Qed.

Lemma blend_loop_frame this kids (h h' : heap) :
  for_each kids (blend_layer this) h = Some h' -> frame this h h'.
Proof.
  apply (for_each_rel (frame this)); [apply frame_refl | apply frame_trans |].
  intros a s s'. apply blend_layer_frame.
Qed.

(** ** Render *)

Lemma render_S fuel this (h : heap) :
  render (S fuel) this h = render_body (render fuel) this h.
Proof. reflexivity. Qed.

(** The two ways through the body of [render]. *)
Lemma render_body_inv up this (h h' : heap) out :
  render_body up this h = Some (h', out) ->
  exists t h1 t1,
    h !! this = Some t /\
    for_each (layers (mLayerMap t)) (collect_dirty this) h = Some h1 /\
    h1 !! this = Some t1 /\
    ((valid (mDirty t1) = false /\ h' = h1 /\ out = []) \/
     (valid (mDirty t1) = true /\
      exists h2 h3 t3 h4 o4 t4,
        frame this h1 h2 /\
        for_each (layers (mLayerMap t)) (blend_layer this) h2 = Some h3 /\
        h3 !! this = Some t3 /\
        match mParent t3 with
        | Some q => up q h3
        | None => Some (h3, [])
        end = Some (h4, o4) /\
        h4 !! this = Some t4 /\
        h' = <[this := set_mDirty Rect0 t4]> h4 /\
        out = o4 ++ [mkHook this (mDirty t4)])).
Proof.
  unfold render_body. intros H. bind_inv H. bind_inv H. bind_inv H.
  rename s into t, l into h1, s0 into t1.
  exists t, h1, t1. repeat (split; [reflexivity || assumption|]).
  destruct (valid (mDirty t1)) eqn:Hv; simpl in H.
  - right. split; [reflexivity|].
    bind_inv H. bind_inv H. bind_inv H. bind_inv H. bind_inv H. bind_inv H.
    destruct p as [h4 o4]. simpl in *.
    apply update_Some in E7 as (t4 & Ht4 & ->).
    rewrite Ht4 in E6. injection E6 as <-. injection H as <- <-.
    exists l, l0, s, h4, o4, t4.
    split; [|repeat (split; [reflexivity || assumption|]); reflexivity].
    destruct (mLayerMap t1).
    + injection E2 as <-. apply frame_refl.
    + bind_inv E2. destruct p0 as [rc g]. simpl in E2. injection E2 as <-.
      eapply clear_frame, E6.
  - left. injection H as <- <-. repeat split.
Qed.

Lemma settled_of_frames this (h h3 h4 : heap) t4 :
  frame this h h3 ->
  (h4 = h3 \/ exists q, settled q h3 h4) ->
  h4 !! this = Some t4 ->
  settled this h (<[this := set_mDirty Rect0 t4]> h4).
Proof.
  intros [L3 F3] Hup Ht4.
  assert (L4 : length h4 = length h3).
  { destruct Hup as [->|[q [L _]]]; [reflexivity | exact L]. }
  split; [rewrite length_insert; congruence|].
  intros q s s' Hs Hs'.
  destruct (lookup_lt_is_Some_2 h3 q) as [s3 H3].
  { rewrite L3. eapply lookup_lt_Some, Hs. }
  destruct (lookup_lt_is_Some_2 h4 q) as [s4 H4].
  { rewrite L4. eapply lookup_lt_Some, H3. }
  destruct (F3 _ _ _ Hs H3) as [Sh3 D3].
  assert (Sh4 : shape_eq s3 s4 /\ (valid (mDirty s4) = true -> valid (mDirty s3) = true)).
  { destruct Hup as [->|[p [_ Fp]]].
    - rewrite H3 in H4. injection H4 as <-. split; [apply shape_eq_refl | auto].
    - destruct (Fp _ _ _ H3 H4) as (? & ? & _). split; assumption. }
  destruct Sh4 as [Sh4 D4].
  rewrite (heap_lookup_insert _ _ q _ _ Ht4) in Hs'.
  destruct (decide (this = q)) as [->|Hne].
  - injection Hs' as <-. rewrite Ht4 in H4. injection H4 as <-.
    split; [|split].
    + eapply shape_eq_trans; [exact Sh3|].
      eapply shape_eq_trans; [exact Sh4 | apply shape_eq_set_mDirty].
    + intros Hv. discriminate Hv.
    + reflexivity.
  - rewrite H4 in Hs'. injection Hs' as <-. split; [|split].
    + eapply shape_eq_trans; eassumption.
    + intros Hv. apply D3; [congruence | apply D4, Hv].
    + intros ->. contradiction.
Qed.

Lemma render_settled fuel : forall this (h h' : heap) out,
  render fuel this h = Some (h', out) -> settled this h h'.
Proof.
  induction fuel as [|fuel IH]; intros this h h' out; [discriminate|].
  rewrite render_S. intros H.
  apply render_body_inv in H
    as (t & h1 & t1 & Ht & Hc & Ht1 & [(Hv & -> & ->) | (Hv & Hrest)]).
  - destruct (collect_loop_frame _ _ _ _ Hc) as [L F]. split; [exact L|].
    intros q s s' Hs Hs'. destruct (F _ _ _ Hs Hs') as [Sh D].
    split; [exact Sh|]. split.
    + intros Hv'. destruct (decide (q = this)) as [->|Hne]; [|auto].
      rewrite Ht1 in Hs'. injection Hs' as <-. congruence.
    + intros ->. rewrite Ht1 in Hs'. injection Hs' as <-. exact Hv.
  - destruct Hrest as (h2 & h3 & t3 & h4 & o4 & t4 & F12 & Hb & Ht3 & Hup & Ht4 & -> & ->).
    eapply settled_of_frames; [| | exact Ht4].
    + eapply frame_trans; [eapply collect_loop_frame, Hc|].
      eapply frame_trans; [exact F12 | eapply blend_loop_frame, Hb].
    + destruct (mParent t3) as [q|].
      * right. exists q. eapply IH, Hup.
      * left. injection Hup as <- _. reflexivity.
Qed.

Lemma blend_layer_resets this c (h g : heap) sc :
  blend_layer this c h = Some g ->
  h !! c = Some sc -> mVisible sc = true -> valid (mBounds sc) = true ->
  exists sc', g !! c = Some sc' /\ mDirty sc' = Rect0.
Proof.
  unfold blend_layer. intros H Hc Hvis Hb. rewrite Hc in H. simpl in H.
  rewrite Hvis, Hb in H. simpl in H. bind_inv H. bind_inv H.
  apply update_Some in H as (s' & Hs' & ->).
  exists (set_mDirty Rect0 s'). split; [|reflexivity].
  rewrite (heap_lookup_insert _ _ c _ _ Hs'), decide_True by reflexivity. reflexivity.
Qed.

(** After the second loop of [render], every visible child with valid
    bounds, other than the rendering surface itself, is clean. *)
Lemma blend_loop_cleans this kids : forall (h2 h3 : heap),
  for_each kids (blend_layer this) h2 = Some h3 ->
  forall c sc3, c ∈ kids -> c <> this -> h3 !! c = Some sc3 ->
    mVisible sc3 = true -> valid (mBounds sc3) = true -> valid (mDirty sc3) = false.
Proof.
  induction kids as [|k kids IH]; intros h2 h3 Hl c sc3 Hin Hne Hc Hvis Hb.
  - inversion Hin.
  - simpl in Hl. destruct (blend_layer this k h2) as [g|] eqn:Hk; [|discriminate].
    destruct (decide (c ∈ kids)) as [Hin'|Hnin].
    + eapply IH; eassumption.
    + apply elem_of_cons in Hin as [->|Hin]; [|contradiction].
      pose proof (blend_layer_frame _ _ _ _ Hk) as [Lg Fg].
      pose proof (blend_loop_frame _ _ _ _ Hl) as [L3 F3].
      destruct (lookup_lt_is_Some_2 g k) as [sg Hsg].
      { rewrite <- L3. eapply lookup_lt_Some, Hc. }
      destruct (lookup_lt_is_Some_2 h2 k) as [s2 Hs2].
      { rewrite <- Lg. eapply lookup_lt_Some, Hsg. }
      destruct (Fg _ _ _ Hs2 Hsg) as [(Eb2 & _ & Ev2 & _) _].
      destruct (F3 _ _ _ Hsg Hc) as [(Eb3 & _ & Ev3 & _) D3].
      destruct (blend_layer_resets _ _ _ _ _ Hk Hs2) as (sg' & Hsg' & Hd); [congruence..|].
      rewrite Hsg in Hsg'. injection Hsg' as <-.
      destruct (valid (mDirty sc3)) eqn:Hv; [|reflexivity].
      specialize (D3 Hne eq_refl). rewrite Hd in D3. discriminate D3.
Qed.

Lemma accumulated_dirty_Some this (h h1 : heap) t t1 :
  h !! this = Some t ->
  for_each (layers (mLayerMap t)) (collect_dirty this) h = Some h1 ->
  h1 !! this = Some t1 ->
  accumulated_dirty this h = Some (mDirty t1).
Proof.
  intros Ht Hc Ht1. unfold accumulated_dirty. rewrite Ht. simpl. rewrite Hc. simpl.
  rewrite Ht1. reflexivity.
Qed.

(** On return from a [render] that found something to draw, every visible
    child with valid bounds is clean. *)
Lemma render_children_clean fuel this (h h' : heap) out t d :
  h !! this = Some t ->
  accumulated_dirty this h = Some d -> valid d = true ->
  render fuel this h = Some (h', out) ->
  forall c sc', c ∈ layers (mLayerMap t) -> h' !! c = Some sc' ->
    mVisible sc' = true -> valid (mBounds sc') = true -> valid (mDirty sc') = false.
Proof.
  intros Ht Hacc Hd Hr c sc' Hin Hc' Hvis Hb.
  pose proof (render_settled _ _ _ _ _ Hr) as [L' F'].
  destruct (decide (c = this)) as [->|Hne].
  { destruct (F' _ _ _ Ht Hc') as (_ & _ & Hclean). apply Hclean. reflexivity. }
  destruct fuel as [|fuel]; [discriminate|]. rewrite render_S in Hr.
  apply render_body_inv in Hr
    as (t0 & h1 & t1 & Ht0 & Hcol & Ht1 & [(Hv & -> & ->) | (Hv & Hrest)]).
  - rewrite Ht in Ht0. injection Ht0 as <-.
    rewrite (accumulated_dirty_Some _ _ _ _ _ Ht Hcol Ht1) in Hacc.
    injection Hacc as <-. congruence.
  - rewrite Ht in Ht0. injection Ht0 as <-.
    destruct Hrest as (h2 & h3 & t3 & h4 & o4 & t4 & F12 & Hbl & Ht3 & Hup & Ht4 & -> & ->).
    rewrite (heap_lookup_insert _ _ c _ _ Ht4), decide_False in Hc' by congruence.
    assert (Hup' : h4 = h3 \/ exists q, settled q h3 h4).
    { destruct (mParent t3) as [q|].
      - right. exists q. eapply render_settled, Hup.
      - left. injection Hup as <- _. reflexivity. }
    assert (L4 : length h4 = length h3).
    { destruct Hup' as [->|[q [L _]]]; [reflexivity | exact L]. }
    destruct (lookup_lt_is_Some_2 h3 c) as [s3 H3].
    { rewrite <- L4. eapply lookup_lt_Some, Hc'. }
    assert (Hsh : shape_eq s3 sc' /\ (valid (mDirty sc') = true -> valid (mDirty s3) = true)).
    { destruct Hup' as [->|[q [_ Fq]]].
      - rewrite H3 in Hc'. injection Hc' as <-. split; [apply shape_eq_refl | auto].
      - destruct (Fq _ _ _ H3 Hc') as (? & ? & _). split; assumption. }
    destruct Hsh as [(Eb & _ & Ev & _) Hd3].
    destruct (valid (mDirty sc')) eqn:Hv'; [|reflexivity].
    rewrite <- (blend_loop_cleans _ _ _ _ Hbl c s3 Hin Hne H3); [|congruence..].
    symmetry. apply Hd3. reflexivity.
Qed.

(** ** Translating rectangles without wrap-around *)

Lemma small_to_ssize_sub a b : small a -> small b -> to_ssize (a - b) = a - b.
Proof. unfold small. intros Ha Hb. apply to_ssize_small. lia. Qed.

Lemma to_child_small r pos :
  small_rect r -> small_point pos ->
  to_child r pos = Rect4 (x (top r) - x pos) (y (top r) - y pos)
                         (x (bottom r) - x pos) (y (bottom r) - y pos).
Proof.
  intros [[? ?] [? ?]] [? ?]. unfold to_child.
  rewrite !small_to_ssize_sub by assumption. reflexivity.
Qed.

Lemma to_child_valid r pos :
  small_rect r -> small_point pos -> valid (to_child r pos) = valid r.
Proof.
  intros Hr Hp. rewrite (to_child_small _ _ Hr Hp).
  destruct (valid r) eqn:Hv.
  - apply valid_spec in Hv. apply valid_spec. simpl. lia.
  - apply valid_false_spec in Hv. apply valid_false_spec. simpl. lia.
Qed.

Lemma small_rect_intersect a b : small_rect a -> small_rect b -> small_rect (intersect a b).
Proof.
  unfold small_rect, small_point, small, intersect. simpl.
  intros [[? ?] [? ?]] [[? ?] [? ?]]. lia.
Qed.

(** A child whose placement misses the dirty rectangle: [blend] refuses
    the crop, no buffer is touched, and the child is marked clean. *)
Lemma blend_layer_outside this c (g : heap) tg sc :
  g !! this = Some tg -> g !! c = Some sc ->
  mVisible sc = true -> valid (mBounds sc) = true ->
  small_rect (mDirty tg) -> small_rect (bounds sc) -> small_point (mPos sc) ->
  valid (intersect (mDirty tg) (bounds sc)) = false ->
  blend_layer this c g = Some (<[c := set_mDirty Rect0 sc]> g).
Proof.
  intros Ht Hc Hvis Hb Sd Sb Sp Hmiss.
  unfold blend_layer. rewrite Hc. simpl. rewrite Hvis, Hb. simpl. rewrite Ht. simpl.
  unfold blend. rewrite Ht. simpl. rewrite Hc. simpl.
  assert (Hs : valid (intersect (mBounds sc)
                 (to_child (intersect (mDirty tg) (bounds sc)) (mPos sc))) = false).
  { destruct (valid (intersect (mBounds sc) _)) eqn:Hv; [|reflexivity].
    apply intersect_valid_r in Hv.
    rewrite to_child_valid in Hv; [congruence | | exact Sp].
    apply small_rect_intersect; assumption. }
  rewrite Hs. simpl. rewrite (update_lookup _ _ _ _ Hc). reflexivity.
Qed.






(** ** Rendering twice *)

Lemma set_mDirty_same t : set_mDirty (mDirty t) t = t.
Proof. destruct t. reflexivity. Qed.

Lemma invalidate_rect_set_mDirty r d t :
  valid d = false ->
  invalidate_rect r (set_mDirty d t) = set_mDirty (intersect (mBounds t) r) t.
Proof. intros Hd. unfold invalidate_rect. simpl. rewrite Hd. reflexivity. Qed.

Lemma collect_valid_persists this kids : forall (g g1 : heap) tg,
  for_each kids (collect_dirty this) g = Some g1 ->
  g !! this = Some tg -> valid (mDirty tg) = true ->
  exists t1, g1 !! this = Some t1 /\ valid (mDirty t1) = true.
Proof.
  induction kids as [|c kids IH]; intros g g1 tg; simpl.
  - intros [= <-] Ht Hv. eauto.
  - destruct (collect_dirty this c g) as [g'|] eqn:Hc; [|discriminate].
    intros Hl Ht Hv. unfold collect_dirty in Hc. bind_inv Hc.
    destruct (mVisible s && valid (mDirty s)).
    + rewrite (update_lookup _ _ _ _ Ht) in Hc. injection Hc as <-.
      eapply IH; [exact Hl | |].
      * rewrite (heap_lookup_insert _ _ this _ _ Ht), decide_True by reflexivity.
        reflexivity.
      * apply invalidate_rect_stays_valid, Hv.
    + injection Hc as <-. eapply IH; eassumption.
Qed.

Lemma collect_loop_allocated this kids : forall (g g1 : heap),
  for_each kids (collect_dirty this) g = Some g1 ->
  forall c, c ∈ kids -> is_Some (g !! c).
Proof.
  induction kids as [|k kids IH]; intros g g1 Hl c Hin.
  - inversion Hin.
  - simpl in Hl. destruct (collect_dirty this k g) as [g'|] eqn:Hk; [|discriminate].
    apply elem_of_cons in Hin as [->|Hin].
    + unfold collect_dirty in Hk. destruct (g !! k); [eauto | discriminate].
    + destruct (collect_dirty_frame _ _ _ _ Hk) as [L _].
      apply lookup_lt_is_Some. rewrite <- L. apply lookup_lt_is_Some.
      eapply IH; eassumption.
Qed.

(** The first loop changes nothing when no child is both visible and
    dirty. *)
Lemma collect_loop_id this kids (g : heap) :
  (forall c, c ∈ kids ->
     exists sc, g !! c = Some sc /\ mVisible sc && valid (mDirty sc) = false) ->
  for_each kids (collect_dirty this) g = Some g.
Proof.
  induction kids as [|k kids IH]; intros Hall; [reflexivity|].
  simpl. destruct (Hall k) as (sc & Hsc & Hclean); [left|].
  unfold collect_dirty at 1. rewrite Hsc. simpl. rewrite Hclean.
  apply IH. intros c Hin. apply Hall. right. exact Hin.
Qed.

Lemma render_body_clean up this (h : heap) t :
  h !! this = Some t ->
  for_each (layers (mLayerMap t)) (collect_dirty this) h = Some h ->
  valid (mDirty t) = false ->
  render_body up this h = Some (h, []).
Proof.
  intros Ht Hc Hv. unfold render_body. rewrite Ht. simpl. rewrite Hc. simpl.
  rewrite Ht. simpl. rewrite Hv. reflexivity.
Qed.

Section CollectOnClean.

Variables (this : ptr) (h : heap) (t : Surface).
Hypothesis Ht : h !! this = Some t.

Lemma with_dirty_this d : with_dirty this t d h !! this = Some (set_mDirty d t).
Proof.
  unfold with_dirty.
  rewrite (heap_lookup_insert _ _ this _ _ Ht), decide_True by reflexivity.
  reflexivity.
Qed.

Lemma with_dirty_other d c : c <> this -> with_dirty this t d h !! c = h !! c.
Proof.
  intros Hne. unfold with_dirty.
  rewrite (heap_lookup_insert _ _ c _ _ Ht), decide_False by congruence.
  reflexivity.
Qed.

Lemma with_dirty_again d d' :
  <[this := set_mDirty d' t]> (with_dirty this t d h) = with_dirty this t d' h.
Proof. unfold with_dirty. apply list_insert_insert_eq. Qed.

(** One step of the first loop from a store in which [this] is clean:
    either nothing happens, whatever invalid rectangle [this] holds, or
    the child is visible and dirty and [this] receives the child's dirty
    rectangle clipped to the bounds, whatever it held. *)
Lemma collect_step_on_clean d c g' :
  valid d = false ->
  collect_dirty this c (with_dirty this t d h) = Some g' ->
  (g' = with_dirty this t d h /\
   (c = this \/ exists sc, h !! c = Some sc /\ mVisible sc && valid (mDirty sc) = false) /\
   forall d2, valid d2 = false ->
     collect_dirty this c (with_dirty this t d2 h) = Some (with_dirty this t d2 h)) \/
  (exists sc, c <> this /\ h !! c = Some sc /\
     mVisible sc = true /\ valid (mDirty sc) = true /\
     let d' := intersect (mBounds t) (to_parent (mDirty sc) (mPos sc)) in
     g' = with_dirty this t d' h /\
     forall d2, valid d2 = false ->
       collect_dirty this c (with_dirty this t d2 h) = Some (with_dirty this t d' h)).
Proof.
  intros Hd. unfold collect_dirty at 1.
  destruct (decide (c = this)) as [->|Hne].
  - rewrite with_dirty_this. simpl. rewrite Hd, andb_false_r.
    intros [= <-]. left. split; [reflexivity|]. split; [left; reflexivity|].
    intros d2 Hd2. unfold collect_dirty. rewrite with_dirty_this. simpl.
    rewrite Hd2, andb_false_r. reflexivity.
  - rewrite (with_dirty_other _ _ Hne).
    destruct (h !! c) as [sc|] eqn:Hc; simpl; [|discriminate].
    destruct (mVisible sc && valid (mDirty sc)) eqn:Hvd.
    + apply andb_true_iff in Hvd as [Hvis Hv].
      rewrite (update_lookup _ _ _ _ (with_dirty_this d)).
      rewrite (invalidate_rect_set_mDirty _ _ _ Hd), with_dirty_again.
      intros [= <-]. right. exists sc.
      split; [exact Hne|]. split; [reflexivity|].
      split; [exact Hvis|]. split; [exact Hv|]. split; [reflexivity|].
      intros d2 Hd2. unfold collect_dirty. rewrite (with_dirty_other _ _ Hne), Hc. simpl.
      rewrite Hvis, Hv. simpl.
      rewrite (update_lookup _ _ _ _ (with_dirty_this d2)).
      rewrite (invalidate_rect_set_mDirty _ _ _ Hd2), with_dirty_again. reflexivity.
    + intros [= <-]. left. split; [reflexivity|]. split; [right; eauto|].
      intros d2 Hd2. unfold collect_dirty. rewrite (with_dirty_other _ _ Hne), Hc. simpl.
      rewrite Hvd. reflexivity.
Qed.

(** The first loop, from a store in which [this] is clean to one in which
    it still is: only the (invalid) dirty rectangle of [this] may differ,
    every visible dirty child falls outside the bounds, and running the
    loop again from the result gives the result. *)
Lemma collect_loop_on_clean kids : forall d g1 t1,
  valid d = false ->
  for_each kids (collect_dirty this) (with_dirty this t d h) = Some g1 ->
  g1 !! this = Some t1 -> valid (mDirty t1) = false ->
  exists d', valid d' = false /\ g1 = with_dirty this t d' h /\
    (forall c sc, c ∈ kids -> c <> this -> h !! c = Some sc ->
       mVisible sc = true -> valid (mDirty sc) = true ->
       valid (intersect (mBounds t) (to_parent (mDirty sc) (mPos sc))) = false) /\
    (forall d2, valid d2 = false ->
       for_each kids (collect_dirty this) (with_dirty this t d2 h)
         = Some (with_dirty this t d' h) \/
       (d' = d /\
        for_each kids (collect_dirty this) (with_dirty this t d2 h)
          = Some (with_dirty this t d2 h))).
Proof.
  induction kids as [|c kids IH]; intros d g1 t1 Hd; simpl.
  - intros [= <-] Ht1 Hv1. exists d. split; [exact Hd|]. split; [reflexivity|]. split.
    + intros c sc Hin. inversion Hin.
    + intros d2 Hd2. right. split; reflexivity.
  - destruct (collect_dirty this c (with_dirty this t d h)) as [g'|] eqn:Hc; [|discriminate].
    intros Hl Ht1 Hv1.
    destruct (collect_step_on_clean _ _ _ Hd Hc)
      as [(-> & Hskip & Hsame) | (sc & Hne & Hsc & Hvis & Hv & Hg' & Hany)].
    + destruct (IH _ _ _ Hd Hl Ht1 Hv1) as (d' & Hd' & -> & Hout & Hagain).
      exists d'. split; [exact Hd'|]. split; [reflexivity|]. split.
      * intros k sk Hin Hnk Hsk Hvk Hdk.
        apply elem_of_cons in Hin as [->|Hin]; [|eapply Hout; eassumption].
        destruct Hskip as [->|(sc & Hsc & Hclean)]; [contradiction|].
        rewrite Hsk in Hsc. injection Hsc as <-.
        rewrite Hvk, Hdk in Hclean. discriminate Hclean.
      * intros d2 Hd2. rewrite (Hsame _ Hd2). apply Hagain, Hd2.
    + simpl in Hg', Hany. subst g'.
      set (dc := intersect (mBounds t) (to_parent (mDirty sc) (mPos sc))) in *.
      assert (Hdc : valid dc = false).
      { destruct (valid dc) eqn:E; [|reflexivity].
        destruct (collect_valid_persists _ _ _ _ _ Hl (with_dirty_this dc) E)
          as (t1' & Ht1' & Hv1').
        rewrite Ht1 in Ht1'. injection Ht1' as <-. congruence. }
      destruct (IH _ _ _ Hdc Hl Ht1 Hv1) as (d' & Hd' & -> & Hout & Hagain).
      exists d'. split; [exact Hd'|]. split; [reflexivity|]. split.
      * intros k sk Hin Hnk Hsk Hvk Hdk.
        apply elem_of_cons in Hin as [->|Hin]; [|eapply Hout; eassumption].
        rewrite Hsc in Hsk. injection Hsk as <-. exact Hdc.
      * intros d2 Hd2. left. rewrite (Hany _ Hd2).
        destruct (Hagain _ Hdc) as [E | [-> E]]; exact E.
Qed.

End CollectOnClean.

Lemma dirty_in_bounds_valid_bounds s :
  dirty_in_bounds s -> valid (mDirty s) = true -> valid (mBounds s) = true.
Proof.
  intros Hs Hv. apply (inside_valid _ (top (mDirty s))).
  apply Hs; [exact Hv | apply valid_inside_top, Hv].
Qed.

(** C1 (the claim at a concrete input).  A clean root with a visible dirty
    child placed outside its bounds: [render] on the root returns at once,
    and the child is still visible and dirty when a second call would
    start. *)
Lemma render_leaves_offscreen_child_dirty :
  exists h h1 t1,
    offscreen_child_scene = Some h /\
    render 1 0%nat h = Some (h1, []) /\
    h1 !! 0%nat = Some t1 /\ layers (mLayerMap t1) = [1%nat] /\
    ~ (forall c sc, c ∈ layers (mLayerMap t1) -> h1 !! c = Some sc ->
         mVisible sc = true -> valid (mDirty sc) = false).
Proof.
  do 3 eexists. split; [vm_compute; reflexivity|].
  split; [vm_compute; reflexivity|].
  split; [reflexivity|]. split; [reflexivity|].
  intros Hall. specialize (Hall 1%nat _ (list_elem_of_here _ _) eq_refl eq_refl).
  discriminate Hall.
Qed.

(** C1 (amended).  On a surface each of whose children keeps a valid dirty
    rectangle within its bounds, a [render] that returns leaves the store
    such that: the surface is clean; each visible child is clean or its
    dirty rectangle, placed in the surface, misses the surface's bounds; and
    a second [render] returns the same store, cell for cell, with no hook
    invoked and whatever the call on the parent would do ([up]): that call
    is not made. *)
Theorem render_twice_noop (fuel : nat) (this : ptr) (h h1 : heap)
    (out1 : list HookCall) (t : Surface) :
  h !! this = Some t ->
  (forall c sc, c ∈ layers (mLayerMap t) -> h !! c = Some sc -> dirty_in_bounds sc) ->
  render fuel this h = Some (h1, out1) ->
  (exists t1, h1 !! this = Some t1 /\ mLayerMap t1 = mLayerMap t /\
     valid (mDirty t1) = false /\
     forall c sc, c ∈ layers (mLayerMap t1) -> h1 !! c = Some sc ->
       mVisible sc = true ->
       valid (mDirty sc) = false \/
       valid (intersect (mBounds t1) (to_parent (mDirty sc) (mPos sc))) = false) /\
  (forall up, render_body up this h1 = Some (h1, [])) /\
  (forall fuel2, render (S fuel2) this h1 = Some (h1, [])).
Proof.
  intros Ht Hkids Hr.
  cut ((exists t1, h1 !! this = Some t1 /\ mLayerMap t1 = mLayerMap t /\
          valid (mDirty t1) = false /\
          forall c sc, c ∈ layers (mLayerMap t1) -> h1 !! c = Some sc ->
            mVisible sc = true ->
            valid (mDirty sc) = false \/
            valid (intersect (mBounds t1) (to_parent (mDirty sc) (mPos sc))) = false) /\
       (forall up, render_body up this h1 = Some (h1, []))).
  { intros [H1 H2]. split; [exact H1|]. split; [exact H2|].
    intros fuel2. rewrite render_S. apply H2. }
  pose proof (render_settled _ _ _ _ _ Hr) as [Lf Ff].
  destruct fuel as [|fuel]; [discriminate|].
  pose proof Hr as Hr0. rewrite render_S in Hr.
  apply render_body_inv in Hr
    as (t0 & g1 & t1 & Ht0 & Hcol & Ht1 & [(Hv & -> & ->) | (Hv & Hrest)]);
    rewrite Ht in Ht0; injection Ht0 as <-.
  - (* nothing to draw: the first call returned after the first loop *)
    assert (Hd0 : valid (mDirty t) = false).
    { destruct (valid (mDirty t)) eqn:E; [|reflexivity].
      destruct (collect_valid_persists _ _ _ _ _ Hcol Ht E) as (t1' & Ht1' & Hv1').
      congruence. }
    assert (Hh : with_dirty this t (mDirty t) h = h).
    { unfold with_dirty. rewrite set_mDirty_same. apply list_insert_id, Ht. }
    rewrite <- Hh in Hcol.
    destruct (collect_loop_on_clean this h t Ht _ _ _ _ Hd0 Hcol Ht1 Hv)
      as (d' & Hd' & -> & Hout & Hagain).
    rewrite (with_dirty_this this h t Ht) in Ht1. injection Ht1 as <-.
    split.
    + exists (set_mDirty d' t). split; [apply (with_dirty_this this h t Ht)|].
      split; [reflexivity|]. split; [exact Hd'|].
      intros c sc Hin Hc Hvis. simpl in Hin |- *.
      destruct (decide (c = this)) as [->|Hne].
      * rewrite (with_dirty_this this h t Ht) in Hc. injection Hc as <-. left. exact Hd'.
      * rewrite (with_dirty_other this h t Ht _ _ Hne) in Hc.
        destruct (valid (mDirty sc)) eqn:E; [right|left; reflexivity].
        eapply Hout; eassumption.
    + intros up.
      eapply render_body_clean; [apply (with_dirty_this this h t Ht) | | exact Hd'].
      simpl. destruct (Hagain _ Hd') as [E | [_ E]]; exact E.
  - (* something was drawn *)
    destruct Hrest as (h2 & h3 & t3 & h4 & o4 & t4 & F12 & Hbl & Ht3 & Hup & Ht4 & -> & ->).
    set (hf := <[this := set_mDirty Rect0 t4]> h4) in *.
    assert (Htf : hf !! this = Some (set_mDirty Rect0 t4)).
    { unfold hf. rewrite (heap_lookup_insert _ _ this _ _ Ht4), decide_True by reflexivity.
      reflexivity. }
    destruct (Ff _ _ _ Ht Htf) as ((_ & _ & _ & _ & Hmap) & _ & _).
    assert (Hclean : forall c sc, c ∈ layers (mLayerMap t) -> hf !! c = Some sc ->
              mVisible sc = true -> valid (mDirty sc) = false).
    { intros c sc Hin Hc Hvis.
      destruct (valid (mBounds sc)) eqn:Hb.
      - eapply (render_children_clean _ _ _ _ _ _ _ Ht
                  (accumulated_dirty_Some _ _ _ _ _ Ht Hcol Ht1) Hv Hr0); eassumption.
      - destruct (lookup_lt_is_Some_2 h c) as [s0 Hs0].
        { rewrite <- Lf. eapply lookup_lt_Some, Hc. }
        destruct (Ff _ _ _ Hs0 Hc) as ((Eb & _) & Hd & _).
        destruct (valid (mDirty sc)) eqn:E; [|reflexivity].
        pose proof (dirty_in_bounds_valid_bounds _ (Hkids _ _ Hin Hs0) (Hd eq_refl)).
        congruence. }
    split.
    + exists (set_mDirty Rect0 t4). split; [exact Htf|]. split; [exact Hmap|].
      split; [reflexivity|].
      intros c sc Hin Hc Hvis. left. rewrite Hmap in Hin. eapply Hclean; eassumption.
    + intros up.
      eapply render_body_clean; [exact Htf | | reflexivity].
      apply collect_loop_id. rewrite Hmap. intros c Hin.
      destruct (collect_loop_allocated _ _ _ _ Hcol c Hin) as [s0 Hs0].
      destruct (lookup_lt_is_Some_2 hf c) as [sc Hc].
      { rewrite Lf. eapply lookup_lt_Some, Hs0. }
      exists sc. split; [exact Hc|].
      destruct (mVisible sc) eqn:Hvis; [|reflexivity].
      simpl. eapply Hclean; eassumption.
Qed.

(** The hypothesis on the children is needed: a child emptied by
    [resize(0, 0)] keeps a valid dirty rectangle with invalid bounds, no
    [render] of the parent marks it clean, and the second [render] draws and
    reports again. *)
Lemma stale_child_renders_again :
  exists h h1 h2,
    stale_child_scene = Some h /\
    render 1 0%nat h = Some (h1, [mkHook 0%nat (Rect4 0 0 10 10)]) /\
    render 1 0%nat h1 = Some (h2, [mkHook 0%nat (Rect4 1 1 3 3)]).
Proof.
  do 3 eexists. split; [vm_compute; reflexivity|].
  split; [vm_compute; reflexivity|]. vm_compute. reflexivity.
Qed.

(** ** Counted loops with an invariant *)

Lemma loop_invariant {St} (Inv : Z -> St -> Prop) (body : Z -> St -> option St) :
  forall n i s,
  Inv i s ->
  (forall j a, i <= j < i + Z.of_nat n -> Inv j a ->
     exists a', body j a = Some a' /\ Inv (j + 1) a') ->
  exists s', loop n i body s = Some s' /\ Inv (i + Z.of_nat n) s'.
Proof.
  induction n as [|n IH]; intros i s Hi Hstep.
  - exists s. split; [reflexivity|]. replace (i + Z.of_nat 0) with i by lia. exact Hi.
  - destruct (Hstep i s) as (s1 & Hb & Hi1); [lia | exact Hi |].
    destruct (IH (i + 1) s1 Hi1) as (s' & Hl & Hi').
    { intros j a Hj. apply Hstep. lia. }
    exists s'. split.
    + simpl. rewrite Hb. exact Hl.
    + replace (i + Z.of_nat (S n)) with (i + 1 + Z.of_nat n) by lia. exact Hi'.
Qed.

Lemma for_invariant {St} (Inv : Z -> St -> Prop) (body : Z -> St -> option St) n s :
  0 <= n -> Inv 0 s ->
  (forall j a, 0 <= j < n -> Inv j a -> exists a', body j a = Some a' /\ Inv (j + 1) a') ->
  exists s', for_ n body s = Some s' /\ Inv n s'.
Proof.
  intros Hn H0 Hstep. unfold for_.
  destruct (loop_invariant Inv body (Z.to_nat n) 0 s H0) as (s' & Hl & Hi).
  - intros j a Hj. apply Hstep. lia.
  - exists s'. split; [exact Hl|]. replace n with (0 + Z.of_nat (Z.to_nat n)) at 1 by lia.
    exact Hi.
Qed.

(** Two nested counted loops, the invariant indexed by both counters. *)
Lemma for2_invariant {St} (wid hgt : Z) (Inv : Z -> Z -> St -> Prop)
    (body : Z -> Z -> St -> option St) (s : St) :
  0 <= wid -> 0 <= hgt ->
  (forall yy a, 0 <= yy < hgt -> Inv yy wid a -> Inv (yy + 1) 0 a) ->
  (forall xx yy a, 0 <= xx < wid -> 0 <= yy < hgt -> Inv yy xx a ->
     exists a', body xx yy a = Some a' /\ Inv yy (xx + 1) a') ->
  Inv 0 0 s ->
  exists s', for_ hgt (fun yy g => for_ wid (fun xx g' => body xx yy g') g) s = Some s'
             /\ Inv hgt 0 s'.
Proof.
  intros Hw Hh Hrow Hcell H0.
  apply (for_invariant (fun yy a => Inv yy 0 a)); [exact Hh | exact H0 |].
  intros yy a Hyy Ha.
  destruct (for_invariant (fun xx a' => Inv yy xx a') (fun xx g' => body xx yy g') wid a Hw Ha)
    as (a' & Hl & Hi).
  - intros xx a1 Hxx Ha1. apply Hcell; assumption.
  - exists a'. split; [exact Hl | apply Hrow; assumption].
Qed.

(** ** Offsets in a sized buffer *)

Lemma to_size_pow x : 0 <= x < 2 ^ 62 -> to_size x = x.
Proof. intros Hx. apply to_size_small. lia. Qed.

Lemma to_ssize_pow x : 0 <= x < 2 ^ 62 -> to_ssize x = x.
Proof. intros Hx. apply to_ssize_small. lia. Qed.

Lemma width_Rect4 tx ty bx by_ :
  0 <= bx - tx < 2 ^ 62 -> width (Rect4 tx ty bx by_) = bx - tx.
Proof. intros Hx. unfold width. simpl. apply to_size_pow, Hx. Qed.

Lemma height_Rect4 tx ty bx by_ :
  0 <= by_ - ty < 2 ^ 62 -> height (Rect4 tx ty bx by_) = by_ - ty.
Proof. intros Hx. unfold height. simpl. apply to_size_pow, Hx. Qed.

Lemma cell_index_bound W H cx cy :
  0 <= W < 2 ^ 31 -> 0 <= H < 2 ^ 31 -> 0 <= cx < W -> 0 <= cy < H ->
  0 <= cy * W + cx < W * H /\ W * H < 2 ^ 62.
Proof.
  intros HW HH Hx Hy.
  assert (2 ^ 62 = 2 ^ 31 * 2 ^ 31) as -> by reflexivity.
  repeat split; nia.
Qed.

Lemma offset_origin W H cx cy :
  0 <= W < 2 ^ 31 -> 0 <= H < 2 ^ 31 -> 0 <= cx < W -> 0 <= cy < H ->
  offset (Rect4 0 0 W H) (mkPoint cx cy) = cy * W + cx.
Proof.
  intros HW HH Hx Hy. unfold offset, index_for. simpl.
  destruct (cell_index_bound W H cx cy HW HH Hx Hy) as [Hi Hb].
  rewrite width_Rect4 by lia. rewrite !Z.sub_0_r. apply to_size_pow. lia.
Qed.

Lemma cell_index_inj W cx cy cx' cy' :
  0 <= cx < W -> 0 <= cx' < W -> 0 <= cy -> 0 <= cy' ->
  cy * W + cx = cy' * W + cx' -> cx = cx' /\ cy = cy'.
Proof.
  intros Hx Hx' Hy Hy' E.
  assert (cy = cy') by nia. subst. split; lia.
Qed.

(** Writing one cell of a sized buffer: the write is in range, and only
    that cell changes. *)
Lemma buf_write_cell W H (data : list Char) cx cy c :
  0 <= W < 2 ^ 31 -> 0 <= H < 2 ^ 31 -> 0 <= cx < W -> 0 <= cy < H ->
  length data = Z.to_nat (W * H) ->
  exists d', buf_write data (cy * W + cx) c = Some d' /\
    length d' = length data /\
    cell_at W d' cx cy = Some c /\
    forall ax ay, 0 <= ax < W -> 0 <= ay < H -> (ax <> cx \/ ay <> cy) ->
      cell_at W d' ax ay = cell_at W data ax ay.
Proof.
  intros HW HH Hx Hy Hlen.
  destruct (cell_index_bound W H cx cy HW HH Hx Hy) as [Hi Hb].
  unfold buf_write.
  assert (Hlt : (Z.to_nat (cy * W + cx) < length data)%nat) by (rewrite Hlen; lia).
  apply Nat.ltb_lt in Hlt as Hltb. rewrite Hltb.
  eexists. split; [reflexivity|]. split; [apply length_insert|]. split.
  - unfold cell_at. apply list_lookup_insert_eq, Hlt.
  - intros ax ay Hax Hay Hne. unfold cell_at. apply list_lookup_insert_ne.
    intros E. apply Z2Nat.inj in E; [|nia..].
    apply cell_index_inj in E; [|lia..]. lia.
Qed.

Lemma cell_at_Some W H (data : list Char) cx cy :
  0 <= W < 2 ^ 31 -> 0 <= H < 2 ^ 31 -> 0 <= cx < W -> 0 <= cy < H ->
  length data = Z.to_nat (W * H) ->
  is_Some (cell_at W data cx cy).
Proof.
  intros HW HH Hx Hy Hlen.
  destruct (cell_index_bound W H cx cy HW HH Hx Hy) as [Hi Hb].
  unfold cell_at. apply lookup_lt_is_Some. rewrite Hlen. lia.
Qed.

(** ** Fill and clear on a sized surface *)

Lemma insideb_spec r p : insideb r p = true <-> inside r p.
Proof.
  unfold insideb, inside. rewrite !andb_true_iff, !Z.leb_le, !Z.ltb_lt. tauto.
Qed.

Lemma insideb_false r p : insideb r p = false <-> ~ inside r p.
Proof.
  rewrite <- insideb_spec. destruct (insideb r p); split; congruence.
Qed.

(** The loops of [fill] over a crop inside the bounds: every write is in
    range; the cells of the crop receive the pattern, the others stay. *)
Lemma fill_rows_spec W H (data : list Char) pattern r :
  0 <= W < 2 ^ 31 -> 0 <= H < 2 ^ 31 ->
  length data = Z.to_nat (W * H) ->
  valid r = true -> encloses (Rect4 0 0 W H) r ->
  exists d', fill_rows (Rect4 0 0 W H) r pattern data = Some d' /\
    length d' = length data /\
    forall cx cy, 0 <= cx < W -> 0 <= cy < H ->
      cell_at W d' cx cy =
      if insideb r (mkPoint cx cy) then Some pattern else cell_at W data cx cy.
Proof.
  intros HW HH Hlen Hv Henc. destruct r as [[tx ty] [bx by_]].
  apply valid_spec in Hv. unfold encloses in Henc. simpl in Hv, Henc.
  change (mkRect (mkPoint tx ty) (mkPoint bx by_)) with (Rect4 tx ty bx by_).
  unfold fill_rows. rewrite width_Rect4, height_Rect4 by lia. simpl.
  set (wid := bx - tx). set (hgt := by_ - ty).
  destruct (for2_invariant wid hgt
    (fun yy xx d => length d = length data /\
       forall cx cy, 0 <= cx < W -> 0 <= cy < H ->
         (visited wid yy xx (cx - tx) (cy - ty) -> cell_at W d cx cy = Some pattern) /\
         (~ visited wid yy xx (cx - tx) (cy - ty) -> cell_at W d cx cy = cell_at W data cx cy))
    (fun xx yy d => buf_write d
       (offset (Rect4 0 0 W H) (mkPoint (to_ssize (tx + xx)) (to_ssize (ty + yy)))) pattern)
    data) as (d' & Hl & Hlen' & Hcells).
  - unfold wid. lia.
  - unfold hgt. lia.
  - intros yy a Hyy [La Ha]. split; [exact La|].
    intros cx cy Hcx Hcy. destruct (Ha cx cy Hcx Hcy) as [Hin Hout]. split.
    + intros Hvis. apply Hin. unfold visited in *. lia.
    + intros Hvis. apply Hout. unfold visited in *. lia.
  - intros xx yy a Hxx Hyy [La Ha]. unfold wid, hgt in Hxx, Hyy.
    rewrite !to_ssize_pow by lia. rewrite offset_origin by lia.
    destruct (buf_write_cell W H a (tx + xx) (ty + yy) pattern)
      as (a' & Hw & La' & Hnew & Hold); [lia.. | congruence |].
    exists a'. split; [exact Hw|]. split; [congruence|].
    intros cx cy Hcx Hcy. destruct (Ha cx cy Hcx Hcy) as [Hin Hout].
    destruct (decide (cx = tx + xx /\ cy = ty + yy)) as [[-> ->]|Hne].
    + split; [intros _; exact Hnew|]. intros Hvis. exfalso. apply Hvis.
      unfold visited, wid. lia.
    + rewrite (Hold cx cy Hcx Hcy) by lia. split.
      * intros Hvis. apply Hin. unfold visited in *. lia.
      * intros Hvis. apply Hout. unfold visited in *. lia.
  - split; [reflexivity|]. intros cx cy Hcx Hcy. split; [|reflexivity].
    unfold visited. lia.
  - exists d'. split; [exact Hl|]. split; [exact Hlen'|].
    intros cx cy Hcx Hcy. destruct (Hcells cx cy Hcx Hcy) as [Hin Hout].
    destruct (insideb _ _) eqn:E.
    + apply insideb_spec in E. unfold inside in E. simpl in E.
      apply Hin. unfold visited, wid, hgt. lia.
    + apply insideb_false in E. unfold inside in E. simpl in E.
      apply Hout. unfold visited, wid, hgt. lia.
Qed.

Lemma intersect_enclosed b r : encloses b r -> intersect b r = r.
Proof.
  destruct b as [[? ?] [? ?]], r as [[? ?] [? ?]]. unfold encloses, intersect. simpl.
  intros (? & ? & ? & ?). rewrite !Z.max_r, !Z.min_r by lia. reflexivity.
Qed.

(** [fill] (and so [clear]) of a valid crop inside the bounds of a sized
    surface returns 0. *)
Lemma fill_spec W H s pattern r :
  sized W H s -> valid r = true -> encloses (Rect4 0 0 W H) r ->
  exists d', fill pattern r s = Some (0, invalidate_rect r (set_mData d' s)) /\
    length d' = length (mData s) /\
    forall cx cy, 0 <= cx < W -> 0 <= cy < H ->
      cell_at W d' cx cy =
      if insideb r (mkPoint cx cy) then Some pattern else cell_at W (mData s) cx cy.
Proof.
  intros (HW & HH & Hb & Hlen) Hv Henc.
  destruct (fill_rows_spec W H (mData s) pattern r HW HH Hlen Hv Henc)
    as (d' & Hf & Hlen' & Hcells).
  exists d'. split; [|split; assumption].
  unfold fill. rewrite Hv, Hb, (intersect_enclosed _ _ Henc), Hv. simpl.
  rewrite Hf. reflexivity.
Qed.

(** ** Blend between two sized surfaces *)

Lemma set_mData_same t : set_mData (mData t) t = t.
Proof. destruct t. reflexivity. Qed.

Lemma move_small r pos :
  small_point pos ->
  0 <= x (bottom r) - x (top r) < 2 ^ 31 -> 0 <= y (bottom r) - y (top r) < 2 ^ 31 ->
  move r pos = Rect4 (x pos) (y pos)
                     (x pos + (x (bottom r) - x (top r)))
                     (y pos + (y (bottom r) - y (top r))).
Proof.
  intros [Hx Hy] Hw Hh. unfold small in *. unfold move, width, height.
  rewrite !to_size_pow by lia. rewrite !(to_ssize_pow (_ - _)) by lia.
  rewrite !to_ssize_small by lia. destruct pos. reflexivity.
Qed.

(** The value [blend] leaves in the destination cell ([cx], [cy]) of the
    destination crop: the source cell, unless that one is transparent. *)
Lemma blend_spec this other (h : heap) t o W H w hh src_crop pos s_crop d_crop :
  this <> other ->
  h !! this = Some t -> h !! other = Some o ->
  sized W H t -> sized w hh o -> small_point pos ->
  s_crop = intersect (mBounds o) src_crop ->
  d_crop = intersect (mBounds t) (move s_crop pos) ->
  valid s_crop = true -> valid d_crop = true ->
  exists d',
    blend this other src_crop pos h
      = Some (0, <[this := invalidate_rect d_crop (set_mData d' t)]> h) /\
    length d' = length (mData t) /\
    forall cx cy, 0 <= cx < W -> 0 <= cy < H ->
      cell_at W d' cx cy =
      if insideb d_crop (mkPoint cx cy) then
        match cell_at w (mData o) (x (top s_crop) + (cx - x (top d_crop)))
                                  (y (top s_crop) + (cy - y (top d_crop))) with
        | Some ch => if is_transparent ch then cell_at W (mData t) cx cy else Some ch
        | None => None
        end
      else cell_at W (mData t) cx cy.
Proof.
  intros Hne Ht Ho (HW & HH & Hbt & Hlt) (Hw & Hh & Hbo & Hlo) Hpos Es Ed Hvs Hvd.
  unfold blend. rewrite Ht. simpl. rewrite Ho. simpl.
  rewrite <- Es, <- Ed, Hvs, Hvd. simpl.
  (* the geometry of the two crops *)
  assert (Hs_in : encloses (Rect4 0 0 w hh) s_crop).
  { rewrite Es, Hbo. apply intersect_enclosed_l. }
  assert (Hmove : move s_crop pos =
            Rect4 (x pos) (y pos) (x pos + (x (bottom s_crop) - x (top s_crop)))
                  (y pos + (y (bottom s_crop) - y (top s_crop)))).
  { apply valid_spec in Hvs. unfold encloses in Hs_in. simpl in Hs_in.
    apply move_small; [exact Hpos | lia | lia]. }
  rewrite Hmove, Hbt in Ed.
  destruct s_crop as [[sx sy] [sbx sby]], d_crop as [[dx dy] [dbx dby]].
  apply valid_spec in Hvs, Hvd. unfold encloses in Hs_in. simpl in Hvs, Hvd, Hs_in.
  destruct pos as [px py]. unfold intersect in Ed. simpl in Ed.
  injection Ed as Edx Edy Edbx Edby.
  change (mkRect (mkPoint dx dy) (mkPoint dbx dby)) with (Rect4 dx dy dbx dby).
  rewrite width_Rect4, height_Rect4 by lia.
  set (wid := dbx - dx). set (hgt := dby - dy).
  set (blended := fun cx cy =>
         match cell_at w (mData o) (sx + (cx - dx)) (sy + (cy - dy)) with
         | Some ch => if is_transparent ch then cell_at W (mData t) cx cy else Some ch
         | None => None
         end).
  destruct (for2_invariant wid hgt
    (fun yy xx g => exists d, g = <[this := set_mData d t]> h /\
       length d = length (mData t) /\
       forall cx cy, 0 <= cx < W -> 0 <= cy < H ->
         (visited wid yy xx (cx - dx) (cy - dy) -> cell_at W d cx cy = blended cx cy) /\
         (~ visited wid yy xx (cx - dx) (cy - dy) ->
            cell_at W d cx cy = cell_at W (mData t) cx cy))
    (fun xx yy g => blend_cell this other (mBounds t) (mBounds o)
                      (mkRect (mkPoint sx sy) (mkPoint sbx sby))
                      (Rect4 dx dy dbx dby) xx yy g)
    h) as (g & Hl & d' & -> & Hlen' & Hcells).
  - unfold wid. lia.
  - unfold hgt. lia.
  - intros yy a Hyy (d & -> & Ld & Hd). exists d. split; [reflexivity|]. split; [exact Ld|].
    intros cx cy Hcx Hcy. destruct (Hd cx cy Hcx Hcy) as [Hin Hout]. split.
    + intros Hvis. apply Hin. unfold visited in *. lia.
    + intros Hvis. apply Hout. unfold visited in *. lia.
  - intros xx yy a Hxx Hyy (d & -> & Ld & Hd). unfold wid, hgt in Hxx, Hyy.
    unfold blend_cell, read_cell. simpl.
    rewrite (heap_lookup_insert _ _ other _ _ Ht), decide_False by exact Hne.
    rewrite Ho. simpl. rewrite Hbo, Hbt.
    rewrite !to_ssize_pow by lia. rewrite !offset_origin by lia.
    destruct (cell_at_Some w hh (mData o) (sx + xx) (sy + yy)) as [ch Hch]; [lia..| exact Hlo |].
    unfold buf_read. unfold cell_at in Hch. rewrite Hch. simpl.
    assert (Hbl : blended (dx + xx) (dy + yy) =
              if is_transparent ch then cell_at W (mData t) (dx + xx) (dy + yy) else Some ch).
    { unfold blended, cell_at.
      replace (sx + (dx + xx - dx)) with (sx + xx) by lia.
      replace (sy + (dy + yy - dy)) with (sy + yy) by lia.
      rewrite Hch. reflexivity. }
    destruct (is_transparent ch) eqn:Etr; simpl.
    + exists (<[this := set_mData d t]> h). split; [reflexivity|].
      exists d. split; [reflexivity|]. split; [exact Ld|].
      intros cx cy Hcx Hcy. destruct (Hd cx cy Hcx Hcy) as [Hin Hout].
      destruct (decide (cx = dx + xx /\ cy = dy + yy)) as [[-> ->]|Hn].
      * split; [|intros Hvis; exfalso; apply Hvis; unfold visited, wid; lia].
        intros _. rewrite Hbl. apply Hout. unfold visited. lia.
      * split.
        -- intros Hvis. apply Hin. unfold visited in *. lia.
        -- intros Hvis. apply Hout. unfold visited in *. lia.
    + unfold write_cell.
      rewrite (heap_lookup_insert _ _ this _ _ Ht), decide_True by reflexivity. simpl.
      destruct (buf_write_cell W H d (dx + xx) (dy + yy) ch)
        as (d2 & Hw2 & Ld2 & Hnew & Hold); [lia.. | congruence |].
      rewrite Hw2. simpl. rewrite list_insert_insert_eq.
      eexists. split; [reflexivity|].
      exists d2. split; [reflexivity|]. split; [congruence|].
      intros cx cy Hcx Hcy. destruct (Hd cx cy Hcx Hcy) as [Hin Hout].
      destruct (decide (cx = dx + xx /\ cy = dy + yy)) as [[-> ->]|Hn].
      * split; [|intros Hvis; exfalso; apply Hvis; unfold visited, wid; lia].
        intros _. rewrite Hbl. exact Hnew.
      * rewrite (Hold cx cy Hcx Hcy) by lia. split.
        -- intros Hvis. apply Hin. unfold visited in *. lia.
        -- intros Hvis. apply Hout. unfold visited in *. lia.
  - exists (mData t). split; [|split; [reflexivity|]].
    + rewrite set_mData_same. symmetry. apply list_insert_id, Ht.
    + intros cx cy Hcx Hcy. split; [|reflexivity]. unfold visited. lia.
  - exists d'. split; [|split; [exact Hlen'|]].
    + rewrite Hl. simpl.
      assert (Hthis : <[this := set_mData d' t]> h !! this = Some (set_mData d' t)).
      { rewrite (heap_lookup_insert _ _ this _ _ Ht), decide_True by reflexivity.
        reflexivity. }
      rewrite (update_lookup _ _ _ _ Hthis). simpl. rewrite list_insert_insert_eq.
      reflexivity.
    + intros cx cy Hcx Hcy. destruct (Hcells cx cy Hcx Hcy) as [Hin Hout]. simpl.
      destruct (insideb _ _) eqn:E.
      * apply insideb_spec in E. unfold inside in E. simpl in E.
        apply Hin. unfold visited, wid, hgt. lia.
      * apply insideb_false in E. unfold inside in E. simpl in E.
        apply Hout. unfold visited, wid, hgt. lia.
Qed.

(** ** Compositing one child *)

Lemma Rect4_eta r : r = Rect4 (x (top r)) (y (top r)) (x (bottom r)) (y (bottom r)).
Proof. destruct r as [[? ?] [? ?]]. reflexivity. Qed.

(** Invalidating a rectangle the valid dirty rectangle already encloses
    changes nothing. *)
Lemma invalidate_rect_absorbed r s :
  valid (mDirty s) = true -> encloses (mDirty s) (intersect (mBounds s) r) ->
  invalidate_rect r s = s.
Proof.
  intros Hv Henc. unfold invalidate_rect. rewrite Hv.
  assert (boundingRect (mDirty s) (intersect (mBounds s) r) = mDirty s) as ->.
  { revert Henc. generalize (intersect (mBounds s) r) as r'. intros r'.
    destruct (mDirty s) as [[? ?] [? ?]], r' as [[? ?] [? ?]].
    unfold encloses, boundingRect. simpl. intros (? & ? & ? & ?).
    rewrite !Z.min_l, !Z.max_l by lia. reflexivity. }
  apply set_mDirty_same.
Qed.

Lemma bounds_sized w hh s px py :
  sized w hh s -> mPos s = mkPoint px py ->
  - 2 ^ 31 <= px < 2 ^ 31 -> - 2 ^ 31 <= py < 2 ^ 31 ->
  bounds s = Rect4 px py (px + w) (py + hh).
Proof.
  intros (Hw & Hh & Hb & _) Hp Hpx Hpy. unfold bounds. rewrite Hb, Hp.
  rewrite move_small; simpl; [| split; unfold small; simpl; lia | lia | lia].
  rewrite !Z.sub_0_r. reflexivity.
Qed.

(** The step of the second loop of [render] for a visible child [c] of a
    parent whose dirty rectangle is valid and within its bounds: it returns;
    in the parent's buffer the cells common to the dirty rectangle and the
    child's placement receive the child's cells that are not transparent;
    the parent's dirty rectangle is as before; the child is marked clean. *)
Lemma blend_layer_spec this c (g : heap) t sc W H w hh px py :
  this <> c ->
  g !! this = Some t -> g !! c = Some sc ->
  sized W H t -> sized w hh sc -> 0 < w -> 0 < hh ->
  mVisible sc = true -> mPos sc = mkPoint px py ->
  - 2 ^ 31 <= px < 2 ^ 31 -> - 2 ^ 31 <= py < 2 ^ 31 ->
  valid (mDirty t) = true -> encloses (Rect4 0 0 W H) (mDirty t) ->
  exists d',
    blend_layer this c g
      = Some (<[c := set_mDirty Rect0 sc]> (<[this := set_mData d' t]> g)) /\
    length d' = length (mData t) /\
    forall cx cy, 0 <= cx < W -> 0 <= cy < H ->
      cell_at W d' cx cy =
      if insideb (mDirty t) (mkPoint cx cy) && insideb (bounds sc) (mkPoint cx cy) then
        match cell_at w (mData sc) (cx - px) (cy - py) with
        | Some ch => if is_transparent ch then cell_at W (mData t) cx cy else Some ch
        | None => None
        end
      else cell_at W (mData t) cx cy.
Proof.
  intros Hne Ht Hc St Sc Hw0 Hh0 Hvis Hpos Hpx Hpy Hvd Hencd.
  pose proof (bounds_sized _ _ _ _ _ Sc Hpos Hpx Hpy) as Hbnd.
  pose proof St as (HW & HH & Hbt & Hlt). pose proof Sc as (Hw & Hh & Hbc & Hlc).
  assert (Hvb : valid (mBounds sc) = true).
  { rewrite Hbc. apply valid_spec. simpl. lia. }
  destruct (mDirty t) as [[a1 b1] [a2 b2]] eqn:Edt.
  apply valid_spec in Hvd. unfold encloses in Hencd. simpl in Hvd, Hencd.
  assert (Ssmall_d : small_rect (mDirty t)).
  { rewrite Edt. unfold small_rect, small_point, small. simpl. lia. }
  assert (Ssmall_b : small_rect (bounds sc)).
  { rewrite Hbnd. unfold small_rect, small_point, small. simpl. lia. }
  assert (Ssmall_p : small_point (mPos sc)).
  { rewrite Hpos. unfold small_point, small. simpl. lia. }
  destruct (valid (intersect (mDirty t) (bounds sc))) eqn:Hvi.
  - (* the placement meets the dirty rectangle *)
    unfold blend_layer. rewrite Hc. simpl. rewrite Hvis, Hvb. simpl. rewrite Ht. simpl.
    rewrite to_child_small by (try apply small_rect_intersect; assumption).
    rewrite Edt, Hbnd, Hpos in *. unfold intersect in Hvi |- *. simpl in Hvi |- *.
    apply valid_spec in Hvi. simpl in Hvi.
    set (sx := Z.max a1 px - px). set (sy := Z.max b1 py - py).
    set (sbx := Z.min a2 (px + w) - px). set (sby := Z.min b2 (py + hh) - py).
    destruct (blend_spec this c g t sc W H w hh (Rect4 sx sy sbx sby)
                (mkPoint (Z.max a1 px) (Z.max b1 py))
                (Rect4 sx sy sbx sby)
                (Rect4 (Z.max a1 px) (Z.max b1 py) (Z.min a2 (px + w)) (Z.min b2 (py + hh))))
      as (d' & Hbl & Hlen' & Hcells); try assumption.
    + unfold small_point, small. simpl. lia.
    + rewrite Hbc. unfold intersect, Rect4. simpl. unfold sx, sy, sbx, sby.
      f_equal; f_equal; lia.
    + rewrite Hbt. rewrite move_small;
        [| unfold small_point, small; simpl; lia | simpl; unfold sx, sbx; lia
         | simpl; unfold sy, sby; lia].
      unfold intersect, Rect4. simpl. unfold sx, sy, sbx, sby.
      f_equal; f_equal; lia.
    + apply valid_spec. simpl. unfold sx, sy, sbx, sby. lia.
    + apply valid_spec. simpl. lia.
    + exists d'. split; [|split; [exact Hlen'|]].
      * rewrite Hbl. simpl.
        rewrite invalidate_rect_absorbed.
        -- assert (Hc' : <[this := set_mData d' t]> g !! c = Some sc).
           { rewrite (heap_lookup_insert _ _ c _ _ Ht), decide_False by exact Hne.
             exact Hc. }
           rewrite (update_lookup _ _ _ _ Hc'). reflexivity.
        -- simpl. rewrite Edt. apply valid_spec. simpl. lia.
        -- simpl. rewrite Edt, Hbt. unfold encloses, intersect. simpl. lia.
      * intros cx cy Hcx Hcy. rewrite (Hcells cx cy Hcx Hcy). simpl.
        replace (insideb {| top := {| x := a1; y := b1 |}; bottom := {| x := a2; y := b2 |} |}
                   {| x := cx; y := cy |} &&
                 insideb (Rect4 px py (px + w) (py + hh)) {| x := cx; y := cy |})
          with (insideb (Rect4 (Z.max a1 px) (Z.max b1 py) (Z.min a2 (px + w))
                               (Z.min b2 (py + hh))) {| x := cx; y := cy |}).
        2:{ unfold insideb. simpl.
            destruct (Z.max a1 px <=? cx) eqn:E1, (cx <? Z.min a2 (px + w)) eqn:E2,
                     (Z.max b1 py <=? cy) eqn:E3, (cy <? Z.min b2 (py + hh)) eqn:E4,
                     (a1 <=? cx) eqn:E5, (cx <? a2) eqn:E6, (b1 <=? cy) eqn:E7,
                     (cy <? b2) eqn:E8, (px <=? cx) eqn:E9, (cx <? px + w) eqn:E10,
                     (py <=? cy) eqn:E11, (cy <? py + hh) eqn:E12; simpl; try reflexivity;
              exfalso; lia. }
        destruct (insideb _ _); [|reflexivity].
        unfold sx, sy.
        replace (Z.max a1 px - px + (cx - Z.max a1 px)) with (cx - px) by lia.
        replace (Z.max b1 py - py + (cy - Z.max b1 py)) with (cy - py) by lia.
        reflexivity.
  - (* the placement misses the dirty rectangle *)
    exists (mData t). split; [|split; [reflexivity|]].
    + rewrite set_mData_same, (list_insert_id g this t Ht).
      apply (blend_layer_outside this c g t sc); assumption.
    + intros cx cy Hcx Hcy.
      destruct (insideb _ _ && insideb _ _) eqn:E; [|reflexivity].
      apply andb_true_iff in E as [E1 E2]. apply insideb_spec in E1, E2.
      rewrite Edt in Hvi.
      assert (Hboth : inside (intersect (mkRect (mkPoint a1 b1) (mkPoint a2 b2)) (bounds sc))
                             (mkPoint cx cy)).
      { apply intersect_inside. split; assumption. }
      apply inside_valid in Hboth. congruence.
Qed.

(** ** Rendering a root surface with a single child *)

Lemma sized_invalidate_rect W H r s : sized W H s -> sized W H (invalidate_rect r s).
Proof.
  intros (HW & HH & Hb & Hl). split; [exact HW|]. split; [exact HH|].
  rewrite invalidate_rect_mBounds, invalidate_rect_mData. split; assumption.
Qed.

Lemma sized_set_mData W H d s :
  sized W H s -> length d = length (mData s) -> sized W H (set_mData d s).
Proof.
  intros (HW & HH & Hb & Hl) Hd. split; [exact HW|]. split; [exact HH|].
  split; [exact Hb | simpl; congruence].
Qed.

Lemma heap_insert_lookup_eq (h : heap) p s s0 :
  h !! p = Some s0 -> <[p := s]> h !! p = Some s.
Proof.
  intros Hp. rewrite (heap_lookup_insert _ _ p _ _ Hp), decide_True by reflexivity.
  reflexivity.
Qed.

Lemma heap_insert_lookup_ne (h : heap) p q s :
  p <> q -> <[p := s]> h !! q = h !! q.
Proof. apply list_lookup_insert_ne. Qed.

(** [render] on a parentless surface [P] whose only child is the visible,
    sized surface [C]: with [D] the dirty rectangle after the first loop,
    valid and within the bounds, [render] returns; the hook of [P] is
    invoked once, with [D]; in the buffer of [P] every cell of [D] is
    redrawn (the child's cell where the child lies and is not transparent,
    blank elsewhere) and every other cell is untouched; both surfaces end
    clean. *)
Lemma render_root_one_child fuel P C (g : heap) sp sc W H w hh px py k D :
  P <> C ->
  g !! P = Some sp -> g !! C = Some sc ->
  sized W H sp -> sized w hh sc -> 0 < w -> 0 < hh ->
  mParent sp = None -> mLayerMap sp = [(k, [C])] ->
  mVisible sc = true -> mPos sc = mkPoint px py ->
  - 2 ^ 31 <= px < 2 ^ 31 -> - 2 ^ 31 <= py < 2 ^ 31 ->
  D = mDirty (if valid (mDirty sc)
              then invalidate_rect (to_parent (mDirty sc) (mPos sc)) sp else sp) ->
  valid D = true -> encloses (Rect4 0 0 W H) D ->
  exists d',
    render (S fuel) P g
      = Some (<[P := set_mDirty Rect0 (set_mData d' sp)]> (<[C := set_mDirty Rect0 sc]> g),
              [mkHook P D]) /\
    length d' = length (mData sp) /\
    forall cx cy, 0 <= cx < W -> 0 <= cy < H ->
      cell_at W d' cx cy =
      if insideb D (mkPoint cx cy) then
        if insideb (bounds sc) (mkPoint cx cy) then
          match cell_at w (mData sc) (cx - px) (cy - py) with
          | Some ch => if is_transparent ch then Some blank else Some ch
          | None => None
          end
        else Some blank
      else cell_at W (mData sp) cx cy.
Proof.
  intros Hne HP HC Sp Sc Hw0 Hh0 Hpar Hmap Hvis Hpos Hpx Hpy ED HvD HencD.
  set (sp2 := if valid (mDirty sc)
              then invalidate_rect (to_parent (mDirty sc) (mPos sc)) sp else sp) in *.
  assert (Ssp2 : sized W H sp2).
  { unfold sp2. destruct (valid (mDirty sc)); [apply sized_invalidate_rect|]; exact Sp. }
  assert (Hsh2 : shape_eq sp sp2).
  { unfold sp2. destruct (valid (mDirty sc));
      [apply shape_eq_invalidate_rect | apply shape_eq_refl]. }
  destruct Hsh2 as (_ & _ & _ & Hpar2 & Hmap2).
  (* the first loop *)
  assert (Hcol : for_each [C] (collect_dirty P) g = Some (<[P := sp2]> g)).
  { simpl. unfold collect_dirty. rewrite HC. simpl. rewrite Hvis. simpl.
    unfold sp2. destruct (valid (mDirty sc)).
    - rewrite (update_lookup _ _ _ _ HP). reflexivity.
    - rewrite (list_insert_id g P sp HP). reflexivity. }
  (* clearing the dirty rectangle *)
  destruct (fill_spec W H sp2 blank D Ssp2 HvD HencD) as (d1 & Hfill & Hl1 & Hc1).
  rewrite invalidate_rect_absorbed in Hfill;
    [| simpl; rewrite <- ED; exact HvD
     | simpl; rewrite <- ED; apply intersect_enclosed_r].
  set (sp3 := set_mData d1 sp2) in *.
  assert (Ssp3 : sized W H sp3) by (apply sized_set_mData; assumption).
  set (g1 := <[P := sp2]> g).
  assert (HP1 : g1 !! P = Some sp2) by (eapply heap_insert_lookup_eq, HP).
  set (g2 := <[P := sp3]> g1).
  assert (HP2 : g2 !! P = Some sp3) by (eapply heap_insert_lookup_eq, HP1).
  assert (HC2 : g2 !! C = Some sc).
  { unfold g2, g1. rewrite !heap_insert_lookup_ne by exact Hne. exact HC. }
  (* blending the child *)
  destruct (blend_layer_spec P C g2 sp3 sc W H w hh px py Hne HP2 HC2 Ssp3 Sc Hw0 Hh0
              Hvis Hpos Hpx Hpy) as (d2 & Hbl & Hl2 & Hc2).
  { simpl. rewrite <- ED. exact HvD. }
  { simpl. rewrite <- ED. exact HencD. }
  exists d2. split; [|split].
  - rewrite render_S. unfold render_body. rewrite HP. simpl.
    rewrite Hmap. change (layers [(k, [C])]) with [C]. rewrite Hcol. simpl.
    fold g1. rewrite HP1. simpl. rewrite <- ED, HvD. simpl.
    rewrite Hmap2, Hmap.
    unfold on_surface. rewrite HP1. simpl. unfold clear. rewrite Hfill. simpl.
    fold g2. unfold for_each. rewrite Hbl. simpl.
    assert (HP3 : <[C := set_mDirty Rect0 sc]> (<[P := set_mData d2 sp3]> g2) !! P
                  = Some (set_mData d2 sp3)).
    { rewrite heap_insert_lookup_ne by congruence. eapply heap_insert_lookup_eq, HP2. }
    rewrite HP3. simpl. rewrite Hpar2, Hpar. simpl. rewrite HP3. simpl.
    rewrite (update_lookup _ _ _ _ HP3). simpl. rewrite <- ED.
    f_equal. f_equal.
    unfold g2, g1.
    rewrite (list_insert_insert_ne _ P C) by exact Hne.
    rewrite !list_insert_insert_eq.
    rewrite (list_insert_insert_ne _ C P) by congruence.
    f_equal. unfold sp3, sp2. destruct (valid (mDirty sc)); [|reflexivity].
    unfold invalidate_rect. destruct (valid (mDirty sp)); reflexivity.
  - simpl in Hl2. unfold sp2 in Hl1. rewrite Hl2, Hl1.
    destruct (valid (mDirty sc)); [rewrite invalidate_rect_mData|]; reflexivity.
  - intros cx cy Hcx Hcy. rewrite (Hc2 cx cy Hcx Hcy). simpl. rewrite <- ED.
    rewrite (Hc1 cx cy Hcx Hcy).
    destruct (insideb D (mkPoint cx cy)); simpl.
    + destruct (insideb (bounds sc) (mkPoint cx cy)); reflexivity.
    + unfold sp2. destruct (valid (mDirty sc)); [rewrite invalidate_rect_mData|]; reflexivity.
Qed.

(** ** Moving a child, then rendering *)

Lemma to_parent_origin w hh px py :
  0 <= w < 2 ^ 31 -> 0 <= hh < 2 ^ 31 ->
  - 2 ^ 31 <= px < 2 ^ 31 -> - 2 ^ 31 <= py < 2 ^ 31 ->
  to_parent (Rect4 0 0 w hh) (mkPoint px py) = Rect4 px py (px + w) (py + hh).
Proof.
  intros Hw Hh Hpx Hpy. unfold to_parent. simpl.
  rewrite !to_ssize_small by lia. unfold Rect4. f_equal; f_equal; lia.
Qed.

(** C5 (the claim at a concrete input).  A clean 10 by 10 parent with a
    clean, hidden 2 by 2 child at (1, 1): after [move] of the child to (5, 5),
    [render] on the parent passes (1,1,3,3), the vacated footprint alone, to
    the parent's hook, not the bounding rectangle (1,1,7,7) of both
    footprints. *)
Lemma hidden_child_move_reports_old_footprint :
  exists h sp sc h1 h2,
    hidden_child_scene = Some h /\
    h !! 0%nat = Some sp /\ h !! 1%nat = Some sc /\
    mParent sc = Some 0%nat /\ mPos sc = mkPoint 1 1 /\
    valid (mDirty sp) = false /\ valid (mDirty sc) = false /\
    move_to 1%nat (mkPoint 5 5) h = Some (0, h1) /\
    render 1 0%nat h1 = Some (h2, [mkHook 0%nat (Rect4 1 1 3 3)]) /\
    intersect (mBounds sp) (boundingRect (bounds sc) (bounds (set_mPos (mkPoint 5 5) sc)))
      = Rect4 1 1 7 7 /\
    Rect4 1 1 3 3 <> Rect4 1 1 7 7.
Proof.
  do 5 eexists. split; [vm_compute; reflexivity|].
  split; [reflexivity|]. split; [reflexivity|].
  split; [reflexivity|]. split; [reflexivity|].
  split; [reflexivity|]. split; [reflexivity|].
  split; [vm_compute; reflexivity|]. split; [vm_compute; reflexivity|].
  split; [reflexivity | discriminate].
Qed.

(** When the parent has a parent of its own, that one's [render] marks the
    parent clean before the parent calls [renderDone(mDirty)]: in the three
    level scene, after the child has moved, the root's hook receives
    (1,1,7,7) and the hook of the child's parent the empty [Rect()]. *)
Lemma nested_parent_hook_receives_empty :
  exists h h1 h2,
    nested_scene = Some h /\
    move_to 2%nat (mkPoint 5 5) h = Some (0, h1) /\
    render 2 1%nat h1
      = Some (h2, [mkHook 0%nat (Rect4 1 1 7 7); mkHook 1%nat Rect0]).
Proof.
  do 3 eexists. split; [vm_compute; reflexivity|].
  split; [vm_compute; reflexivity|]. vm_compute. reflexivity.
Qed.

(** ** The rectangle of a buffer range *)

(** [invalidate(start, end)] on a sized surface, for a non-empty range of
    the buffer: the rectangle built lies within the bounds and contains the
    cell of every index of the range. *)
Lemma range_rect_covers W H start end_ :
  0 < W < 2 ^ 31 -> 0 <= H < 2 ^ 31 -> 0 <= start < end_ -> end_ <= W * H ->
  exists r, range_rect (Rect4 0 0 W H) start end_ = Some r /\
    valid r = true /\ encloses (Rect4 0 0 W H) r /\
    forall i, start <= i < end_ -> inside r (mkPoint (i mod W) (i / W)).
Proof.
  intros HW HH Hse He.
  assert (Hbig : W * H < 2 ^ 62).
  { assert (2 ^ 62 = 2 ^ 31 * 2 ^ 31) as -> by reflexivity. nia. }
  assert (Hs_mod := Z.mod_pos_bound start W ltac:(lia)).
  assert (He_mod := Z.mod_pos_bound (end_ - 1) W ltac:(lia)).
  assert (Hs_div : 0 <= start / W) by (apply Z.div_pos; lia).
  assert (He_div : (end_ - 1) / W < H) by (apply Z.div_lt_upper_bound; lia).
  assert (Hse_div : start / W <= (end_ - 1) / W) by (apply Z.div_le_mono; lia).
  assert (Hs_eq := Z.div_mod start W ltac:(lia)).
  assert (He_eq := Z.div_mod (end_ - 1) W ltac:(lia)).
  unfold range_rect, point_for. rewrite width_Rect4 by lia. rewrite Z.sub_0_r.
  assert ((W =? 0) = false) as -> by (apply Z.eqb_neq; lia). simpl.
  rewrite (to_size_pow (end_ - 1)) by lia.
  rewrite !Z.add_0_l. rewrite !to_ssize_pow by lia.
  destruct (start / W =? (end_ - 1) / W) eqn:Erow.
  - apply Z.eqb_eq in Erow. eexists. split; [reflexivity|].
    rewrite (to_ssize_pow ((end_ - 1) mod W)) by lia.
    rewrite !to_ssize_pow by lia. split; [|split].
    + apply valid_spec. simpl. nia.
    + unfold encloses. simpl. lia.
    + intros i Hi. unfold inside. simpl.
      assert (Hi_div1 : start / W <= i / W) by (apply Z.div_le_mono; lia).
      assert (Hi_div2 : i / W <= (end_ - 1) / W) by (apply Z.div_le_mono; lia).
      assert (Hi_eq := Z.div_mod i W ltac:(lia)).
      assert (Hrow : i / W = start / W) by lia.
      rewrite Hrow in Hi_eq. rewrite <- Erow in He_eq. lia.
  - apply Z.eqb_neq in Erow. eexists. split; [reflexivity|].
    rewrite !to_ssize_pow by lia. split; [|split].
    + apply valid_spec. simpl. lia.
    + unfold encloses. simpl. lia.
    + intros i Hi. unfold inside. simpl.
      assert (Hi_div1 : start / W <= i / W) by (apply Z.div_le_mono; lia).
      assert (Hi_div2 : i / W <= (end_ - 1) / W) by (apply Z.div_le_mono; lia).
      assert (Hi_mod := Z.mod_pos_bound i W ltac:(lia)). lia.
Qed.

(** ** Which operations keep the dirty rectangle within the bounds

    Every operation of [Surface] other than [resize] keeps, on every surface
    of the store, a valid dirty rectangle within the bounds. *)

Lemma dirty_in_bounds_same s s' :
  mDirty s' = mDirty s -> mBounds s' = mBounds s ->
  dirty_in_bounds s -> dirty_in_bounds s'.
Proof. unfold dirty_in_bounds. intros -> ->. auto. Qed.

Lemma dirty_in_bounds_reset s : dirty_in_bounds (set_mDirty Rect0 s).
Proof. intros Hv. discriminate Hv. Qed.

Lemma fill_dirty_ok pattern crop s rc s' :
  fill pattern crop s = Some (rc, s') -> dirty_in_bounds s -> dirty_in_bounds s'.
Proof.
  unfold fill. destruct (valid crop).
  - destruct (negb (valid (intersect (mBounds s) crop))).
    + intros [= _ <-]. auto.
    + intros H Hs. bind_inv H. injection H as _ <-.
      apply invalidate_rect_dirty_in_bounds.
      eapply dirty_in_bounds_same; [| |exact Hs]; reflexivity.
  - intros H Hs. bind_inv H. injection H as _ <-.
    apply invalidate_rect_dirty_in_bounds.
    eapply dirty_in_bounds_same; [| |exact Hs]; reflexivity.
Qed.

Lemma insert_dirty_ok (h : heap) p s :
  heap_dirty_ok h -> dirty_in_bounds s -> heap_dirty_ok (<[p := s]> h).
Proof.
  intros Hh Hs q a Ha. apply list_lookup_insert_Some in Ha as [(-> & <- & _) | (_ & Ha)].
  - exact Hs.
  - eapply Hh, Ha.
Qed.

Lemma update_dirty_ok p f (h h' : heap) :
  (forall s, dirty_in_bounds s -> dirty_in_bounds (f s)) ->
  update p f h = Some h' -> heap_dirty_ok h -> heap_dirty_ok h'.
Proof.
  intros Hf Hu Hh. apply update_Some in Hu as (s & Hs & ->).
  apply insert_dirty_ok; [exact Hh | eapply Hf, Hh, Hs].
Qed.

Lemma update_field_dirty_ok p f (h h' : heap) :
  (forall s, mDirty (f s) = mDirty s /\ mBounds (f s) = mBounds s) ->
  update p f h = Some h' -> heap_dirty_ok h -> heap_dirty_ok h'.
Proof.
  intros Hf. apply update_dirty_ok. intros s.
  apply dirty_in_bounds_same; apply Hf.
Qed.

Lemma update_invalidate_dirty_ok p (h h' : heap) :
  update p invalidate h = Some h' -> heap_dirty_ok h -> heap_dirty_ok h'.
Proof. apply update_dirty_ok. intros s _. apply invalidate_dirty_in_bounds. Qed.

Lemma update_invalidate_rect_dirty_ok p r (h h' : heap) :
  update p (invalidate_rect r) h = Some h' -> heap_dirty_ok h -> heap_dirty_ok h'.
Proof. apply update_dirty_ok. intros s. apply invalidate_rect_dirty_in_bounds. Qed.

Lemma update_reset_dirty_ok p (h h' : heap) :
  update p (set_mDirty Rect0) h = Some h' -> heap_dirty_ok h -> heap_dirty_ok h'.
Proof. apply update_dirty_ok. intros s _. apply dirty_in_bounds_reset. Qed.

Lemma fill_heap_dirty_ok p pattern crop (h h' : heap) rc :
  on_surface p (fill pattern crop) h = Some (rc, h') -> heap_dirty_ok h -> heap_dirty_ok h'.
Proof.
  intros H Hh. apply on_surface_Some in H as (s & s' & Hs & Hf & ->).
  apply insert_dirty_ok; [exact Hh | eapply fill_dirty_ok; [exact Hf | eapply Hh, Hs]].
Qed.

Lemma write_cell_dirty_ok p i c (h h' : heap) :
  write_cell p i c h = Some h' -> heap_dirty_ok h -> heap_dirty_ok h'.
Proof.
  unfold write_cell. intros H Hh. bind_inv H. bind_inv H. injection H as <-.
  apply insert_dirty_ok; [exact Hh|].
  eapply dirty_in_bounds_same; [| |eapply Hh, E]; reflexivity.
Qed.

Lemma blend_dirty_ok this other src_crop pos (h h' : heap) rc :
  blend this other src_crop pos h = Some (rc, h') -> heap_dirty_ok h -> heap_dirty_ok h'.
Proof.
  unfold blend. intros H. bind_inv H. bind_inv H.
  destruct (negb _ || negb _).
  - injection H as _ <-. auto.
  - bind_inv H. bind_inv H. injection H as _ <-. intros Hh.
    eapply update_invalidate_rect_dirty_ok; [exact E2|]. revert Hh. unfold for_ in E1.
    eapply (loop_rel (fun a b : heap => heap_dirty_ok a -> heap_dirty_ok b));
      [auto | auto | | exact E1].
    intros yy g g' Hin. unfold for_ in Hin.
    eapply (loop_rel (fun a b : heap => heap_dirty_ok a -> heap_dirty_ok b));
      [auto | auto | | exact Hin].
    intros xx a b Hc. unfold blend_cell in Hc. bind_inv Hc.
    destruct (negb (is_transparent c)).
    + eapply write_cell_dirty_ok, Hc.
    + injection Hc as <-. auto.
Qed.

(** Walk back along the steps of an operation, each of which keeps the
    invariant. *)
Ltac step_ok :=
  simpl in *;
  match goal with
  | p : (_ * _)%type |- _ => destruct p; simpl in *
  | H : Some _ = Some _ |- _ => injection H; clear H; intros; subst
  | H : heap_dirty_ok ?h |- heap_dirty_ok ?h => exact H
  | E : update _ invalidate _ = Some ?h |- heap_dirty_ok ?h =>
      eapply update_invalidate_dirty_ok; [exact E|]; clear E
  | E : update _ (invalidate_rect _) _ = Some ?h |- heap_dirty_ok ?h =>
      eapply update_invalidate_rect_dirty_ok; [exact E|]; clear E
  | E : update _ (set_mDirty Rect0) _ = Some ?h |- heap_dirty_ok ?h =>
      eapply update_reset_dirty_ok; [exact E|]; clear E
  | E : update _ _ _ = Some ?h |- heap_dirty_ok ?h =>
      eapply update_field_dirty_ok; [|exact E|]; [split; reflexivity|]; clear E
  | E : on_surface _ (fill _ _) _ = Some (_, ?h) |- heap_dirty_ok ?h =>
      eapply fill_heap_dirty_ok; [exact E|]; clear E
  | E : on_surface _ (clear _) _ = Some (_, ?h) |- heap_dirty_ok ?h =>
      eapply fill_heap_dirty_ok; [exact E|]; clear E
  | E : blend _ _ _ _ _ = Some (_, ?h) |- heap_dirty_ok ?h =>
      eapply blend_dirty_ok; [exact E|]; clear E
  end.

Ltac steps_ok H := repeat bind_inv H; repeat step_ok.

Lemma addLayer_dirty_ok this sf k (h h' : heap) rc :
  addLayer this sf k h = Some (rc, h') -> heap_dirty_ok h -> heap_dirty_ok h'.
Proof.
  unfold addLayer. intros H Hh. bind_inv H.
  destruct (mParent s); [injection H as _ <-; exact Hh|].
  steps_ok H.
Qed.

Lemma addLayer_at_dirty_ok this sf pos k (h h' : heap) rc :
  addLayer_at this sf pos k h = Some (rc, h') -> heap_dirty_ok h -> heap_dirty_ok h'.
Proof.
  unfold addLayer_at. intros H Hh. bind_inv H.
  destruct (mParent s); [injection H as _ <-; exact Hh|].
  steps_ok H.
Qed.

Lemma removeLayer_dirty_ok this sf (h h' : heap) rc :
  removeLayer this sf h = Some (rc, h') -> heap_dirty_ok h -> heap_dirty_ok h'.
Proof.
  unfold removeLayer. intros H Hh. bind_inv H.
  destruct (negb _); [injection H as _ <-; exact Hh|]. bind_inv H.
  destruct (layer_of sf _); [|injection H as _ <-; exact Hh].
  steps_ok H.
Qed.

Lemma moveLayer_dirty_ok this sf k (h h' : heap) rc :
  moveLayer this sf k h = Some (rc, h') -> heap_dirty_ok h -> heap_dirty_ok h'.
Proof.
  unfold moveLayer. intros H Hh. bind_inv H.
  destruct (negb _); [injection H as _ <-; exact Hh|]. bind_inv H.
  destruct (layer_of sf _); [|injection H as _ <-; exact Hh].
  steps_ok H.
Qed.

Lemma show_dirty_ok this (h h' : heap) :
  show this h = Some h' -> heap_dirty_ok h -> heap_dirty_ok h'.
Proof. unfold show. intros H Hh. steps_ok H. Qed.

Lemma invalidate_in_parent_dirty_ok this (h h' : heap) :
  invalidate_in_parent this h = Some h' -> heap_dirty_ok h -> heap_dirty_ok h'.
Proof.
  unfold invalidate_in_parent. intros H Hh. bind_inv H.
  destruct (mParent s); [|injection H as <-; exact Hh].
  steps_ok H.
Qed.

Lemma hide_dirty_ok this (h h' : heap) :
  hide this h = Some h' -> heap_dirty_ok h -> heap_dirty_ok h'.
Proof.
  unfold hide. intros H Hh. bind_inv H. step_ok.
  eapply invalidate_in_parent_dirty_ok; eassumption.
Qed.

Lemma move_to_dirty_ok this pos (h h' : heap) rc :
  move_to this pos h = Some (rc, h') -> heap_dirty_ok h -> heap_dirty_ok h'.
Proof.
  unfold move_to. intros H Hh. bind_inv H. bind_inv H. injection H as _ <-. step_ok.
  eapply invalidate_in_parent_dirty_ok; eassumption.
Qed.

Lemma move_to_z_dirty_ok this pos k (h h' : heap) rc :
  move_to_z this pos k h = Some (rc, h') -> heap_dirty_ok h -> heap_dirty_ok h'.
Proof.
  unfold move_to_z. intros H Hh. bind_inv H.
  destruct (mParent s) as [q|].
  - destruct (invalidate_in_parent this h) as [h1|] eqn:E1; simpl in H; [|discriminate H].
    destruct (moveLayer q this k h1) as [[rc' g]|] eqn:E2; simpl in H; [|discriminate H].
    bind_inv H. injection H as _ <-. step_ok.
    eapply moveLayer_dirty_ok; [exact E2|].
    eapply invalidate_in_parent_dirty_ok; eassumption.
  - steps_ok H.
Qed.

Lemma moveZ_dirty_ok this k (h h' : heap) rc :
  moveZ this k h = Some (rc, h') -> heap_dirty_ok h -> heap_dirty_ok h'.
Proof.
  unfold moveZ. intros H Hh. bind_inv H.
  destruct (mParent s); [|injection H as _ <-; exact Hh].
  bind_inv H. eapply moveLayer_dirty_ok; [exact H|]. repeat step_ok.
Qed.

Lemma collect_dirty_ok this sf (h h' : heap) :
  collect_dirty this sf h = Some h' -> heap_dirty_ok h -> heap_dirty_ok h'.
Proof.
  unfold collect_dirty. intros H Hh. bind_inv H.
  destruct (mVisible s && valid (mDirty s)); repeat step_ok.
Qed.

Lemma blend_layer_dirty_ok this sf (h h' : heap) :
  blend_layer this sf h = Some h' -> heap_dirty_ok h -> heap_dirty_ok h'.
Proof.
  unfold blend_layer. intros H Hh. bind_inv H.
  destruct (mVisible s && valid (mBounds s)); [|repeat step_ok].
  bind_inv H. bind_inv H. repeat step_ok.
Qed.

Lemma collect_loop_dirty_ok this kids (h h' : heap) :
  for_each kids (collect_dirty this) h = Some h' -> heap_dirty_ok h -> heap_dirty_ok h'.
Proof.
  apply (for_each_rel (fun a b : heap => heap_dirty_ok a -> heap_dirty_ok b)); [auto | auto |].
  intros a g g'. apply collect_dirty_ok.
Qed.

Lemma blend_loop_dirty_ok this kids (h h' : heap) :
  for_each kids (blend_layer this) h = Some h' -> heap_dirty_ok h -> heap_dirty_ok h'.
Proof.
  apply (for_each_rel (fun a b : heap => heap_dirty_ok a -> heap_dirty_ok b)); [auto | auto |].
  intros a g g'. apply blend_layer_dirty_ok.
Qed.

Lemma render_dirty_ok fuel : forall this (h h' : heap) out,
  render fuel this h = Some (h', out) -> heap_dirty_ok h -> heap_dirty_ok h'.
Proof.
  induction fuel as [|fuel IH]; intros this h h' out; [discriminate|].
  rewrite render_S. unfold render_body. intros H Hh.
  bind_inv H.
  destruct (for_each _ (collect_dirty this) h) as [h1|] eqn:Hcol; simpl in H; [|discriminate H].
  pose proof (collect_loop_dirty_ok _ _ _ _ Hcol Hh) as Hh1.
  bind_inv H. destruct (negb (valid (mDirty s0))); [injection H as <- _; exact Hh1|].
  destruct (match mLayerMap s0 with [] => Some h1 | _ => _ end) as [h2|] eqn:Hclr;
    simpl in H; [|discriminate H].
  assert (Hh2 : heap_dirty_ok h2).
  { destruct (mLayerMap s0); [injection Hclr as <-; exact Hh1|].
    bind_inv Hclr. repeat step_ok. }
  destruct (for_each _ (blend_layer this) h2) as [h3|] eqn:Hbl; simpl in H; [|discriminate H].
  pose proof (blend_loop_dirty_ok _ _ _ _ Hbl Hh2) as Hh3.
  bind_inv H.
  destruct (match mParent s1 with Some q => _ | None => _ end) as [[h4 o4]|] eqn:Hup;
    simpl in H; [|discriminate H].
  assert (Hh4 : heap_dirty_ok h4).
  { destruct (mParent s1); [eapply IH; eassumption | injection Hup as <- _; exact Hh3]. }
  bind_inv H. bind_inv H. injection H as <- _. repeat step_ok.
Qed.

(** ** The scenario of the 2 by 2 child *)

(** C2 (the claim at a concrete input).  With a freshly constructed root,
    which is dirty all over, the hook receives the whole root (0,0,10,10),
    not (2,2,4,4). *)
Lemma fresh_root_reports_whole_surface :
  exists h h', fresh_root_scene = Some h /\
    render 1 0%nat h = Some (h', [mkHook 0%nat (Rect4 0 0 10 10)]) /\
    Rect4 0 0 10 10 <> Rect4 2 2 4 4.
Proof.
  do 2 eexists. split; [vm_compute; reflexivity|].
  split; [vm_compute; reflexivity | discriminate].
Qed.

(** C2 (amended).  A 10 by 10 root filled with any pattern [pat] and clean
    (rendered once) receives a 2 by 2 child of ['b'] at Z = 1, position
    (2, 2).  Then [render] on the root returns, invokes the root's hook once,
    with (2,2,4,4), and leaves in the root's buffer ['b'] at the offsets
    (2,2) to (3,3) and [pat] at every other offset. *)
Theorem render_2x2_child_on_clean_root (pat : Char) :
  exists h h' root,
    clean_root_scene pat = Some h /\
    render 1 0%nat h = Some (h', [mkHook 0%nat (Rect4 2 2 4 4)]) /\
    h' !! 0%nat = Some root /\ mBounds root = Rect4 0 0 10 10 /\
    forall cx cy, 0 <= cx < 10 -> 0 <= cy < 10 ->
      buf_read (mData root) (offset (mBounds root) (mkPoint cx cy)) =
      Some (if (2 <=? cx) && (cx <? 4) && (2 <=? cy) && (cy <? 4) then glyph_b else pat).
Proof.
  do 3 eexists. split; [vm_compute; reflexivity|].
  split; [vm_compute; reflexivity|].
  split; [reflexivity|]. split; [reflexivity|].
  intros cx cy Hcx Hcy.
  assert (Ex : cx = 0 \/ cx = 1 \/ cx = 2 \/ cx = 3 \/ cx = 4 \/ cx = 5 \/ cx = 6 \/
               cx = 7 \/ cx = 8 \/ cx = 9) by lia.
  assert (Ey : cy = 0 \/ cy = 1 \/ cy = 2 \/ cy = 3 \/ cy = 4 \/ cy = 5 \/ cy = 6 \/
               cy = 7 \/ cy = 8 \/ cy = 9) by lia.
  clear Hcx Hcy.
  repeat (destruct Ex as [->|Ex]); try subst cx;
    repeat (destruct Ey as [->|Ey]); try subst cy; reflexivity.
Qed.

(** ** The theorems at concrete inputs *)

Lemma render_twice_noop_witness :
  exists h1, render 1 0%nat clean_root_heap = Some (h1, [mkHook 0%nat (Rect4 2 2 4 4)]) /\
    forall fuel2, render (S fuel2) 0%nat h1 = Some (h1, []).
Proof.
  eexists. split; [vm_compute; reflexivity|].
  eapply (render_twice_noop 1 0%nat clean_root_heap).
  - reflexivity.
  - intros c sc Hin Hc. simpl in Hin. apply list_elem_of_singleton in Hin. subst c.
    injection Hc as <-. intros _. apply covers_refl.
  - vm_compute. reflexivity.
Defined.

Lemma blend_transparent_source_witness :
  exists h', blend 0%nat 1%nat (Rect4 0 0 2 2) (mkPoint 1 1) glass_heap = Some (0, h') /\
    forall p s, glass_heap !! p = Some s -> exists s', h' !! p = Some s' /\ mData s' = mData s.
Proof.
  exists (default [] (snd <$> blend 0%nat 1%nat (Rect4 0 0 2 2) (mkPoint 1 1) glass_heap)).
  split; [vm_compute; reflexivity|].
  assert (Ho : glass_heap !! 1%nat = Some (default Surface0 (glass_heap !! 1%nat)))
    by reflexivity.
  destruct (blend_transparent_source 0%nat 1%nat (Rect4 0 0 2 2) (mkPoint 1 1) glass_heap
              (default [] (snd <$> blend 0%nat 1%nat (Rect4 0 0 2 2) (mkPoint 1 1) glass_heap))
              _ 0 Ho)
    as (t & _ & _ & _ & Hdata).
  - repeat constructor.
  - vm_compute. reflexivity.
  - exact Hdata.
Defined.

Lemma addLayer_already_attached_witness :
  addLayer 0%nat 1%nat 5 settled_heap = Some (- EINVAL, settled_heap) /\
  addLayer_at 0%nat 1%nat (mkPoint 3 3) 5 settled_heap = Some (- EINVAL, settled_heap) /\
  - EINVAL < 0.
Proof.
  apply (addLayer_already_attached 0%nat 1%nat (mkPoint 3 3) 5 settled_heap
           (default Surface0 (settled_heap !! 1%nat)) 0%nat); reflexivity.
Defined.


Lemma move_to_returns_zero_witness :
  exists h' t', move_to 1%nat (mkPoint 7 7) glass_heap = Some (0, h') /\
    h' !! 1%nat = Some t' /\ mPos t' = mkPoint 7 7 /\
    h' !! 0%nat = glass_heap !! 0%nat.
Proof.
  assert (Ht : glass_heap !! 1%nat = Some (default Surface0 (glass_heap !! 1%nat)))
    by reflexivity.
  destruct (move_to_returns_zero 1%nat (mkPoint 7 7) glass_heap _ Ht)
    as (h' & t' & Hm & Hl & Hpos & Hd).
  - intros q Hq. discriminate Hq.
  - exists h', t'. split; [exact Hm|]. split; [exact Hl|]. split; [exact Hpos|].
    apply (Hd eq_refl). discriminate.
Defined.

(** ** Translating a rectangle *)

Lemma to_ssize_cong z : exists k, to_ssize z = z + k * 2 ^ 64.
Proof.
  unfold to_ssize. exists (- ((z + 2 ^ 63) / 2 ^ 64)).
  pose proof (Z.div_mod (z + 2 ^ 63) (2 ^ 64) ltac:(lia)). lia.
Qed.

Lemma to_size_shift z k : to_size (z + k * 2 ^ 64) = to_size z.
Proof. unfold to_size. apply Z.mod_add. lia. Qed.

Lemma to_size_cong z : exists k, to_size z = z + k * 2 ^ 64.
Proof.
  unfold to_size. exists (- (z / 2 ^ 64)).
  pose proof (Z.div_mod z (2 ^ 64) ltac:(lia)). lia.
Qed.

Lemma to_size_idem z : to_size (to_size z) = to_size z.
Proof. unfold to_size. apply Z.mod_mod. lia. Qed.

(* the difference of the corners survives the round trip through size_t and ssize_t *)
Lemma move_extent a d : to_size (to_ssize (a + to_ssize (to_size d)) - a) = to_size d.
Proof.
  destruct (to_ssize_cong (to_size d)) as [k2 E2].
  destruct (to_ssize_cong (a + to_ssize (to_size d))) as [k3 E3].
  rewrite E3, E2.
  replace (a + (to_size d + k2 * 2 ^ 64) + k3 * 2 ^ 64 - a)
    with (to_size d + (k2 + k3) * 2 ^ 64) by lia.
  rewrite to_size_shift. apply to_size_idem.
Qed.

Lemma to_ssize_to_size_small d : - 2 ^ 63 <= d < 2 ^ 63 -> to_ssize (to_size d) = d.
Proof.
  intros Hd. unfold to_ssize, to_size.
  destruct (Z_lt_le_dec d 0).
  - replace (d mod 2 ^ 64) with (d + 2 ^ 64).
    + replace (d + 2 ^ 64 + 2 ^ 63) with (d + 2 ^ 63 + 1 * 2 ^ 64) by lia.
      rewrite Z.mod_add by lia. rewrite Z.mod_small; lia.
    + symmetry. replace d with (d + 2 ^ 64 + (-1) * 2 ^ 64) at 1 by lia.
      rewrite Z.mod_add by lia. apply Z.mod_small. lia.
  - rewrite (Z.mod_small d) by lia. rewrite Z.mod_small; lia.
Qed.

(** X1. [Rect::move] puts the top-left corner at [pos] and keeps the width
    and the height, for every rectangle and position (the extents are
    computed modulo 2^64).  With coordinates far from the limits of
    [ssize_t] it is the translation of the rectangle: the bottom-right corner
    is [pos] plus the extents, validity is kept, a point is inside the moved
    rectangle exactly when the point translated back is inside the original,
    and moving back to the original corner restores the rectangle. *)
Theorem move_is_translation (r : Rect) (pos : Point) :
  top (move r pos) = pos /\
  width (move r pos) = width r /\ height (move r pos) = height r /\
  (small_rect r -> small_point pos ->
   small (x pos + (x (bottom r) - x (top r))) ->
   small (y pos + (y (bottom r) - y (top r))) ->
   bottom (move r pos) = mkPoint (x pos + (x (bottom r) - x (top r)))
                                 (y pos + (y (bottom r) - y (top r))) /\
   valid (move r pos) = valid r /\
   (forall p, inside (move r pos) p <->
      inside r (mkPoint (x p - x pos + x (top r)) (y p - y pos + y (top r)))) /\
   move (move r pos) (top r) = r).
Proof.
  destruct r as [[tx ty] [bx by_]], pos as [px py].
  split; [reflexivity|]. split; [apply move_extent|]. split; [apply move_extent|].
  unfold small_rect, small_point, small; simpl. intros [[? ?] [? ?]] [? ?] ? ?.
  assert (Hb : bottom (move (mkRect (mkPoint tx ty) (mkPoint bx by_)) (mkPoint px py))
               = mkPoint (px + (bx - tx)) (py + (by_ - ty))).
  { unfold move, width, height; simpl.
    rewrite !to_ssize_to_size_small by lia. rewrite !to_ssize_small by lia. reflexivity. }
  split; [exact Hb|].
  assert (Hm : move (mkRect (mkPoint tx ty) (mkPoint bx by_)) (mkPoint px py)
               = mkRect (mkPoint px py) (mkPoint (px + (bx - tx)) (py + (by_ - ty)))).
  { rewrite <- Hb. reflexivity. }
  rewrite Hm. split; [|split].
  - unfold valid; simpl.
    destruct (Z.ltb_spec tx bx), (Z.ltb_spec ty by_),
      (Z.ltb_spec px (px + (bx - tx))), (Z.ltb_spec py (py + (by_ - ty))); simpl; lia.
  - intros [qx qy]. unfold inside; simpl. lia.
  - unfold move, width, height; simpl.
    replace (px + (bx - tx) - px) with (bx - tx) by lia.
    replace (py + (by_ - ty) - py) with (by_ - ty) by lia.
    rewrite !to_ssize_to_size_small by lia. rewrite !to_ssize_small by lia.
    do 2 f_equal; lia.
Qed.

Lemma move_is_translation_witness :
  move (Rect4 2 3 7 5) (mkPoint (-4) 10) = Rect4 (-4) 10 1 12 /\
  move (move (Rect4 2 3 7 5) (mkPoint (-4) 10)) (mkPoint 2 3) = Rect4 2 3 7 5.
Proof.
  destruct (move_is_translation (Rect4 2 3 7 5) (mkPoint (-4) 10)) as (Ht & _ & _ & Hs).
  destruct Hs as (Hb & _ & _ & Hr).
  - unfold small_rect, small_point, small; simpl; lia.
  - unfold small_point, small; simpl; lia.
  - unfold small; simpl; lia.
  - unfold small; simpl; lia.
  - split; [|exact Hr].
    destruct (move (Rect4 2 3 7 5) (mkPoint (-4) 10)) as [t b]. simpl in *. subst. reflexivity.
Defined.

(** ** Cells and indices; the lattice of rectangles *)

(** X2. On a valid rectangle of moderate extent, [size] is the
    product of the two side lengths, and [index_for] and [point_for] are
    inverse to one another: every cell inside the rectangle has an index
    below [size] from which [point_for] gives the cell back, and every index
    below [size] is the index of the cell [point_for] returns for it, which
    is inside the rectangle. *)
Theorem point_for_index_for_roundtrip (r : Rect) (p : Point) (i : Z) :
  small_rect r -> valid r = true ->
  x (bottom r) - x (top r) < 2 ^ 31 -> y (bottom r) - y (top r) < 2 ^ 31 ->
  size r = (x (bottom r) - x (top r)) * (y (bottom r) - y (top r)) /\
  (inside r p -> 0 <= index_for r p < size r /\ point_for r (index_for r p) = Some p) /\
  (0 <= i < size r ->
     exists q, point_for r i = Some q /\ inside r q /\ index_for r q = i).
Proof.
  destruct r as [[tx ty] [bx by_]], p as [px py].
  unfold small_rect, small_point, small; simpl. intros [[Hs1 Hs2] [Hs3 Hs4]] Hv HW HH.
  apply valid_spec in Hv; simpl in Hv. destruct Hv as [Hvx Hvy].
  set (W := bx - tx) in *. set (H := by_ - ty) in *.
  assert (HWH : 0 < W * H < 2 ^ 62) by nia.
  assert (Ew : width (mkRect (mkPoint tx ty) (mkPoint bx by_)) = W).
  { unfold width; simpl. apply to_size_small. subst W. lia. }
  assert (Eh : height (mkRect (mkPoint tx ty) (mkPoint bx by_)) = H).
  { unfold height; simpl. apply to_size_small. subst H. lia. }
  assert (Es : size (mkRect (mkPoint tx ty) (mkPoint bx by_)) = W * H).
  { unfold size. rewrite Ew, Eh. apply to_size_small. lia. }
  split; [exact Es|]. rewrite Es. split.
  - unfold inside; simpl. intros [Hx Hy].
    assert (Ei : index_for (mkRect (mkPoint tx ty) (mkPoint bx by_)) (mkPoint px py)
                 = (py - ty) * W + (px - tx)).
    { unfold index_for. rewrite Ew. simpl. apply to_size_small. subst W H. nia. }
    rewrite Ei. split; [subst W H; nia|].
    unfold point_for. rewrite Ew.
    destruct (Z.eqb_spec W 0); [lia|]. simpl.
    assert (Em : ((py - ty) * W + (px - tx)) mod W = px - tx).
    { rewrite Z.add_comm, Z.mod_add by lia. apply Z.mod_small. subst W; lia. }
    assert (Ed : ((py - ty) * W + (px - tx)) / W = py - ty).
    { rewrite Z.add_comm, Z.div_add by lia. rewrite Z.div_small by (subst W; lia). lia. }
    rewrite Em, Ed. rewrite !to_ssize_small by lia. do 2 f_equal; lia.
  - intros Hi.
    unfold point_for. rewrite Ew. destruct (Z.eqb_spec W 0); [lia|]. simpl.
    pose proof (Z.mod_pos_bound i W ltac:(lia)) as Hm.
    assert (Hd : 0 <= i / W < H).
    { split; [apply Z.div_pos; lia|]. apply Z.div_lt_upper_bound; lia. }
    rewrite !to_ssize_small by (subst W H; lia).
    eexists; split; [reflexivity|]. split.
    + unfold inside; simpl. subst W H. lia.
    + unfold index_for. rewrite Ew. simpl.
      replace ((ty + i / W - ty) * W + (tx + i mod W - tx)) with (W * (i / W) + i mod W) by lia.
      rewrite <- Z.div_mod by lia. apply to_size_small. lia.
Qed.

Lemma point_for_index_for_roundtrip_witness :
  index_for (Rect4 3 (-2) 8 2) (mkPoint 5 0) = 12 /\
  point_for (Rect4 3 (-2) 8 2) 12 = Some (mkPoint 5 0).
Proof.
  destruct (point_for_index_for_roundtrip (Rect4 3 (-2) 8 2) (mkPoint 5 0) 12)
    as (_ & Hp & _).
  - unfold small_rect, small_point, small; simpl; lia.
  - reflexivity.
  - simpl; lia.
  - simpl; lia.
  - split; [reflexivity|]. apply Hp. unfold inside; simpl; lia.
Defined.

(** X3. Under componentwise containment, [Rect::intersect] is the
    greatest rectangle enclosed by both arguments and [Rect::boundingRect]
    the least rectangle enclosing both; both are commutative, associative
    and idempotent, and each absorbs the other. *)
Theorem intersect_boundingRect_lattice (r1 r2 r3 : Rect) :
  (forall r, encloses r1 r /\ encloses r2 r <-> encloses (intersect r1 r2) r) /\
  (forall r, encloses r r1 /\ encloses r r2 <-> encloses r (boundingRect r1 r2)) /\
  intersect r1 r2 = intersect r2 r1 /\ boundingRect r1 r2 = boundingRect r2 r1 /\
  intersect r1 (intersect r2 r3) = intersect (intersect r1 r2) r3 /\
  boundingRect r1 (boundingRect r2 r3) = boundingRect (boundingRect r1 r2) r3 /\
  intersect r1 r1 = r1 /\ boundingRect r1 r1 = r1 /\
  intersect r1 (boundingRect r1 r2) = r1 /\ boundingRect r1 (intersect r1 r2) = r1.
Proof.
  destruct r1 as [[tx1 ty1] [bx1 by1]], r2 as [[tx2 ty2] [bx2 by2]],
    r3 as [[tx3 ty3] [bx3 by3]].
  unfold encloses, intersect, boundingRect; simpl.
  split; [intros [[tx ty] [bx by_]]; simpl; lia|].
  split; [intros [[tx ty] [bx by_]]; simpl; lia|].
  repeat split; f_equal; f_equal; lia.
Qed.

(** ** The contract of [fill] *)

Lemma fill_all_spec pattern : forall n (data : list Char),
  (n <= length data)%nat ->
  fill_all n pattern data = Some (replicate n pattern ++ drop n data).
Proof.
  induction n as [|k IH]; intros data Hn; simpl.
  - rewrite drop_0. reflexivity.
  - unfold buf_write. rewrite Nat2Z.id.
    destruct (Nat.ltb_spec k (length data)); [|lia].
    rewrite IH by (rewrite length_insert; lia).
    f_equal.
    rewrite drop_insert_ge by lia. rewrite Nat.sub_diag.
    destruct (lookup_lt_is_Some_2 data k ltac:(lia)) as [c Hc].
    rewrite (drop_S data c k Hc). simpl.
    rewrite app_comm_cons, replicate_cons_app, <- app_assoc. reflexivity.
Qed.

Lemma intersect_idem_l b r : intersect b (intersect b r) = intersect b r.
Proof.
  destruct b as [[? ?] [? ?]], r as [[? ?] [? ?]]. unfold intersect; simpl.
  f_equal; f_equal; lia.
Qed.

Lemma invalidate_rect_clip r s :
  invalidate_rect (intersect (mBounds s) r) s = invalidate_rect r s.
Proof. unfold invalidate_rect. rewrite intersect_idem_l. reflexivity. Qed.

Lemma fill_whole (W H : Z) (s : Surface) (pattern : Char) (crop : Rect) :
  sized W H s -> valid crop = false ->
  fill pattern crop s
    = Some (0, invalidate_rect (mBounds s)
                 (set_mData (replicate (Z.to_nat (W * H)) pattern) s)).
Proof.
  intros (HW & HH & Hb & Hlen) Hv. unfold fill. rewrite Hv.
  assert (Esz : Z.to_nat (size (mBounds s)) = Z.to_nat (W * H)).
  { rewrite Hb. unfold size. rewrite width_Rect4, height_Rect4 by lia.
    rewrite to_size_small by nia. f_equal. lia. }
  rewrite Esz, fill_all_spec by lia. simpl.
  rewrite <- Hlen, drop_all, app_nil_r. reflexivity.
Qed.

(** X4. [Surface::fill] on a surface whose buffer has the size of its
    bounds.  With an invalid crop (the default [Rect()]) every cell becomes
    the pattern and the whole surface is invalidated.  With a valid crop
    that misses the bounds it returns [-EINVAL] and changes nothing.  With a
    valid crop that meets the bounds it returns 0, the cells inside the crop
    become the pattern, all other cells keep their value, the buffer keeps
    its length, and the crop is invalidated. *)
Theorem fill_contract (W H : Z) (s : Surface) (pattern : Char) (crop : Rect) :
  sized W H s ->
  (valid crop = false ->
     fill pattern crop s
       = Some (0, invalidate_rect (mBounds s)
                    (set_mData (replicate (Z.to_nat (W * H)) pattern) s))) /\
  (valid crop = true -> valid (intersect (mBounds s) crop) = false ->
     fill pattern crop s = Some (- EINVAL, s)) /\
  (valid crop = true -> valid (intersect (mBounds s) crop) = true ->
     exists d', fill pattern crop s = Some (0, invalidate_rect crop (set_mData d' s)) /\
       length d' = length (mData s) /\
       forall cx cy, 0 <= cx < W -> 0 <= cy < H ->
         cell_at W d' cx cy =
         if insideb crop (mkPoint cx cy) then Some pattern else cell_at W (mData s) cx cy).
Proof.
  intros Hs. pose proof Hs as (HW & HH & Hb & Hlen).
  split; [|split].
  - intros Hv. apply fill_whole; assumption.
  - intros Hv Hi. unfold fill. rewrite Hv, Hi. reflexivity.
  - intros Hv Hi.
    destruct (fill_spec W H s pattern (intersect (mBounds s) crop) Hs Hi) as (d' & Hf & Hl & Hc).
    { rewrite <- Hb. apply intersect_enclosed_l. }
    exists d'. split; [|split; [exact Hl|]].
    + unfold fill in *. rewrite Hv. rewrite Hi. simpl.
      rewrite Hi, intersect_idem_l, Hi in Hf. simpl in Hf.
      rewrite Hf. f_equal. f_equal.
      apply (invalidate_rect_clip crop (set_mData d' s)).
    + intros cx cy Hx Hy. rewrite (Hc cx cy Hx Hy).
      replace (insideb (intersect (mBounds s) crop) (mkPoint cx cy))
        with (insideb crop (mkPoint cx cy)); [reflexivity|].
      apply eq_true_iff_eq. rewrite !insideb_spec, intersect_inside.
      rewrite Hb. unfold inside; simpl. lia.
Qed.

(** ** Construction *)

Lemma intersect_self r : intersect r r = r.
Proof. destruct r as [[? ?] [? ?]]. unfold intersect; simpl. f_equal; f_equal; lia. Qed.

Lemma clear_all_sized w hh s :
  0 <= w < 2 ^ 31 -> 0 <= hh < 2 ^ 31 ->
  mBounds s = Rect4 0 0 w hh -> length (mData s) = Z.to_nat (w * hh) ->
  clear Rect0 s
    = Some (0, invalidate_rect (mBounds s)
                 (set_mData (replicate (Z.to_nat (w * hh)) blank) s)).
Proof.
  intros Hw Hh Hb Hl.
  apply (fill_whole w hh s blank Rect0); [|reflexivity].
  split; [exact Hw|]. split; [exact Hh|]. split; assumption.
Qed.

Lemma lookup_snoc (h : heap) s : (h ++ [s]) !! length h = Some s.
Proof. rewrite lookup_app_r by lia. rewrite Nat.sub_diag. reflexivity. Qed.

Lemma insert_snoc (h : heap) s s' : <[length h := s']> (h ++ [s]) = h ++ [s'].
Proof.
  replace (length h) with (length h + 0)%nat at 1 by lia.
  rewrite insert_app_r. reflexivity.
Qed.

Lemma new_Char_array_None n :
  new_Char_array n = None <-> PTRDIFF_MAX < n * sizeof_Char.
Proof.
  unfold new_Char_array. destruct (Z.leb_spec (n * sizeof_Char) PTRDIFF_MAX).
  - split; [discriminate|lia].
  - split; [intros _; assumption|reflexivity].
Qed.

Lemma new_Char_array_Some n d :
  new_Char_array n = Some d -> d = replicate (Z.to_nat n) blank.
Proof.
  unfold new_Char_array. destruct (n * sizeof_Char <=? PTRDIFF_MAX); [|discriminate].
  intros [= <-]. reflexivity.
Qed.

(** When [resize] returns, the allocation has succeeded and the rest of the
    body has run. *)
Lemma resize_Some this w hh (h : heap) r :
  resize this w hh h = Some r ->
  (h1 ← update this (set_mData (replicate (Z.to_nat (to_size (w * hh))) blank)) h;
   t ← h1 !! this;
   h2 ← match mParent t with
        | Some q => update q (invalidate_rect (bounds t)) h1
        | None => Some h1
        end;
   h3 ← update this (set_mBounds (Rect4 0 0 (to_ssize w) (to_ssize hh))) h2;
   r ← on_surface this (clear Rect0) h3;
   Some (0, snd r)) = Some r.
Proof.
  unfold resize. destruct (new_Char_array (to_size (w * hh))) as [d|] eqn:Hd;
    [|discriminate].
  apply new_Char_array_Some in Hd. subst d. trivial.
Qed.

(** The constructor, once the allocation has succeeded. *)
Lemma new_Surface_allocated (w hh : Z) (h : heap) d :
  0 <= w < 2 ^ 31 -> 0 <= hh < 2 ^ 31 ->
  new_Char_array (w * hh) = Some d ->
  new_Surface w hh h
    = Some (h ++ [mkSurface (Rect4 0 0 w hh) (Rect4 0 0 w hh) (mkPoint 0 0) true None
                            (replicate (Z.to_nat (w * hh)) blank) []],
            length h).
Proof.
  intros Hw Hh Hd. unfold new_Surface, resize.
  rewrite to_size_small by nia. rewrite Hd. cbn [mbind option_bind].
  rewrite (update_lookup _ _ _ _ (lookup_snoc h Surface0)). simpl.
  rewrite insert_snoc, lookup_snoc. simpl.
  rewrite (update_lookup _ _ _ _ (lookup_snoc h _)). simpl.
  rewrite insert_snoc. unfold on_surface. rewrite lookup_snoc. simpl.
  rewrite !to_ssize_small by lia.
  rewrite (new_Char_array_Some _ _ Hd).
  erewrite clear_all_sized; [|exact Hw|exact Hh|reflexivity|].
  2:{ simpl. rewrite length_replicate. reflexivity. }
  simpl. rewrite insert_snoc.
  unfold invalidate_rect; simpl. rewrite intersect_self. reflexivity.
Qed.

(** X5. The constructor [Surface(width, height)], for extents an
    [int] holds.  It fails exactly when its allocation does, and the
    allocation fails when the array asked for is larger than the largest
    object ([std::bad_array_new_length]); then no surface results.  Whenever
    it returns, it has allocated one new surface at the next address and
    changed no other: bounds [(0, 0, width, height)], dirty all over,
    position (0, 0), visible, no parent, no layers, and a buffer of
    [width * height] blank cells. *)
Theorem new_Surface_fresh (w hh : Z) (h : heap) :
  0 <= w < 2 ^ 31 -> 0 <= hh < 2 ^ 31 ->
  (new_Surface w hh h = None <-> new_Char_array (w * hh) = None) /\
  (PTRDIFF_MAX < w * hh * sizeof_Char -> new_Surface w hh h = None) /\
  (forall r, new_Surface w hh h = Some r ->
     r = (h ++ [mkSurface (Rect4 0 0 w hh) (Rect4 0 0 w hh) (mkPoint 0 0) true None
                          (replicate (Z.to_nat (w * hh)) blank) []],
          length h)).
Proof.
  intros Hw Hh.
  destruct (new_Char_array (w * hh)) as [d|] eqn:Hd.
  - rewrite (new_Surface_allocated w hh h d Hw Hh Hd).
    split; [split; discriminate|]. split.
    + intros Hbig. apply new_Char_array_None in Hbig. congruence.
    + intros r [= <-]. reflexivity.
  - assert (Hnone : new_Surface w hh h = None).
    { unfold new_Surface, resize. rewrite to_size_small by nia. rewrite Hd. reflexivity. }
    rewrite Hnone. split; [tauto|]. split; [reflexivity|discriminate].
Qed.

(** ** The contract of [resize] *)

(** [resize], once the allocation has succeeded. *)
Lemma resize_allocated (this : ptr) (w hh : Z) (h : heap) (t : Surface) d :
  new_Char_array (w * hh) = Some d ->
  h !! this = Some t -> 0 <= w < 2 ^ 31 -> 0 <= hh < 2 ^ 31 ->
  mParent t <> Some this ->
  (forall q, mParent t = Some q -> is_Some (h !! q)) ->
  exists h', resize this w hh h = Some (0, h') /\ length h' = length h /\
    h' !! this
      = Some (mkSurface (Rect4 0 0 w hh)
                (if valid (mDirty t) then boundingRect (mDirty t) (Rect4 0 0 w hh)
                 else Rect4 0 0 w hh)
                (mPos t) (mVisible t) (mParent t)
                (replicate (Z.to_nat (w * hh)) blank) (mLayerMap t)) /\
    (forall q sq, mParent t = Some q -> h !! q = Some sq ->
       h' !! q = Some (invalidate_rect (bounds t) sq)) /\
    (forall p, p <> this -> mParent t <> Some p -> h' !! p = h !! p).
Proof.
  intros Hd Ht Hw Hh Hself Hpar. unfold resize.
  rewrite to_size_small by nia. rewrite Hd. cbn [mbind option_bind].
  apply new_Char_array_Some in Hd. subst d.
  rewrite (update_lookup _ _ _ _ Ht). simpl.
  rewrite (heap_insert_lookup_eq _ _ _ _ Ht). simpl.
  set (t1 := set_mData (replicate (Z.to_nat (w * hh)) blank) t).
  set (h1 := <[this := t1]> h).
  assert (Hl1 : length h1 = length h) by (subst h1; apply length_insert).
  assert (Hstep : forall h2, length h2 = length h -> h2 !! this = Some t1 ->
    exists h', (update this (set_mBounds (Rect4 0 0 (to_ssize w) (to_ssize hh))) h2
                  ≫= λ h3, on_surface this (clear Rect0) h3 ≫= λ r, Some (0, r.2))
               = Some (0, h') /\ length h' = length h /\
      h' !! this
        = Some (mkSurface (Rect4 0 0 w hh)
                  (if valid (mDirty t) then boundingRect (mDirty t) (Rect4 0 0 w hh)
                   else Rect4 0 0 w hh)
                  (mPos t) (mVisible t) (mParent t)
                  (replicate (Z.to_nat (w * hh)) blank) (mLayerMap t)) /\
      forall p, p <> this -> h' !! p = h2 !! p).
  { intros h2 Hl2 H2.
    rewrite (update_lookup _ _ _ _ H2). simpl.
    unfold on_surface. rewrite (heap_insert_lookup_eq _ _ _ _ H2). simpl.
    rewrite !to_ssize_small by lia.
    erewrite clear_all_sized; [|exact Hw|exact Hh|reflexivity|].
    2:{ subst t1. simpl. rewrite length_replicate. reflexivity. }
    simpl. eexists; split; [reflexivity|]. rewrite list_insert_insert_eq.
    split; [rewrite length_insert; exact Hl2|]. split.
    - rewrite (heap_insert_lookup_eq _ _ _ _ H2). f_equal.
      unfold invalidate_rect; simpl. rewrite intersect_self.
      destruct (valid (mDirty t)); reflexivity.
    - intros p Hp. apply heap_insert_lookup_ne. congruence. }
  destruct (mParent t) as [q|] eqn:Eq.
  - destruct (Hpar q eq_refl) as [sq Hq].
    assert (Hqt : q <> this) by congruence.
    assert (Hq1 : h1 !! q = Some sq).
    { subst h1. rewrite heap_insert_lookup_ne by congruence. exact Hq. }
    rewrite (update_lookup _ _ _ _ Hq1). simpl.
    destruct (Hstep (<[q := invalidate_rect (bounds t1) sq]> h1)) as (h' & Hr & Hl & Hthis & Hoth).
    { rewrite length_insert. exact Hl1. }
    { rewrite heap_insert_lookup_ne by congruence. subst h1.
      apply (heap_insert_lookup_eq _ _ _ _ Ht). }
    exists h'. split; [exact Hr|]. split; [exact Hl|]. split; [exact Hthis|]. split.
    + intros q' sq' Eq' Hq'. injection Eq' as <-.
      rewrite Hoth by congruence. rewrite (heap_insert_lookup_eq _ _ _ _ Hq1).
      rewrite Hq in Hq'. injection Hq' as <-. reflexivity.
    + intros p Hp Hpq. rewrite Hoth by exact Hp.
      rewrite heap_insert_lookup_ne by congruence.
      subst h1. apply heap_insert_lookup_ne. congruence.
  - simpl.
    destruct (Hstep h1 Hl1) as (h' & Hr & Hl & Hthis & Hoth).
    { subst h1. apply (heap_insert_lookup_eq _ _ _ _ Ht). }
    exists h'. split; [exact Hr|]. split; [exact Hl|]. split; [exact Hthis|]. split.
    + intros q sq Eq'. discriminate Eq'.
    + intros p Hp _. rewrite Hoth by exact Hp.
      subst h1. apply heap_insert_lookup_ne. congruence.
Qed.

(** X6. [Surface::resize(w, h)] fails exactly when its allocation
    does, and the allocation fails when the array asked for is larger than
    the largest object ([std::bad_array_new_length]); the throw leaves the
    store as it was.  Whenever it returns, it returns 0, has discarded the
    contents (the new buffer is [w * h] blank cells) and set the bounds to
    [(0, 0, w, h)]; position, visibility, parent and layers are kept.  The
    dirty rectangle has become the new bounds when it was invalid and
    otherwise the bounding rectangle of the old dirty rectangle and the new
    bounds.  A parent has the surface's former footprint invalidated, and no
    other surface changes. *)
Theorem resize_contract (this : ptr) (w hh : Z) (h : heap) (t : Surface) :
  h !! this = Some t -> 0 <= w < 2 ^ 31 -> 0 <= hh < 2 ^ 31 ->
  mParent t <> Some this ->
  (forall q, mParent t = Some q -> is_Some (h !! q)) ->
  (resize this w hh h = None <-> new_Char_array (w * hh) = None) /\
  (PTRDIFF_MAX < w * hh * sizeof_Char -> resize this w hh h = None) /\
  (forall rc h', resize this w hh h = Some (rc, h') ->
     rc = 0 /\ length h' = length h /\
     h' !! this
       = Some (mkSurface (Rect4 0 0 w hh)
                 (if valid (mDirty t) then boundingRect (mDirty t) (Rect4 0 0 w hh)
                  else Rect4 0 0 w hh)
                 (mPos t) (mVisible t) (mParent t)
                 (replicate (Z.to_nat (w * hh)) blank) (mLayerMap t)) /\
     (forall q sq, mParent t = Some q -> h !! q = Some sq ->
        h' !! q = Some (invalidate_rect (bounds t) sq)) /\
     (forall p, p <> this -> mParent t <> Some p -> h' !! p = h !! p)).
Proof.
  intros Ht Hw Hh Hself Hpar.
  destruct (new_Char_array (w * hh)) as [d|] eqn:Hd.
  - destruct (resize_allocated this w hh h t d Hd Ht Hw Hh Hself Hpar)
      as (h1 & Hr & Hl & Hthis & Hq & Hoth).
    rewrite Hr. split; [split; discriminate|]. split.
    + intros Hbig. apply new_Char_array_None in Hbig. congruence.
    + intros rc h' [= <- <-]. repeat (split; [assumption || reflexivity|]). exact Hoth.
  - assert (Hnone : resize this w hh h = None).
    { unfold resize. rewrite to_size_small by nia. rewrite Hd. reflexivity. }
    rewrite Hnone. split; [tauto|]. split; [reflexivity|discriminate].
Qed.

(** ** Result codes *)

Ltac some_inv H := injection H; clear H; intros; subst.

(** X7. An operation that returns a non-zero code has changed
    nothing: [fill], [clear], [blend], both [addLayer], [removeLayer] and
    [moveLayer] then return [-EINVAL] and leave the whole store as it was.
    [move(pos)] and [move(pos, Z)] never return a non-zero code.  [moveZ] on
    a surface without parent returns [-ENOLINK] and changes nothing, and a
    non-zero code on a surface with a parent is [-EINVAL]. *)
Theorem failed_operation_changes_nothing (h h' : heap) (rc : Z) :
  rc <> 0 ->
  (forall p pattern crop,
     on_surface p (fill pattern crop) h = Some (rc, h') -> rc = - EINVAL /\ h' = h) /\
  (forall p crop,
     on_surface p (clear crop) h = Some (rc, h') -> rc = - EINVAL /\ h' = h) /\
  (forall this other src_crop pos,
     blend this other src_crop pos h = Some (rc, h') -> rc = - EINVAL /\ h' = h) /\
  (forall this sf k,
     addLayer this sf k h = Some (rc, h') -> rc = - EINVAL /\ h' = h) /\
  (forall this sf pos k,
     addLayer_at this sf pos k h = Some (rc, h') -> rc = - EINVAL /\ h' = h) /\
  (forall this sf,
     removeLayer this sf h = Some (rc, h') -> rc = - EINVAL /\ h' = h) /\
  (forall this sf k,
     moveLayer this sf k h = Some (rc, h') -> rc = - EINVAL /\ h' = h) /\
  (forall this pos, move_to this pos h <> Some (rc, h')) /\
  (forall this pos k, move_to_z this pos k h <> Some (rc, h')) /\
  (forall this k t,
     h !! this = Some t -> moveZ this k h = Some (rc, h') ->
     (mParent t = None -> rc = - ENOLINK /\ h' = h) /\
     (mParent t <> None -> rc = - EINVAL)).
Proof.
  intros Hrc.
  assert (Hfill : forall p pattern crop,
     on_surface p (fill pattern crop) h = Some (rc, h') -> rc = - EINVAL /\ h' = h).
  { intros p pattern crop Hf. apply on_surface_Some in Hf.
    destruct Hf as (s & s' & Hs & Hf & ->). unfold fill in Hf.
    destruct (valid crop).
    - destruct (negb (valid (intersect (mBounds s) crop))).
      + some_inv Hf. split; [reflexivity|]. apply heap_insert_same. exact Hs.
      + bind_inv Hf. some_inv Hf. congruence.
    - bind_inv Hf. some_inv Hf. congruence. }
  assert (Hml : forall this sf k (g g' : heap) r,
     r <> 0 -> moveLayer this sf k g = Some (r, g') -> r = - EINVAL /\ g' = g).
  { intros this sf k g g' r Hr H. unfold moveLayer in H. bind_inv H.
    destruct (negb (bool_decide (mParent s = Some this))).
    - some_inv H. split; reflexivity.
    - bind_inv H. destruct (layer_of sf (mLayerMap s0)).
      + repeat bind_inv H. some_inv H. congruence.
      + some_inv H. split; reflexivity. }
  split; [exact Hfill|].
  split; [intros p crop; apply Hfill|].
  split.
  { intros this other src_crop pos H. unfold blend in H. repeat bind_inv H.
    destruct (negb (valid (intersect (mBounds s0) src_crop))
              || negb (valid (intersect (mBounds s)
                                (move (intersect (mBounds s0) src_crop) pos)))).
    - some_inv H. split; reflexivity.
    - repeat bind_inv H. some_inv H. congruence. }
  split.
  { intros this sf k H. unfold addLayer in H. bind_inv H.
    destruct (mParent s).
    - some_inv H. split; reflexivity.
    - repeat bind_inv H. some_inv H. congruence. }
  split.
  { intros this sf pos k H. unfold addLayer_at in H. bind_inv H.
    destruct (mParent s).
    - some_inv H. split; reflexivity.
    - repeat bind_inv H. some_inv H. congruence. }
  split.
  { intros this sf H. unfold removeLayer in H. bind_inv H.
    destruct (negb (bool_decide (mParent s = Some this))).
    - some_inv H. split; reflexivity.
    - bind_inv H. destruct (layer_of sf (mLayerMap s0)).
      + repeat bind_inv H. some_inv H. congruence.
      + some_inv H. split; reflexivity. }
  split; [intros this sf k; apply Hml; exact Hrc|].
  split.
  { intros this pos H. unfold move_to in H. repeat bind_inv H. some_inv H. congruence. }
  split.
  { intros this pos k H. unfold move_to_z in H. repeat bind_inv H. some_inv H. congruence. }
  intros this k t Ht H. unfold moveZ in H. rewrite Ht in H. simpl in H.
  destruct (mParent t) as [q|].
  - split; [intros Hn; discriminate Hn|]. intros _.
    bind_inv H. apply (Hml _ _ _ _ _ _ Hrc) in H. apply H.
  - some_inv H. split; [intros _; split; reflexivity|]. intros Hn. congruence.
Qed.

Lemma failed_operation_changes_nothing_witness :
  blend 0%nat 1%nat Rect0 (mkPoint 0 0) glass_heap = Some (- EINVAL, glass_heap) /\
  - EINVAL = - EINVAL /\ glass_heap = glass_heap.
Proof.
  assert (Hb : blend 0%nat 1%nat Rect0 (mkPoint 0 0) glass_heap = Some (- EINVAL, glass_heap))
    by reflexivity.
  split; [exact Hb|].
  destruct (failed_operation_changes_nothing glass_heap glass_heap (- EINVAL))
    as (_ & _ & H & _).
  - unfold EINVAL. lia.
  - exact (H _ _ _ _ Hb).
Defined.

(** X8. The result of [Surface::blend] is decided by the two crops
    alone.  An invalid [src_crop] makes it return [-EINVAL] and change
    nothing (the source is not taken whole); so does a source crop that
    misses the source's bounds or that, moved to [pos], misses the
    destination's bounds.  Whenever [blend] returns, it returns 0 exactly
    when both clipped crops are valid, and [-EINVAL] otherwise. *)
Theorem blend_result_code (this other : ptr) (src_crop : Rect) (pos : Point)
    (h : heap) (t o : Surface) :
  h !! this = Some t -> h !! other = Some o ->
  let s_crop := intersect (mBounds o) src_crop in
  let d_crop := intersect (mBounds t) (move s_crop pos) in
  (valid src_crop = false -> blend this other src_crop pos h = Some (- EINVAL, h)) /\
  (valid s_crop && valid d_crop = false ->
     blend this other src_crop pos h = Some (- EINVAL, h)) /\
  (forall rc h', blend this other src_crop pos h = Some (rc, h') ->
     (rc = 0 <-> valid s_crop && valid d_crop = true) /\ (rc = 0 \/ rc = - EINVAL)).
Proof.
  intros Ht Ho s_crop d_crop.
  assert (Hbad : valid s_crop && valid d_crop = false ->
     blend this other src_crop pos h = Some (- EINVAL, h)).
  { intros Hv. unfold blend. rewrite Ht, Ho. simpl. fold s_crop. fold d_crop.
    rewrite <- negb_andb, Hv. reflexivity. }
  split; [|split; [exact Hbad|]].
  - intros Hv. apply Hbad.
    destruct (valid s_crop) eqn:E; [|reflexivity].
    apply intersect_valid_r in E. congruence.
  - intros rc h' H. destruct (valid s_crop && valid d_crop) eqn:E.
    + unfold blend in H. rewrite Ht, Ho in H. simpl in H.
      fold s_crop in H. fold d_crop in H. rewrite <- negb_andb, E in H. simpl in H.
      repeat bind_inv H. some_inv H. split; [split; reflexivity|left; reflexivity].
    + rewrite (Hbad eq_refl) in H. some_inv H.
      split; [|right; reflexivity]. unfold EINVAL. split; [lia|discriminate].
Qed.

(** ** The layer map as a finite map of sets *)

Lemma set_mem_spec sf l : set_mem sf l = true <-> sf ∈ l.
Proof.
  unfold set_mem. induction l as [|a l IH]; simpl.
  - split; [discriminate|]. intros H. inversion H.
  - rewrite orb_true_iff, IH, elem_of_cons, Nat.eqb_eq. reflexivity.
Qed.

Lemma set_mem_false sf l : set_mem sf l = false <-> sf ∉ l.
Proof.
  rewrite <- set_mem_spec. destruct (set_mem sf l); split; congruence.
Qed.

Lemma set_insert_elem sf l c : c ∈ set_insert sf l <-> c = sf \/ c ∈ l.
Proof.
  induction l as [|a l IH]; simpl.
  - rewrite list_elem_of_singleton. split; [auto|]. intros [H|H]; [exact H|inversion H].
  - destruct (Nat.ltb_spec sf a).
    + rewrite elem_of_cons. reflexivity.
    + destruct (Nat.eqb_spec sf a).
      * subst. rewrite elem_of_cons. tauto.
      * rewrite !elem_of_cons, IH. tauto.
Qed.

Lemma set_insert_perm sf l : sf ∉ l -> set_insert sf l ≡ₚ sf :: l.
Proof.
  induction l as [|a l IH]; simpl; intros Hn.
  - reflexivity.
  - destruct (Nat.ltb_spec sf a); [reflexivity|].
    destruct (Nat.eqb_spec sf a).
    + subst. exfalso. apply Hn. left.
    + rewrite IH by (intros Hin; apply Hn; right; exact Hin). apply perm_swap.
Qed.

Lemma set_insert_sorted sf l :
  StronglySorted Nat.lt l -> StronglySorted Nat.lt (set_insert sf l).
Proof.
  induction 1 as [|a l Hs IH Hall]; simpl.
  - repeat constructor.
  - destruct (Nat.ltb_spec sf a).
    + constructor; [constructor; assumption|].
      constructor; [exact H|]. eapply Forall_impl; [exact Hall|]. simpl. intros; lia.
    + destruct (Nat.eqb_spec sf a); [constructor; assumption|].
      constructor; [exact IH|].
      apply Forall_forall. intros c Hc. apply set_insert_elem in Hc.
      destruct Hc as [->|Hc]; [lia|].
      rewrite Forall_forall in Hall. apply Hall. exact Hc.
Qed.

Lemma set_insert_nonempty sf l : set_insert sf l <> [].
Proof.
  destruct l as [|a l]; simpl; [discriminate|].
  destruct (sf <? a)%nat; [discriminate|]. destruct (sf =? a)%nat; discriminate.
Qed.

Lemma set_erase_elem sf l c : c ∈ set_erase sf l <-> c <> sf /\ c ∈ l.
Proof. unfold set_erase. apply (list_elem_of_filter (fun a => a <> sf)). Qed.

Lemma set_erase_sorted sf l :
  StronglySorted Nat.lt l -> StronglySorted Nat.lt (set_erase sf l).
Proof.
  unfold set_erase. induction 1 as [|a l Hs IH Hall]; [constructor|].
  rewrite filter_cons. destruct (decide (a <> sf)); [|exact IH].
  constructor; [exact IH|].
  apply Forall_forall. intros c Hc. apply list_elem_of_filter in Hc.
  rewrite Forall_forall in Hall. apply Hall. apply Hc.
Qed.

Lemma set_erase_absent sf l : sf ∉ l -> set_erase sf l = l.
Proof.
  unfold set_erase. induction l as [|a l IH]; intros Hn; [reflexivity|].
  rewrite filter_cons. destruct (decide (a <> sf)) as [_|Hd].
  - f_equal. apply IH. intros Hin. apply Hn. right. exact Hin.
  - exfalso. apply Hn. destruct (decide (a = sf)) as [->|]; [left|tauto].
Qed.

Lemma set_erase_perm sf l : NoDup l -> sf ∈ l -> l ≡ₚ sf :: set_erase sf l.
Proof.
  unfold set_erase. induction 1 as [|a l Hna Hnd IH]; intros Hin; [inversion Hin|].
  rewrite filter_cons. destruct (decide (a <> sf)) as [Hd|Hd].
  - apply elem_of_cons in Hin. destruct Hin as [->|Hin]; [tauto|].
    rewrite (IH Hin) at 1. apply perm_swap.
  - assert (a = sf) as -> by (destruct (decide (a = sf)); tauto).
    fold (set_erase sf l). rewrite set_erase_absent by exact Hna. reflexivity.
Qed.

Lemma set_erase_insert sf l : sf ∉ l -> set_erase sf (set_insert sf l) = l.
Proof.
  induction l as [|a l IH]; simpl; intros Hn.
  - unfold set_erase. rewrite filter_cons. destruct (decide (sf <> sf)); [tauto|reflexivity].
  - assert (Ha : a <> sf) by (intros ->; apply Hn; left).
    assert (Hl : sf ∉ l) by (intros Hin; apply Hn; right; exact Hin).
    destruct (Nat.ltb_spec sf a).
    + unfold set_erase. rewrite filter_cons.
      destruct (decide (sf <> sf)); [tauto|].
      apply (set_erase_absent sf (a :: l) Hn).
    + destruct (Nat.eqb_spec sf a); [congruence|].
      unfold set_erase. rewrite filter_cons.
      destruct (decide (a <> sf)); [|tauto]. f_equal. apply IH. exact Hl.
Qed.

Lemma sorted_lt_NoDup l : StronglySorted Nat.lt l -> NoDup l.
Proof.
  induction 1 as [|a l Hs IH Hall]; constructor; [|exact IH].
  intros Hin. rewrite Forall_forall in Hall. specialize (Hall _ Hin). lia.
Qed.

Lemma layers_app m1 m2 : layers (m1 ++ m2) = layers m1 ++ layers m2.
Proof. unfold layers. rewrite map_app, concat_app. reflexivity. Qed.

Lemma layers_cons k l m : layers ((k, l) :: m) = l ++ layers m.
Proof. reflexivity. Qed.

Lemma layers_mid k o : layers (mid_entry k o) = default [] o.
Proof. destruct o; simpl; [apply app_nil_r|reflexivity]. Qed.

Lemma layers_elem c m : c ∈ layers m <-> exists k l, (k, l) ∈ m /\ c ∈ l.
Proof.
  induction m as [|[k l] m IH].
  - split; [intros H; inversion H|]. intros (k & l & H & _). inversion H.
  - rewrite layers_cons, elem_of_app, IH. split.
    + intros [H|(k' & l' & H1 & H2)].
      * exists k, l. split; [left|exact H].
      * exists k', l'. split; [right; exact H1|exact H2].
    + intros (k' & l' & H1 & H2). apply elem_of_cons in H1. destruct H1 as [E|H1].
      * injection E as -> ->. left. exact H2.
      * right. exists k', l'. split; assumption.
Qed.

Lemma map_decompose m k :
  StronglySorted Z.lt (map fst m) ->
  exists m1 o m2, m = m1 ++ mid_entry k o ++ m2 /\
    Forall (fun e => fst e < k) m1 /\ Forall (fun e => k < fst e) m2.
Proof.
  induction m as [|[k' l] m IH]; simpl; intros Hs.
  - exists [], None, []. repeat split; constructor.
  - apply StronglySorted_inv in Hs. destruct Hs as [Hs Hall].
    rewrite Forall_map in Hall. simpl in Hall.
    destruct (Z.compare_spec k k') as [->|Hlt|Hgt].
    + exists [], (Some l), m. split; [reflexivity|]. split; [constructor|].
      exact Hall.
    + exists [], None, ((k', l) :: m). split; [reflexivity|]. split; [constructor|].
      constructor; [exact Hlt|]. eapply Forall_impl; [exact Hall|]. simpl. intros; lia.
    + destruct (IH Hs) as (m1 & o & m2 & -> & H1 & H2).
      exists ((k', l) :: m1), o, m2. split; [reflexivity|].
      split; [constructor; [exact Hgt|exact H1]|exact H2].
Qed.

Lemma map_find_dec k o m1 m2 :
  Forall (fun e => fst e < k) m1 -> Forall (fun e => k < fst e) m2 ->
  map_find k (m1 ++ mid_entry k o ++ m2) = o.
Proof.
  intros H1 H2. induction H1 as [|[k' l] m1 Hk H1 IH]; simpl.
  - destruct o as [l|]; simpl; [rewrite Z.eqb_refl; reflexivity|].
    induction H2 as [|[k' l] m2 Hk H2 IH]; simpl; [reflexivity|].
    simpl in Hk. destruct (Z.eqb_spec k k'); [lia|exact IH].
  - simpl in Hk. destruct (Z.eqb_spec k k'); [lia|exact IH].
Qed.

Lemma map_set_dec k l o m1 m2 :
  Forall (fun e => fst e < k) m1 -> Forall (fun e => k < fst e) m2 ->
  map_set k l (m1 ++ mid_entry k o ++ m2) = m1 ++ (k, l) :: m2.
Proof.
  intros H1 H2. induction H1 as [|[k' l'] m1 Hk H1 IH]; simpl.
  - destruct o as [l0|]; simpl.
    + rewrite Z.ltb_irrefl, Z.eqb_refl. reflexivity.
    + destruct H2 as [|[k' l'] m2 Hk H2]; simpl; [reflexivity|].
      simpl in Hk. destruct (Z.ltb_spec k k'); [reflexivity|lia].
  - simpl in Hk. destruct (Z.ltb_spec k k'); [lia|].
    destruct (Z.eqb_spec k k'); [lia|]. rewrite IH. reflexivity.
Qed.

Lemma map_erase_dec k o m1 m2 :
  Forall (fun e => fst e < k) m1 -> Forall (fun e => k < fst e) m2 ->
  map_erase k (m1 ++ mid_entry k o ++ m2) = m1 ++ m2.
Proof.
  intros H1 H2. unfold map_erase. rewrite !filter_app.
  assert (E1 : filter (fun e : Z * list ptr => fst e <> k) m1 = m1).
  { induction H1 as [|e m1 Hk H1 IH]; [reflexivity|].
    rewrite filter_cons. destruct (decide (fst e <> k)); [f_equal; exact IH|lia]. }
  assert (E2 : filter (fun e : Z * list ptr => fst e <> k) m2 = m2).
  { induction H2 as [|e m2 Hk H2 IH]; [reflexivity|].
    rewrite filter_cons. destruct (decide (fst e <> k)); [f_equal; exact IH|lia]. }
  assert (E3 : filter (fun e : Z * list ptr => fst e <> k) (mid_entry k o) = []).
  { destruct o; simpl; [|reflexivity].
    rewrite filter_cons. simpl. destruct (decide (k <> k)); [tauto|reflexivity]. }
  rewrite E1, E2, E3. reflexivity.
Qed.

Lemma map_find_hit k l m1 m2 :
  Forall (fun e => fst e < k) m1 -> Forall (fun e => k < fst e) m2 ->
  map_find k (m1 ++ (k, l) :: m2) = Some l.
Proof. intros H1 H2. exact (map_find_dec k (Some l) m1 m2 H1 H2). Qed.

Lemma map_set_hit k l l' m1 m2 :
  Forall (fun e => fst e < k) m1 -> Forall (fun e => k < fst e) m2 ->
  map_set k l' (m1 ++ (k, l) :: m2) = m1 ++ (k, l') :: m2.
Proof. intros H1 H2. exact (map_set_dec k l' (Some l) m1 m2 H1 H2). Qed.

Lemma map_erase_hit k l m1 m2 :
  Forall (fun e => fst e < k) m1 -> Forall (fun e => k < fst e) m2 ->
  map_erase k (m1 ++ (k, l) :: m2) = m1 ++ m2.
Proof. intros H1 H2. exact (map_erase_dec k (Some l) m1 m2 H1 H2). Qed.

Lemma keys_sorted_dec k (m1 mid m2 : list (Z * list ptr)) :
  StronglySorted Z.lt (map fst (m1 ++ mid ++ m2)) ->
  Forall (fun e => fst e < k) m1 -> Forall (fun e => k < fst e) m2 ->
  (forall l, StronglySorted Z.lt (map fst (m1 ++ (k, l) :: m2))) /\
  StronglySorted Z.lt (map fst (m1 ++ m2)).
Proof.
  intros Hs H1 H2. rewrite !map_app in Hs.
  apply StronglySorted_app in Hs. destruct Hs as (H12 & Hs1 & Hs).
  apply StronglySorted_app in Hs. destruct Hs as (_ & _ & Hs2).
  assert (Hk1 : forall a, a ∈ map fst m1 -> a < k).
  { intros a Ha. apply list_elem_of_fmap in Ha. destruct Ha as (e & -> & He).
    rewrite Forall_forall in H1. apply H1. exact He. }
  assert (Hk2 : forall a, a ∈ map fst m2 -> k < a).
  { intros a Ha. apply list_elem_of_fmap in Ha. destruct Ha as (e & -> & He).
    rewrite Forall_forall in H2. apply H2. exact He. }
  split.
  - intros l. rewrite map_app. simpl. apply StronglySorted_app_2; [|exact Hs1|].
    + intros a b Ha Hb. apply elem_of_cons in Hb. destruct Hb as [->|Hb].
      * apply Hk1. exact Ha.
      * specialize (Hk1 _ Ha). specialize (Hk2 _ Hb). lia.
    + constructor; [exact Hs2|]. apply Forall_forall. exact Hk2.
  - rewrite map_app. apply StronglySorted_app_2; [|exact Hs1|exact Hs2].
    intros a b Ha Hb. specialize (Hk1 _ Ha). specialize (Hk2 _ Hb). lia.
Qed.

Lemma layer_of_None sf m : layer_of sf m = None <-> sf ∉ layers m.
Proof.
  induction m as [|[k l] m IH]; simpl.
  - split; [intros _ H; inversion H|reflexivity].
  - rewrite layers_cons, elem_of_app. destruct (set_mem sf l) eqn:E.
    + apply set_mem_spec in E. split; [discriminate|tauto].
    + apply set_mem_false in E. rewrite IH. tauto.
Qed.

Lemma layer_of_Some sf m k :
  layer_of sf m = Some k ->
  exists m1 l m2, m = m1 ++ (k, l) :: m2 /\ sf ∈ l /\ sf ∉ layers m1.
Proof.
  induction m as [|[k' l] m IH]; simpl; [discriminate|].
  destruct (set_mem sf l) eqn:E.
  - intros [= ->]. apply set_mem_spec in E.
    exists [], l, m. split; [reflexivity|]. split; [exact E|]. intros H; inversion H.
  - intros H. destruct (IH H) as (m1 & l' & m2 & -> & Hin & Hn).
    exists ((k', l) :: m1), l', m2. split; [reflexivity|]. split; [exact Hin|].
    rewrite layers_cons, elem_of_app. apply set_mem_false in E. tauto.
Qed.

Lemma layer_of_elem sf m : sf ∈ layers m <-> exists k, layer_of sf m = Some k.
Proof.
  destruct (layer_of sf m) as [k|] eqn:E.
  - split; [intros _; exists k; reflexivity|]. intros _.
    destruct (layer_of_Some _ _ _ E) as (m1 & l & m2 & -> & Hin & _).
    rewrite layers_app, layers_cons, !elem_of_app. tauto.
  - apply layer_of_None in E. split; [tauto|]. intros [k Hk]. discriminate Hk.
Qed.

Lemma layer_of_app sf m1 m' :
  sf ∉ layers m1 -> layer_of sf (m1 ++ m') = layer_of sf m'.
Proof.
  induction m1 as [|[k l] m1 IH]; simpl; intros Hn; [reflexivity|].
  rewrite layers_cons, elem_of_app in Hn.
  destruct (set_mem sf l) eqn:E.
  - apply set_mem_spec in E. tauto.
  - apply IH. tauto.
Qed.

Lemma wf_decompose m k :
  layer_map_wf m ->
  exists m1 o m2, m = m1 ++ mid_entry k o ++ m2 /\
    Forall (fun e => fst e < k) m1 /\ Forall (fun e => k < fst e) m2 /\
    map_find k m = o /\
    (forall l, o = Some l -> l <> [] /\ StronglySorted Nat.lt l) /\
    Forall (fun e => snd e <> [] /\ StronglySorted Nat.lt (snd e)) m1 /\
    Forall (fun e => snd e <> [] /\ StronglySorted Nat.lt (snd e)) m2 /\
    layers m = layers m1 ++ default [] o ++ layers m2.
Proof.
  intros (Hs & Hb & Hnd).
  destruct (map_decompose m k Hs) as (m1 & o & m2 & -> & H1 & H2).
  exists m1, o, m2. split; [reflexivity|]. split; [exact H1|]. split; [exact H2|].
  split; [apply map_find_dec; assumption|].
  apply Forall_app in Hb. destruct Hb as [Hb1 Hb]. apply Forall_app in Hb.
  destruct Hb as [Hbm Hb2].
  split.
  { intros l ->. simpl in Hbm. apply Forall_cons in Hbm. apply Hbm. }
  split; [exact Hb1|]. split; [exact Hb2|].
  rewrite !layers_app, layers_mid. reflexivity.
Qed.

Lemma layer_insert_dec k sf m m1 o m2 :
  m = m1 ++ mid_entry k o ++ m2 ->
  Forall (fun e => fst e < k) m1 -> Forall (fun e => k < fst e) m2 ->
  layer_insert k sf m = m1 ++ (k, set_insert sf (default [] o)) :: m2.
Proof.
  intros -> H1 H2. unfold layer_insert. rewrite map_find_dec by assumption.
  destruct o as [l|].
  - exact (map_set_dec k _ (Some l) m1 m2 H1 H2).
  - exact (map_set_dec k _ None m1 m2 H1 H2).
Qed.

Lemma layer_insert_wf k sf m :
  layer_map_wf m -> sf ∉ layers m ->
  layer_map_wf (layer_insert k sf m) /\
  layers (layer_insert k sf m) ≡ₚ sf :: layers m /\
  layer_of sf (layer_insert k sf m) = Some k /\
  layer_erase k sf (layer_insert k sf m) = m.
Proof.
  intros Hwf Hn. pose proof Hwf as (Hs & Hb & Hnd).
  destruct (wf_decompose m k Hwf) as (m1 & o & m2 & Hm & H1 & H2 & Hf & Ho & Hb1 & Hb2 & Hl).
  rewrite (layer_insert_dec k sf m m1 o m2 Hm H1 H2).
  remember (default [] o) as l0 eqn:El0.
  assert (Hn0 : sf ∉ l0) by (rewrite Hl, !elem_of_app in Hn; tauto).
  assert (Hn1 : sf ∉ layers m1) by (rewrite Hl, !elem_of_app in Hn; tauto).
  assert (Hs0 : StronglySorted Nat.lt l0).
  { rewrite El0. destruct o as [l|]; simpl; [apply (Ho l eq_refl)|constructor]. }
  assert (Hp : layers (m1 ++ (k, set_insert sf l0) :: m2) ≡ₚ sf :: layers m).
  { rewrite layers_app, layers_cons, Hl. rewrite (set_insert_perm sf l0 Hn0).
    simpl. symmetry. apply Permutation_middle. }
  split; [|split; [exact Hp|split]].
  - split; [|split].
    + rewrite Hm in Hs. apply (keys_sorted_dec k m1 (mid_entry k o) m2 Hs H1 H2).
    + apply Forall_app. split; [exact Hb1|]. constructor; [|exact Hb2]. simpl.
      split; [apply set_insert_nonempty|apply set_insert_sorted; exact Hs0].
    + rewrite Hp. constructor; assumption.
  - rewrite layer_of_app by exact Hn1. simpl.
    assert (E : set_mem sf (set_insert sf l0) = true).
    { apply set_mem_spec, set_insert_elem. left. reflexivity. }
    rewrite E. reflexivity.
  - unfold layer_erase.
    rewrite (map_find_hit k _ m1 m2 H1 H2).
    rewrite set_erase_insert by exact Hn0.
    destruct l0 as [|a l0'].
    + rewrite (map_erase_hit k _ m1 m2 H1 H2).
      rewrite Hm. destruct o as [l|]; [|reflexivity].
      simpl in El0. subst l. destruct (Ho [] eq_refl) as [Hne _]. congruence.
    + rewrite (map_set_hit k _ (a :: l0') m1 m2 H1 H2).
      rewrite Hm. destruct o as [l|]; [|discriminate El0]. simpl in El0. subst l.
      reflexivity.
Qed.

Lemma layer_erase_wf k sf m :
  layer_map_wf m -> layer_of sf m = Some k ->
  layer_map_wf (layer_erase k sf m) /\
  layers m ≡ₚ sf :: layers (layer_erase k sf m) /\
  sf ∉ layers (layer_erase k sf m).
Proof.
  intros Hwf Hof. pose proof Hwf as (Hs & Hb & Hnd).
  destruct (wf_decompose m k Hwf) as (m1 & o & m2 & Hm & H1 & H2 & Hf & Ho & Hb1 & Hb2 & Hl).
  destruct (layer_of_Some _ _ _ Hof) as (a1 & l & a2 & Ha & Hin & _).
  assert (Eo : o = Some l).
  { assert (Hkl : (k, l) ∈ m) by (rewrite Ha, elem_of_app; right; left).
    rewrite Hm, !elem_of_app in Hkl. destruct Hkl as [Hkl|[Hkl|Hkl]].
    - rewrite Forall_forall in H1. specialize (H1 _ Hkl). simpl in H1. lia.
    - destruct o as [l'|]; simpl in Hkl; [|inversion Hkl].
      apply list_elem_of_singleton in Hkl. congruence.
    - rewrite Forall_forall in H2. specialize (H2 _ Hkl). simpl in H2. lia. }
  rewrite Eo in Hm, Hf, Ho, Hl. clear Eo o.
  simpl in Hl. destruct (Ho l eq_refl) as [Hne Hsl].
  assert (Hndl : NoDup l) by (apply sorted_lt_NoDup; exact Hsl).
  assert (He : layer_erase k sf m
               = m1 ++ mid_entry k (match set_erase sf l with
                                    | [] => None
                                    | l' => Some l'
                                    end) ++ m2).
  { unfold layer_erase. rewrite Hf. rewrite Hm.
    destruct (set_erase sf l) as [|b l'] eqn:El'.
    - rewrite map_erase_dec by assumption. reflexivity.
    - rewrite map_set_dec by assumption. reflexivity. }
  assert (Hl' : layers (layer_erase k sf m) = layers m1 ++ set_erase sf l ++ layers m2).
  { rewrite He, !layers_app, layers_mid. destruct (set_erase sf l); reflexivity. }
  assert (Hp : layers m ≡ₚ sf :: layers (layer_erase k sf m)).
  { rewrite Hl, Hl'. rewrite (set_erase_perm sf l Hndl Hin) at 1.
    simpl. symmetry. apply Permutation_middle. }
  assert (Hnd' : NoDup (sf :: layers (layer_erase k sf m))) by (rewrite <- Hp; exact Hnd).
  apply NoDup_cons in Hnd'. destruct Hnd' as [Hnin Hnd'].
  split; [|split; [exact Hp|exact Hnin]].
  split; [|split; [|exact Hnd']].
  - rewrite He. rewrite Hm in Hs.
    destruct (keys_sorted_dec k m1 (mid_entry k (Some l)) m2 Hs H1 H2) as [Hk1 Hk2].
    destruct (set_erase sf l); simpl; [exact Hk2|apply Hk1].
  - rewrite He. apply Forall_app. split; [exact Hb1|].
    apply Forall_app. split; [|exact Hb2].
    destruct (set_erase sf l) as [|b l'] eqn:El'; simpl; [constructor|].
    constructor; [|constructor]. simpl. split; [discriminate|].
    rewrite <- El'. apply set_erase_sorted. exact Hsl.
Qed.

Lemma layer_move_wf k k' sf m :
  layer_map_wf m -> layer_of sf m = Some k ->
  layer_map_wf (layer_insert k' sf (layer_erase k sf m)) /\
  layers (layer_insert k' sf (layer_erase k sf m)) ≡ₚ layers m /\
  layer_of sf (layer_insert k' sf (layer_erase k sf m)) = Some k'.
Proof.
  intros Hwf Hof.
  destruct (layer_erase_wf k sf m Hwf Hof) as (Hwf1 & Hp1 & Hn1).
  destruct (layer_insert_wf k' sf _ Hwf1 Hn1) as (Hwf2 & Hp2 & Hof2 & _).
  split; [exact Hwf2|]. split; [|exact Hof2].
  rewrite Hp2. symmetry. exact Hp1.
Qed.

(** ** Consistency of the tree *)

Lemma update_lookup_all p f (h h' : heap) :
  update p f h = Some h' ->
  length h' = length h /\
  forall q, h' !! q = if decide (p = q) then f <$> h !! q else h !! q.
Proof.
  intros H. apply update_Some in H. destruct H as (s & Hs & ->).
  split; [apply length_insert|]. intros q.
  rewrite (heap_lookup_insert _ _ _ _ _ Hs).
  destruct (decide (p = q)) as [<-|]; [rewrite Hs|]; reflexivity.
Qed.

Lemma links_are_refl h : links_eq h h.
Proof. split; [reflexivity|]. intros q s Hq. exists s. auto. Qed.

Lemma links_are_keep h h1 h2 par lm p f :
  links_are h h1 par lm -> update p f h1 = Some h2 ->
  (forall s, mParent (f s) = mParent s /\ mLayerMap (f s) = mLayerMap s) ->
  links_are h h2 par lm.
Proof.
  intros [Hl H1] Hu Hf. apply update_lookup_all in Hu. destruct Hu as [Hl2 Hu].
  split; [congruence|]. intros q s Hq. destruct (H1 q s Hq) as (s1 & Hs1 & Hp & Hm).
  rewrite Hu, Hs1. destruct (decide (p = q)); simpl.
  - eexists; split; [reflexivity|]. destruct (Hf s1) as [-> ->]. auto.
  - exists s1. auto.
Qed.

Lemma links_are_set_parent h h1 h2 par lm p v :
  links_are h h1 par lm -> update p (set_mParent v) h1 = Some h2 ->
  links_are h h2 (fun q s => if decide (p = q) then v else par q s) lm.
Proof.
  intros [Hl H1] Hu. apply update_lookup_all in Hu. destruct Hu as [Hl2 Hu].
  split; [congruence|]. intros q s Hq. destruct (H1 q s Hq) as (s1 & Hs1 & Hp & Hm).
  rewrite Hu, Hs1. destruct (decide (p = q)); simpl.
  - eexists; split; [reflexivity|]. simpl. auto.
  - exists s1. auto.
Qed.

Lemma links_are_set_map h h1 h2 par lm p m :
  links_are h h1 par lm -> update p (set_mLayerMap m) h1 = Some h2 ->
  links_are h h2 par (fun q s => if decide (p = q) then m else lm q s).
Proof.
  intros [Hl H1] Hu. apply update_lookup_all in Hu. destruct Hu as [Hl2 Hu].
  split; [congruence|]. intros q s Hq. destruct (H1 q s Hq) as (s1 & Hs1 & Hp & Hm).
  rewrite Hu, Hs1. destruct (decide (p = q)); simpl.
  - eexists; split; [reflexivity|]. simpl. auto.
  - exists s1. auto.
Qed.

Lemma links_eq_trans h1 h2 h3 : links_eq h1 h2 -> links_eq h2 h3 -> links_eq h1 h3.
Proof.
  intros [L1 H1] [L2 H2]. split; [congruence|]. intros q s Hq.
  destruct (H1 q s Hq) as (s1 & Hs1 & Hp1 & Hm1).
  destruct (H2 q s1 Hs1) as (s2 & Hs2 & Hp2 & Hm2).
  exists s2. split; [exact Hs2|]. split; congruence.
Qed.

Lemma links_eq_update p f (h h' : heap) :
  (forall s, mParent (f s) = mParent s /\ mLayerMap (f s) = mLayerMap s) ->
  update p f h = Some h' -> links_eq h h'.
Proof. intros Hf Hu. exact (links_are_keep h h h' _ _ p f (links_are_refl h) Hu Hf). Qed.

Lemma links_eq_insert (h : heap) p s s' :
  h !! p = Some s -> mParent s' = mParent s -> mLayerMap s' = mLayerMap s ->
  links_eq h (<[p := s']> h).
Proof.
  intros Hs Hp Hm. split; [apply length_insert|]. intros q sq Hq.
  rewrite (heap_lookup_insert _ _ _ _ _ Hs). destruct (decide (p = q)) as [<-|].
  - exists s'. rewrite Hs in Hq. injection Hq as <-. auto.
  - exists sq. auto.
Qed.

Lemma links_eq_frame this (h h' : heap) : frame this h h' -> links_eq h h'.
Proof.
  intros [Hl Hf]. split; [exact Hl|]. intros q s Hq.
  destruct (lookup_lt_is_Some_2 h' q) as [s' Hs'].
  { rewrite Hl. apply lookup_lt_Some in Hq. exact Hq. }
  exists s'. split; [exact Hs'|].
  destruct (Hf q s s' Hq Hs') as [(_ & _ & _ & Hp & Hm) _]. auto.
Qed.

Lemma links_eq_settled this (h h' : heap) : settled this h h' -> links_eq h h'.
Proof.
  intros [Hl Hf]. split; [exact Hl|]. intros q s Hq.
  destruct (lookup_lt_is_Some_2 h' q) as [s' Hs'].
  { rewrite Hl. apply lookup_lt_Some in Hq. exact Hq. }
  exists s'. split; [exact Hs'|].
  destruct (Hf q s s' Hq Hs') as [(_ & _ & _ & Hp & Hm) _]. auto.
Qed.

Lemma tree_ok_links h h' : links_eq h h' -> tree_ok h -> tree_ok h'.
Proof.
  intros [Hl He] (T1 & T2 & T3).
  assert (Hback : forall q s', h' !! q = Some s' ->
            exists s, h !! q = Some s /\ mParent s' = mParent s /\ mLayerMap s' = mLayerMap s).
  { intros q s' Hq. destruct (lookup_lt_is_Some_2 h q) as [s Hs].
    { rewrite <- Hl. apply lookup_lt_Some in Hq. exact Hq. }
    exists s. split; [exact Hs|]. destruct (He q s Hs) as (s2 & Hs2 & Hp & Hm).
    rewrite Hq in Hs2. injection Hs2 as <-. auto. }
  split; [|split].
  - intros p s' Hp. destruct (Hback p s' Hp) as (s & Hs & _ & ->). eapply T1; exact Hs.
  - intros p s' c Hp Hc. destruct (Hback p s' Hp) as (s & Hs & _ & Hm).
    rewrite Hm in Hc. destruct (T2 p s c Hs Hc) as (sc & Hsc & Hpar).
    destruct (He c sc Hsc) as (sc' & Hsc' & Hp' & _). exists sc'. split; [exact Hsc'|congruence].
  - intros c sc' p Hc Hpar. destruct (Hback c sc' Hc) as (sc & Hsc & Hp' & _).
    rewrite Hp' in Hpar. destruct (T3 c sc p Hsc Hpar) as (s & Hs & Hin).
    destruct (He p s Hs) as (s' & Hs' & _ & Hm). exists s'. split; [exact Hs'|congruence].
Qed.

Lemma links_are_back h h' par lm q s' :
  links_are h h' par lm -> h' !! q = Some s' ->
  exists s, h !! q = Some s /\ mParent s' = par q s /\ mLayerMap s' = lm q s.
Proof.
  intros [Hl He] Hq. destruct (lookup_lt_is_Some_2 h q) as [s Hs].
  { rewrite <- Hl. apply lookup_lt_Some in Hq. exact Hq. }
  exists s. split; [exact Hs|]. destruct (He q s Hs) as (s2 & Hs2 & Hp & Hm).
  rewrite Hq in Hs2. injection Hs2 as <-. auto.
Qed.

Lemma tree_ok_add h h' this sf t c k :
  tree_ok h -> h !! this = Some t -> h !! sf = Some c -> mParent c = None ->
  links_are h h' (fun q s => if decide (sf = q) then Some this else mParent s)
    (fun q s => if decide (this = q) then layer_insert k sf (mLayerMap t)
                else mLayerMap s) ->
  tree_ok h'.
Proof.
  intros (T1 & T2 & T3) Ht Hc Hdet L.
  assert (Hnin : sf ∉ layers (mLayerMap t)).
  { intros Hin. destruct (T2 this t sf Ht Hin) as (sc & Hsc & Hp). congruence. }
  destruct (layer_insert_wf k sf _ (T1 _ _ Ht) Hnin) as (Hwf & Hperm & _ & _).
  split; [|split].
  - intros p s' Hp. destruct (links_are_back _ _ _ _ _ _ L Hp) as (s & Hs & _ & ->).
    destruct (decide (this = p)); [exact Hwf|eapply T1; exact Hs].
  - intros p s' c' Hp Hin. destruct (links_are_back _ _ _ _ _ _ L Hp) as (s & Hs & _ & Hm).
    rewrite Hm in Hin.
    assert (Hold : c' ∈ layers (mLayerMap s) ->
              exists sc, h' !! c' = Some sc /\ mParent sc = Some p).
    { intros Hin'. destruct (T2 p s c' Hs Hin') as (sc & Hsc & Hpar).
      destruct (proj2 L c' sc Hsc) as (sc' & Hsc' & Hp' & _). exists sc'.
      split; [exact Hsc'|]. rewrite Hp'. destruct (decide (sf = c')); [|exact Hpar].
      subst c'. congruence. }
    destruct (decide (this = p)) as [<-|]; [|exact (Hold Hin)].
    rewrite Hperm in Hin. apply elem_of_cons in Hin. destruct Hin as [->|Hin].
    + destruct (proj2 L sf c Hc) as (sc' & Hsc' & Hp' & _). exists sc'.
      split; [exact Hsc'|]. rewrite Hp'. destruct (decide (sf = sf)); [reflexivity|tauto].
    + rewrite Ht in Hs. injection Hs as <-. exact (Hold Hin).
  - intros c' sc' p Hc' Hpar.
    destruct (links_are_back _ _ _ _ _ _ L Hc') as (sc & Hsc & Hp' & _).
    rewrite Hp' in Hpar. destruct (decide (sf = c')) as [<-|].
    + injection Hpar as <-. destruct (proj2 L this t Ht) as (s' & Hs' & _ & Hm).
      exists s'. split; [exact Hs'|]. rewrite Hm.
      destruct (decide (this = this)); [|tauto]. rewrite Hperm. left.
    + destruct (T3 c' sc p Hsc Hpar) as (s & Hs & Hin).
      destruct (proj2 L p s Hs) as (s' & Hs' & _ & Hm). exists s'.
      split; [exact Hs'|]. rewrite Hm. destruct (decide (this = p)) as [<-|]; [|exact Hin].
      rewrite Ht in Hs. injection Hs as <-. rewrite Hperm. right. exact Hin.
Qed.

Lemma tree_ok_remove h h' this sf t c k :
  tree_ok h -> h !! this = Some t -> h !! sf = Some c -> mParent c = Some this ->
  layer_of sf (mLayerMap t) = Some k ->
  links_are h h' (fun q s => if decide (sf = q) then None else mParent s)
    (fun q s => if decide (this = q) then layer_erase k sf (mLayerMap t)
                else mLayerMap s) ->
  tree_ok h'.
Proof.
  intros (T1 & T2 & T3) Ht Hc Hatt Hof L.
  destruct (layer_erase_wf k sf _ (T1 _ _ Ht) Hof) as (Hwf & Hperm & Hnin).
  split; [|split].
  - intros p s' Hp. destruct (links_are_back _ _ _ _ _ _ L Hp) as (s & Hs & _ & ->).
    destruct (decide (this = p)); [exact Hwf|eapply T1; exact Hs].
  - intros p s' c' Hp Hin. destruct (links_are_back _ _ _ _ _ _ L Hp) as (s & Hs & _ & Hm).
    rewrite Hm in Hin.
    assert (Hin' : c' ∈ layers (mLayerMap s) /\ c' <> sf).
    { destruct (decide (this = p)) as [<-|Hne].
      - rewrite Ht in Hs. injection Hs as <-. split.
        + rewrite Hperm. right. exact Hin.
        + intros ->. tauto.
      - split; [exact Hin|]. intros ->.
        destruct (T2 p s sf Hs Hin) as (sc & Hsc & Hpar). congruence. }
    destruct Hin' as [Hin' Hne].
    destruct (T2 p s c' Hs Hin') as (sc & Hsc & Hpar).
    destruct (proj2 L c' sc Hsc) as (sc' & Hsc' & Hp' & _). exists sc'.
    split; [exact Hsc'|]. rewrite Hp'. destruct (decide (sf = c')); [congruence|exact Hpar].
  - intros c' sc' p Hc' Hpar.
    destruct (links_are_back _ _ _ _ _ _ L Hc') as (sc & Hsc & Hp' & _).
    rewrite Hp' in Hpar. destruct (decide (sf = c')) as [<-|Hne]; [discriminate Hpar|].
    destruct (T3 c' sc p Hsc Hpar) as (s & Hs & Hin).
    destruct (proj2 L p s Hs) as (s' & Hs' & _ & Hm). exists s'.
    split; [exact Hs'|]. rewrite Hm. destruct (decide (this = p)) as [<-|]; [|exact Hin].
    rewrite Ht in Hs. injection Hs as <-. rewrite Hperm in Hin.
    apply elem_of_cons in Hin. destruct Hin as [->|Hin]; [tauto|exact Hin].
Qed.

Lemma tree_ok_move h h' this sf t k k' :
  tree_ok h -> h !! this = Some t ->
  layer_of sf (mLayerMap t) = Some k ->
  links_are h h' (fun q s => mParent s)
    (fun q s => if decide (this = q)
                then layer_insert k' sf (layer_erase k sf (mLayerMap t))
                else mLayerMap s) ->
  tree_ok h'.
Proof.
  intros (T1 & T2 & T3) Ht Hof L.
  destruct (layer_move_wf k k' sf _ (T1 _ _ Ht) Hof) as (Hwf & Hperm & _).
  split; [|split].
  - intros p s' Hp. destruct (links_are_back _ _ _ _ _ _ L Hp) as (s & Hs & _ & ->).
    destruct (decide (this = p)); [exact Hwf|eapply T1; exact Hs].
  - intros p s' c' Hp Hin. destruct (links_are_back _ _ _ _ _ _ L Hp) as (s & Hs & _ & Hm).
    rewrite Hm in Hin.
    assert (Hin' : c' ∈ layers (mLayerMap s)).
    { destruct (decide (this = p)) as [<-|Hne]; [|exact Hin].
      rewrite Ht in Hs. injection Hs as <-. rewrite <- Hperm. exact Hin. }
    destruct (T2 p s c' Hs Hin') as (sc & Hsc & Hpar).
    destruct (proj2 L c' sc Hsc) as (sc' & Hsc' & Hp' & _). exists sc'.
    split; [exact Hsc'|congruence].
  - intros c' sc' p Hc' Hpar.
    destruct (links_are_back _ _ _ _ _ _ L Hc') as (sc & Hsc & Hp' & _).
    rewrite Hp' in Hpar.
    destruct (T3 c' sc p Hsc Hpar) as (s & Hs & Hin).
    destruct (proj2 L p s Hs) as (s' & Hs' & _ & Hm). exists s'.
    split; [exact Hs'|]. rewrite Hm. destruct (decide (this = p)) as [<-|]; [|exact Hin].
    rewrite Ht in Hs. injection Hs as <-. rewrite Hperm. exact Hin.
Qed.

Lemma keep_invalidate_rect r s :
  mParent (invalidate_rect r s) = mParent s /\ mLayerMap (invalidate_rect r s) = mLayerMap s.
Proof. unfold invalidate_rect. destruct (valid (mDirty s)); split; reflexivity. Qed.

Lemma addLayer_links this sf k (h h' : heap) t :
  h !! this = Some t ->
  addLayer this sf k h = Some (0, h') ->
  links_are h h' (fun q s => if decide (sf = q) then Some this else mParent s)
    (fun q s => if decide (this = q) then layer_insert k sf (mLayerMap t)
                else mLayerMap s).
Proof.
  intros Ht H. unfold addLayer in H. bind_inv H.
  destruct (mParent s); [discriminate H|]. rewrite Ht in H. simpl in H.
  repeat bind_inv H. some_inv H.
  pose proof (links_are_set_map _ _ _ _ _ _ _ (links_are_refl h) E0) as L1.
  pose proof (links_are_keep _ _ _ _ _ _ _ L1 E2 (keep_invalidate_rect _)) as L2.
  exact (links_are_set_parent _ _ _ _ _ _ _ L2 E3).
Qed.

Lemma addLayer_at_links this sf pos k (h h' : heap) t :
  h !! this = Some t ->
  addLayer_at this sf pos k h = Some (0, h') ->
  links_are h h' (fun q s => if decide (sf = q) then Some this else mParent s)
    (fun q s => if decide (this = q) then layer_insert k sf (mLayerMap t)
                else mLayerMap s).
Proof.
  intros Ht H. unfold addLayer_at in H. bind_inv H.
  destruct (mParent s); [discriminate H|]. repeat bind_inv H. some_inv H.
  assert (Hl0 : links_eq h l).
  { eapply links_eq_update; [|exact E0]. intros; split; reflexivity. }
  assert (Es0 : mLayerMap s0 = mLayerMap t).
  { apply update_lookup_all in E0. destruct E0 as [_ E0]. rewrite E0, Ht in E1.
    destruct (decide (sf = this)); simpl in E1; injection E1 as <-; reflexivity. }
  rewrite Es0 in E2.
  pose proof (links_are_set_map _ _ _ _ _ _ _ Hl0 E2) as L1.
  pose proof (links_are_keep _ _ _ _ _ _ _ L1 E4 (keep_invalidate_rect _)) as L2.
  exact (links_are_set_parent _ _ _ _ _ _ _ L2 E5).
Qed.

Lemma removeLayer_links this sf (h h' : heap) t :
  h !! this = Some t ->
  removeLayer this sf h = Some (0, h') ->
  exists c k, h !! sf = Some c /\ mParent c = Some this /\
    layer_of sf (mLayerMap t) = Some k /\
    links_are h h' (fun q s => if decide (sf = q) then None else mParent s)
      (fun q s => if decide (this = q) then layer_erase k sf (mLayerMap t)
                  else mLayerMap s).
Proof.
  intros Ht H. unfold removeLayer in H. bind_inv H.
  destruct (bool_decide_reflect (mParent s = Some this)) as [Hp|Hp]; simpl in H;
    [|discriminate H].
  rewrite Ht in H. simpl in H.
  destruct (layer_of sf (mLayerMap t)) as [k|] eqn:Hof; [|discriminate H].
  repeat bind_inv H. some_inv H.
  exists s, k. split; [reflexivity|]. split; [exact Hp|]. split; [reflexivity|].
  pose proof (links_are_set_map _ _ _ _ _ _ _ (links_are_refl h) E0) as L1.
  pose proof (links_are_keep _ _ _ _ _ _ _ L1 E2 (keep_invalidate_rect _)) as L2.
  exact (links_are_set_parent _ _ _ _ _ _ _ L2 E3).
Qed.

Lemma moveLayer_links this sf k' (h h' : heap) t :
  h !! this = Some t ->
  moveLayer this sf k' h = Some (0, h') ->
  exists c k, h !! sf = Some c /\ mParent c = Some this /\
    layer_of sf (mLayerMap t) = Some k /\
    links_are h h' (fun q s => mParent s)
      (fun q s => if decide (this = q)
                  then layer_insert k' sf (layer_erase k sf (mLayerMap t))
                  else mLayerMap s).
Proof.
  intros Ht H. unfold moveLayer in H. bind_inv H.
  destruct (bool_decide_reflect (mParent s = Some this)) as [Hp|Hp]; simpl in H;
    [|discriminate H].
  rewrite Ht in H. simpl in H.
  destruct (layer_of sf (mLayerMap t)) as [k|] eqn:Hof; [|discriminate H].
  repeat bind_inv H. some_inv H.
  exists s, k. split; [reflexivity|]. split; [exact Hp|]. split; [reflexivity|].
  pose proof (links_are_set_map _ _ _ _ _ _ _ (links_are_refl h) E0) as L1.
  exact (links_are_keep _ _ _ _ _ _ _ L1 E2 (keep_invalidate_rect _)).
Qed.

(** The result codes of the four layer operations. *)
Lemma layer_op_codes this sf pos k (h h' : heap) rc :
  addLayer this sf k h = Some (rc, h') \/ addLayer_at this sf pos k h = Some (rc, h') \/
  removeLayer this sf h = Some (rc, h') \/ moveLayer this sf k h = Some (rc, h') ->
  rc = 0 \/ (rc = - EINVAL /\ h' = h).
Proof.
  intros [H|[H|[H|H]]].
  - unfold addLayer in H. bind_inv H. destruct (mParent s).
    + some_inv H. right. split; reflexivity.
    + repeat bind_inv H. some_inv H. left. reflexivity.
  - unfold addLayer_at in H. bind_inv H. destruct (mParent s).
    + some_inv H. right. split; reflexivity.
    + repeat bind_inv H. some_inv H. left. reflexivity.
  - unfold removeLayer in H. bind_inv H.
    destruct (negb (bool_decide (mParent s = Some this))).
    + some_inv H. right. split; reflexivity.
    + bind_inv H. destruct (layer_of sf (mLayerMap s0)).
      * repeat bind_inv H. some_inv H. left. reflexivity.
      * some_inv H. right. split; reflexivity.
  - unfold moveLayer in H. bind_inv H.
    destruct (negb (bool_decide (mParent s = Some this))).
    + some_inv H. right. split; reflexivity.
    + bind_inv H. destruct (layer_of sf (mLayerMap s0)).
      * repeat bind_inv H. some_inv H. left. reflexivity.
      * some_inv H. right. split; reflexivity.
Qed.

Lemma op_allocated_this this sf pos k (h h' : heap) :
  addLayer this sf k h = Some (0, h') \/ addLayer_at this sf pos k h = Some (0, h') \/
  removeLayer this sf h = Some (0, h') \/ moveLayer this sf k h = Some (0, h') ->
  exists t c, h !! this = Some t /\ h !! sf = Some c.
Proof.
  intros [H|[H|[H|H]]].
  - unfold addLayer in H. bind_inv H. destruct (mParent s); [discriminate H|].
    bind_inv H. eauto.
  - unfold addLayer_at in H. bind_inv H. destruct (mParent s); [discriminate H|].
    repeat bind_inv H. some_inv H.
    apply update_lookup_all in E0. destruct E0 as [_ E0]. rewrite E0 in E1.
    destruct (h !! this) as [t|] eqn:Ht.
    + eauto.
    + destruct (decide (sf = this)); simpl in E1; discriminate E1.
  - unfold removeLayer in H. bind_inv H.
    destruct (negb (bool_decide (mParent s = Some this))); [discriminate H|].
    bind_inv H. eauto.
  - unfold moveLayer in H. bind_inv H.
    destruct (negb (bool_decide (mParent s = Some this))); [discriminate H|].
    bind_inv H. eauto.
Qed.

Lemma addLayer_tree_ok this sf k (h h' : heap) rc :
  addLayer this sf k h = Some (rc, h') -> tree_ok h -> tree_ok h'.
Proof.
  intros H T.
  destruct (layer_op_codes this sf (mkPoint 0 0) k h h' rc (or_introl H)) as [->|[_ ->]];
    [|exact T].
  destruct (op_allocated_this this sf (mkPoint 0 0) k h h' (or_introl H)) as (t & c & Ht & Hc).
  pose proof (addLayer_links _ _ _ _ _ _ Ht H) as L.
  eapply tree_ok_add; [exact T|exact Ht|exact Hc| |exact L].
  unfold addLayer in H. rewrite Hc in H. simpl in H.
  destruct (mParent c); [discriminate H|reflexivity].
Qed.

Lemma addLayer_at_tree_ok this sf pos k (h h' : heap) rc :
  addLayer_at this sf pos k h = Some (rc, h') -> tree_ok h -> tree_ok h'.
Proof.
  intros H T.
  destruct (layer_op_codes this sf pos k h h' rc (or_intror (or_introl H))) as [->|[_ ->]];
    [|exact T].
  destruct (op_allocated_this this sf pos k h h' (or_intror (or_introl H)))
    as (t & c & Ht & Hc).
  pose proof (addLayer_at_links _ _ _ _ _ _ _ Ht H) as L.
  eapply tree_ok_add; [exact T|exact Ht|exact Hc| |exact L].
  unfold addLayer_at in H. rewrite Hc in H. simpl in H.
  destruct (mParent c); [discriminate H|reflexivity].
Qed.

Lemma removeLayer_tree_ok this sf (h h' : heap) rc :
  removeLayer this sf h = Some (rc, h') -> tree_ok h -> tree_ok h'.
Proof.
  intros H T.
  destruct (layer_op_codes this sf (mkPoint 0 0) 0 h h' rc
              (or_intror (or_intror (or_introl H)))) as [->|[_ ->]]; [|exact T].
  destruct (op_allocated_this this sf (mkPoint 0 0) 0 h h'
              (or_intror (or_intror (or_introl H)))) as (t & c & Ht & Hc).
  destruct (removeLayer_links _ _ _ _ _ Ht H) as (c' & k & Hc' & Hp & Hof & L).
  eapply tree_ok_remove; [exact T|exact Ht|exact Hc'|exact Hp|exact Hof|exact L].
Qed.

Lemma moveLayer_tree_ok this sf k (h h' : heap) rc :
  moveLayer this sf k h = Some (rc, h') -> tree_ok h -> tree_ok h'.
Proof.
  intros H T.
  destruct (layer_op_codes this sf (mkPoint 0 0) k h h' rc
              (or_intror (or_intror (or_intror H)))) as [->|[_ ->]]; [|exact T].
  destruct (op_allocated_this this sf (mkPoint 0 0) k h h'
              (or_intror (or_intror (or_intror H)))) as (t & c & Ht & Hc).
  destruct (moveLayer_links _ _ _ _ _ _ Ht H) as (c' & k0 & Hc' & Hp & Hof & L).
  eapply tree_ok_move; [exact T|exact Ht|exact Hof|exact L].
Qed.

(** ** Invariants of the operations *)

Ltac fmap_inv H :=
  match type of H with
  | (fmap _ ?m) = Some _ =>
      let E := fresh "E" in
      let r := fresh "r" in
      destruct m as [r|] eqn:E; simpl in H; [destruct r; simpl in H|discriminate H];
      injection H; clear H; intros; subst
  end.

Lemma keep_fields_links f :
  (forall s, shape_eq s (f s)) ->
  forall s : Surface, mParent (f s) = mParent s /\ mLayerMap (f s) = mLayerMap s.
Proof. intros Hf s. destruct (Hf s) as (_ & _ & _ & Hp & Hm). auto. Qed.

Lemma links_eq_invalidate_in_parent this (h h' : heap) :
  invalidate_in_parent this h = Some h' -> links_eq h h'.
Proof.
  unfold invalidate_in_parent. intros H. bind_inv H.
  destruct (mParent s).
  - repeat bind_inv H.
    eapply links_eq_trans.
    + eapply links_eq_update; [|exact E0]. intros; split; reflexivity.
    + eapply links_eq_update; [|exact H]. apply keep_invalidate_rect.
  - some_inv H. apply links_are_refl.
Qed.

Lemma links_eq_on_fill p pattern crop (h h' : heap) rc :
  on_surface p (fill pattern crop) h = Some (rc, h') -> links_eq h h'.
Proof.
  intros H. apply on_surface_Some in H. destruct H as (s & s' & Hs & Hf & ->).
  destruct (shape_eq_fill _ _ _ _ _ Hf) as (_ & _ & _ & Hp & Hm).
  eapply links_eq_insert; eauto.
Qed.

Lemma links_eq_resize this w hh (h h' : heap) rc :
  resize this w hh h = Some (rc, h') -> links_eq h h'.
Proof.
  intros H. apply resize_Some in H. repeat bind_inv H. some_inv H. destruct p as [rc' h'']. simpl.
  eapply links_eq_trans.
  { eapply links_eq_update; [|exact E]. intros; split; reflexivity. }
  eapply links_eq_trans.
  { destruct (mParent s).
    - eapply links_eq_update; [|exact E1]. apply keep_invalidate_rect.
    - some_inv E1. apply links_are_refl. }
  eapply links_eq_trans.
  { eapply links_eq_update; [|exact E2]. intros; split; reflexivity. }
  eapply links_eq_on_fill. exact E3.
Qed.

Lemma tree_ok_snoc h : tree_ok h -> tree_ok (h ++ [Surface0]).
Proof.
  intros (T1 & T2 & T3).
  assert (Hlk : forall q s, (h ++ [Surface0]) !! q = Some s ->
            h !! q = Some s \/ (q = length h /\ s = Surface0)).
  { intros q s Hq. destruct (decide (q < length h)%nat).
    - rewrite lookup_app_l in Hq by lia. left. exact Hq.
    - rewrite lookup_app_r in Hq by lia. right.
      destruct (q - length h)%nat as [|n0] eqn:En; simpl in Hq; [|discriminate Hq].
      split; [lia|congruence]. }
  assert (Hup : forall q s, h !! q = Some s -> (h ++ [Surface0]) !! q = Some s).
  { intros q s Hq. rewrite lookup_app_l; [exact Hq|]. apply lookup_lt_Some in Hq. exact Hq. }
  split; [|split].
  - intros p s Hp. destruct (Hlk p s Hp) as [Hp'|[_ ->]]; [eapply T1; exact Hp'|].
    split; [constructor|]. split; constructor.
  - intros p s c Hp Hc. destruct (Hlk p s Hp) as [Hp'|[_ ->]]; [|inversion Hc].
    destruct (T2 p s c Hp' Hc) as (sc & Hsc & Hpar). exists sc. split; [apply Hup|]; assumption.
  - intros c sc p Hc Hpar. destruct (Hlk c sc Hc) as [Hc'|[_ ->]]; [|discriminate Hpar].
    destruct (T3 c sc p Hc' Hpar) as (s & Hs & Hin). exists s. split; [apply Hup|]; assumption.
Qed.

Lemma run_op_tree_ok o (h h' : heap) : run_op o h = Some h' -> tree_ok h -> tree_ok h'.
Proof.
  destruct o; simpl; intros H T.
  - (* OpNew *) fmap_inv H. unfold new_Surface in E. bind_inv E. some_inv E.
    destruct p as [rc g]. simpl.
    eapply tree_ok_links; [eapply links_eq_resize; exact E0|]. apply tree_ok_snoc, T.
  - fmap_inv H. eapply tree_ok_links; [eapply links_eq_resize; exact E|exact T].
  - eapply tree_ok_links; [|exact T]. eapply links_eq_update; [|exact H].
    intros; split; reflexivity.
  - eapply tree_ok_links; [|exact T]. eapply links_eq_update; [|exact H].
    apply keep_invalidate_rect.
  - repeat bind_inv H. some_inv H. eapply tree_ok_links; [|exact T].
    unfold invalidate_range in E0. bind_inv E0. some_inv E0.
    eapply links_eq_insert; [exact E| |]; apply keep_invalidate_rect.
  - eapply tree_ok_links; [|exact T]. eapply (links_eq_frame p), write_cell_frame, H.
  - fmap_inv H. eapply tree_ok_links; [eapply links_eq_on_fill; exact E|exact T].
  - fmap_inv H. eapply tree_ok_links; [eapply links_eq_on_fill; exact E|exact T].
  - fmap_inv H. eapply tree_ok_links; [|exact T].
    eapply (links_eq_frame this), blend_frame, E.
  - fmap_inv H. unfold move_to in E. repeat bind_inv E. some_inv E.
    eapply tree_ok_links; [|exact T]. eapply links_eq_trans.
    + eapply links_eq_invalidate_in_parent; exact E0.
    + eapply links_eq_update; [|exact E1]. intros; split; reflexivity.
  - fmap_inv H. unfold move_to_z in E. repeat bind_inv E. some_inv E.
    eapply tree_ok_links.
    { eapply links_eq_update; [|exact E2]. intros; split; reflexivity. }
    destruct (mParent s).
    + repeat bind_inv E1. some_inv E1.
      match goal with
      | Em : moveLayer _ _ _ _ = Some ?r |- _ =>
          destruct r as [rc g]; simpl; eapply moveLayer_tree_ok; [exact Em|]
      end.
      match goal with
      | Ei : invalidate_in_parent _ _ = Some _ |- _ =>
          eapply tree_ok_links; [eapply links_eq_invalidate_in_parent; exact Ei|exact T]
      end.
    + some_inv E1. exact T.
  - fmap_inv H. unfold moveZ in E. bind_inv E. destruct (mParent s).
    + bind_inv E. eapply moveLayer_tree_ok; [exact E|].
      eapply tree_ok_links; [|exact T].
      match goal with
      | Eu : update _ invalidate _ = Some _ |- _ => eapply links_eq_update; [|exact Eu]
      end.
      intros; split; reflexivity.
    + some_inv E. exact T.
  - unfold show in H. bind_inv H. eapply tree_ok_links; [|exact T].
    eapply links_eq_trans; eapply links_eq_update; try eassumption; intros; split; reflexivity.
  - unfold hide in H. bind_inv H. eapply tree_ok_links; [|exact T].
    eapply links_eq_trans; [eapply links_eq_invalidate_in_parent; exact E|].
    eapply links_eq_update; [|exact H]. intros; split; reflexivity.
  - fmap_inv H. eapply addLayer_tree_ok; eassumption.
  - fmap_inv H. eapply addLayer_at_tree_ok; eassumption.
  - fmap_inv H. eapply removeLayer_tree_ok; eassumption.
  - fmap_inv H. eapply moveLayer_tree_ok; eassumption.
  - fmap_inv H. eapply tree_ok_links; [|exact T].
    eapply (links_eq_settled p), render_settled, E.
Qed.

Lemma run_ops_inv (P : heap -> Prop) os :
  (forall o h h', In o os -> run_op o h = Some h' -> P h -> P h') ->
  forall h h', run_ops os h = Some h' -> P h -> P h'.
Proof.
  unfold run_ops. induction os as [|o os IH]; simpl; intros Hstep h h' H Hp.
  - some_inv H. exact Hp.
  - destruct (run_op o h) as [h1|] eqn:E; [|discriminate H].
    eapply IH; [|exact H|].
    + intros o' g g' Hin. apply Hstep. right. exact Hin.
    + eapply Hstep; [left; reflexivity|exact E|exact Hp].
Qed.

Lemma buf_eq_refl h : buf_eq h h.
Proof.
  split; [reflexivity|]. intros q s s' Hs Hs'. rewrite Hs in Hs'. injection Hs' as <-. auto.
Qed.

Lemma buf_eq_trans h1 h2 h3 : buf_eq h1 h2 -> buf_eq h2 h3 -> buf_eq h1 h3.
Proof.
  intros [L1 H1] [L2 H2]. split; [congruence|]. intros q s s' Hs Hs'.
  destruct (lookup_lt_is_Some_2 h2 q) as [s2 Hs2].
  { rewrite L1. apply lookup_lt_Some in Hs. exact Hs. }
  destruct (H1 q s s2 Hs Hs2) as [<- <-]. exact (H2 q s2 s' Hs2 Hs').
Qed.

Lemma buf_eq_insert (h : heap) p s s' :
  h !! p = Some s -> mBounds s' = mBounds s -> length (mData s') = length (mData s) ->
  buf_eq h (<[p := s']> h).
Proof.
  intros Hs Hb Hd. split; [apply length_insert|]. intros q sq sq' Hq Hq'.
  rewrite (heap_lookup_insert _ _ _ _ _ Hs) in Hq'. destruct (decide (p = q)) as [<-|].
  - rewrite Hs in Hq. injection Hq as <-. injection Hq' as <-. auto.
  - rewrite Hq in Hq'. injection Hq' as <-. auto.
Qed.

Lemma buf_eq_update p f (h h' : heap) :
  (forall s, mBounds (f s) = mBounds s /\ length (mData (f s)) = length (mData s)) ->
  update p f h = Some h' -> buf_eq h h'.
Proof.
  intros Hf H. apply update_Some in H. destruct H as (s & Hs & ->).
  destruct (Hf s). eapply buf_eq_insert; eauto.
Qed.

Lemma buf_keep_invalidate_rect r s :
  mBounds (invalidate_rect r s) = mBounds s /\
  length (mData (invalidate_rect r s)) = length (mData s).
Proof. unfold invalidate_rect. destruct (valid (mDirty s)); split; reflexivity. Qed.

Lemma buf_write_length data i c d : buf_write data i c = Some d -> length d = length data.
Proof.
  unfold buf_write. destruct (_ <? _)%nat; [|discriminate]. intros [= <-]. apply length_insert.
Qed.

Lemma buf_eq_write_cell p i c (h h' : heap) : write_cell p i c h = Some h' -> buf_eq h h'.
Proof.
  unfold write_cell. intros H. repeat bind_inv H. some_inv H.
  eapply buf_eq_insert; [eassumption|reflexivity|]. simpl. eapply buf_write_length; eassumption.
Qed.

Lemma fill_all_length pattern : forall n data d,
  fill_all n pattern data = Some d -> length d = length data.
Proof.
  induction n as [|n IH]; simpl; intros data d H.
  - some_inv H. reflexivity.
  - destruct (buf_write data (Z.of_nat n) pattern) as [d1|] eqn:E; [|discriminate H].
    rewrite (IH _ _ H). eapply buf_write_length, E.
Qed.

Lemma fill_rows_length b dirty pattern data d :
  fill_rows b dirty pattern data = Some d -> length d = length data.
Proof.
  unfold fill_rows, for_. intros H.
  eapply (loop_rel (fun a b : list Char => length b = length a)); [| | |exact H].
  - reflexivity.
  - intros; congruence.
  - intros yy a a' Hin.
    eapply (loop_rel (fun a b : list Char => length b = length a)); [| | |exact Hin].
    + reflexivity.
    + intros; congruence.
    + intros xx g g' Hw. eapply buf_write_length, Hw.
Qed.

Lemma fill_buf pattern crop s rc s' :
  fill pattern crop s = Some (rc, s') ->
  mBounds s' = mBounds s /\ length (mData s') = length (mData s).
Proof.
  unfold fill. destruct (valid crop).
  - destruct (negb (valid (intersect (mBounds s) crop))).
    + intros H. some_inv H. auto.
    + intros H. bind_inv H. some_inv H.
      destruct (buf_keep_invalidate_rect (intersect (mBounds s) crop) (set_mData l s))
        as [Hb Hd].
      rewrite Hb, Hd.
      split; [reflexivity|]. simpl. eapply fill_rows_length; eassumption.
  - intros H. bind_inv H. some_inv H.
    destruct (buf_keep_invalidate_rect (mBounds s) (set_mData l s)) as [Hb Hd].
    rewrite Hb, Hd.
    split; [reflexivity|]. simpl. eapply fill_all_length; eassumption.
Qed.

Lemma buf_eq_on_fill p pattern crop (h h' : heap) rc :
  on_surface p (fill pattern crop) h = Some (rc, h') -> buf_eq h h'.
Proof.
  intros H. apply on_surface_Some in H. destruct H as (s & s' & Hs & Hf & ->).
  destruct (fill_buf _ _ _ _ _ Hf). eapply buf_eq_insert; eauto.
Qed.

Lemma buf_eq_blend_cell this other tb ob s_crop d_crop xx yy (h h' : heap) :
  blend_cell this other tb ob s_crop d_crop xx yy h = Some h' -> buf_eq h h'.
Proof.
  unfold blend_cell. intros H. bind_inv H.
  destruct (negb (is_transparent c)).
  - eapply buf_eq_write_cell, H.
  - some_inv H. apply buf_eq_refl.
Qed.

Lemma buf_eq_blend this other src_crop pos (h h' : heap) rc :
  blend this other src_crop pos h = Some (rc, h') -> buf_eq h h'.
Proof.
  unfold blend. intros H. bind_inv H. bind_inv H.
  destruct (negb _ || negb _).
  - some_inv H. apply buf_eq_refl.
  - bind_inv H. bind_inv H. some_inv H.
    eapply buf_eq_trans.
    + match goal with E : for_ _ _ _ = Some _ |- _ => unfold for_ in E;
        eapply (loop_rel buf_eq); [apply buf_eq_refl | apply buf_eq_trans | | exact E] end.
      intros yy g g' Hin. unfold for_ in Hin.
      eapply (loop_rel buf_eq); [apply buf_eq_refl | apply buf_eq_trans | | exact Hin].
      intros xx a b Hc. eapply buf_eq_blend_cell, Hc.
    + eapply buf_eq_update; [|eassumption]. apply buf_keep_invalidate_rect.
Qed.

Ltac buf_keep := intros; split; reflexivity.

Lemma buf_eq_invalidate_in_parent this (h h' : heap) :
  invalidate_in_parent this h = Some h' -> buf_eq h h'.
Proof.
  unfold invalidate_in_parent. intros H. bind_inv H.
  destruct (mParent s).
  - repeat bind_inv H.
    eapply buf_eq_trans.
    + eapply buf_eq_update; [|eassumption]. buf_keep.
    + eapply buf_eq_update; [|exact H]. apply buf_keep_invalidate_rect.
  - some_inv H. apply buf_eq_refl.
Qed.

Ltac buf_steps :=
  repeat match goal with
  | |- buf_eq ?h ?h => apply buf_eq_refl
  | E : update _ (invalidate_rect _) ?a = Some ?b |- buf_eq ?a ?c =>
      apply (buf_eq_trans a b c);
        [eapply buf_eq_update; [|exact E]; apply buf_keep_invalidate_rect|clear E]
  | E : update _ _ ?a = Some ?b |- buf_eq ?a ?c =>
      apply (buf_eq_trans a b c); [eapply buf_eq_update; [|exact E]; buf_keep|clear E]
  | E : invalidate_in_parent _ ?a = Some ?b |- buf_eq ?a ?c =>
      apply (buf_eq_trans a b c); [eapply buf_eq_invalidate_in_parent; exact E|clear E]
  end.

Lemma buf_eq_addLayer this sf k (h h' : heap) rc :
  addLayer this sf k h = Some (rc, h') -> buf_eq h h'.
Proof.
  unfold addLayer. intros H. bind_inv H. destruct (mParent s).
  - some_inv H. apply buf_eq_refl.
  - repeat bind_inv H. some_inv H. buf_steps.
Qed.

Lemma buf_eq_addLayer_at this sf pos k (h h' : heap) rc :
  addLayer_at this sf pos k h = Some (rc, h') -> buf_eq h h'.
Proof.
  unfold addLayer_at. intros H. bind_inv H. destruct (mParent s).
  - some_inv H. apply buf_eq_refl.
  - repeat bind_inv H. some_inv H. buf_steps.
Qed.

Lemma buf_eq_removeLayer this sf (h h' : heap) rc :
  removeLayer this sf h = Some (rc, h') -> buf_eq h h'.
Proof.
  unfold removeLayer. intros H. bind_inv H.
  destruct (negb (bool_decide (mParent s = Some this))).
  - some_inv H. apply buf_eq_refl.
  - bind_inv H. destruct (layer_of sf (mLayerMap s0)).
    + repeat bind_inv H. some_inv H. buf_steps.
    + some_inv H. apply buf_eq_refl.
Qed.

Lemma buf_eq_moveLayer this sf k (h h' : heap) rc :
  moveLayer this sf k h = Some (rc, h') -> buf_eq h h'.
Proof.
  unfold moveLayer. intros H. bind_inv H.
  destruct (negb (bool_decide (mParent s = Some this))).
  - some_inv H. apply buf_eq_refl.
  - bind_inv H. destruct (layer_of sf (mLayerMap s0)).
    + repeat bind_inv H. some_inv H. buf_steps.
    + some_inv H. apply buf_eq_refl.
Qed.

Lemma buf_eq_collect this sf (h h' : heap) :
  collect_dirty this sf h = Some h' -> buf_eq h h'.
Proof.
  unfold collect_dirty. intros H. bind_inv H. destruct (mVisible s && valid (mDirty s)).
  - eapply buf_eq_update; [|exact H]. apply buf_keep_invalidate_rect.
  - some_inv H. apply buf_eq_refl.
Qed.

Lemma buf_eq_blend_layer this sf (h h' : heap) :
  blend_layer this sf h = Some h' -> buf_eq h h'.
Proof.
  unfold blend_layer. intros H. bind_inv H. destruct (mVisible s && valid (mBounds s)).
  - repeat bind_inv H. destruct p as [rc g]. simpl in H.
    eapply buf_eq_trans; [eapply buf_eq_blend; eassumption|].
    eapply buf_eq_update; [|exact H]. buf_keep.
  - some_inv H. apply buf_eq_refl.
Qed.

Lemma buf_eq_render_body up this (h h' : heap) out :
  (forall q g g' o, up q g = Some (g', o) -> buf_eq g g') ->
  render_body up this h = Some (h', out) -> buf_eq h h'.
Proof.
  intros Hup H. unfold render_body in H. repeat bind_inv H.
  match goal with
  | E : for_each _ (collect_dirty _) h = Some ?h1 |- _ =>
      apply (buf_eq_trans h h1 h');
        [eapply (for_each_rel buf_eq); [apply buf_eq_refl|apply buf_eq_trans| |exact E];
         intros a g g'; apply buf_eq_collect|clear E]
  end.
  destruct (negb (valid (mDirty s0))).
  - some_inv H. apply buf_eq_refl.
  - repeat bind_inv H. some_inv H.
    match goal with
    | E : match mLayerMap _ with [] => _ | _ => _ end = Some ?h2 |- buf_eq ?h1 _ =>
        apply (buf_eq_trans h1 h2);
          [destruct (mLayerMap s0);
            [some_inv E; apply buf_eq_refl
            |bind_inv E; some_inv E;
             match goal with
             | Ec : on_surface _ _ _ = Some ?r |- _ =>
                 destruct r; simpl; eapply buf_eq_on_fill; exact Ec
             end]|clear E]
    end.
    match goal with
    | E : for_each _ (blend_layer _) ?a = Some ?b |- buf_eq ?a _ =>
        apply (buf_eq_trans a b);
          [eapply (for_each_rel buf_eq); [apply buf_eq_refl|apply buf_eq_trans| |exact E];
           intros x g g'; apply buf_eq_blend_layer|clear E]
    end.
    match goal with
    | E : match mParent ?t with Some _ => _ | None => _ end = Some ?r |- buf_eq ?a _ =>
        apply (buf_eq_trans a (fst r));
          [destruct (mParent t); [destruct r; eapply Hup; exact E
                                 |some_inv E; apply buf_eq_refl]|clear E]
    end.
    eapply buf_eq_update; [|eassumption]. buf_keep.
Qed.

Lemma buf_eq_render fuel : forall this (h h' : heap) out,
  render fuel this h = Some (h', out) -> buf_eq h h'.
Proof.
  induction fuel as [|fuel IH]; intros this h h' out; [discriminate|].
  rewrite render_S. apply buf_eq_render_body. exact IH.
Qed.

Lemma heap_buffer_ok_eq h h' : buf_eq h h' -> heap_buffer_ok h -> heap_buffer_ok h'.
Proof.
  intros [Hl He] Hok p s' Hp.
  destruct (lookup_lt_is_Some_2 h p) as [s Hs].
  { rewrite <- Hl. apply lookup_lt_Some in Hp. exact Hp. }
  destruct (He p s s' Hs Hp) as [Hb Hd]. unfold buffer_ok. rewrite Hb, Hd. exact (Hok p s Hs).
Qed.

Lemma to_size_mul a b : to_size (to_size a * to_size b) = to_size (a * b).
Proof. unfold to_size. symmetry. apply Z.mul_mod. lia. Qed.

Lemma size_resized w hh : size (Rect4 0 0 (to_ssize w) (to_ssize hh)) = to_size (w * hh).
Proof.
  unfold size, width, height; simpl. rewrite !Z.sub_0_r.
  destruct (to_ssize_cong w) as [k1 ->]. destruct (to_ssize_cong hh) as [k2 ->].
  rewrite !to_size_shift. apply to_size_mul.
Qed.

Lemma heap_buffer_ok_insert (h : heap) p s :
  heap_buffer_ok h -> buffer_ok s -> heap_buffer_ok (<[p := s]> h).
Proof.
  intros Hok Hs q sq Hq. destruct (decide (p = q)) as [<-|Hne].
  - destruct (lookup_lt_is_Some_2 h p) as [s0 Hs0].
    { apply lookup_lt_Some in Hq. rewrite length_insert in Hq. exact Hq. }
    rewrite (heap_insert_lookup_eq _ _ _ _ Hs0) in Hq. injection Hq as <-. exact Hs.
  - rewrite heap_insert_lookup_ne in Hq by exact Hne. exact (Hok q sq Hq).
Qed.

Lemma buffer_ok_invalidate_rect r s : buffer_ok s -> buffer_ok (invalidate_rect r s).
Proof.
  unfold buffer_ok. destruct (buf_keep_invalidate_rect r s) as [-> ->]. auto.
Qed.

Lemma resize_buffer_ok this w hh (h h' : heap) rc :
  resize this w hh h = Some (rc, h') -> heap_buffer_ok h -> heap_buffer_ok h'.
Proof.
  intros H Hok. apply resize_Some in H. repeat bind_inv H. some_inv H.
  match goal with
  | E : on_surface _ _ ?a = Some ?r |- _ =>
      destruct r as [rc g]; simpl; eapply heap_buffer_ok_eq; [eapply buf_eq_on_fill; exact E|];
      clear E
  end.
  match goal with
  | E3 : update this (set_mBounds _) ?h2 = Some ?h3,
    E1 : update this (set_mData ?d) h = Some ?h1,
    E2 : match mParent _ with Some _ => _ | None => _ end = Some ?h2 |- _ =>
      pose proof (proj2 (update_lookup_all _ _ _ _ E3)) as L3;
      pose proof (proj2 (update_lookup_all _ _ _ _ E1)) as L1;
      assert (Hh2 : forall q s2, h2 !! q = Some s2 ->
                exists s1, h1 !! q = Some s1 /\ mBounds s2 = mBounds s1 /\
                  length (mData s2) = length (mData s1))
  end.
  { intros q s2 Hq. destruct (mParent s) as [par|].
    - match goal with
      | E : update par _ _ = Some _ |- _ =>
          apply update_lookup_all in E; destruct E as [_ E]; rewrite E in Hq
      end.
      destruct (decide (par = q)).
      + destruct (l !! q) as [s1|]; simpl in Hq; [|discriminate Hq]. injection Hq as <-.
        exists s1. split; [reflexivity|]. apply buf_keep_invalidate_rect.
      + exists s2. auto.
    - match goal with E : Some _ = Some _ |- _ => injection E as <- end. exists s2. auto. }
  intros p s3 Hp. rewrite L3 in Hp.
  destruct (decide (this = p)) as [<-|Hne].
  - destruct (l0 !! this) as [s2|] eqn:Hs2; simpl in Hp; [|discriminate Hp].
    injection Hp as <-. destruct (Hh2 _ _ Hs2) as (s1 & Hs1 & _ & Hd).
    rewrite L1 in Hs1. destruct (decide (this = this)); [|tauto].
    destruct (h !! this) as [s0|]; simpl in Hs1; [|discriminate Hs1]. injection Hs1 as <-.
    unfold buffer_ok. simpl. rewrite Hd. simpl. rewrite length_replicate, size_resized.
    reflexivity.
  - destruct (Hh2 _ _ Hp) as (s1 & Hs1 & Hb & Hd).
    rewrite L1 in Hs1. destruct (decide (this = p)); [tauto|].
    unfold buffer_ok. rewrite Hb, Hd. exact (Hok _ _ Hs1).
Qed.

Lemma run_op_buffer_ok o (h h' : heap) :
  run_op o h = Some h' -> heap_buffer_ok h -> heap_buffer_ok h'.
Proof.
  destruct o; simpl; intros H B.
  - fmap_inv H. unfold new_Surface in E. bind_inv E. some_inv E.
    destruct p as [rc g]. simpl. eapply resize_buffer_ok; [eassumption|].
    intros p s Hp. destruct (decide (p < length h)%nat).
    + rewrite lookup_app_l in Hp by lia. exact (B p s Hp).
    + rewrite lookup_app_r in Hp by lia.
      destruct (p - length h)%nat; simpl in Hp; [|discriminate Hp].
      injection Hp as <-. reflexivity.
  - fmap_inv H. eapply resize_buffer_ok; eassumption.
  - eapply heap_buffer_ok_eq; [|exact B]. eapply buf_eq_update; [|exact H]. buf_keep.
  - eapply heap_buffer_ok_eq; [|exact B]. eapply buf_eq_update; [|exact H].
    apply buf_keep_invalidate_rect.
  - repeat bind_inv H. some_inv H. eapply heap_buffer_ok_eq; [|exact B].
    match goal with E : invalidate_range _ _ _ = Some _ |- _ =>
      unfold invalidate_range in E; bind_inv E; some_inv E end.
    eapply buf_eq_insert; [eassumption| |]; apply buf_keep_invalidate_rect.
  - eapply heap_buffer_ok_eq; [|exact B]. eapply buf_eq_write_cell, H.
  - fmap_inv H. eapply heap_buffer_ok_eq; [eapply buf_eq_on_fill; eassumption|exact B].
  - fmap_inv H. eapply heap_buffer_ok_eq; [eapply buf_eq_on_fill; eassumption|exact B].
  - fmap_inv H. eapply heap_buffer_ok_eq; [eapply buf_eq_blend; eassumption|exact B].
  - fmap_inv H. unfold move_to in E. repeat bind_inv E. some_inv E.
    eapply heap_buffer_ok_eq; [|exact B]. buf_steps.
  - fmap_inv H. unfold move_to_z in E. repeat bind_inv E. some_inv E.
    eapply heap_buffer_ok_eq; [|exact B].
    match goal with
    | Em : match mParent _ with Some _ => _ | None => _ end = Some ?b |- buf_eq ?a _ =>
        apply (buf_eq_trans a b);
          [destruct (mParent s);
            [repeat bind_inv Em; some_inv Em;
             match goal with
             | Ei : invalidate_in_parent _ _ = Some ?c, El : moveLayer _ _ _ ?c = Some ?r |- _ =>
                 destruct r; simpl;
                 eapply buf_eq_trans;
                   [eapply buf_eq_invalidate_in_parent; exact Ei
                   |eapply buf_eq_moveLayer; exact El]
             end
            |some_inv Em; apply buf_eq_refl]|clear Em]
    end.
    buf_steps.
  - fmap_inv H. unfold moveZ in E. bind_inv E. eapply heap_buffer_ok_eq; [|exact B].
    destruct (mParent s).
    + bind_inv E. eapply buf_eq_trans; [|eapply buf_eq_moveLayer; exact E].
      eapply buf_eq_update; [|eassumption]. buf_keep.
    + some_inv E. apply buf_eq_refl.
  - unfold show in H. bind_inv H. eapply heap_buffer_ok_eq; [|exact B].
    eapply buf_eq_trans; (eapply buf_eq_update; [|eassumption]); buf_keep.
  - unfold hide in H. bind_inv H. eapply heap_buffer_ok_eq; [|exact B].
    eapply buf_eq_trans; [eapply buf_eq_invalidate_in_parent; eassumption|].
    eapply buf_eq_update; [|exact H]. buf_keep.
  - fmap_inv H. eapply heap_buffer_ok_eq; [eapply buf_eq_addLayer; eassumption|exact B].
  - fmap_inv H. eapply heap_buffer_ok_eq; [eapply buf_eq_addLayer_at; eassumption|exact B].
  - fmap_inv H. eapply heap_buffer_ok_eq; [eapply buf_eq_removeLayer; eassumption|exact B].
  - fmap_inv H. eapply heap_buffer_ok_eq; [eapply buf_eq_moveLayer; eassumption|exact B].
  - fmap_inv H. eapply heap_buffer_ok_eq; [eapply buf_eq_render; eassumption|exact B].
Qed.

Lemma dirty_in_bounds_set_mData d s : dirty_in_bounds s -> dirty_in_bounds (set_mData d s).
Proof. intros H. exact H. Qed.

Lemma resize_dirty_ok this w hh (h h' : heap) rc t :
  h !! this = Some t ->
  covers (Rect4 0 0 (to_ssize w) (to_ssize hh)) (mBounds t) \/
  (valid (mDirty t) = false /\ mParent t <> Some this) ->
  resize this w hh h = Some (rc, h') -> heap_dirty_ok h -> heap_dirty_ok h'.
Proof.
  intros Ht Hc H Hok. apply resize_Some in H. repeat bind_inv H. some_inv H.
  match goal with
  | E : on_surface _ _ ?a = Some ?r |- _ =>
      destruct r as [rc g]; simpl; eapply fill_heap_dirty_ok; [exact E|]; clear E
  end.
  match goal with
  | E3 : update this (set_mBounds _) ?h2 = Some ?h3,
    E1 : update this (set_mData ?d) h = Some ?h1 |- _ =>
      pose proof (proj2 (update_lookup_all _ _ _ _ E3)) as L3;
      pose proof (proj2 (update_lookup_all _ _ _ _ E1)) as L1;
      assert (Es : s = set_mData d t)
  end.
  { match goal with E : l !! this = Some s |- _ => rewrite L1, Ht in E;
      destruct (decide (this = this)); [|tauto]; simpl in E; injection E as <- end.
    reflexivity. }
  subst s. simpl in *.
  assert (Hh2 : forall q s2, l0 !! q = Some s2 ->
            exists s0, h !! q = Some s0 /\ mBounds s2 = mBounds s0 /\
              dirty_in_bounds s2 /\
              (q = this -> mParent t <> Some this -> mDirty s2 = mDirty t)).
  { intros q s2 Hq.
    assert (H1q : forall s1, l !! q = Some s1 ->
              exists s0, h !! q = Some s0 /\ mBounds s1 = mBounds s0 /\
                dirty_in_bounds s1 /\ (q = this -> mDirty s1 = mDirty t)).
    { intros s1 Hs1. rewrite L1 in Hs1. destruct (decide (this = q)) as [<-|].
      - rewrite Ht in Hs1. simpl in Hs1. injection Hs1 as <-. exists t.
        split; [exact Ht|]. split; [reflexivity|]. split; [exact (Hok _ _ Ht)|reflexivity].
      - exists s1. split; [exact Hs1|]. split; [reflexivity|].
        split; [exact (Hok _ _ Hs1)|]. intros Eq. congruence. }
    destruct (mParent t) as [par|].
    - match goal with
      | E : update par _ _ = Some _ |- _ =>
          apply update_lookup_all in E; destruct E as [_ E]; rewrite E in Hq
      end.
      destruct (decide (par = q)) as [->|].
      + destruct (l !! q) as [s1|] eqn:Hs1; simpl in Hq; [|discriminate Hq].
        injection Hq as <-. destruct (H1q s1 eq_refl) as (s0 & Hs0 & Hb & Hd & _).
        exists s0. split; [exact Hs0|]. split; [rewrite invalidate_rect_mBounds; exact Hb|].
        split; [apply invalidate_rect_dirty_in_bounds, Hd|]. intros -> Hn. congruence.
      + destruct (H1q s2 Hq) as (s0 & Hs0 & Hb & Hd & He). exists s0. tauto.
    - match goal with E : Some _ = Some _ |- _ => injection E as <- end.
      destruct (H1q s2 Hq) as (s0 & Hs0 & Hb & Hd & He). exists s0. tauto. }
  intros p s3 Hp. rewrite L3 in Hp.
  destruct (decide (this = p)) as [<-|Hne].
  - destruct (l0 !! this) as [s2|] eqn:Hs2; simpl in Hp; [|discriminate Hp].
    injection Hp as <-. destruct (Hh2 _ _ Hs2) as (s0 & Hs0 & Hb & Hd & He).
    rewrite Ht in Hs0. injection Hs0 as <-.
    unfold dirty_in_bounds. simpl. intros Hv.
    destruct Hc as [Hc|[Hc Hn]].
    + eapply covers_trans; [exact Hc|]. rewrite <- Hb. apply Hd. exact Hv.
    + rewrite (He eq_refl Hn) in Hv. congruence.
  - destruct (Hh2 _ _ Hp) as (s0 & Hs0 & Hb & Hd & _). exact Hd.
Qed.

Lemma run_op_dirty_ok o (h h' : heap) :
  is_resize o = false -> run_op o h = Some h' -> heap_dirty_ok h -> heap_dirty_ok h'.
Proof.
  destruct o; simpl; intros Hr H D; try discriminate Hr.
  - fmap_inv H. unfold new_Surface in E. bind_inv E. some_inv E.
    destruct p as [rc g]. simpl.
    eapply (resize_dirty_ok (length h) w hh (h ++ [Surface0]) g rc Surface0);
      [apply lookup_snoc| |eassumption|].
    + right. split; [reflexivity|discriminate].
    + intros p s Hp. destruct (decide (p < length h)%nat).
      * rewrite lookup_app_l in Hp by lia. exact (D p s Hp).
      * rewrite lookup_app_r in Hp by lia.
        destruct (p - length h)%nat; simpl in Hp; [|discriminate Hp].
        injection Hp as <-. intros Hv. discriminate Hv.
  - eapply update_invalidate_dirty_ok; eassumption.
  - eapply update_invalidate_rect_dirty_ok; eassumption.
  - repeat bind_inv H. some_inv H. apply insert_dirty_ok; [exact D|].
    eapply (run_call_dirty_in_bounds (InvRange start end_)); [|eassumption].
    eapply D; eassumption.
  - eapply write_cell_dirty_ok; eassumption.
  - fmap_inv H. eapply fill_heap_dirty_ok; eassumption.
  - fmap_inv H. eapply fill_heap_dirty_ok; eassumption.
  - fmap_inv H. eapply blend_dirty_ok; eassumption.
  - fmap_inv H. eapply move_to_dirty_ok; eassumption.
  - fmap_inv H. eapply move_to_z_dirty_ok; eassumption.
  - fmap_inv H. eapply moveZ_dirty_ok; eassumption.
  - eapply show_dirty_ok; eassumption.
  - eapply hide_dirty_ok; eassumption.
  - fmap_inv H. eapply addLayer_dirty_ok; eassumption.
  - fmap_inv H. eapply addLayer_at_dirty_ok; eassumption.
  - fmap_inv H. eapply removeLayer_dirty_ok; eassumption.
  - fmap_inv H. eapply moveLayer_dirty_ok; eassumption.
  - fmap_inv H. eapply render_dirty_ok; eassumption.
Qed.

(** ** Invariants of sequences of operations *)

Lemma tree_ok_nil : tree_ok [].
Proof.
  split; [|split]; intros; match goal with H : [] !! _ = Some _ |- _ => discriminate H end.
Qed.

Lemma containsLayer_spec p c (h : heap) s :
  h !! p = Some s ->
  (containsLayer p c h = Some true <-> c ∈ layers (mLayerMap s)).
Proof.
  intros Hp. unfold containsLayer. rewrite Hp. simpl. rewrite <- set_mem_spec.
  split; [intros [= ->]; reflexivity|intros ->; reflexivity].
Qed.

(** X9. Every sequence of operations of the library (constructing,
    resizing, invalidating, writing, filling, clearing, blending, moving,
    showing, hiding, adding, removing and moving layers, rendering), run
    from a consistent store, leaves a consistent store: every layer map is
    sorted, without empty layer and without a surface listed twice, every
    surface listed in a layer map has that surface as its parent, and every
    surface with a parent is listed in the parent's layer map.  So
    [containsLayer] answers true exactly for the surface's children. *)
Theorem operations_keep_tree_consistent (os : list Op) (h h' : heap) :
  run_ops os h = Some h' -> tree_ok h ->
  tree_ok h' /\
  forall p s c sc, h' !! p = Some s -> h' !! c = Some sc ->
    (containsLayer p c h' = Some true <-> mParent sc = Some p).
Proof.
  intros H T.
  assert (T' : tree_ok h').
  { eapply (run_ops_inv tree_ok); [|exact H|exact T].
    intros o g g' _. apply run_op_tree_ok. }
  split; [exact T'|]. intros p s c sc Hp Hc.
  rewrite (containsLayer_spec p c h' s Hp). destruct T' as (_ & T2 & T3). split.
  - intros Hin. destruct (T2 p s c Hp Hin) as (sc' & Hsc' & Hpar). congruence.
  - intros Hpar. destruct (T3 c sc p Hc Hpar) as (s' & Hs' & Hin). congruence.
Qed.

Lemma operations_keep_tree_consistent_witness :
  exists h', run_ops [OpNew 10 10; OpNew 2 2; OpAddLayerAt 0 1 (mkPoint 1 1) 3;
                      OpMoveZ 1 5; OpRender 1 0] [] = Some h' /\
    tree_ok h' /\ containsLayer 0%nat 1%nat h' = Some true.
Proof.
  eexists. split; [vm_compute; reflexivity|].
  match goal with
  | |- tree_ok ?g /\ _ =>
      destruct (operations_keep_tree_consistent
                  [OpNew 10 10; OpNew 2 2; OpAddLayerAt 0 1 (mkPoint 1 1) 3;
                   OpMoveZ 1 5; OpRender 1 0] [] g) as [T _];
        [vm_compute; reflexivity|exact tree_ok_nil|]
  end.
  split; [exact T|reflexivity].
Defined.

(** X10. Every sequence of operations of the library keeps the
    buffer of every surface exactly [size()] cells long, [resize] included;
    so filling a whole surface always succeeds and touches every cell. *)
Theorem operations_keep_buffer_size (os : list Op) (h h' : heap) :
  run_ops os h = Some h' -> heap_buffer_ok h ->
  heap_buffer_ok h' /\
  forall p s pattern, h' !! p = Some s ->
    fill pattern Rect0 s
      = Some (0, invalidate_rect (mBounds s)
                   (set_mData (replicate (length (mData s)) pattern) s)).
Proof.
  intros H B.
  assert (B' : heap_buffer_ok h').
  { eapply (run_ops_inv heap_buffer_ok); [|exact H|exact B].
    intros o g g' _. apply run_op_buffer_ok. }
  split; [exact B'|]. intros p s pattern Hp. specialize (B' p s Hp).
  unfold fill. simpl. unfold buffer_ok in B'. rewrite <- B'.
  rewrite fill_all_spec by lia. simpl. rewrite drop_all, app_nil_r. reflexivity.
Qed.

Lemma heap_buffer_ok_nil : heap_buffer_ok [].
Proof. intros p s Hp. discriminate Hp. Qed.

Lemma operations_keep_buffer_size_witness :
  exists h', run_ops [OpNew 4 3; OpResize 0 2 5; OpFill 0 glyph_b (Rect4 1 1 9 9)] []
             = Some h' /\ heap_buffer_ok h'.
Proof.
  eexists. split; [vm_compute; reflexivity|].
  match goal with
  | |- heap_buffer_ok ?g =>
      destruct (operations_keep_buffer_size
                  [OpNew 4 3; OpResize 0 2 5; OpFill 0 glyph_b (Rect4 1 1 9 9)] [] g)
        as [B _]; [vm_compute; reflexivity|exact heap_buffer_ok_nil|exact B]
  end.
Defined.

(** X11. Every sequence of operations of the library in which
    [resize] does not occur keeps every valid dirty rectangle within the
    bounds of its surface. *)
Theorem operations_keep_dirty_in_bounds (os : list Op) (h h' : heap) :
  forallb (fun o => negb (is_resize o)) os = true ->
  run_ops os h = Some h' -> heap_dirty_ok h -> heap_dirty_ok h'.
Proof.
  intros Hn H D. eapply (run_ops_inv heap_dirty_ok); [|exact H|exact D].
  intros o g g' Hin. apply run_op_dirty_ok.
  rewrite forallb_forall in Hn. specialize (Hn o Hin).
  destruct (is_resize o); [discriminate Hn|reflexivity].
Qed.

Lemma heap_dirty_ok_nil : heap_dirty_ok [].
Proof. intros p s Hp. discriminate Hp. Qed.

Lemma operations_keep_dirty_in_bounds_witness :
  exists h', run_ops [OpNew 10 10; OpNew 2 2; OpAddLayerAt 0 1 (mkPoint 8 8) 0;
                      OpMove 1 (mkPoint (-1) 4); OpHide 1] [] = Some h' /\
    heap_dirty_ok h'.
Proof.
  eexists. split; [vm_compute; reflexivity|].
  eapply (operations_keep_dirty_in_bounds
            [OpNew 10 10; OpNew 2 2; OpAddLayerAt 0 1 (mkPoint 8 8) 0;
             OpMove 1 (mkPoint (-1) 4); OpHide 1] []);
    [reflexivity|vm_compute; reflexivity|exact heap_dirty_ok_nil].
Defined.

(** X12. A [resize] to bounds that contain the old bounds keeps
    every valid dirty rectangle of the store within the bounds of its
    surface (only a shrinking [resize] leaves a stale one). *)
Theorem resize_not_shrinking_keeps_dirty_in_bounds (this : ptr) (w hh : Z)
    (h h' : heap) (rc : Z) (t : Surface) :
  h !! this = Some t ->
  covers (Rect4 0 0 (to_ssize w) (to_ssize hh)) (mBounds t) ->
  resize this w hh h = Some (rc, h') -> heap_dirty_ok h -> heap_dirty_ok h'.
Proof.
  intros Ht Hc. apply (resize_dirty_ok this w hh h h' rc t Ht). left. exact Hc.
Qed.

(** ** Attaching and detaching *)

Lemma map_set_elem k l m : (k, l) ∈ map_set k l m.
Proof.
  induction m as [|[k' l'] m IH]; simpl; [left|].
  destruct (k <? k'); [left|]. destruct (k =? k'); [left|right; exact IH].
Qed.

Lemma map_set_find k l m : map_find k (map_set k l m) = Some l.
Proof.
  induction m as [|[k' l'] m IH]; simpl.
  - rewrite Z.eqb_refl. reflexivity.
  - destruct (Z.ltb_spec k k'); simpl; [rewrite Z.eqb_refl; reflexivity|].
    destruct (Z.eqb_spec k k'); simpl; [rewrite Z.eqb_refl; reflexivity|].
    destruct (Z.eqb_spec k k'); [tauto|exact IH].
Qed.

Lemma layer_insert_bucket k sf m :
  exists l, map_find k (layer_insert k sf m) = Some l /\ sf ∈ l /\
    sf ∈ layers (layer_insert k sf m).
Proof.
  unfold layer_insert.
  set (l := match map_find k m with
            | Some l => set_insert sf l
            | None => set_insert sf []
            end).
  assert (E : match map_find k m with
              | Some l => map_set k (set_insert sf l) m
              | None => map_set k (set_insert sf []) m
              end = map_set k l m) by (subst l; destruct (map_find k m); reflexivity).
  rewrite E. exists l.
  assert (Hin : sf ∈ l).
  { subst l. destruct (map_find k m); apply set_insert_elem; left; reflexivity. }
  split; [apply map_set_find|]. split; [exact Hin|].
  apply layers_elem. exists k, l. split; [apply map_set_elem|exact Hin].
Qed.

Lemma invalidate_rect_twice r s :
  invalidate_rect r (invalidate_rect r s) = invalidate_rect r s.
Proof.
  destruct (valid (mDirty (invalidate_rect r s))) eqn:Ev.
  - apply invalidate_rect_absorbed; [exact Ev|].
    rewrite invalidate_rect_mBounds.
    destruct (invalidate_rect_grows r s) as [Hc _].
    destruct (valid (intersect (mBounds s) r)) eqn:Ei.
    + apply covers_encloses; assumption.
    + (* the clipped rectangle is empty: the dirty rectangle was valid before *)
      rewrite invalidate_rect_mDirty in *. destruct (valid (mDirty s)) eqn:Ed.
      * apply boundingRect_encloses_r.
      * congruence.
  - rewrite invalidate_rect_mDirty in Ev.
    destruct (valid (mDirty s)) eqn:Ed.
    + rewrite boundingRect_valid_l in Ev by exact Ed. discriminate Ev.
    + unfold invalidate_rect at 1. rewrite invalidate_rect_mDirty, Ed, Ev.
      rewrite invalidate_rect_mBounds. unfold invalidate_rect. rewrite Ed. reflexivity.
Qed.

Lemma addLayer_attaches_stores (this sf : ptr) (pos : Point) (k : Z) (h : heap)
    (t c : Surface) :
  this <> sf -> h !! this = Some t -> h !! sf = Some c -> mParent c = None ->
  let t' := invalidate_rect (bounds c) (set_mLayerMap (layer_insert k sf (mLayerMap t)) t) in
  let t'' := invalidate_rect (bounds (set_mPos pos c))
               (set_mLayerMap (layer_insert k sf (mLayerMap t)) t) in
  addLayer this sf k h
    = Some (0, <[sf := set_mParent (Some this) c]> (<[this := t']> h)) /\
  addLayer_at this sf pos k h
    = Some (0, <[sf := set_mParent (Some this) (set_mPos pos c)]> (<[this := t'']> h)) /\
  (exists l, map_find k (mLayerMap t') = Some l /\ sf ∈ l) /\
  set_mem sf (layers (mLayerMap t')) = true /\
  mLayerMap t'' = mLayerMap t' /\
  covers (mDirty t') (intersect (mBounds t) (bounds c)) /\
  covers (mDirty t'') (intersect (mBounds t) (bounds (set_mPos pos c))).
Proof.
  intros Hne Ht Hc Hdet t' t''.
  split; [|split; [|split; [|split; [|split; [|split]]]]].
  - unfold addLayer. rewrite Hc. simpl. rewrite Hdet, Ht. simpl.
    rewrite (update_lookup _ _ _ _ Ht). simpl.
    rewrite heap_insert_lookup_ne by exact Hne. rewrite Hc. simpl.
    erewrite update_lookup by (apply (heap_insert_lookup_eq _ _ _ _ Ht)). simpl.
    rewrite list_insert_insert_eq.
    erewrite update_lookup
      by (rewrite heap_insert_lookup_ne by exact Hne; exact Hc).
    reflexivity.
  - unfold addLayer_at. rewrite Hc. simpl. rewrite Hdet.
    rewrite (update_lookup _ _ _ _ Hc). simpl.
    rewrite heap_insert_lookup_ne by congruence. rewrite Ht. simpl.
    erewrite update_lookup
      by (rewrite heap_insert_lookup_ne by congruence; exact Ht). simpl.
    rewrite heap_insert_lookup_ne by exact Hne.
    rewrite (heap_insert_lookup_eq _ _ _ _ Hc). simpl.
    erewrite update_lookup.
    2:{ apply heap_insert_lookup_eq with (s0 := t).
        rewrite heap_insert_lookup_ne by congruence. exact Ht. }
    simpl. rewrite list_insert_insert_eq.
    erewrite update_lookup.
    2:{ rewrite heap_insert_lookup_ne by exact Hne.
        apply (heap_insert_lookup_eq _ _ _ _ Hc). }
    simpl. f_equal. f_equal.
    rewrite (list_insert_insert_ne _ this sf) by congruence.
    rewrite list_insert_insert_eq. reflexivity.
  - destruct (layer_insert_bucket k sf (mLayerMap t)) as (l & Hf & Hin & _).
    exists l. subst t'. destruct (keep_invalidate_rect (bounds c)
      (set_mLayerMap (layer_insert k sf (mLayerMap t)) t)) as [_ ->]. simpl. auto.
  - destruct (layer_insert_bucket k sf (mLayerMap t)) as (l & _ & _ & Hin).
    apply set_mem_spec. subst t'. destruct (keep_invalidate_rect (bounds c)
      (set_mLayerMap (layer_insert k sf (mLayerMap t)) t)) as [_ ->]. exact Hin.
  - subst t' t''.
    destruct (keep_invalidate_rect (bounds c)
      (set_mLayerMap (layer_insert k sf (mLayerMap t)) t)) as [_ ->].
    destruct (keep_invalidate_rect (bounds (set_mPos pos c))
      (set_mLayerMap (layer_insert k sf (mLayerMap t)) t)) as [_ ->]. reflexivity.
  - apply (invalidate_rect_grows (bounds c)
             (set_mLayerMap (layer_insert k sf (mLayerMap t)) t)).
  - apply (invalidate_rect_grows (bounds (set_mPos pos c))
             (set_mLayerMap (layer_insert k sf (mLayerMap t)) t)).
Qed.

(** X13. Adding a surface that has no parent to another surface
    succeeds, with either overload of [addLayer].  The child afterwards is
    the child of before with the parent set, and, for the overload with
    [pos], with [pos] as its position (the other overload keeps the
    position); the parent's layer map and dirty rectangle are updated and
    nothing else changes.  The child is then in layer [Z] of the parent and
    is one of its layers, and the parent's dirty rectangle contains the
    part of the child's footprint, at its position of afterwards, that lies
    within the parent's bounds. *)
Theorem addLayer_attaches (this sf : ptr) (pos : Point) (k : Z) (h : heap)
    (t c : Surface) :
  this <> sf -> h !! this = Some t -> h !! sf = Some c -> mParent c = None ->
  let m' := layer_insert k sf (mLayerMap t) in
  let t' := invalidate_rect (move (mBounds c) (mPos c)) (set_mLayerMap m' t) in
  let t'' := invalidate_rect (move (mBounds c) pos) (set_mLayerMap m' t) in
  let c' := mkSurface (mBounds c) (mDirty c) (mPos c) (mVisible c) (Some this)
                      (mData c) (mLayerMap c) in
  let c'' := mkSurface (mBounds c) (mDirty c) pos (mVisible c) (Some this)
                       (mData c) (mLayerMap c) in
  addLayer this sf k h = Some (0, <[sf := c']> (<[this := t']> h)) /\
  addLayer_at this sf pos k h = Some (0, <[sf := c'']> (<[this := t'']> h)) /\
  (<[sf := c']> (<[this := t']> h)) !! sf = Some c' /\
  (<[sf := c'']> (<[this := t'']> h)) !! sf = Some c'' /\
  (<[sf := c']> (<[this := t']> h)) !! this = Some t' /\
  (<[sf := c'']> (<[this := t'']> h)) !! this = Some t'' /\
  (exists l, map_find k (mLayerMap t') = Some l /\ sf ∈ l) /\
  set_mem sf (layers (mLayerMap t')) = true /\
  mLayerMap t'' = mLayerMap t' /\
  covers (mDirty t') (intersect (mBounds t) (move (mBounds c) (mPos c))) /\
  covers (mDirty t'') (intersect (mBounds t) (move (mBounds c) pos)).
Proof.
  intros Hne Ht Hc Hdet m' t' t'' c' c''.
  destruct (addLayer_attaches_stores this sf pos k h t c Hne Ht Hc Hdet)
    as (H1 & H2 & H3 & H4 & H5 & H6 & H7).
  assert (Hl : forall (a b : Surface), (<[sf := a]> (<[this := b]> h)) !! sf = Some a).
  { intros a b. apply list_lookup_insert_eq. rewrite length_insert.
    apply lookup_lt_Some in Hc. exact Hc. }
  assert (Hl' : forall (a b : Surface), (<[sf := a]> (<[this := b]> h)) !! this = Some b).
  { intros a b. rewrite list_lookup_insert_ne by congruence.
    apply list_lookup_insert_eq. apply lookup_lt_Some in Ht. exact Ht. }
  split; [exact H1|]. split; [exact H2|]. split; [apply Hl|]. split; [apply Hl|].
  split; [apply Hl'|]. split; [apply Hl'|].
  split; [exact H3|]. split; [exact H4|]. split; [exact H5|]. split; [exact H6|exact H7].
Qed.

Lemma set_layer_map_invalidate r m s :
  set_mLayerMap m (invalidate_rect r s) = invalidate_rect r (set_mLayerMap m s).
Proof. unfold invalidate_rect. simpl. destruct (valid (mDirty s)); reflexivity. Qed.

Lemma set_mLayerMap_twice m m' s : set_mLayerMap m (set_mLayerMap m' s) = set_mLayerMap m s.
Proof. reflexivity. Qed.

Lemma set_mLayerMap_same s : set_mLayerMap (mLayerMap s) s = s.
Proof. destruct s; reflexivity. Qed.

Lemma set_mParent_back q c : mParent c = None -> set_mParent None (set_mParent q c) = c.
Proof. destruct c; simpl. intros ->. reflexivity. Qed.

(** X14. [addLayer] followed by [removeLayer] of the same surface:
    both return 0, [containsLayer] is true in between and false afterwards,
    and the store is the store of before the two calls except that the
    child's footprint has been invalidated on the parent; the layer map and
    the child are as before. *)
Theorem addLayer_removeLayer_roundtrip (this sf : ptr) (k : Z) (h : heap)
    (t c : Surface) :
  this <> sf -> h !! this = Some t -> h !! sf = Some c -> mParent c = None ->
  layer_map_wf (mLayerMap t) -> sf ∉ layers (mLayerMap t) ->
  exists h1,
    addLayer this sf k h = Some (0, h1) /\
    containsLayer this sf h1 = Some true /\
    removeLayer this sf h1 = Some (0, <[this := invalidate_rect (bounds c) t]> h) /\
    containsLayer this sf (<[this := invalidate_rect (bounds c) t]> h) = Some false.
Proof.
  intros Hne Ht Hc Hdet Hwf Hnin.
  destruct (layer_insert_wf k sf _ Hwf Hnin) as (_ & _ & Hof & Her).
  destruct (layer_insert_bucket k sf (mLayerMap t)) as (l & _ & _ & Hin).
  set (M := layer_insert k sf (mLayerMap t)) in *.
  set (t1 := invalidate_rect (bounds c) (set_mLayerMap M t)).
  set (h1 := <[sf := set_mParent (Some this) c]> (<[this := t1]> h)).
  assert (Ha : addLayer this sf k h = Some (0, h1)).
  { unfold addLayer. rewrite Hc. simpl. rewrite Hdet, Ht. simpl.
    rewrite (update_lookup _ _ _ _ Ht). simpl.
    rewrite heap_insert_lookup_ne by exact Hne. rewrite Hc. simpl.
    erewrite update_lookup by (apply (heap_insert_lookup_eq _ _ _ _ Ht)). simpl.
    rewrite list_insert_insert_eq.
    erewrite update_lookup
      by (rewrite heap_insert_lookup_ne by exact Hne; exact Hc).
    reflexivity. }
  assert (Hm1 : mLayerMap t1 = M).
  { subst t1. destruct (keep_invalidate_rect (bounds c) (set_mLayerMap M t)) as [_ ->].
    reflexivity. }
  assert (H1t : h1 !! this = Some t1).
  { subst h1. rewrite heap_insert_lookup_ne by congruence.
    apply (heap_insert_lookup_eq _ _ _ _ Ht). }
  assert (H1c : h1 !! sf = Some (set_mParent (Some this) c)).
  { subst h1. apply heap_insert_lookup_eq with (s0 := c).
    rewrite heap_insert_lookup_ne by exact Hne. exact Hc. }
  exists h1. split; [exact Ha|]. split; [|split].
  - unfold containsLayer. rewrite H1t. simpl. rewrite Hm1.
    f_equal. apply set_mem_spec. exact Hin.
  - unfold removeLayer. rewrite H1c. simpl.
    destruct (bool_decide_reflect (Some this = Some this)); [|tauto]. simpl.
    rewrite H1t. simpl. rewrite Hm1, Hof.
    rewrite (update_lookup _ _ _ _ H1t). simpl.
    rewrite heap_insert_lookup_ne by exact Hne. rewrite H1c. simpl.
    erewrite update_lookup by (apply (heap_insert_lookup_eq _ _ _ _ H1t)). simpl.
    rewrite list_insert_insert_eq.
    erewrite update_lookup
      by (rewrite heap_insert_lookup_ne by exact Hne; exact H1c).
    simpl. f_equal. f_equal.
    rewrite Her. subst h1 t1.
    rewrite (list_insert_insert_ne _ this sf) by congruence.
    rewrite !list_insert_insert_eq.
    rewrite set_mParent_back by exact Hdet.
    rewrite (list_insert_insert_ne _ sf this) by congruence.
    rewrite (heap_insert_same _ _ _ Hc).
    f_equal. change (bounds (set_mParent (Some this) c)) with (bounds c).
    rewrite set_layer_map_invalidate.
    rewrite set_mLayerMap_twice, set_mLayerMap_same. apply invalidate_rect_twice.
  - unfold containsLayer. rewrite (heap_insert_lookup_eq _ _ _ _ Ht). simpl.
    destruct (keep_invalidate_rect (bounds c) t) as [_ ->].
    f_equal. apply set_mem_false. exact Hnin.
Qed.

Lemma removeLayer_total this sf (h : heap) t c k :
  h !! this = Some t -> h !! sf = Some c -> mParent c = Some this ->
  layer_of sf (mLayerMap t) = Some k ->
  exists h', removeLayer this sf h = Some (0, h').
Proof.
  intros Ht Hc Hp Hof. unfold removeLayer. rewrite Hc. simpl.
  destruct (bool_decide_reflect (mParent c = Some this)); [|tauto]. simpl.
  rewrite Ht. simpl. rewrite Hof.
  rewrite (update_lookup _ _ _ _ Ht). simpl.
  destruct (lookup_lt_is_Some_2 (<[this := set_mLayerMap (layer_erase k sf (mLayerMap t)) t]> h) sf)
    as [c1 Hc1].
  { rewrite length_insert. apply lookup_lt_Some in Hc. exact Hc. }
  rewrite Hc1. simpl.
  erewrite update_lookup by (apply (heap_insert_lookup_eq _ _ _ _ Ht)). simpl.
  rewrite list_insert_insert_eq.
  match goal with
  | |- context [update sf ?f ?g] =>
      destruct (lookup_lt_is_Some_2 g sf) as [c2 Hc2];
        [rewrite length_insert; apply lookup_lt_Some in Hc; exact Hc|];
      rewrite (update_lookup _ _ _ _ Hc2)
  end.
  simpl. eexists. reflexivity.
Qed.

Lemma moveLayer_total this sf k' (h : heap) t c k :
  h !! this = Some t -> h !! sf = Some c -> mParent c = Some this ->
  layer_of sf (mLayerMap t) = Some k ->
  exists h', moveLayer this sf k' h = Some (0, h').
Proof.
  intros Ht Hc Hp Hof. unfold moveLayer. rewrite Hc. simpl.
  destruct (bool_decide_reflect (mParent c = Some this)); [|tauto]. simpl.
  rewrite Ht. simpl. rewrite Hof.
  rewrite (update_lookup _ _ _ _ Ht). simpl.
  match goal with
  | |- context [?g !! sf] =>
      destruct (lookup_lt_is_Some_2 g sf) as [c1 Hc1];
        [rewrite length_insert; apply lookup_lt_Some in Hc; exact Hc|];
      rewrite Hc1
  end.
  simpl.
  erewrite update_lookup by (apply (heap_insert_lookup_eq _ _ _ _ Ht)). simpl.
  eexists. reflexivity.
Qed.

(** X15. In a consistent store, for a surface whose parent is
    another surface: the parent is allocated and [containsLayer] is true;
    [removeLayer] returns 0 and leaves the child without parent and out of
    the parent's layers; [moveLayer] to any layer [Z] returns 0, leaves the
    child in layer [Z] and the parent with the same set of layers; and
    [moveZ] returns 0. *)
Theorem child_layer_operations_succeed (this sf : ptr) (h : heap) (c : Surface) :
  tree_ok h -> h !! sf = Some c -> mParent c = Some this -> this <> sf ->
  exists t, h !! this = Some t /\ containsLayer this sf h = Some true /\
    (exists h' c', removeLayer this sf h = Some (0, h') /\
       containsLayer this sf h' = Some false /\
       h' !! sf = Some c' /\ mParent c' = None) /\
    (forall k, exists h' t',
       moveLayer this sf k h = Some (0, h') /\ h' !! this = Some t' /\
       layer_of sf (mLayerMap t') = Some k /\
       layers (mLayerMap t') ≡ₚ layers (mLayerMap t)) /\
    (forall k, exists h', moveZ sf k h = Some (0, h')).
Proof.
  intros T Hc Hp Hne. pose proof T as (T1 & T2 & T3).
  destruct (T3 sf c this Hc Hp) as (t & Ht & Hin).
  destruct (proj1 (layer_of_elem sf (mLayerMap t)) Hin) as [k0 Hof].
  exists t. split; [exact Ht|]. split; [apply (containsLayer_spec this sf h t Ht); exact Hin|].
  split; [|split].
  - destruct (removeLayer_total this sf h t c k0 Ht Hc Hp Hof) as [h' Hr].
    destruct (removeLayer_links _ _ _ _ _ Ht Hr) as (c0 & k & Hc0 & _ & Hof' & L).
    rewrite Hof in Hof'. injection Hof' as <-.
    destruct (proj2 L sf c Hc) as (c' & Hc' & Hpar' & _).
    destruct (proj2 L this t Ht) as (t' & Ht' & _ & Hm').
    destruct (decide (sf = sf)); [|tauto]. destruct (decide (this = this)); [|tauto].
    exists h', c'. split; [exact Hr|]. split; [|split; assumption].
    unfold containsLayer. rewrite Ht'. simpl. rewrite Hm'. f_equal.
    apply set_mem_false. apply (layer_erase_wf k0 sf _ (T1 _ _ Ht) Hof).
  - intros k. destruct (moveLayer_total this sf k h t c k0 Ht Hc Hp Hof) as [h' Hm].
    destruct (moveLayer_links _ _ _ _ _ _ Ht Hm) as (c0 & k1 & Hc0 & _ & Hof' & L).
    rewrite Hof in Hof'. injection Hof' as <-.
    destruct (proj2 L this t Ht) as (t' & Ht' & _ & Hm').
    destruct (decide (this = this)); [|tauto].
    exists h', t'. split; [exact Hm|]. split; [exact Ht'|]. rewrite Hm'.
    destruct (layer_move_wf k0 k sf _ (T1 _ _ Ht) Hof) as (_ & Hperm & Hof2). auto.
  - intros k. unfold moveZ. rewrite Hc. simpl. rewrite Hp.
    rewrite (update_lookup _ _ _ _ Hc). simpl.
    eapply (moveLayer_total this sf k _ t (invalidate c) k0).
    + rewrite heap_insert_lookup_ne by congruence. exact Ht.
    + apply (heap_insert_lookup_eq _ _ _ _ Hc).
    + exact Hp.
    + exact Hof.
Qed.

(** ** Rendering a root with any number of layers *)

Lemma layer_cell_ext (g g' : heap) c cx cy :
  (forall sc, g !! c = Some sc -> exists sc', g' !! c = Some sc' /\ same_picture sc sc') ->
  is_Some (g !! c) ->
  layer_cell g' c cx cy = layer_cell g c cx cy.
Proof.
  intros Hext [sc Hsc]. destruct (Hext sc Hsc) as (sc' & Hsc' & Hv & Hb & Hp & Hd).
  unfold layer_cell, bounds. rewrite Hsc, Hsc'. simpl. rewrite Hv, Hb, Hp, Hd. reflexivity.
Qed.

Lemma sized_valid w hh s : sized w hh s -> valid (mBounds s) = true -> 0 < w /\ 0 < hh.
Proof.
  intros (_ & _ & Hb & _) Hv. rewrite Hb in Hv. apply valid_spec in Hv. simpl in Hv. lia.
Qed.

(** One step of the second loop of [render], for any layer. *)
Lemma blend_layer_step P c (g : heap) t W H :
  P <> c -> g !! P = Some t -> sized W H t ->
  valid (mDirty t) = true -> encloses (Rect4 0 0 W H) (mDirty t) ->
  layer_ready g c ->
  exists g1 d',
    blend_layer P c g = Some g1 /\
    g1 !! P = Some (set_mData d' t) /\ length d' = length (mData t) /\
    length g1 = length g /\
    (forall q sq, q <> P -> g !! q = Some sq ->
       exists sq', g1 !! q = Some sq' /\ same_picture sq sq' /\
         mParent sq' = mParent sq /\ mLayerMap sq' = mLayerMap sq) /\
    forall cx cy, 0 <= cx < W -> 0 <= cy < H ->
      cell_at W d' cx cy =
      if insideb (mDirty t) (mkPoint cx cy) then
        match layer_cell g c cx cy with
        | Some ch => Some ch
        | None => cell_at W (mData t) cx cy
        end
      else cell_at W (mData t) cx cy.
Proof.
  intros Hne HP St Hv Henc (sc & w & hh & Hc & Sc & Hpx & Hpy).
  destruct (mVisible sc && valid (mBounds sc)) eqn:Evis.
  - apply andb_true_iff in Evis. destruct Evis as [Hvis Hvb].
    destruct (sized_valid _ _ _ Sc Hvb) as [Hw0 Hh0].
    destruct (mPos sc) as [px py] eqn:Hpos. simpl in Hpx, Hpy.
    destruct (blend_layer_spec P c g t sc W H w hh px py Hne HP Hc St Sc Hw0 Hh0
                Hvis Hpos Hpx Hpy Hv Henc) as (d' & Hbl & Hl & Hcell).
    eexists _, d'. split; [exact Hbl|]. split; [|split; [exact Hl|split; [|split]]].
    + rewrite heap_insert_lookup_ne by congruence. apply (heap_insert_lookup_eq _ _ _ _ HP).
    + rewrite !length_insert. reflexivity.
    + intros q sq Hq Hsq. destruct (decide (c = q)) as [<-|Hcq].
      * rewrite Hc in Hsq. injection Hsq as <-. eexists. split.
        -- apply heap_insert_lookup_eq with (s0 := sc).
           rewrite heap_insert_lookup_ne by congruence. exact Hc.
        -- repeat split; reflexivity.
      * exists sq. rewrite !heap_insert_lookup_ne by congruence.
        split; [exact Hsq|]. repeat split; reflexivity.
    + intros cx cy Hcx Hcy. rewrite (Hcell cx cy Hcx Hcy).
      destruct (insideb (mDirty t) (mkPoint cx cy)); simpl; [|reflexivity].
      unfold layer_cell. rewrite Hc. simpl. rewrite Hvis, Hvb. simpl.
      pose proof Sc as (Hw & Hh & Hb & Hlen).
      destruct (insideb (bounds sc) (mkPoint cx cy)) eqn:Ein; [|reflexivity].
      rewrite Hb, width_Rect4 by lia. rewrite Z.sub_0_r. rewrite Hpos. simpl.
      apply insideb_spec in Ein.
      rewrite (bounds_sized w hh sc px py Sc Hpos Hpx Hpy) in Ein.
      unfold inside in Ein. simpl in Ein.
      destruct (cell_at_Some w hh (mData sc) (cx - px) (cy - py)) as [ch Hch];
        [lia|lia|lia|lia|exact Hlen|].
      rewrite Hch. simpl. destruct (is_transparent ch); reflexivity.
  - exists g, (mData t). split.
    { unfold blend_layer. rewrite Hc. simpl. rewrite Evis. reflexivity. }
    split; [rewrite set_mData_same; exact HP|]. split; [reflexivity|].
    split; [reflexivity|]. split.
    + intros q sq _ Hsq. exists sq. split; [exact Hsq|]. repeat split; reflexivity.
    + intros cx cy _ _. unfold layer_cell. rewrite Hc. simpl. rewrite Evis. simpl.
      destruct (insideb (mDirty t) (mkPoint cx cy)); reflexivity.
Qed.

Lemma layer_ready_ext (g g1 : heap) c :
  (forall sq, g !! c = Some sq -> exists sq', g1 !! c = Some sq' /\ same_picture sq sq') ->
  layer_ready g c -> layer_ready g1 c.
Proof.
  intros Hext (sc & w & hh & Hc & (Hw & Hh & Hb & Hl) & Hpx & Hpy).
  destruct (Hext sc Hc) as (sc' & Hc' & Hv' & Hb' & Hp' & Hd').
  exists sc', w, hh. split; [exact Hc'|]. rewrite Hp'. split; [|split; assumption].
  split; [exact Hw|]. split; [exact Hh|]. rewrite Hb', Hd'. split; assumption.
Qed.

(** The second loop of [render] paints the layers in order. *)
Lemma blend_loop_paints P W H : forall kids (g : heap) t,
  P ∉ kids -> g !! P = Some t -> sized W H t ->
  valid (mDirty t) = true -> encloses (Rect4 0 0 W H) (mDirty t) ->
  (forall c, c ∈ kids -> layer_ready g c) ->
  exists g' d',
    for_each kids (blend_layer P) g = Some g' /\
    g' !! P = Some (set_mData d' t) /\ length d' = length (mData t) /\
    length g' = length g /\
    (forall q sq, q <> P -> g !! q = Some sq ->
       exists sq', g' !! q = Some sq' /\ same_picture sq sq' /\
         mParent sq' = mParent sq /\ mLayerMap sq' = mLayerMap sq) /\
    forall cx cy, 0 <= cx < W -> 0 <= cy < H ->
      cell_at W d' cx cy =
      if insideb (mDirty t) (mkPoint cx cy)
      then paint g kids cx cy (cell_at W (mData t) cx cy)
      else cell_at W (mData t) cx cy.
Proof.
  induction kids as [|c kids IH]; intros g t Hnin HP St Hv Henc Hready.
  - exists g, (mData t). split; [reflexivity|].
    split; [rewrite set_mData_same; exact HP|]. split; [reflexivity|].
    split; [reflexivity|]. split.
    + intros q sq _ Hsq. exists sq. split; [exact Hsq|]. repeat split; reflexivity.
    + intros cx cy _ _. simpl. destruct (insideb (mDirty t) (mkPoint cx cy)); reflexivity.
  - assert (Hne : P <> c) by (intros ->; apply Hnin; left).
    assert (Hnin' : P ∉ kids) by (intros Hin; apply Hnin; right; exact Hin).
    destruct (blend_layer_step P c g t W H Hne HP St Hv Henc (Hready c ltac:(left)))
      as (g1 & d1 & Hbl & HP1 & Hl1 & Hlen1 & Hoth1 & Hcell1).
    assert (Hext : forall q, q <> P -> forall sq, g !! q = Some sq ->
              exists sq', g1 !! q = Some sq' /\ same_picture sq sq').
    { intros q Hq sq Hsq. destruct (Hoth1 q sq Hq Hsq) as (sq' & H1 & H2 & _). eauto. }
    destruct (IH g1 (set_mData d1 t) Hnin' HP1) as (g' & d' & Hloop & HP' & Hl' & Hlen' & Hoth' & Hcell').
    { apply sized_set_mData; assumption. }
    { exact Hv. }
    { exact Henc. }
    { intros c' Hc'. apply (layer_ready_ext g g1 c').
      - apply Hext. intros ->. tauto.
      - apply Hready. right. exact Hc'. }
    exists g', d'. split; [simpl; rewrite Hbl; exact Hloop|].
    split; [exact HP'|]. split; [simpl in Hl'; congruence|]. split; [congruence|]. split.
    + intros q sq Hq Hsq. destruct (Hoth1 q sq Hq Hsq) as (sq1 & Hsq1 & P1 & Hp1 & Hm1).
      destruct (Hoth' q sq1 Hq Hsq1) as (sq' & Hsq' & P2 & Hp2 & Hm2).
      exists sq'. split; [exact Hsq'|].
      destruct P1 as (A1 & A2 & A3 & A4), P2 as (B1 & B2 & B3 & B4).
      split; [repeat split; congruence|]. split; congruence.
    + intros cx cy Hcx Hcy. rewrite (Hcell' cx cy Hcx Hcy). simpl.
      destruct (insideb (mDirty t) (mkPoint cx cy)) eqn:Ein.
      * rewrite (Hcell1 cx cy Hcx Hcy), Ein.
        unfold paint. simpl.
        assert (Epaint : forall init,
          fold_left (fun acc c0 => match layer_cell g1 c0 cx cy with
                                   | Some ch => Some ch
                                   | None => acc
                                   end) kids init
          = fold_left (fun acc c0 => match layer_cell g c0 cx cy with
                                     | Some ch => Some ch
                                     | None => acc
                                     end) kids init).
        { clear -Hext Hready Hnin'. induction kids as [|c' kids IHk]; intros init;
            [reflexivity|]. simpl.
          rewrite (layer_cell_ext g g1 c' cx cy).
          - apply IHk.
            + intros c0 Hc0. apply Hready. apply elem_of_cons in Hc0.
              destruct Hc0 as [->|Hc0]; [left|right; right; exact Hc0].
            + intros Hin. apply Hnin'. right. exact Hin.
          - apply Hext. intros ->. apply Hnin'. left.
          - destruct (Hready c' ltac:(right; left)) as (sc & _ & _ & Hsc & _). eauto. }
        rewrite Epaint. reflexivity.
      * rewrite (Hcell1 cx cy Hcx Hcy), Ein. reflexivity.
Qed.

Lemma invalidate_rect_as_set r t : exists d, invalidate_rect r t = set_mDirty d t.
Proof. unfold invalidate_rect. destruct (valid (mDirty t)); eexists; reflexivity. Qed.

Lemma collect_loop_shape P : forall kids (g g1 : heap) t,
  for_each kids (collect_dirty P) g = Some g1 -> g !! P = Some t ->
  exists d, g1 = <[P := set_mDirty d t]> g.
Proof.
  induction kids as [|c kids IH]; simpl; intros g g1 t H HP.
  - some_inv H. exists (mDirty t). rewrite set_mDirty_same.
    symmetry. apply heap_insert_same. exact HP.
  - destruct (collect_dirty P c g) as [g0|] eqn:E; [|discriminate H].
    unfold collect_dirty in E. bind_inv E.
    destruct (mVisible s && valid (mDirty s)).
    + rewrite (update_lookup _ _ _ _ HP) in E. some_inv E.
      destruct (invalidate_rect_as_set (to_parent (mDirty s) (mPos s)) t) as [d0 Ed0].
      rewrite Ed0 in H.
      destruct (IH _ _ (set_mDirty d0 t) H (heap_insert_lookup_eq _ _ _ _ HP)) as [d ->].
      exists d. rewrite list_insert_insert_eq. reflexivity.
    + some_inv E. eapply IH; eassumption.
Qed.

(** [render] on a root with layers: the dirty rectangle is cleared and the
    layers are painted over it in order. *)
Lemma render_root_layers fuel P (h : heap) sp W H D :
  h !! P = Some sp -> sized W H sp -> mParent sp = None -> mLayerMap sp <> [] ->
  P ∉ layers (mLayerMap sp) ->
  (forall c, c ∈ layers (mLayerMap sp) -> layer_ready h c) ->
  accumulated_dirty P h = Some D -> valid D = true -> encloses (Rect4 0 0 W H) D ->
  exists h' d',
    render (S fuel) P h = Some (h', [mkHook P D]) /\
    h' !! P = Some (set_mDirty Rect0 (set_mData d' sp)) /\
    length d' = length (mData sp) /\
    (forall q sq, q <> P -> h !! q = Some sq ->
       exists sq', h' !! q = Some sq' /\ same_picture sq sq' /\
         mParent sq' = mParent sq /\ mLayerMap sq' = mLayerMap sq) /\
    forall cx cy, 0 <= cx < W -> 0 <= cy < H ->
      cell_at W d' cx cy =
      if insideb D (mkPoint cx cy)
      then paint h (layers (mLayerMap sp)) cx cy (Some blank)
      else cell_at W (mData sp) cx cy.
Proof.
  intros HP Sp Hpar Hmap Hnin Hready Hacc HvD HencD.
  unfold accumulated_dirty in Hacc. rewrite HP in Hacc. simpl in Hacc.
  destruct (for_each (layers (mLayerMap sp)) (collect_dirty P) h) as [h1|] eqn:Hcol;
    [|discriminate Hacc]. simpl in Hacc.
  destruct (collect_loop_shape P _ _ _ _ Hcol HP) as [d1 ->].
  rewrite (heap_insert_lookup_eq _ _ _ _ HP) in Hacc. simpl in Hacc.
  injection Hacc as ->.
  set (sp1 := set_mDirty D sp).
  set (h1 := <[P := sp1]> h) in *.
  assert (HP1 : h1 !! P = Some sp1) by apply (heap_insert_lookup_eq _ _ _ _ HP).
  assert (Ssp1 : sized W H sp1) by exact Sp.
  destruct (fill_spec W H sp1 blank D Ssp1 HvD HencD) as (d0 & Hfill & Hl0 & Hc0).
  rewrite invalidate_rect_absorbed in Hfill;
    [|exact HvD|apply intersect_enclosed_r].
  set (sp2 := set_mData d0 sp1) in *.
  set (h2 := <[P := sp2]> h1).
  assert (HP2 : h2 !! P = Some sp2) by apply (heap_insert_lookup_eq _ _ _ _ HP1).
  assert (Ssp2 : sized W H sp2) by (apply sized_set_mData; assumption).
  assert (Hoth2 : forall q, q <> P -> h2 !! q = h !! q).
  { intros q Hq. unfold h2, h1. rewrite !heap_insert_lookup_ne by congruence. reflexivity. }
  destruct (blend_loop_paints P W H (layers (mLayerMap sp)) h2 sp2 Hnin HP2 Ssp2 HvD HencD)
    as (h3 & d' & Hloop & HP3 & Hl' & Hlen3 & Hoth3 & Hcell).
  { intros c Hc. apply (layer_ready_ext h h2 c); [|apply Hready; exact Hc].
    intros sq Hsq. exists sq. rewrite Hoth2 by (intros ->; tauto).
    split; [exact Hsq|]. repeat split; reflexivity. }
  exists (<[P := set_mDirty Rect0 (set_mData d' sp2)]> h3), d'.
  split; [|split; [|split; [|split]]].
  - clear Hoth3 Hcell Hoth2 Hc0.
    unfold h2, sp2, h1, sp1 in *.
    rewrite render_S. unfold render_body. rewrite HP. simpl. rewrite Hcol. simpl.
    rewrite HP1. simpl. rewrite HvD. simpl.
    destruct (mLayerMap sp) as [|e m] eqn:Em; [congruence|].
    unfold on_surface. rewrite HP1. simpl. unfold clear. rewrite Hfill. simpl.
    rewrite Hloop. simpl. rewrite HP3. simpl. rewrite Hpar.
    simpl. rewrite HP3. simpl. rewrite (update_lookup _ _ _ _ HP3). reflexivity.
  - rewrite (heap_insert_lookup_eq _ _ _ _ HP3). reflexivity.
  - simpl in Hl'. rewrite Hl'. exact Hl0.
  - intros q sq Hq Hsq. rewrite heap_insert_lookup_ne by congruence.
    apply Hoth3; [exact Hq|]. rewrite Hoth2 by exact Hq. exact Hsq.
  - intros cx cy Hcx Hcy. rewrite (Hcell cx cy Hcx Hcy). simpl.
    rewrite (Hc0 cx cy Hcx Hcy).
    destruct (insideb D (mkPoint cx cy)); [|reflexivity].
    unfold paint. clear -Hoth2 Hnin Hready.
    generalize (Some blank). revert Hnin Hready.
    generalize (layers (mLayerMap sp)) as kids.
    induction kids as [|c kids IH]; intros Hnin Hready init; [reflexivity|]. simpl.
    rewrite (layer_cell_ext h h2 c cx cy).
    + apply IH.
      * intros Hin. apply Hnin. right. exact Hin.
      * intros c' Hc'. apply Hready. right. exact Hc'.
    + intros sq Hsq. exists sq. rewrite Hoth2 by (intros ->; apply Hnin; left).
      split; [exact Hsq|]. repeat split; reflexivity.
    + destruct (Hready c ltac:(left)) as (sc & _ & _ & Hsc & _). eauto.
Qed.

(** ** The order of the layers *)







Lemma collect_loop_in_bounds P : forall kids (g g1 : heap) t t1,
  for_each kids (collect_dirty P) g = Some g1 -> g !! P = Some t -> g1 !! P = Some t1 ->
  dirty_in_bounds t -> dirty_in_bounds t1 /\ mBounds t1 = mBounds t.
Proof.
  induction kids as [|c kids IH]; simpl; intros g g1 t t1 H HP HP1 Hd.
  - some_inv H. rewrite HP in HP1. injection HP1 as <-. auto.
  - destruct (collect_dirty P c g) as [g0|] eqn:E; [|discriminate H].
    unfold collect_dirty in E. bind_inv E.
    destruct (mVisible s && valid (mDirty s)).
    + rewrite (update_lookup _ _ _ _ HP) in E. some_inv E.
      destruct (IH _ _ _ t1 H (heap_insert_lookup_eq _ _ _ _ HP) HP1) as [H1 H2].
      * apply invalidate_rect_dirty_in_bounds. exact Hd.
      * split; [exact H1|]. rewrite H2. apply invalidate_rect_mBounds.
    + some_inv E. eapply IH; eassumption.
Qed.






(** ** Hiding a layer, then rendering *)

Lemma collect_loop_total P : forall kids (g : heap),
  is_Some (g !! P) -> (forall c, c ∈ kids -> is_Some (g !! c)) ->
  is_Some (for_each kids (collect_dirty P) g).
Proof.
  induction kids as [|c kids IH]; intros g HP Hk; simpl; [eauto|].
  destruct (Hk c ltac:(left)) as [sc Hsc]. destruct HP as [t HP].
  unfold collect_dirty at 1. rewrite Hsc. simpl.
  assert (Hrest : forall g', length g' = length g ->
            is_Some (for_each kids (collect_dirty P) g')).
  { intros g' Hl. apply IH.
    - apply lookup_lt_is_Some. rewrite Hl. apply lookup_lt_Some in HP. exact HP.
    - intros c' Hc'. destruct (Hk c' ltac:(right; exact Hc')) as [sc' Hsc'].
      apply lookup_lt_is_Some. rewrite Hl. apply lookup_lt_Some in Hsc'. exact Hsc'. }
  destruct (mVisible sc && valid (mDirty sc)).
  - rewrite (update_lookup _ _ _ _ HP). apply Hrest. apply length_insert.
  - apply Hrest. reflexivity.
Qed.

Lemma collect_loop_grows P : forall kids (g g1 : heap) t,
  for_each kids (collect_dirty P) g = Some g1 -> g !! P = Some t ->
  valid (mDirty t) = true ->
  exists t1, g1 !! P = Some t1 /\ valid (mDirty t1) = true /\
    covers (mDirty t1) (mDirty t).
Proof.
  induction kids as [|c kids IH]; simpl; intros g g1 t H HP Hv.
  - some_inv H. exists t. split; [exact HP|]. split; [exact Hv|apply covers_refl].
  - destruct (collect_dirty P c g) as [g0|] eqn:E; [|discriminate H].
    unfold collect_dirty in E. bind_inv E.
    destruct (mVisible s && valid (mDirty s)).
    + rewrite (update_lookup _ _ _ _ HP) in E. some_inv E.
      destruct (IH _ _ _ H (heap_insert_lookup_eq _ _ _ _ HP)) as (t1 & H1 & Hv1 & Hc1).
      * apply invalidate_rect_stays_valid. exact Hv.
      * exists t1. split; [exact H1|]. split; [exact Hv1|].
        eapply covers_trans; [exact Hc1|].
        apply (invalidate_rect_grows (to_parent (mDirty s) (mPos s)) t). exact Hv.
    + some_inv E. eapply IH; eassumption.
Qed.

Lemma paint_cons h c kids cx cy init :
  paint h (c :: kids) cx cy init
  = paint h kids cx cy (match layer_cell h c cx cy with
                        | Some ch => Some ch
                        | None => init
                        end).
Proof. reflexivity. Qed.

Lemma paint_hidden (h h1 : heap) C cx cy : forall kids init,
  layer_cell h1 C cx cy = None ->
  (forall c, c ∈ kids -> c <> C -> layer_cell h1 c cx cy = layer_cell h c cx cy) ->
  paint h1 kids cx cy init = paint h (filter (fun c => c <> C) kids) cx cy init.
Proof.
  induction kids as [|c kids IH]; intros init HC Hoth; [reflexivity|].
  rewrite filter_cons, paint_cons.
  assert (Hoth' : forall c0, c0 ∈ kids -> c0 <> C ->
            layer_cell h1 c0 cx cy = layer_cell h c0 cx cy).
  { intros c0 Hc0. apply Hoth. right. exact Hc0. }
  destruct (decide (c <> C)) as [Hne|He].
  - rewrite (Hoth c ltac:(left) Hne), paint_cons. apply IH; assumption.
  - assert (c = C) as -> by (destruct (decide (c = C)); tauto).
    rewrite HC. apply IH; assumption.
Qed.

(** X17. Hiding a layer and rendering the root erases it: the hook's
    rectangle contains the part of the hidden layer's footprint within the
    root's bounds, every cell inside that rectangle shows what the other
    layers paint over blank, cells outside it keep their value, and the
    hidden layer stays invisible with its buffer unchanged. *)
Theorem hide_then_render_erases (fuel : nat) (P C : ptr) (h : heap) (sp sc : Surface)
    (W H : Z) :
  P <> C -> h !! P = Some sp -> h !! C = Some sc -> mParent sc = Some P ->
  sized W H sp -> mParent sp = None ->
  C ∈ layers (mLayerMap sp) -> P ∉ layers (mLayerMap sp) ->
  (forall c, c ∈ layers (mLayerMap sp) -> layer_ready h c) ->
  dirty_in_bounds sp ->
  valid (intersect (mBounds sp) (bounds sc)) = true ->
  exists h1 h2 d' D,
    hide C h = Some h1 /\
    render (S fuel) P h1 = Some (h2, [mkHook P D]) /\
    covers D (intersect (mBounds sp) (bounds sc)) /\ covers (mBounds sp) D /\
    h2 !! P = Some (set_mDirty Rect0 (set_mData d' sp)) /\
    (exists sc2, h2 !! C = Some sc2 /\ mVisible sc2 = false /\ mData sc2 = mData sc) /\
    forall cx cy, 0 <= cx < W -> 0 <= cy < H ->
      cell_at W d' cx cy =
      if insideb D (mkPoint cx cy)
      then paint h (filter (fun c => c <> C) (layers (mLayerMap sp))) cx cy (Some blank)
      else cell_at W (mData sp) cx cy.
Proof.
  intros Hne HP HC Hpar Sp Hroot HCin Hnin Hready Hdib Hfoot.
  set (sp1 := invalidate_rect (bounds sc) sp).
  set (sc1 := set_mVisible false (invalidate sc)).
  set (h1 := <[C := sc1]> (<[P := sp1]> (<[C := invalidate sc]> h))).
  assert (Hhide : hide C h = Some h1).
  { unfold hide, invalidate_in_parent. rewrite HC. simpl. rewrite Hpar.
    rewrite (update_lookup _ _ _ _ HC). simpl.
    rewrite (heap_insert_lookup_eq _ _ _ _ HC). simpl.
    erewrite update_lookup
      by (rewrite heap_insert_lookup_ne by congruence; exact HP).
    simpl. erewrite update_lookup.
    2:{ rewrite heap_insert_lookup_ne by congruence.
        apply (heap_insert_lookup_eq _ _ _ _ HC). }
    reflexivity. }
  assert (HP1 : h1 !! P = Some sp1).
  { unfold h1. rewrite heap_insert_lookup_ne by congruence.
    apply heap_insert_lookup_eq with (s0 := sp).
    rewrite heap_insert_lookup_ne by congruence. exact HP. }
  assert (HC1 : h1 !! C = Some sc1).
  { unfold h1. apply heap_insert_lookup_eq with (s0 := invalidate sc).
    rewrite heap_insert_lookup_ne by congruence.
    apply (heap_insert_lookup_eq _ _ _ _ HC). }
  assert (Hoth1 : forall q, q <> P -> q <> C -> h1 !! q = h !! q).
  { intros q H1 H2. unfold h1. rewrite !heap_insert_lookup_ne by congruence. reflexivity. }
  assert (Hlen1 : length h1 = length h).
  { unfold h1. rewrite !length_insert. reflexivity. }
  assert (Em1 : mLayerMap sp1 = mLayerMap sp) by apply keep_invalidate_rect.
  assert (Ep1 : mParent sp1 = mParent sp) by apply keep_invalidate_rect.
  assert (Ssp1 : sized W H sp1) by (apply sized_invalidate_rect; exact Sp).
  assert (Hv1 : valid (mDirty sp1) = true).
  { unfold sp1. rewrite invalidate_rect_mDirty. destruct (valid (mDirty sp)) eqn:E.
    - apply boundingRect_valid_l. exact E.
    - exact Hfoot. }
  assert (Hready1 : forall c, c ∈ layers (mLayerMap sp) -> layer_ready h1 c).
  { intros c Hc. destruct (decide (c = C)) as [->|HcC].
    - destruct (Hready C Hc) as (sc0 & w & hh & Hsc0 & S0 & Hpx & Hpy).
      rewrite HC in Hsc0. injection Hsc0 as <-.
      exists sc1, w, hh. split; [exact HC1|]. split; [exact S0|]. split; assumption.
    - destruct (Hready c Hc) as (sc0 & w & hh & Hsc0 & S0 & Hpx & Hpy).
      exists sc0, w, hh. rewrite Hoth1; [|intros ->; tauto|exact HcC]. auto. }
  destruct (collect_loop_total P (layers (mLayerMap sp)) h1) as [g1 Hcol].
  { eauto. }
  { intros c Hc. destruct (Hready1 c Hc) as (sc0 & _ & _ & Hsc0 & _). eauto. }
  destruct (collect_loop_grows P _ _ _ _ Hcol HP1 Hv1) as (t1 & Ht1 & Hvt1 & Hcov1).
  assert (Hacc : accumulated_dirty P h1 = Some (mDirty t1)).
  { unfold accumulated_dirty. rewrite HP1. simpl. rewrite Em1, Hcol. simpl.
    rewrite Ht1. reflexivity. }
  assert (Hdib1 : dirty_in_bounds sp1).
  { apply invalidate_rect_dirty_in_bounds. exact Hdib. }
  destruct (collect_loop_in_bounds P _ _ _ _ _ Hcol HP1 Ht1 Hdib1) as [Hd1 Hb1].
  assert (Eb1 : mBounds sp1 = mBounds sp) by apply invalidate_rect_mBounds.
  assert (HcovD : covers (mBounds sp) (mDirty t1)).
  { rewrite <- Eb1, <- Hb1. apply Hd1. exact Hvt1. }
  assert (HencD : encloses (Rect4 0 0 W H) (mDirty t1)).
  { destruct Sp as (_ & _ & Hb & _). rewrite <- Hb. apply covers_encloses; assumption. }
  assert (Hmap1 : mLayerMap sp1 <> []).
  { rewrite Em1. intros E. rewrite E in HCin. inversion HCin. }
  destruct (render_root_layers fuel P h1 sp1 W H (mDirty t1) HP1 Ssp1) as
    (h2 & d' & Hr & HP2 & _ & Hoth2 & Hcell).
  { rewrite Ep1. exact Hroot. }
  { exact Hmap1. }
  { rewrite Em1. exact Hnin. }
  { rewrite Em1. exact Hready1. }
  { exact Hacc. }
  { exact Hvt1. }
  { exact HencD. }
  exists h1, h2, d', (mDirty t1).
  split; [exact Hhide|]. split; [exact Hr|]. split.
  { eapply covers_trans; [exact Hcov1|].
    apply (invalidate_rect_grows (bounds sc) sp). }
  split; [exact HcovD|]. split.
  { rewrite HP2. f_equal. unfold sp1.
    destruct (invalidate_rect_as_set (bounds sc) sp) as [d0 ->]. reflexivity. }
  split.
  { destruct (Hoth2 C sc1 ltac:(congruence) HC1) as (sc2 & Hsc2 & (Hv2 & _ & _ & Hd2) & _).
    exists sc2. split; [exact Hsc2|]. split; [rewrite Hv2|rewrite Hd2]; reflexivity. }
  intros cx cy Hcx Hcy. rewrite (Hcell cx cy Hcx Hcy).
  destruct (insideb (mDirty t1) (mkPoint cx cy)).
  - rewrite Em1. apply paint_hidden.
    + unfold layer_cell. rewrite HC1. reflexivity.
    + intros c Hc HcC. unfold layer_cell. rewrite Hoth1; [reflexivity| |exact HcC].
      intros ->. tauto.
  - unfold sp1. rewrite invalidate_rect_mData. reflexivity.
Qed.

(** ** Removing the last layer, then rendering *)

(** [render] on a root without layers: nothing is drawn. *)
Lemma render_root_no_layers fuel P (h : heap) sp :
  h !! P = Some sp -> mLayerMap sp = [] -> mParent sp = None ->
  valid (mDirty sp) = true ->
  render (S fuel) P h = Some (<[P := set_mDirty Rect0 sp]> h, [mkHook P (mDirty sp)]).
Proof.
  intros HP Hm Hpar Hv. rewrite render_S. unfold render_body.
  rewrite HP. simpl. rewrite Hm. simpl. rewrite HP. simpl. rewrite Hv. simpl.
  rewrite Hm. simpl. rewrite HP. simpl. rewrite Hpar. simpl. rewrite HP. simpl.
  rewrite (update_lookup _ _ _ _ HP). reflexivity.
Qed.

Lemma single_layer_erase k C : layer_erase k C [(k, [C])] = [].
Proof.
  unfold layer_erase. simpl. rewrite Z.eqb_refl.
  unfold set_erase. rewrite filter_cons. destruct (decide (C <> C)); [tauto|].
  simpl. unfold map_erase. rewrite filter_cons. simpl.
  destruct (decide (k <> k)); [tauto|reflexivity].
Qed.

(** X18. Removing the only layer of a clean root and rendering:
    the hook receives the part of the removed layer's footprint within the
    root's bounds, but no cell of the root's buffer changes, because
    [render] clears and composes only when the layer map is not empty: the
    picture of the removed layer stays in the buffer.  The root ends clean
    and without layers, the removed surface without parent. *)
Theorem remove_last_layer_keeps_picture (fuel : nat) (P C : ptr) (h : heap)
    (sp sc : Surface) (k : Z) :
  P <> C -> h !! P = Some sp -> h !! C = Some sc ->
  mParent sc = Some P -> mParent sp = None -> mLayerMap sp = [(k, [C])] ->
  valid (mDirty sp) = false ->
  valid (intersect (mBounds sp) (bounds sc)) = true ->
  exists h1 h2 sp2,
    removeLayer P C h = Some (0, h1) /\
    render (S fuel) P h1
      = Some (h2, [mkHook P (intersect (mBounds sp) (bounds sc))]) /\
    h2 !! P = Some sp2 /\ mData sp2 = mData sp /\ mLayerMap sp2 = [] /\
    valid (mDirty sp2) = false /\
    h2 !! C = Some (set_mParent None sc).
Proof.
  intros Hne HP HC Hpar Hroot Hmap Hclean Hfoot.
  set (sp1 := set_mDirty (intersect (mBounds sp) (bounds sc)) (set_mLayerMap [] sp)).
  set (h1 := <[C := set_mParent None sc]> (<[P := sp1]> h)).
  assert (Hrem : removeLayer P C h = Some (0, h1)).
  { unfold removeLayer. rewrite HC. simpl.
    destruct (bool_decide_reflect (mParent sc = Some P)); [|tauto]. simpl.
    rewrite HP. simpl. rewrite Hmap. simpl. rewrite Nat.eqb_refl. simpl.
    rewrite (update_lookup _ _ _ _ HP). simpl.
    rewrite heap_insert_lookup_ne by exact Hne. rewrite HC. simpl.
    erewrite update_lookup by (apply (heap_insert_lookup_eq _ _ _ _ HP)). simpl.
    rewrite list_insert_insert_eq.
    erewrite update_lookup
      by (rewrite heap_insert_lookup_ne by exact Hne; exact HC).
    simpl. rewrite single_layer_erase.
    unfold invalidate_rect. simpl. rewrite Hclean. reflexivity. }
  assert (HP1 : h1 !! P = Some sp1).
  { unfold h1. rewrite heap_insert_lookup_ne by congruence.
    apply (heap_insert_lookup_eq _ _ _ _ HP). }
  exists h1, (<[P := set_mDirty Rect0 sp1]> h1), (set_mDirty Rect0 sp1).
  split; [exact Hrem|]. split.
  { apply (render_root_no_layers fuel P h1 sp1 HP1); [reflexivity|exact Hroot|exact Hfoot]. }
  split; [apply (heap_insert_lookup_eq _ _ _ _ HP1)|].
  split; [reflexivity|]. split; [reflexivity|]. split; [reflexivity|].
  rewrite heap_insert_lookup_ne by exact Hne. unfold h1.
  apply heap_insert_lookup_eq with (s0 := sc).
  rewrite heap_insert_lookup_ne by exact Hne. exact HC.
Qed.

(** ** The terminal output *)

Lemma drawChar_bounds ch sc : scr_mBounds (fst (drawChar ch sc)) = scr_mBounds sc.
Proof. unfold drawChar. simpl. destruct (_ || _); reflexivity. Qed.

Lemma draw_row_spec buf : forall n x0 off sc out,
  0 <= off -> off + Z.of_nat n <= Z.of_nat (length buf) -> off + Z.of_nat n < 2 ^ 64 ->
  draw_row buf n x0 (off, sc, out)
  = Some (off + Z.of_nat n,
          fst (draw_cells (take n (drop (Z.to_nat off) buf)) sc),
          out ++ snd (draw_cells (take n (drop (Z.to_nat off) buf)) sc)).
Proof.
  unfold draw_row.
  induction n as [|n IH]; intros x0 off sc out H0 Hlen Hmax.
  - simpl. rewrite Z.add_0_r, app_nil_r. reflexivity.
  - cbn [loop]. unfold buf_read.
    destruct (lookup_lt_is_Some_2 buf (Z.to_nat off)) as [ch Hch]; [lia|].
    rewrite Hch. cbn [mbind option_bind fst snd].
    rewrite to_size_small by lia.
    rewrite IH by lia.
    rewrite (drop_S buf ch (Z.to_nat off) Hch). cbn [take draw_cells fst snd].
    replace (Z.to_nat (off + 1)) with (S (Z.to_nat off)) by lia.
    rewrite <- app_assoc. f_equal. f_equal. f_equal. lia.
Qed.

Lemma draw_cells_bounds : forall cells sc,
  scr_mBounds (fst (draw_cells cells sc)) = scr_mBounds sc.
Proof.
  induction cells as [|ch cells IH]; intros sc; [reflexivity|].
  simpl. rewrite IH. apply drawChar_bounds.
Qed.

Lemma draw_rows_app W buf tx bx : forall r1 r2 sc,
  draw_rows W buf tx bx (r1 ++ r2) sc
  = (fst (draw_rows W buf tx bx r2 (fst (draw_rows W buf tx bx r1 sc))),
     snd (draw_rows W buf tx bx r1 sc)
     ++ snd (draw_rows W buf tx bx r2 (fst (draw_rows W buf tx bx r1 sc)))).
Proof.
  induction r1 as [|yy r1 IH]; intros r2 sc; simpl.
  - destruct (draw_rows W buf tx bx r2 sc); reflexivity.
  - rewrite IH. simpl. rewrite <- !app_assoc. reflexivity.
Qed.

Lemma draw_rows_bounds W buf tx bx : forall rows sc,
  scr_mBounds (fst (draw_rows W buf tx bx rows sc)) = scr_mBounds sc.
Proof.
  induction rows as [|yy rows IH]; intros sc; [reflexivity|].
  simpl. rewrite IH. apply draw_cells_bounds.
Qed.

Lemma renderDone_loop W H tx bx by_ buf :
  0 <= W < 2 ^ 31 -> 0 <= H < 2 ^ 31 ->
  0 <= tx <= bx -> bx <= W -> by_ <= H ->
  length buf = Z.to_nat (W * H) ->
  forall n yy sc1 out,
  0 <= yy -> yy + Z.of_nat n <= by_ ->
  scr_mBounds sc1 = Rect4 0 0 W H ->
  loop n (yy + 1) (fun yc st =>
       let '(sc2, out2) := st in
       let offset := index_for (scr_mBounds sc2)
                       (mkPoint (to_ssize (to_size (tx + 1 - 1)))
                                (to_ssize (to_size (yc - 1)))) in
       let out1 := out2 ++ [OutStr (esc "["%string); OutNum yc; OutStr ";"%string;
                            OutNum (tx + 1); OutStr "H"%string] in
       r ← draw_row buf (Z.to_nat (bx - tx)) (tx + 1) (offset, sc2, out1);
       Some (snd (fst r), snd r)) (sc1, out)
  = Some (fst (draw_rows W buf tx bx (seqZ yy (Z.of_nat n)) sc1),
          out ++ snd (draw_rows W buf tx bx (seqZ yy (Z.of_nat n)) sc1)).
Proof.
  intros HW HH Hx HxW HyH Hlen.
  set (body := fun (yc : Z) (st : Screen * list Out) =>
       let '(sc2, out2) := st in
       let offset := index_for (scr_mBounds sc2)
                       (mkPoint (to_ssize (to_size (tx + 1 - 1)))
                                (to_ssize (to_size (yc - 1)))) in
       let out1 := out2 ++ [OutStr (esc "["%string); OutNum yc; OutStr ";"%string;
                            OutNum (tx + 1); OutStr "H"%string] in
       r ← draw_row buf (Z.to_nat (bx - tx)) (tx + 1) (offset, sc2, out1);
       Some (snd (fst r), snd r)).
  assert (Hbody : forall yy sc1 out, 0 <= yy < by_ -> scr_mBounds sc1 = Rect4 0 0 W H ->
    body (yy + 1) (sc1, out)
    = Some (fst (draw_cells (row_cells W buf tx bx yy) sc1),
            out ++ goto (yy + 1) (tx + 1)
                ++ snd (draw_cells (row_cells W buf tx bx yy) sc1))).
  { intros yy sc1 out Hy Hb. unfold body. cbv beta iota zeta.
    rewrite Hb. unfold index_for. rewrite width_Rect4 by lia.
    cbn [x y top Rect4].
    replace (tx + 1 - 1) with tx by lia. replace (yy + 1 - 1) with yy by lia.
    rewrite !(to_size_small tx), !(to_size_small yy) by lia.
    rewrite !to_ssize_small by lia. rewrite !Z.sub_0_r.
    assert (Hoff : 0 <= yy * W + tx /\ yy * W + bx <= W * H) by nia.
    rewrite (to_size_small (yy * W + tx)) by nia.
    rewrite draw_row_spec; [|lia|rewrite Hlen; lia|nia].
    cbn [mbind option_bind fst snd].
    unfold row_cells, goto. rewrite <- !app_assoc. reflexivity. }
  clearbody body.
  induction n as [|n IH]; intros yy sc1 out Hy0 Hyn Hb.
  - simpl. rewrite app_nil_r. reflexivity.
  - rewrite seqZ_cons by lia. cbn [loop draw_rows].
    rewrite Hbody by (try exact Hb; lia).
    replace (Z.succ yy) with (yy + 1) by lia.
    replace (Z.pred (Z.of_nat (S n))) with (Z.of_nat n) by lia.
    rewrite IH; [|lia|lia|].
    + cbn [fst snd]. rewrite <- !app_assoc. reflexivity.
    + rewrite draw_cells_bounds. exact Hb.
Qed.

(** The loops of [renderDone] draw the rows of the dirty rectangle. *)
Lemma renderDone_rows W H tx ty bx by_ buf sc :
  0 <= W < 2 ^ 31 -> 0 <= H < 2 ^ 31 ->
  0 <= tx <= bx -> bx <= W -> 0 <= ty <= by_ -> by_ <= H ->
  scr_mBounds sc = Rect4 0 0 W H -> length buf = Z.to_nat (W * H) ->
  Screen_renderDone (Rect4 tx ty bx by_) buf sc
  = Some (fst (draw_rows W buf tx bx (seqZ ty (by_ - ty))
                 (set_mCurrentAttr (mkChar 0 0 0 0) sc)),
          snd (draw_rows W buf tx bx (seqZ ty (by_ - ty))
                 (set_mCurrentAttr (mkChar 0 0 0 0) sc)) ++ [OutFlush]).
Proof.
  intros HW HH Hx HxW Hy HyH Hb Hlen.
  unfold Screen_renderDone. cbn [top bottom Rect4 x y].
  rewrite width_Rect4, height_Rect4 by lia.
  rewrite !(to_size_small (tx + 1)), !(to_size_small (ty + 1)) by lia.
  rewrite (to_size_small (tx + 1 + (bx - tx))) by lia.
  rewrite (to_size_small (ty + 1 + (by_ - ty))) by lia.
  replace (tx + 1 + (bx - tx) - (tx + 1)) with (bx - tx) by lia.
  replace (ty + 1 + (by_ - ty) - (ty + 1)) with (by_ - ty) by lia.
  rewrite (renderDone_loop W H tx bx by_ buf HW HH Hx HxW HyH Hlen
             (Z.to_nat (by_ - ty)) ty); [|lia|lia|exact Hb].
  rewrite Z2Nat.id by lia. reflexivity.
Qed.

Lemma glyphs_app o1 o2 : glyphs (o1 ++ o2) = glyphs o1 ++ glyphs o2.
Proof. unfold glyphs. apply flat_map_app. Qed.

Lemma drawChar_glyphs ch sc : glyphs (snd (drawChar ch sc)) = [shown ch].
Proof.
  unfold drawChar, shown. cbn [snd]. rewrite !glyphs_app.
  destruct (negb (attr ch =? attr (mCurrentAttr sc)) || (val (mCurrentAttr sc) =? 0));
    cbn [orb];
    destruct (has_attr ch bold), (has_attr ch underscore), (has_attr ch blink),
      (has_attr ch reverse);
    destruct (negb (fg ch =? fg (mCurrentAttr sc)));
    destruct (negb (bg ch =? bg (mCurrentAttr sc))); reflexivity.
Qed.

Lemma draw_cells_glyphs : forall cells sc,
  glyphs (snd (draw_cells cells sc)) = map shown cells.
Proof.
  induction cells as [|ch cells IH]; intros sc; [reflexivity|].
  cbn [draw_cells fst snd map]. rewrite glyphs_app, drawChar_glyphs, IH. reflexivity.
Qed.

Lemma draw_rows_glyphs W buf tx bx : forall rows sc,
  glyphs (snd (draw_rows W buf tx bx rows sc))
  = concat (map (fun yy => map shown (row_cells W buf tx bx yy)) rows).
Proof.
  induction rows as [|yy rows IH]; intros sc; [reflexivity|].
  cbn [draw_rows snd map concat]. rewrite !glyphs_app, draw_cells_glyphs, IH. reflexivity.
Qed.

Lemma row_cells_length W H buf tx bx yy :
  0 <= W -> 0 <= tx <= bx -> bx <= W -> 0 <= yy < H ->
  length buf = Z.to_nat (W * H) ->
  length (row_cells W buf tx bx yy) = Z.to_nat (bx - tx).
Proof.
  intros HW Hx HxW Hy Hlen. unfold row_cells.
  rewrite length_take, length_drop, Hlen. nia.
Qed.

Lemma concat_rows_length {A} (f : Z -> list A) (n : nat) : forall rows,
  (forall yy, yy ∈ rows -> length (f yy) = n) ->
  length (concat (map f rows)) = (length rows * n)%nat.
Proof.
  induction rows as [|yy rows IH]; intros Hf; [reflexivity|].
  simpl. rewrite length_app, IH by (intros y0 Hy0; apply Hf; right; exact Hy0).
  rewrite (Hf yy) by left. reflexivity.
Qed.

(** X19. [Screen::renderDone] for a dirty rectangle within the
    screen's bounds writes, for every row of the rectangle from top to
    bottom, the cursor position of the row's first dirty cell (terminal
    coordinates start at 1) followed by the dirty cells of that row drawn
    from left to right by [drawChar], starting from reset attributes, and
    then flushes.  The characters written are those of the cells of the
    rectangle, row by row (a blank for a cell that is not printable), as
    many as the rectangle has cells; the screen's bounds are unchanged. *)
Theorem renderDone_prints_dirty_cells (W H tx ty bx by_ : Z) (buf : list Char)
    (sc : Screen) :
  0 <= W < 2 ^ 31 -> 0 <= H < 2 ^ 31 ->
  0 <= tx <= bx -> bx <= W -> 0 <= ty <= by_ -> by_ <= H ->
  scr_mBounds sc = Rect4 0 0 W H -> length buf = Z.to_nat (W * H) ->
  exists sc' out,
    Screen_renderDone (Rect4 tx ty bx by_) buf sc = Some (sc', out ++ [OutFlush]) /\
    (sc', out) = draw_rows W buf tx bx (seqZ ty (by_ - ty))
                   (set_mCurrentAttr (mkChar 0 0 0 0) sc) /\
    glyphs (out ++ [OutFlush])
      = concat (map (fun yy => map shown (row_cells W buf tx bx yy))
                    (seqZ ty (by_ - ty))) /\
    length (glyphs (out ++ [OutFlush])) = Z.to_nat ((bx - tx) * (by_ - ty)) /\
    scr_mBounds sc' = scr_mBounds sc.
Proof.
  intros HW HH Hx HxW Hy HyH Hb Hlen.
  eexists _, _. split; [apply (renderDone_rows W H); assumption|].
  split; [symmetry; apply surjective_pairing|].
  assert (Hg : glyphs (snd (draw_rows W buf tx bx (seqZ ty (by_ - ty))
                              (set_mCurrentAttr (mkChar 0 0 0 0) sc)) ++ [OutFlush])
               = concat (map (fun yy => map shown (row_cells W buf tx bx yy))
                             (seqZ ty (by_ - ty)))).
  { rewrite glyphs_app, draw_rows_glyphs. simpl. apply app_nil_r. }
  split; [exact Hg|]. split.
  - rewrite Hg.
    rewrite (concat_rows_length _ (Z.to_nat (bx - tx))).
    + rewrite length_seqZ. nia.
    + intros yy Hyy. apply elem_of_seqZ in Hyy. rewrite length_map.
      apply (row_cells_length W H); try assumption; lia.
  - rewrite draw_rows_bounds. reflexivity.
Qed.

(** X20. After [Screen::drawChar] the attributes the screen tracks
    have the attribute flags and the colours of the cell drawn, and exactly
    one character is written for the cell.  A cell with the flags and
    colours the screen already tracks (once a cell has been tracked) is
    written as its character alone, with no escape code; so is every cell
    that follows with the same flags and colours. *)
Theorem drawChar_tracks_attributes (ch : Char) (sc : Screen) :
  let cur := mCurrentAttr sc in
  let sc' := fst (drawChar ch sc) in
  attr (mCurrentAttr sc') = attr ch /\ fg (mCurrentAttr sc') = fg ch /\
  bg (mCurrentAttr sc') = bg ch /\
  glyphs (snd (drawChar ch sc)) = [shown ch] /\
  (attr ch = attr cur -> fg ch = fg cur -> bg ch = bg cur -> val cur <> 0 ->
     drawChar ch sc = (sc, [OutChar (shown ch)])) /\
  (val ch <> 0 ->
   forall ch2, attr ch2 = attr ch -> fg ch2 = fg ch -> bg ch2 = bg ch ->
     snd (drawChar ch2 sc') = [OutChar (shown ch2)]).
Proof.
  intros cur sc'.
  assert (Hsame : forall c s, attr c = attr (mCurrentAttr s) -> fg c = fg (mCurrentAttr s) ->
            bg c = bg (mCurrentAttr s) -> val (mCurrentAttr s) <> 0 ->
            drawChar c s = (s, [OutChar (shown c)])).
  { intros c s Ha Hf Hbg Hv. unfold drawChar, shown. rewrite Ha, Hf, Hbg, !Z.eqb_refl.
    destruct (Z.eqb_spec (val (mCurrentAttr s)) 0); [tauto|]. reflexivity. }
  assert (Htrack : attr (mCurrentAttr sc') = attr ch /\ fg (mCurrentAttr sc') = fg ch /\
            bg (mCurrentAttr sc') = bg ch /\
            (val ch <> 0 -> val (mCurrentAttr sc') <> 0)).
  { subst sc'. unfold drawChar. cbn [fst].
    destruct (Z.eqb_spec (attr ch) (attr (mCurrentAttr sc))) as [Ea|Ea];
      destruct (Z.eqb_spec (val (mCurrentAttr sc)) 0) as [Ev|Ev];
      destruct (Z.eqb_spec (fg ch) (fg (mCurrentAttr sc))) as [Ef|Ef];
      destruct (Z.eqb_spec (bg ch) (bg (mCurrentAttr sc))) as [Eb|Eb];
      cbn [negb orb set_mCurrentAttr mCurrentAttr]; auto. }
  destruct Htrack as (Ha & Hf & Hbg & Hv).
  split; [exact Ha|]. split; [exact Hf|]. split; [exact Hbg|].
  split; [apply drawChar_glyphs|]. split.
  - intros E1 E2 E3 E4. apply Hsame; assumption.
  - intros Hval ch2 E1 E2 E3. rewrite Hsame; [reflexivity| | | |].
    + rewrite Ha. exact E1.
    + rewrite Hf. exact E2.
    + rewrite Hbg. exact E3.
    + apply Hv. exact Hval.
Qed.

(** ** Decoding keys *)

Lemma int_ok_small z : - 2 ^ 31 <= z < 2 ^ 31 -> int_ok z = Some z.
Proof.
  intros Hz. unfold int_ok.
  destruct (Z.leb_spec (- 2 ^ 31) z); [|lia]. destruct (Z.ltb_spec z (2 ^ 31)); [|lia].
  reflexivity.
Qed.

Lemma pollOnce_byte t b w :
  b <> KEY_ESC -> pollOnce t (SysPoll 1 :: SysRead 1 b :: w) = Some (b, w).
Proof.
  intros Hb. unfold pollOnce. simpl.
  destruct (Z.eqb_spec b KEY_ESC); [tauto|reflexivity].
Qed.

Lemma parseEsc_loop_mono : forall f f' p ps w r,
  (f <= f')%nat -> parseEsc_loop f p ps w = Some r -> parseEsc_loop f' p ps w = Some r.
Proof.
  induction f as [|f IH]; intros f' p ps w r Hle H; [discriminate H|].
  destruct f' as [|f']; [lia|]. cbn [parseEsc_loop] in *.
  destruct (pollOnce (-1) w) as [[key w1]|]; [|discriminate H]. cbn [mbind option_bind fst snd] in *.
  destruct (key <? 0); [exact H|].
  destruct ((48 <=? key) && (key <=? 57)).
  - destruct (int_ok _) as [p'|]; [|discriminate H]. cbn [mbind option_bind] in *.
    apply (IH f'); [lia|exact H].
  - destruct (key =? 59); [apply (IH f'); [lia|exact H]|exact H].
Qed.

(** Every call of [pollOnce] that returns has consumed a result of the
    terminal. *)
Lemma pollOnce_consumes t w k w1 :
  pollOnce t w = Some (k, w1) -> (length w1 < length w)%nat.
Proof.
  unfold pollOnce. intros H.
  destruct w as [|[rc|rc b] w0]; try discriminate H.
  cbn [sys_poll mbind option_bind fst snd] in H.
  destruct (rc <? 0); [injection H as <- <-; simpl; lia|].
  destruct (rc =? 0); [injection H as <- <-; simpl; lia|].
  destruct w0 as [|[rc2|rc2 b] w2]; try discriminate H.
  cbn [sys_read mbind option_bind fst snd] in H.
  destruct (rc2 <? 0); [injection H as <- <-; simpl; lia|].
  destruct ((if rc2 =? 1 then b else 0) =? KEY_ESC).
  - destruct w2 as [|[rc3|rc3 b3] w3]; try discriminate H.
    cbn [sys_poll mbind option_bind fst snd] in H.
    destruct (rc3 <? 0); [injection H as <- <-; simpl; lia|].
    destruct (0 <? rc3); injection H as <- <-; simpl; lia.
  - injection H as <- <-. simpl. lia.
Qed.

(** The loop of [parseEsc] never runs out of fuel: with more fuel than the
    terminal has results, the amount does not matter. *)
Lemma parseEsc_loop_fuel : forall f f' p ps w,
  (length w < f)%nat -> (length w < f')%nat ->
  parseEsc_loop f p ps w = parseEsc_loop f' p ps w.
Proof.
  induction f as [|f IH]; intros f' p ps w Hf Hf'; [lia|].
  destruct f' as [|f']; [lia|]. cbn [parseEsc_loop].
  destruct (pollOnce (-1) w) as [[key w1]|] eqn:Ep; [|reflexivity].
  apply pollOnce_consumes in Ep. cbn [mbind option_bind fst snd].
  destruct (key <? 0); [reflexivity|].
  destruct ((48 <=? key) && (key <=? 57)).
  - destruct (int_ok _) as [p'|]; [|reflexivity]. cbn [mbind option_bind].
    apply IH; lia.
  - destruct (key =? 59); [apply IH; lia|reflexivity].
Qed.

Lemma digits_val_ge ds : forall p,
  0 <= p -> Forall (fun d => 0 <= d <= 9) ds -> p <= digits_val ds p.
Proof.
  induction ds as [|d ds IH]; intros p Hp Hd; [simpl; lia|].
  apply Forall_cons in Hd. destruct Hd as [Hd Hds].
  unfold digits_val in *. simpl. specialize (IH (p * 10 + d) ltac:(lia) Hds). lia.
Qed.

Lemma burst_digits ds w :
  Forall (fun d => 0 <= d <= 9) ds ->
  burst (map (Z.add 48) ds) ++ w
  = flat_map (fun d => [SysPoll 1; SysRead 1 (48 + d)]) ds ++ w.
Proof.
  induction 1 as [|d ds Hd Hds IH]; [reflexivity|].
  cbn [map burst flat_map]. destruct (Z.eqb_spec (48 + d) KEY_ESC) as [E|_].
  - unfold KEY_ESC in E. lia.
  - cbn [app]. f_equal. f_equal. exact IH.
Qed.

Lemma parse_digits : forall ds f p ps w,
  Forall (fun d => 0 <= d <= 9) ds -> 0 <= p -> digits_val ds p < 2 ^ 31 ->
  parseEsc_loop (length ds + f) p ps
    (flat_map (fun d => [SysPoll 1; SysRead 1 (48 + d)]) ds ++ w)
  = parseEsc_loop f (digits_val ds p) ps w.
Proof.
  induction ds as [|d ds IH]; intros f p ps w Hd Hp Hv; [reflexivity|].
  apply Forall_cons in Hd. destruct Hd as [Hd Hds].
  cbn [length Nat.add flat_map app parseEsc_loop].
  rewrite pollOnce_byte by (unfold KEY_ESC; lia). cbn [mbind option_bind fst snd].
  destruct (Z.ltb_spec (48 + d) 0); [lia|].
  destruct (Z.leb_spec 48 (48 + d)); [|lia]. destruct (Z.leb_spec (48 + d) 57); [|lia].
  cbn [andb].
  assert (Hstep : (if p =? 0 then 48 + d - 48 else p * 10 + (48 + d - 48)) = p * 10 + d).
  { destruct (Z.eqb_spec p 0); lia. }
  rewrite Hstep.
  assert (Hnext : digits_val ds (p * 10 + d) = digits_val (d :: ds) p) by reflexivity.
  pose proof (digits_val_ge ds (p * 10 + d) ltac:(lia) Hds) as Hge.
  rewrite int_ok_small by lia. cbn [mbind option_bind].
  rewrite IH; [reflexivity|exact Hds|lia|rewrite Hnext; exact Hv].
Qed.

Lemma dec_digits_spec : forall fuel n,
  0 <= n < 10 ^ Z.of_nat fuel -> (0 < fuel)%nat ->
  exists ds, dec_digits fuel n = map (Z.add 48) ds /\
    Forall (fun d => 0 <= d <= 9) ds /\ (length ds <= fuel)%nat /\
    forall p, digits_val ds p = p * 10 ^ Z.of_nat (length ds) + n.
Proof.
  induction fuel as [|fuel IH]; intros n Hn Hf; [lia|].
  cbn [dec_digits]. destruct (Z.ltb_spec n 10).
  - exists [n]. split; [reflexivity|]. split; [repeat constructor; lia|].
    split; [simpl; lia|]. intros p. unfold digits_val. simpl. lia.
  - assert (Hpow : 10 ^ Z.of_nat (S fuel) = 10 * 10 ^ Z.of_nat fuel).
    { rewrite Nat2Z.inj_succ, Z.pow_succ_r by lia. reflexivity. }
    destruct fuel as [|fuel'].
    { simpl in Hn. lia. }
    destruct (IH (n / 10)) as (ds & Eds & Hds & Hlen & Hval).
    + split; [apply Z.div_pos; lia|]. apply Z.div_lt_upper_bound; lia.
    + lia.
    + exists (ds ++ [n mod 10]). split; [rewrite Eds, map_app; reflexivity|].
      pose proof (Z.mod_pos_bound n 10 ltac:(lia)).
      split; [apply Forall_app; split; [exact Hds|repeat constructor; lia]|].
      split; [rewrite length_app; simpl; lia|].
      intros p. unfold digits_val in *. rewrite fold_left_app. simpl.
      rewrite Hval. rewrite length_app. simpl.
      replace (Z.of_nat (length ds + 1)) with (Z.succ (Z.of_nat (length ds))) by lia.
      rewrite Z.pow_succ_r by lia.
      pose proof (Z.div_mod n 10 ltac:(lia)). lia.
Qed.

Lemma decimal_spec n :
  0 <= n < 2 ^ 31 ->
  exists ds, decimal n = map (Z.add 48) ds /\
    Forall (fun d => 0 <= d <= 9) ds /\ (length ds <= 10)%nat /\ digits_val ds 0 = n.
Proof.
  intros Hn. destruct (dec_digits_spec 10 n) as (ds & E & Hd & Hl & Hv); [simpl; lia|lia|].
  exists ds. split; [exact E|]. split; [exact Hd|]. split; [exact Hl|]. rewrite Hv. lia.
Qed.

Lemma burst_app_noesc l1 l2 :
  Forall (fun b => b <> KEY_ESC) l1 -> burst (l1 ++ l2) = burst l1 ++ burst l2.
Proof.
  induction 1 as [|b l1 Hb Hl IH]; [reflexivity|].
  cbn [app burst]. destruct (Z.eqb_spec b KEY_ESC); [tauto|].
  cbn [app]. rewrite IH. reflexivity.
Qed.

Lemma burst_length l : (length l <= length (burst l))%nat.
Proof.
  induction l as [|b l IH]; [reflexivity|].
  cbn [burst length]. rewrite length_app. lia.
Qed.

Lemma digits_noesc ds :
  Forall (fun d => 0 <= d <= 9) ds -> Forall (fun b => b <> KEY_ESC) (map (Z.add 48) ds).
Proof.
  intros H. apply Forall_map. eapply Forall_impl; [exact H|].
  intros d Hd. simpl in Hd. unfold KEY_ESC. lia.
Qed.

Lemma parse_separator f p ps w :
  parseEsc_loop (S f) p ps (SysPoll 1 :: SysRead 1 59 :: w)
  = parseEsc_loop f 0 (ps ++ [p]) w.
Proof.
  cbn [parseEsc_loop]. rewrite pollOnce_byte by (unfold KEY_ESC; lia). reflexivity.
Qed.

Lemma parse_final f p ps c w :
  final_byte c ->
  parseEsc_loop (S f) p ps (SysPoll 1 :: SysRead 1 c :: w)
  = Some (key_of c (if p =? 0 then ps else ps ++ [p]), w).
Proof.
  intros (Hc & Hesc & Hsep & Hdig).
  cbn [parseEsc_loop]. rewrite pollOnce_byte by exact Hesc. cbn [mbind option_bind fst snd].
  destruct (Z.ltb_spec c 0); [lia|].
  assert (Hd : (48 <=? c) && (c <=? 57) = false).
  { destruct (Z.leb_spec 48 c), (Z.leb_spec c 57); try reflexivity. lia. }
  rewrite Hd. destruct (Z.eqb_spec c 59); [tauto|].
  rewrite Z.mod_small by lia. reflexivity.
Qed.

Lemma burst_final c w :
  final_byte c -> burst [c] ++ w = SysPoll 1 :: SysRead 1 c :: w.
Proof.
  intros (_ & Hesc & _). cbn [burst]. destruct (Z.eqb_spec c KEY_ESC); [tauto|reflexivity].
Qed.

(** A parameter in decimal, then [rest]: the loop reads the digits and goes
    on with the parameter's value. *)
Lemma parse_decimal n f acc tail w :
  1 <= n < 2 ^ 31 ->
  exists k, (0 < k <= 10)%nat /\ k = length (decimal n) /\
    burst (decimal n ++ tail) ++ w
    = burst (decimal n) ++ burst tail ++ w /\
    parseEsc_loop (k + f) 0 acc (burst (decimal n ++ tail) ++ w)
    = parseEsc_loop f n acc (burst tail ++ w).
Proof.
  intros Hn. destruct (decimal_spec n ltac:(lia)) as (ds & E & Hd & Hl & Hv).
  exists (length ds).
  assert (Hpos : (0 < length ds)%nat).
  { destruct ds; [|simpl; lia]. unfold digits_val in Hv. simpl in Hv. lia. }
  split; [lia|]. split; [rewrite E, length_map; reflexivity|].
  assert (Happ : burst (decimal n ++ tail) ++ w = burst (decimal n) ++ burst tail ++ w).
  { rewrite E, burst_app_noesc by (apply digits_noesc; exact Hd).
    rewrite <- app_assoc. reflexivity. }
  split; [exact Happ|].
  rewrite Happ, E, burst_digits by exact Hd.
  rewrite parse_digits; [rewrite Hv; reflexivity|exact Hd|lia|rewrite Hv; lia].
Qed.

Lemma parse_params : forall ps acc c w f,
  Forall (fun p => 1 <= p < 2 ^ 31) ps -> final_byte c ->
  (length (encode_params ps) < f)%nat ->
  parseEsc_loop f 0 acc (burst (encode_params ps ++ [c]) ++ w)
  = Some (key_of c (acc ++ ps), w).
Proof.
  induction ps as [|p ps IH]; intros acc c w f Hps Hc Hf.
  - cbn [encode_params app] in *. rewrite burst_final by exact Hc.
    destruct f as [|f]; [lia|]. rewrite parse_final by exact Hc.
    rewrite app_nil_r. reflexivity.
  - apply Forall_cons in Hps. destruct Hps as [Hp Hps].
    destruct ps as [|p' rest].
    + cbn [encode_params] in *.
      destruct (parse_decimal p (f - length (decimal p)) acc [c] w Hp)
        as (k & Hk & Ek & _ & Hrun).
      replace f with (k + (f - length (decimal p)))%nat at 1 by lia.
      rewrite Hrun. rewrite burst_final by exact Hc.
      destruct (f - length (decimal p))%nat as [|f'] eqn:Ef; [lia|].
      rewrite parse_final by exact Hc.
      destruct (Z.eqb_spec p 0); [lia|reflexivity].
    + change (encode_params (p :: p' :: rest))
        with (decimal p ++ [59] ++ encode_params (p' :: rest)) in *.
      rewrite !length_app in Hf. cbn [length] in Hf.
      rewrite <- !app_assoc.
      destruct (parse_decimal p (f - length (decimal p)) acc
                  ([59] ++ encode_params (p' :: rest) ++ [c]) w Hp)
        as (k & Hk & Ek & _ & Hrun).
      replace f with (k + (f - length (decimal p)))%nat at 1 by lia.
      rewrite Hrun.
      change (burst ([59] ++ encode_params (p' :: rest) ++ [c]) ++ w)
        with (SysPoll 1 :: SysRead 1 59 :: burst (encode_params (p' :: rest) ++ [c]) ++ w).
      destruct (f - length (decimal p))%nat as [|f'] eqn:Ef; [lia|].
      rewrite parse_separator. rewrite IH; [|exact Hps|exact Hc|lia].
      rewrite <- app_assoc. reflexivity.
Qed.

Lemma parseEsc_params ps c w :
  Forall (fun p => 1 <= p < 2 ^ 31) ps -> final_byte c ->
  parseEsc (burst (encode_params ps ++ [c]) ++ w) = Some (key_of c ps, w).
Proof.
  intros Hps Hc. unfold parseEsc.
  rewrite (parse_params ps [] c w); [reflexivity|exact Hps|exact Hc|].
  rewrite length_app. pose proof (burst_length (encode_params ps ++ [c])) as Hl.
  rewrite length_app in Hl. simpl in Hl. lia.
Qed.

Lemma waitForKey_sequence t intro tail w :
  intro = 91 \/ intro = 79 -> tail <> [] ->
  waitForKey t (burst (KEY_ESC :: intro :: tail) ++ w) = parseEsc (burst tail ++ w).
Proof.
  intros Hi Ht. destruct tail as [|b tail]; [tauto|].
  destruct Hi as [-> | ->]; reflexivity.
Qed.

(** X21. [Keyboard::waitForKey] decodes an escape sequence whose
    bytes arrive together: ESC, then ['['] or ['O'], then decimal
    parameters between 1 and the largest [int] separated by [';'], then a
    final byte.  It consumes the whole sequence and returns what the entry
    of the key map for the final byte yields on the list of the parameters'
    values, or [KEY_UNKNOWN] when the final byte has no entry. *)
Theorem waitForKey_decodes_escape_sequence (t intro : Z) (ps : list Z) (c : Z) (w : list Sys) :
  intro = 91 \/ intro = 79 ->
  Forall (fun p => 1 <= p < 2 ^ 31) ps ->
  final_byte c ->
  waitForKey t (burst ([KEY_ESC; intro] ++ encode_params ps ++ [c]) ++ w)
  = Some (key_of c ps, w).
Proof.
  intros Hi Hps Hc. cbn [app].
  rewrite waitForKey_sequence; [|exact Hi|destruct (encode_params ps); discriminate].
  apply parseEsc_params; assumption.
Qed.

Lemma waitForKey_decodes_escape_sequence_witness :
  waitForKey (-1) (burst ([KEY_ESC; 91] ++ encode_params [1; 5] ++ [65]) ++ [SysPoll 0])
  = Some (key_of 65 [1; 5], [SysPoll 0]).
Proof.
  apply (waitForKey_decodes_escape_sequence (-1) 91 [1; 5] 65 [SysPoll 0]).
  - left. reflexivity.
  - repeat constructor; lia.
  - unfold final_byte, KEY_ESC. lia.
Defined.

(** X22. The keys of the xterm key map.  The sequences [ESC [ c] and
    [ESC O c] of a letter [c] of the map give its key, and [ESC [ 1 ; m c]
    gives the key plus [m * MOD_META] for a modifier [m] from 1 to 8.  The
    sequence [ESC [ n ~] of a number [n] of the ['~'] entry gives its key,
    and [ESC [ n ; m ~] the key plus [m * MOD_META]. *)
Theorem waitForKey_xterm_keys (t c key n nkey m : Z) (w : list Sys) :
  In (c, key) xterm_letters ->
  tilde_key n = Some nkey ->
  1 <= m <= 8 ->
  waitForKey t (burst [KEY_ESC; 91; c] ++ w) = Some (key, w) /\
  waitForKey t (burst [KEY_ESC; 79; c] ++ w) = Some (key, w) /\
  waitForKey t (burst [KEY_ESC; 91; 49; 59; 48 + m; c] ++ w) = Some (key + m * MOD_META, w) /\
  waitForKey t (burst ([KEY_ESC; 91] ++ decimal n ++ [126]) ++ w) = Some (nkey, w) /\
  waitForKey t (burst ([KEY_ESC; 91] ++ decimal n ++ [59; 48 + m; 126]) ++ w)
  = Some (nkey + m * MOD_META, w).
Proof.
  intros Hc Hn Hm.
  assert (Hl : forall ps, Forall (fun p => 1 <= p < 2 ^ 31) ps ->
            waitForKey t (burst ([KEY_ESC; 91] ++ encode_params ps ++ [c]) ++ w)
            = Some (esc_seq_param ps key, w) /\
            waitForKey t (burst ([KEY_ESC; 79] ++ encode_params ps ++ [c]) ++ w)
            = Some (esc_seq_param ps key, w)).
  { intros ps Hps. cbn [app].
    rewrite !waitForKey_sequence
      by (try (left; reflexivity); try (right; reflexivity);
          destruct (encode_params ps); discriminate).
    assert (Hf : final_byte c /\ key_of c ps = esc_seq_param ps key).
    { unfold xterm_letters in Hc. simpl in Hc.
      repeat (destruct Hc as [Hc | Hc];
              [injection Hc as <- <-; split; [unfold final_byte, KEY_ESC; lia|reflexivity]|]).
      destruct Hc. }
    destruct Hf as [Hf Ek]. rewrite parseEsc_params by assumption. rewrite Ek. tauto. }
  assert (Ht : forall ps, Forall (fun p => 1 <= p < 2 ^ 31) ps ->
            waitForKey t (burst ([KEY_ESC; 91] ++ encode_params ps ++ [126]) ++ w)
            = Some (xterm_tilde ps, w)).
  { intros ps Hps. cbn [app].
    rewrite waitForKey_sequence
      by (try (left; reflexivity); destruct (encode_params ps); discriminate).
    rewrite parseEsc_params; [reflexivity|exact Hps|unfold final_byte, KEY_ESC; lia]. }
  assert (Hdm : decimal m = [48 + m]).
  { unfold decimal. cbn [dec_digits]. destruct (Z.ltb_spec m 10); [reflexivity|lia]. }
  assert (Hn' : 1 <= n < 2 ^ 31).
  { unfold tilde_key in Hn.
    repeat match type of Hn with
           | (if ?a =? ?b then _ else _) = _ => destruct (Z.eqb_spec a b); [lia|]
           end. discriminate Hn. }
  assert (Hmod : (1 <=? m) && (m <=? 8) = true).
  { destruct (Z.leb_spec 1 m), (Z.leb_spec m 8); try reflexivity; lia. }
  split; [exact (proj1 (Hl [] (List.Forall_nil _)))|].
  split; [exact (proj2 (Hl [] (List.Forall_nil _)))|].
  split.
  { destruct (Hl [1; m]) as [H1 _]; [repeat constructor; lia|].
    cbn [encode_params] in H1. rewrite Hdm in H1.
    change (decimal 1) with [49] in H1. cbn [app] in H1. cbn [app]. rewrite H1.
    unfold esc_seq_param. cbn [last]. rewrite Hmod. reflexivity. }
  split.
  { specialize (Ht [n]). cbn [encode_params] in Ht. rewrite Ht by (repeat constructor; lia).
    unfold xterm_tilde. rewrite Hn. reflexivity. }
  specialize (Ht [n; m]). cbn [encode_params] in Ht. rewrite Hdm in Ht.
  rewrite <- !app_assoc in Ht. cbn [app] in Ht. cbn [app].
  rewrite Ht by (repeat constructor; lia).
  unfold xterm_tilde. rewrite Hn, Hmod. reflexivity.
Qed.

Lemma waitForKey_xterm_keys_witness :
  waitForKey (-1) (burst [KEY_ESC; 91; 49; 59; 48 + 3; 65] ++ [])
  = Some (KEY_UP + 3 * MOD_META, []) /\
  waitForKey (-1) (burst ([KEY_ESC; 91] ++ decimal 15 ++ [59; 48 + 3; 126]) ++ [])
  = Some (KEY_F5 + 3 * MOD_META, []).
Proof.
  assert (H : In (65, KEY_UP) xterm_letters /\ tilde_key 15 = Some KEY_F5 /\ 1 <= 3 <= 8).
  { split; [left; reflexivity|]. split; [reflexivity|lia]. }
  destruct H as (H1 & H2 & H3).
  pose proof (waitForKey_xterm_keys (-1) 65 KEY_UP 15 KEY_F5 3 [] H1 H2 H3) as H.
  split; [exact (proj1 (proj2 (proj2 H)))|exact (proj2 (proj2 (proj2 (proj2 H))))].
Defined.

(** X23. What the key map does not know.  A sequence with a final
    byte that is not in the map gives [KEY_UNKNOWN], whatever the parameters;
    a letter of the map whose last parameter is above 8 gives [KEY_UNKNOWN];
    [ESC [ ~] without parameter gives [KEY_UNKNOWN]; [ESC [ n ; m ~] with a
    second parameter above 8 gives the key of [n] without modifier; and
    ['~'] after more than two parameters, whatever they are, gives
    [KEY_UNKNOWN].  In each case the whole sequence is consumed. *)
Theorem waitForKey_unknown_sequences (t intro : Z) (ps qs : list Z) (u c key n nkey m : Z)
    (w : list Sys) :
  intro = 91 \/ intro = 79 ->
  Forall (fun p => 1 <= p < 2 ^ 31) ps ->
  Forall (fun p => 1 <= p < 2 ^ 31) qs -> (2 < length qs)%nat ->
  final_byte u -> xterm_keymap u = None ->
  In (c, key) xterm_letters ->
  tilde_key n = Some nkey ->
  9 <= m < 2 ^ 31 ->
  let run bytes := waitForKey t (burst ([KEY_ESC; intro] ++ bytes) ++ w) in
  run (encode_params ps ++ [u]) = Some (KEY_UNKNOWN, w) /\
  run (encode_params (ps ++ [m]) ++ [c]) = Some (KEY_UNKNOWN, w) /\
  run [126] = Some (KEY_UNKNOWN, w) /\
  run (encode_params [n; m] ++ [126]) = Some (nkey, w) /\
  run (encode_params qs ++ [126]) = Some (KEY_UNKNOWN, w).
Proof.
  intros Hi Hps Hqs Hlen Hu Eu Hc Hn Hm run.
  assert (Hrun : forall rs f, Forall (fun p => 1 <= p < 2 ^ 31) rs -> final_byte f ->
            run (encode_params rs ++ [f]) = Some (key_of f rs, w)).
  { intros rs f Hrs Hf. unfold run. cbn [app].
    rewrite waitForKey_sequence; [|exact Hi|destruct (encode_params rs); discriminate].
    apply parseEsc_params; assumption. }
  assert (Htilde : final_byte 126) by (unfold final_byte, KEY_ESC; lia).
  assert (Hn' : 1 <= n < 2 ^ 31).
  { unfold tilde_key in Hn.
    repeat match type of Hn with
           | (if ?a =? ?b then _ else _) = _ => destruct (Z.eqb_spec a b); [lia|]
           end. discriminate Hn. }
  assert (Hmod : (1 <=? m) && (m <=? 8) = false).
  { destruct (Z.leb_spec 1 m), (Z.leb_spec m 8); try reflexivity; lia. }
  split.
  { rewrite Hrun by assumption. unfold key_of. rewrite Eu. reflexivity. }
  split.
  { assert (Hf : final_byte c /\ key_of c (ps ++ [m]) = esc_seq_param (ps ++ [m]) key).
    { unfold xterm_letters in Hc. simpl in Hc.
      repeat (destruct Hc as [Hc | Hc];
              [injection Hc as <- <-; split; [unfold final_byte, KEY_ESC; lia|reflexivity]|]).
      destruct Hc. }
    destruct Hf as [Hf Ek]. rewrite Hrun; [|apply Forall_app; split;
      [exact Hps|repeat constructor; lia]|exact Hf].
    rewrite Ek. unfold esc_seq_param. rewrite last_snoc, Hmod. reflexivity. }
  split.
  { exact (Hrun [] 126 (List.Forall_nil _) Htilde). }
  split.
  { rewrite Hrun; [|repeat constructor; lia|exact Htilde].
    unfold key_of. cbn [xterm_keymap Z.eqb Pos.eqb]. unfold xterm_tilde.
    rewrite Hn, Hmod. reflexivity. }
  rewrite Hrun; [|exact Hqs|exact Htilde].
  unfold key_of. cbn [xterm_keymap Z.eqb Pos.eqb]. unfold xterm_tilde.
  destruct qs as [|q0 rest]; [reflexivity|].
  destruct (tilde_key q0); [|reflexivity].
  destruct (Nat.ltb_spec 2 (length (q0 :: rest))); [reflexivity|lia].
Qed.

Lemma waitForKey_unknown_sequences_witness :
  waitForKey (-1) (burst ([KEY_ESC; 91] ++ encode_params ([2] ++ [9]) ++ [65]) ++ [])
  = Some (KEY_UNKNOWN, []) /\
  waitForKey (-1) (burst ([KEY_ESC; 91] ++ encode_params [2; 9] ++ [126]) ++ [])
  = Some (KEY_INS, []) /\
  waitForKey (-1) (burst ([KEY_ESC; 91] ++ encode_params [2; 5; 3] ++ [126]) ++ [])
  = Some (KEY_UNKNOWN, []).
Proof.
  assert (H : Forall (fun p => 1 <= p < 2 ^ 31) [2] /\
              Forall (fun p => 1 <= p < 2 ^ 31) [2; 5; 3] /\
              final_byte 90 /\ 9 <= 9 < 2 ^ 31).
  { split; [repeat constructor; lia|]. split; [repeat constructor; lia|].
    split; [unfold final_byte, KEY_ESC|]; lia. }
  destruct H as (H1 & H1' & H2 & H3).
  pose proof (waitForKey_unknown_sequences (-1) 91 [2] [2; 5; 3] 90 65 KEY_UP 2 KEY_INS 9 []
                (or_introl eq_refl) H1 H1' ltac:(simpl; lia) H2 eq_refl
                (or_introl eq_refl) eq_refl H3) as H.
  split; [exact (proj1 (proj2 H))|].
  split; [exact (proj1 (proj2 (proj2 (proj2 H))))|exact (proj2 (proj2 (proj2 (proj2 H))))].
Defined.

Lemma waitForKey_esc_other t b rest w :
  0 <= b < 256 -> b <> KEY_ESC -> b <> 91 -> b <> 79 ->
  waitForKey t (burst (KEY_ESC :: b :: rest) ++ w) = Some (b + MOD_ALT, burst rest ++ w).
Proof.
  intros Hb Hesc H91 H79.
  change (burst (KEY_ESC :: b :: rest) ++ w)
    with (SysPoll 1 :: SysRead 1 KEY_ESC :: SysPoll 1 :: burst (b :: rest) ++ w).
  unfold waitForKey.
  change (pollOnce t (SysPoll 1 :: SysRead 1 KEY_ESC :: SysPoll 1 :: burst (b :: rest) ++ w))
    with (Some (KEY_ESC_SEQ, burst (b :: rest) ++ w)).
  cbn [mbind option_bind fst snd burst]. 
  destruct (Z.eqb_spec b KEY_ESC); [tauto|]. cbn [app].
  rewrite pollOnce_byte by exact Hesc.
  change (negb (KEY_ESC_SEQ =? KEY_ESC_SEQ) || (KEY_ESC_SEQ <? 0)) with false.
  cbn [mbind option_bind fst snd].
  destruct (Z.ltb_spec b 0); [lia|].
  destruct (Z.eqb_spec b 91); [tauto|]. destruct (Z.eqb_spec b 79); [tauto|].
  reflexivity.
Qed.

(** X24. Keys that are no escape sequence.  A byte other than ESC
    (['['] and ['O'] among them) is returned as it is; ESC alone is returned
    as [KEY_ESC]; ESC followed at once by a byte other than ESC, ['['] and
    ['O'] is that byte plus [MOD_ALT]; ESC followed by a last ESC is
    [KEY_ESC + MOD_ALT]; ESC followed by ESC and further bytes, whatever
    they are, gives [KEY_ESC_SEQ + MOD_ALT] and leaves those bytes unread;
    and a poll that times out gives [-ETIMEDOUT]. *)
Theorem waitForKey_plain_and_alt (t b a c : Z) (rest : list Z) (w : list Sys) :
  0 <= b < 256 -> b <> KEY_ESC ->
  0 <= a < 256 -> a <> KEY_ESC -> a <> 91 -> a <> 79 ->
  waitForKey t (burst [b] ++ w) = Some (b, w) /\
  waitForKey t (burst [KEY_ESC] ++ w) = Some (KEY_ESC, w) /\
  waitForKey t (burst [KEY_ESC; a] ++ w) = Some (a + MOD_ALT, w) /\
  waitForKey t (burst [KEY_ESC; KEY_ESC] ++ w) = Some (KEY_ESC + MOD_ALT, w) /\
  waitForKey t (burst (KEY_ESC :: KEY_ESC :: c :: rest) ++ w)
  = Some (KEY_ESC_SEQ + MOD_ALT, burst (c :: rest) ++ w) /\
  waitForKey t (SysPoll 0 :: w) = Some (- ETIMEDOUT, w).
Proof.
  intros Hb Hesc Ha Haesc H91 H79.
  assert (Eseq : (b =? KEY_ESC_SEQ) = false) by (apply Z.eqb_neq; unfold KEY_ESC_SEQ; lia).
  assert (Eesc : (b =? KEY_ESC) = false) by (apply Z.eqb_neq; exact Hesc).
  assert (Eneg : (b <? 0) = false) by (apply Z.ltb_ge; lia).
  split.
  { unfold waitForKey. cbn [burst app]. rewrite Eesc. cbn [app].
    rewrite pollOnce_byte by exact Hesc. cbn [mbind option_bind fst snd].
    rewrite Eseq, Eneg. reflexivity. }
  split; [reflexivity|].
  split.
  { rewrite (waitForKey_esc_other t a [] w) by assumption. reflexivity. }
  split; [reflexivity|].
  split; [|reflexivity].
  reflexivity.
Qed.

Lemma waitForKey_plain_and_alt_witness :
  waitForKey (-1) (burst [91] ++ []) = Some (91, []) /\
  waitForKey (-1) (burst [KEY_ESC; 120] ++ []) = Some (120 + MOD_ALT, []) /\
  waitForKey (-1) (burst (KEY_ESC :: KEY_ESC :: 91 :: [65]) ++ [])
  = Some (KEY_ESC_SEQ + MOD_ALT, burst (91 :: [65]) ++ []).
Proof.
  assert (H : 0 <= 91 < 256 /\ 91 <> KEY_ESC /\
              0 <= 120 < 256 /\ 120 <> KEY_ESC /\ 120 <> 91 /\ 120 <> 79).
  { unfold KEY_ESC. lia. }
  destruct H as (H1 & H2 & H3 & H4 & H5 & H6).
  pose proof (waitForKey_plain_and_alt (-1) 91 120 91 [65] [] H1 H2 H3 H4 H5 H6) as H.
  split; [exact (proj1 H)|].
  split; [exact (proj1 (proj2 (proj2 H)))|exact (proj1 (proj2 (proj2 (proj2 (proj2 H)))))].
Defined.

Lemma terminal_error_app k pre1 pre2 :
  terminal_error k pre1 \/ terminal_error k pre2 -> terminal_error k (pre1 ++ pre2).
Proof.
  unfold terminal_error. intros [[[E H]|[E [H|[b H]]]]|[[E H]|[E [H|[b H]]]]].
  all: try (left; split; [exact E|apply in_or_app; tauto]).
  all: right; split; [exact E|].
  all: try (left; apply in_or_app; tauto).
  all: right; exists b; apply in_or_app; tauto.
Qed.

Lemma pollOnce_inv t w k w' :
  bytes_ok w -> pollOnce t w = Some (k, w') ->
  exists pre, w = pre ++ w' /\ pre <> [] /\
    (k < 0 -> terminal_error k pre) /\ (0 <= k -> k < 256 \/ k = KEY_ESC_SEQ).
Proof.
  intros Hw H. unfold pollOnce in H.
  destruct w as [|[rc|rc b] w1]; try discriminate H.
  cbn [sys_poll mbind option_bind fst snd] in H.
  destruct (Z.ltb_spec rc 0).
  { injection H as <- <-. exists [SysPoll rc]. split; [reflexivity|]. split; [discriminate|].
    split; [|lia]. intros _. right. split; [assumption|]. left. left. reflexivity. }
  destruct (Z.eqb_spec rc 0) as [->|Hrc].
  { injection H as <- <-. exists [SysPoll 0]. split; [reflexivity|]. split; [discriminate|].
    split; [|unfold ETIMEDOUT; lia]. intros _. left. split; [reflexivity|]. left. reflexivity. }
  destruct w1 as [|[rc2|rc2 b] w2]; try discriminate H.
  cbn [sys_read mbind option_bind fst snd] in H.
  assert (Hb : 0 <= (if rc2 =? 1 then b else 0) < 256).
  { apply Forall_cons in Hw. destruct Hw as [_ Hw].
    apply Forall_cons in Hw. destruct Hw as [Hb _]. destruct (rc2 =? 1); lia. }
  destruct (Z.ltb_spec rc2 0).
  { injection H as <- <-. exists [SysPoll rc; SysRead rc2 b]. split; [reflexivity|].
    split; [discriminate|]. split; [|lia]. intros _. right. split; [assumption|].
    right. exists b. right. left. reflexivity. }
  destruct (Z.eqb_spec (if rc2 =? 1 then b else 0) KEY_ESC) as [Ek|Ek].
  - destruct w2 as [|[rc3|rc3 b3] w3]; try discriminate H.
    cbn [sys_poll mbind option_bind fst snd] in H.
    destruct (Z.ltb_spec rc3 0).
    { injection H as <- <-. exists [SysPoll rc; SysRead rc2 b; SysPoll rc3].
      split; [reflexivity|]. split; [discriminate|]. split; [|lia]. intros _. right.
      split; [assumption|]. left. right. right. left. reflexivity. }
    destruct (0 <? rc3); injection H as <- <-;
      exists [SysPoll rc; SysRead rc2 b; SysPoll rc3];
      (split; [reflexivity|]); (split; [discriminate|]);
      (split; [unfold KEY_ESC_SEQ; lia|]); intros _; [right; reflexivity|left; lia].
  - injection H as <- <-. exists [SysPoll rc; SysRead rc2 b].
    split; [reflexivity|]. split; [discriminate|]. split; [lia|]. intros _. left. lia.
Qed.

Lemma bytes_ok_app_r pre w : bytes_ok (pre ++ w) -> bytes_ok w.
Proof. unfold bytes_ok. intros H. apply Forall_app in H. tauto. Qed.

Lemma key_of_nonneg c ps : 0 <= key_of c ps.
Proof.
  assert (Hp : forall key, 0 <= key -> 0 <= esc_seq_param ps key).
  { intros key Hk. unfold esc_seq_param. destruct (last ps) as [b|]; [|exact Hk].
    destruct (Z.leb_spec 1 b), (Z.leb_spec b 8); cbn [andb]; unfold KEY_UNKNOWN, MOD_META; lia. }
  unfold key_of, xterm_keymap.
  repeat match goal with
         | |- context [if ?a =? ?b then _ else _] => destruct (a =? b)
         end.
  all: try (apply Hp; unfold KEY_UP, KEY_DOWN, KEY_RIGHT, KEY_LEFT, KEY_HOME, KEY_END,
              KEY_F1, KEY_F2, KEY_F3, KEY_F4; lia).
  all: try (unfold KEY_UNKNOWN; lia).
  unfold xterm_tilde. destruct ps as [|p0 rest]; [unfold KEY_UNKNOWN; lia|].
  destruct (tilde_key p0) as [key|] eqn:Ek; [|unfold KEY_UNKNOWN; lia].
  assert (Hk : 0 <= key).
  { unfold tilde_key in Ek.
    repeat match type of Ek with
           | (if ?a =? ?b then _ else _) = _ =>
               destruct (a =? b); [injection Ek as <-; vm_compute; discriminate|]
           end. discriminate Ek. }
  destruct (2 <? length (p0 :: rest))%nat; [unfold KEY_UNKNOWN; lia|].
  destruct rest as [|p1 [|p2 rest]]; try exact Hk.
  destruct (Z.leb_spec 1 p1), (Z.leb_spec p1 8); cbn [andb]; unfold MOD_META; lia.
Qed.

Lemma parseEsc_loop_inv : forall f p ps w k w',
  bytes_ok w -> parseEsc_loop f p ps w = Some (k, w') ->
  exists pre, w = pre ++ w' /\ pre <> [] /\ (k < 0 -> terminal_error k pre).
Proof.
  induction f as [|f IH]; intros p ps w k w' Hw H; [discriminate H|].
  cbn [parseEsc_loop] in H.
  destruct (pollOnce (-1) w) as [[key w1]|] eqn:Ep; [|discriminate H].
  cbn [mbind option_bind fst snd] in H.
  destruct (pollOnce_inv _ _ _ _ Hw Ep) as (pre & -> & Hne & Herr & _).
  assert (Hrec : forall p' ps', parseEsc_loop f p' ps' w1 = Some (k, w') ->
            exists pre0, pre ++ w1 = pre0 ++ w' /\ pre0 <> [] /\
              (k < 0 -> terminal_error k pre0)).
  { intros p' ps' H'. destruct (IH p' ps' w1 k w' (bytes_ok_app_r _ _ Hw) H')
      as (pre1 & -> & _ & Herr1).
    exists (pre ++ pre1). split; [rewrite app_assoc; reflexivity|].
    split; [destruct pre; [tauto|discriminate]|].
    intros Hk. apply terminal_error_app. right. exact (Herr1 Hk). }
  destruct (Z.ltb_spec key 0).
  { injection H as <- <-. exists pre. split; [reflexivity|]. split; [exact Hne|exact Herr]. }
  destruct ((48 <=? key) && (key <=? 57)).
  { destruct (int_ok _) as [p'|]; [|discriminate H]. exact (Hrec _ _ H). }
  destruct (key =? 59); [exact (Hrec _ _ H)|].
  injection H as <- <-. exists pre. split; [reflexivity|]. split; [exact Hne|].
  intros Hk. pose proof (key_of_nonneg (key mod 256) (if p =? 0 then ps else ps ++ [p])) as Hn.
  unfold key_of in Hn. lia.
Qed.

(** X25. [Keyboard::waitForKey] consumes a non-empty prefix of the
    results of the system calls, and a negative result is never a key: it is
    [-ETIMEDOUT] after a poll that found nothing, or the negative result of
    a [poll] or [read] of that prefix. *)
Theorem waitForKey_negative_is_terminal_error (t : Z) (w : list Sys) (k : Z) (w' : list Sys) :
  bytes_ok w ->
  waitForKey t w = Some (k, w') ->
  exists pre, w = pre ++ w' /\ pre <> [] /\ (k < 0 -> terminal_error k pre).
Proof.
  intros Hw H. unfold waitForKey in H.
  destruct (pollOnce t w) as [[key w1]|] eqn:Ep; [|discriminate H].
  cbn [mbind option_bind fst snd] in H.
  destruct (pollOnce_inv _ _ _ _ Hw Ep) as (pre & -> & Hne & Herr & Hpos).
  destruct (negb (key =? KEY_ESC_SEQ) || (key <? 0)).
  { injection H as <- <-. exists pre. split; [reflexivity|]. split; [exact Hne|exact Herr]. }
  pose proof (bytes_ok_app_r _ _ Hw) as Hw1.
  destruct (pollOnce (-1) w1) as [[key2 w2]|] eqn:Ep2; [|discriminate H].
  cbn [mbind option_bind fst snd] in H.
  destruct (pollOnce_inv _ _ _ _ Hw1 Ep2) as (pre2 & -> & Hne2 & Herr2 & Hpos2).
  assert (Hne12 : pre ++ pre2 <> []) by (destruct pre; [tauto|discriminate]).
  destruct (Z.ltb_spec key2 0).
  { injection H as <- <-. exists (pre ++ pre2). split; [rewrite app_assoc; reflexivity|].
    split; [exact Hne12|]. intros Hk. apply terminal_error_app. right. exact (Herr2 Hk). }
  destruct ((key2 =? 91) || (key2 =? 79)).
  - destruct (parseEsc_loop_inv _ _ _ _ _ _ (bytes_ok_app_r _ _ Hw1) H)
      as (pre3 & -> & _ & Herr3).
    exists ((pre ++ pre2) ++ pre3). split; [rewrite <- !app_assoc; reflexivity|].
    split; [destruct (pre ++ pre2); [tauto|discriminate]|].
    intros Hk. apply terminal_error_app. right. exact (Herr3 Hk).
  - injection H as <- <-. exists (pre ++ pre2). split; [rewrite app_assoc; reflexivity|].
    split; [exact Hne12|]. unfold MOD_ALT. lia.
Qed.

Lemma waitForKey_negative_is_terminal_error_witness :
  exists pre, [SysPoll 1; SysRead (-5) 0; SysPoll 1] = pre ++ [SysPoll 1] /\ pre <> [] /\
    (-5 < 0 -> terminal_error (-5) pre).
Proof.
  apply (waitForKey_negative_is_terminal_error 100 [SysPoll 1; SysRead (-5) 0; SysPoll 1]).
  - repeat constructor; lia.
  - reflexivity.
Defined.

(** ** The contracts of [blend] and [invalidate(start, end)] *)

(** X26. [Surface::blend] between two surfaces whose buffers have
    the size of their bounds, when the source crop clipped to the source and
    its image at [pos] clipped to the destination are both valid: it returns
    0; every destination cell outside the destination crop keeps its value;
    every cell inside it takes the value of the source cell at the same
    offset from the corner of the source crop, unless that source cell is
    transparent, in which case the destination cell keeps its value.  The
    destination's buffer keeps its length, its dirty rectangle contains the
    destination crop, and no other surface changes. *)
Theorem blend_copies_opaque_cells (this other : ptr) (h : heap) (t o : Surface)
    (W H w hh : Z) (src_crop : Rect) (pos : Point) :
  let s_crop := intersect (mBounds o) src_crop in
  let d_crop := intersect (mBounds t) (move s_crop pos) in
  this <> other -> h !! this = Some t -> h !! other = Some o ->
  sized W H t -> sized w hh o -> small_point pos ->
  valid s_crop = true -> valid d_crop = true ->
  exists d',
    blend this other src_crop pos h
      = Some (0, <[this := invalidate_rect d_crop (set_mData d' t)]> h) /\
    length d' = length (mData t) /\
    covers (mDirty (invalidate_rect d_crop (set_mData d' t))) d_crop /\
    forall cx cy, 0 <= cx < W -> 0 <= cy < H ->
      (insideb d_crop (mkPoint cx cy) = false ->
         cell_at W d' cx cy = cell_at W (mData t) cx cy) /\
      (insideb d_crop (mkPoint cx cy) = true ->
         exists ch,
           cell_at w (mData o) (x (top s_crop) + (cx - x (top d_crop)))
                               (y (top s_crop) + (cy - y (top d_crop))) = Some ch /\
           cell_at W d' cx cy
           = if is_transparent ch then cell_at W (mData t) cx cy else Some ch).
Proof.
  intros s_crop d_crop Hne Ht Ho St So Hpos Hvs Hvd.
  destruct (blend_spec this other h t o W H w hh src_crop pos s_crop d_crop
              Hne Ht Ho St So Hpos eq_refl eq_refl Hvs Hvd) as (d' & Hb & Hl & Hcell).
  exists d'. split; [exact Hb|]. split; [exact Hl|]. split.
  { pose proof (proj1 (invalidate_rect_grows d_crop (set_mData d' t))) as Hg.
    replace (intersect (mBounds (set_mData d' t)) d_crop) with d_crop in Hg; [exact Hg|].
    symmetry. apply intersect_enclosed. unfold d_crop. apply intersect_enclosed_l. }
  intros cx cy Hcx Hcy. specialize (Hcell cx cy Hcx Hcy). split.
  - intros Hin. rewrite Hin in Hcell. exact Hcell.
  - intros Hin. rewrite Hin in Hcell.
    destruct (cell_at w (mData o) _ _) as [ch|] eqn:Ec.
    + exists ch. split; [reflexivity|exact Hcell].
    + exfalso.
      assert (Hsome : is_Some (cell_at W d' cx cy)).
      { apply lookup_lt_is_Some. rewrite Hl. destruct St as (HW & HH & _ & Hlen).
        rewrite Hlen. unfold cell_at. nia. }
      rewrite Hcell in Hsome. destruct Hsome as [? Hs]. discriminate Hs.
Qed.

Lemma blend_copies_opaque_cells_witness :
  exists d', blend 1 0 (Rect4 0 0 2 2) (mkPoint 0 0) glass_heap
    = Some (0, <[1%nat := invalidate_rect (Rect4 0 0 2 2)
                            (set_mData d' (default Surface0 (glass_heap !! 1%nat)))]>
                 glass_heap) /\
    cell_at 2 d' 1 1 = Some glyph_b.
Proof.
  destruct (blend_copies_opaque_cells 1 0 glass_heap
              (default Surface0 (glass_heap !! 1%nat))
              (default Surface0 (glass_heap !! 0%nat)) 2 2 3 3 (Rect4 0 0 2 2) (mkPoint 0 0))
    as (d' & Hb & _ & _ & Hcell).
  - discriminate.
  - reflexivity.
  - reflexivity.
  - unfold sized. simpl. repeat split; lia.
  - unfold sized. simpl. repeat split; lia.
  - unfold small_point, small. simpl. lia.
  - reflexivity.
  - reflexivity.
  - exists d'. split; [exact Hb|].
    destruct (proj2 (Hcell 1 1 ltac:(lia) ltac:(lia)) eq_refl) as (ch & Hs & Hd).
    vm_compute in Hs. injection Hs as <-. exact Hd.
Defined.

(** X27. [invalidate(start, end)] with [0 <= start < end <= size()]
    on a surface of positive width: the call is defined, leaves buffer and
    bounds as they are, and the dirty rectangle afterwards is valid, contains
    the cell of every index from [start] up to [end - 1], contains the
    previous dirty rectangle if that was valid, and lies within the bounds if
    the previous one did. *)
Theorem invalidate_range_marks_cells (W H : Z) (s : Surface) (start end_ : Z) :
  sized W H s -> 0 < W -> 0 <= start < end_ -> end_ <= W * H ->
  exists s',
    invalidate_range start end_ s = Some s' /\
    mData s' = mData s /\ mBounds s' = mBounds s /\
    valid (mDirty s') = true /\
    (dirty_in_bounds s -> covers (mBounds s) (mDirty s')) /\
    (forall i, start <= i < end_ -> inside (mDirty s') (mkPoint (i mod W) (i / W))) /\
    (valid (mDirty s) = true -> covers (mDirty s') (mDirty s)).
Proof.
  intros (HW & HH & Hb & Hlen) HW0 Hse He.
  destruct (range_rect_covers W H start end_ ltac:(lia) HH Hse He)
    as (r & Hr & Hv & Henc & Hin).
  exists (invalidate_rect r s).
  split; [unfold invalidate_range; rewrite Hb, Hr; reflexivity|].
  split; [apply invalidate_rect_mData|].
  split; [apply invalidate_rect_mBounds|].
  assert (Hclip : intersect (mBounds s) r = r).
  { rewrite Hb. apply intersect_enclosed. exact Henc. }
  assert (Hcov : covers (mDirty (invalidate_rect r s)) r).
  { pose proof (proj1 (invalidate_rect_grows r s)) as Hg. rewrite Hclip in Hg. exact Hg. }
  assert (Hval : valid (mDirty (invalidate_rect r s)) = true).
  { rewrite invalidate_rect_mDirty, Hclip. destruct (valid (mDirty s)); [|exact Hv].
    apply boundingRect_valid_r. exact Hv. }
  split; [exact Hval|]. split.
  { intros Hd. pose proof (invalidate_rect_dirty_in_bounds r s Hd) as Hd'.
    rewrite <- (invalidate_rect_mBounds r s). apply Hd'. exact Hval. }
  split; [intros i Hi; apply Hcov; apply Hin; exact Hi|].
  apply (invalidate_rect_grows r s).
Qed.

Lemma invalidate_range_marks_cells_witness :
  exists s', invalidate_range 4 11
               (mkSurface (Rect4 0 0 3 4) Rect0 (mkPoint 0 0) true None
                  (replicate 12 blank) []) = Some s' /\
    inside (mDirty s') (mkPoint (7 mod 3) (7 / 3)).
Proof.
  destruct (invalidate_range_marks_cells 3 4
              (mkSurface (Rect4 0 0 3 4) Rect0 (mkPoint 0 0) true None
                 (replicate 12 blank) []) 4 11)
    as (s' & Hs & _ & _ & _ & _ & Hin & _).
  - unfold sized. simpl. repeat split; lia.
  - lia.
  - lia.
  - lia.
  - exists s'. split; [exact Hs|]. apply Hin. lia.
Defined.

(** ** Showing a layer, then rendering *)

(** The first loop of [render] folds the dirty rectangle of every visible
    dirty layer into the parent's. *)
Lemma collect_loop_covers_child P C : forall kids (g g1 : heap) t sc,
  for_each kids (collect_dirty P) g = Some g1 -> g !! P = Some t -> g !! C = Some sc ->
  P <> C -> C ∈ kids -> mVisible sc = true -> valid (mDirty sc) = true ->
  valid (intersect (mBounds t) (to_parent (mDirty sc) (mPos sc))) = true ->
  exists t1, g1 !! P = Some t1 /\ valid (mDirty t1) = true /\
    covers (mDirty t1) (intersect (mBounds t) (to_parent (mDirty sc) (mPos sc))).
Proof.
  induction kids as [|c kids IH]; simpl; intros g g1 t sc H HP HC Hne Hin Hvis Hvd Hvi.
  - inversion Hin.
  - destruct (collect_dirty P c g) as [g0|] eqn:E; [|discriminate H].
    destruct (decide (c = C)) as [->|HcC].
    + unfold collect_dirty in E. rewrite HC in E. simpl in E. rewrite Hvis, Hvd in E.
      simpl in E. rewrite (update_lookup _ _ _ _ HP) in E. some_inv E.
      set (r := to_parent (mDirty sc) (mPos sc)) in *.
      assert (Hv0 : valid (mDirty (invalidate_rect r t)) = true).
      { rewrite invalidate_rect_mDirty. destruct (valid (mDirty t)); [|exact Hvi].
        apply boundingRect_valid_r. exact Hvi. }
      destruct (collect_loop_grows P _ _ _ _ H (heap_insert_lookup_eq _ _ _ _ HP) Hv0)
        as (t1 & Ht1 & Hv1 & Hc1).
      exists t1. split; [exact Ht1|]. split; [exact Hv1|].
      eapply covers_trans; [exact Hc1|]. apply (invalidate_rect_grows r t).
    + apply elem_of_cons in Hin. destruct Hin as [Hin|Hin]; [congruence|].
      unfold collect_dirty in E. bind_inv E.
      destruct (mVisible s && valid (mDirty s)).
      * rewrite (update_lookup _ _ _ _ HP) in E. some_inv E.
        destruct (IH _ _ (invalidate_rect (to_parent (mDirty s) (mPos s)) t) sc H) as
          (t1 & Ht1 & Hv1 & Hc1); try assumption.
        { apply (heap_insert_lookup_eq _ _ _ _ HP). }
        { rewrite heap_insert_lookup_ne by congruence. exact HC. }
        { rewrite invalidate_rect_mBounds. exact Hvi. }
        exists t1. rewrite invalidate_rect_mBounds in Hc1. auto.
      * some_inv E. eapply IH; eassumption.
Qed.

(** X28. Showing a layer and rendering the root paints it: the
    hook's rectangle contains the part of the layer's footprint within the
    root's bounds, every cell inside that rectangle shows what the layers,
    the shown one among them, paint over blank, cells outside it keep their
    value, and the layer is visible with its buffer unchanged. *)
Theorem show_then_render_paints (fuel : nat) (P C : ptr) (h : heap) (sp sc : Surface)
    (W H : Z) :
  P <> C -> h !! P = Some sp -> h !! C = Some sc ->
  sized W H sp -> mParent sp = None ->
  C ∈ layers (mLayerMap sp) -> P ∉ layers (mLayerMap sp) ->
  (forall c, c ∈ layers (mLayerMap sp) -> layer_ready h c) ->
  dirty_in_bounds sp ->
  valid (intersect (mBounds sp) (bounds sc)) = true ->
  exists h1 h2 d' D,
    show C h = Some h1 /\
    render (S fuel) P h1 = Some (h2, [mkHook P D]) /\
    covers D (intersect (mBounds sp) (bounds sc)) /\ covers (mBounds sp) D /\
    h2 !! P = Some (set_mDirty Rect0 (set_mData d' sp)) /\
    (exists sc2, h2 !! C = Some sc2 /\ mVisible sc2 = true /\ mData sc2 = mData sc) /\
    forall cx cy, 0 <= cx < W -> 0 <= cy < H ->
      cell_at W d' cx cy =
      if insideb D (mkPoint cx cy)
      then paint h1 (layers (mLayerMap sp)) cx cy (Some blank)
      else cell_at W (mData sp) cx cy.
Proof.
  intros Hne HP HC Sp Hroot HCin Hnin Hready Hdib Hfoot.
  set (sc1 := set_mVisible true (invalidate sc)).
  set (h1 := <[C := sc1]> (<[C := invalidate sc]> h)).
  assert (Hshow : show C h = Some h1).
  { unfold show. rewrite (update_lookup _ _ _ _ HC). simpl.
    erewrite update_lookup by (apply (heap_insert_lookup_eq _ _ _ _ HC)).
    reflexivity. }
  assert (HP1 : h1 !! P = Some sp).
  { unfold h1. rewrite !heap_insert_lookup_ne by congruence. exact HP. }
  assert (HC1 : h1 !! C = Some sc1).
  { unfold h1. apply heap_insert_lookup_eq with (s0 := invalidate sc).
    apply (heap_insert_lookup_eq _ _ _ _ HC). }
  assert (Hoth1 : forall q, q <> C -> h1 !! q = h !! q).
  { intros q H1. unfold h1. rewrite !heap_insert_lookup_ne by congruence. reflexivity. }
  destruct (Hready C HCin) as (sc0 & w & hh & Hsc0 & S0 & Hpx & Hpy).
  rewrite HC in Hsc0. injection Hsc0 as <-.
  assert (Hready1 : forall c, c ∈ layers (mLayerMap sp) -> layer_ready h1 c).
  { intros c Hc. destruct (decide (c = C)) as [->|HcC].
    - exists sc1, w, hh. split; [exact HC1|]. split; [exact S0|]. split; assumption.
    - destruct (Hready c Hc) as (sc0 & w0 & hh0 & Hsc0 & S00 & Hpx0 & Hpy0).
      exists sc0, w0, hh0. rewrite Hoth1 by exact HcC. auto. }
  assert (Ebnd : bounds sc = Rect4 (x (mPos sc)) (y (mPos sc))
                               (x (mPos sc) + w) (y (mPos sc) + hh)).
  { apply bounds_sized; [exact S0|destruct (mPos sc); reflexivity|assumption|assumption]. }
  assert (Hvb : valid (mBounds sc) = true).
  { destruct S0 as (Hw & Hh & Hb & _). rewrite Hb. apply valid_spec. simpl.
    rewrite Ebnd in Hfoot. apply valid_spec in Hfoot. unfold intersect in Hfoot.
    simpl in Hfoot. lia. }
  assert (Etp : to_parent (mDirty sc1) (mPos sc1) = bounds sc).
  { rewrite Ebnd. destruct S0 as (Hw & Hh & Hb & _). unfold sc1. simpl. rewrite Hb.
    destruct (mPos sc) as [px py]. simpl in *. apply to_parent_origin; assumption. }
  destruct (collect_loop_total P (layers (mLayerMap sp)) h1) as [g1 Hcol].
  { eauto. }
  { intros c Hc. destruct (Hready1 c Hc) as (sc0 & _ & _ & Hsc0 & _). eauto. }
  destruct (collect_loop_covers_child P C _ _ _ sp sc1 Hcol HP1 HC1 Hne HCin)
    as (t1 & Ht1 & Hvt1 & Hcov1).
  { reflexivity. }
  { exact Hvb. }
  { rewrite Etp. exact Hfoot. }
  rewrite Etp in Hcov1.
  assert (Hacc : accumulated_dirty P h1 = Some (mDirty t1)).
  { unfold accumulated_dirty. rewrite HP1. simpl. rewrite Hcol. simpl.
    rewrite Ht1. reflexivity. }
  destruct (collect_loop_in_bounds P _ _ _ _ _ Hcol HP1 Ht1 Hdib) as [Hd1 Hb1].
  assert (HcovD : covers (mBounds sp) (mDirty t1)).
  { rewrite <- Hb1. apply Hd1. exact Hvt1. }
  assert (HencD : encloses (Rect4 0 0 W H) (mDirty t1)).
  { destruct Sp as (_ & _ & Hb & _). rewrite <- Hb. apply covers_encloses; assumption. }
  assert (Hmap1 : mLayerMap sp <> []).
  { intros E. rewrite E in HCin. inversion HCin. }
  destruct (render_root_layers fuel P h1 sp W H (mDirty t1) HP1 Sp Hroot Hmap1 Hnin
              Hready1 Hacc Hvt1 HencD) as (h2 & d' & Hr & HP2 & _ & Hoth2 & Hcell).
  exists h1, h2, d', (mDirty t1).
  split; [exact Hshow|]. split; [exact Hr|]. split; [exact Hcov1|].
  split; [exact HcovD|]. split; [exact HP2|]. split.
  { destruct (Hoth2 C sc1 ltac:(congruence) HC1) as (sc2 & Hsc2 & (Hv2 & _ & _ & Hd2) & _).
    exists sc2. split; [exact Hsc2|]. split; [rewrite Hv2|rewrite Hd2]; reflexivity. }
  exact Hcell.
Qed.

Lemma hidden_heap_ready c :
  c ∈ layers [(0, [1%nat])] -> layer_ready hidden_child_heap c.
Proof.
  intros Hin. simpl in Hin. apply list_elem_of_singleton in Hin. subst c.
  exists (default Surface0 (hidden_child_heap !! 1%nat)), 2, 2.
  split; [reflexivity|]. split; [|simpl; lia].
  unfold sized. simpl. repeat split; lia.
Qed.

Lemma show_then_render_paints_witness :
  exists h1 h2 D, show 1 hidden_child_heap = Some h1 /\
    render 1 0 h1 = Some (h2, [mkHook 0 D]) /\
    covers D (Rect4 1 1 3 3).
Proof.
  destruct (show_then_render_paints 0 0 1 hidden_child_heap
              (default Surface0 (hidden_child_heap !! 0%nat))
              (default Surface0 (hidden_child_heap !! 1%nat)) 10 10)
    as (h1 & h2 & d' & D & Hh & Hr & Hc & _).
  - discriminate.
  - reflexivity.
  - reflexivity.
  - unfold sized. simpl. repeat split; lia.
  - reflexivity.
  - simpl. apply list_elem_of_singleton. reflexivity.
  - intros Hin. simpl in Hin. apply list_elem_of_singleton in Hin. discriminate Hin.
  - exact hidden_heap_ready.
  - intros Hv. vm_compute in Hv. discriminate Hv.
  - reflexivity.
  - exists h1, h2, D. split; [exact Hh|]. split; [exact Hr|exact Hc].
Defined.

(** ** Clearing the screen, then rendering *)

(** The rows of a buffer, one after the other, are the buffer. *)
Lemma rows_concat {A} (f : Char -> A) W (buf : list Char) : forall n : nat,
  0 <= W ->
  concat (map (fun yy => map f (row_cells W buf 0 W yy)) (seqZ 0 (Z.of_nat n)))
  = map f (take (n * Z.to_nat W) buf).
Proof.
  intros n HW. induction n as [|n IH]; [reflexivity|].
  rewrite seqZ_S, map_app, concat_app, IH. simpl. rewrite app_nil_r.
  rewrite <- map_app. f_equal. unfold row_cells.
  replace (Z.to_nat (W - 0)) with (Z.to_nat W) by lia.
  replace (Z.to_nat ((0 + Z.of_nat n) * W + 0)) with (n * Z.to_nat W)%nat by nia.
  rewrite take_take_drop. f_equal. lia.
Qed.

Lemma paint_ext (g g' : heap) cx cy : forall kids init,
  (forall c, c ∈ kids -> layer_cell g' c cx cy = layer_cell g c cx cy) ->
  paint g' kids cx cy init = paint g kids cx cy init.
Proof.
  induction kids as [|c kids IH]; intros init Hext; [reflexivity|].
  rewrite !paint_cons, (Hext c) by left. apply IH.
  intros c0 Hc0. apply Hext. right. exact Hc0.
Qed.

(** With the whole surface dirty, the first loop of [render] changes
    nothing. *)
Lemma collect_loop_whole P : forall kids (g : heap) t,
  g !! P = Some t -> mDirty t = mBounds t -> valid (mBounds t) = true ->
  (forall c, c ∈ kids -> is_Some (g !! c)) ->
  for_each kids (collect_dirty P) g = Some g.
Proof.
  induction kids as [|c kids IH]; intros g t HP Hd Hv Hk; [reflexivity|].
  simpl. destruct (Hk c ltac:(left)) as [sc Hsc].
  assert (Hstep : collect_dirty P c g = Some g).
  { unfold collect_dirty. rewrite Hsc. simpl.
    destruct (mVisible sc && valid (mDirty sc)); [|reflexivity].
    rewrite (update_lookup _ _ _ _ HP).
    rewrite invalidate_rect_absorbed.
    - rewrite (heap_insert_same _ _ _ HP). reflexivity.
    - rewrite Hd. exact Hv.
    - rewrite Hd. apply intersect_enclosed_l. }
  rewrite Hstep. apply (IH g t HP Hd Hv).
  intros c0 Hc0. apply Hk. right. exact Hc0.
Qed.

(** X29. After [Screen::clear], the next [render] of the screen
    repaints all of it: the hook receives the whole bounds; with layers every
    cell of the screen's buffer is what the layers paint over blank, without
    layers the buffer is unchanged; and [renderDone] on that rectangle and
    buffer writes the character of every cell of the buffer, in order. *)
Theorem clear_then_render_repaints (fuel : nat) (sc : Screen) (h : heap) (sp : Surface)
    (W H : Z) :
  h !! scr_base sc = Some sp -> sized W H sp -> 0 < W -> 0 < H ->
  scr_mBounds sc = Rect4 0 0 W H -> mParent sp = None ->
  scr_base sc ∉ layers (mLayerMap sp) ->
  (forall c, c ∈ layers (mLayerMap sp) -> layer_ready h c) ->
  exists h1 out1 h2 d' sc' out,
    Screen_clear sc h = Some (h1, out1) /\
    render (S fuel) (scr_base sc) h1
      = Some (h2, [mkHook (scr_base sc) (Rect4 0 0 W H)]) /\
    h2 !! scr_base sc = Some (set_mDirty Rect0 (set_mData d' sp)) /\
    (mLayerMap sp = [] -> d' = mData sp) /\
    (mLayerMap sp <> [] ->
       forall cx cy, 0 <= cx < W -> 0 <= cy < H ->
         cell_at W d' cx cy = paint h (layers (mLayerMap sp)) cx cy (Some blank)) /\
    Screen_renderDone (Rect4 0 0 W H) d' sc = Some (sc', out ++ [OutFlush]) /\
    glyphs out = map shown d'.
Proof.
  intros HP Sp HW0 HH0 Hscr Hroot Hnin Hready.
  set (P := scr_base sc) in *.
  set (sp1 := invalidate sp).
  set (h1 := <[P := sp1]> h).
  assert (Hclear : Screen_clear sc h = Some (h1, [OutStr (String.append (esc "[0m"%string)
                       (String.append (esc "[2J"%string) (esc "[1;1H"%string)));
             OutFlush])).
  { unfold Screen_clear. fold P. rewrite (update_lookup _ _ _ _ HP). reflexivity. }
  assert (HP1 : h1 !! P = Some sp1) by apply (heap_insert_lookup_eq _ _ _ _ HP).
  assert (Hoth1 : forall q, q <> P -> h1 !! q = h !! q).
  { intros q Hq. unfold h1. rewrite heap_insert_lookup_ne by congruence. reflexivity. }
  destruct Sp as (HW & HH & Hb & Hlen).
  assert (Sp1 : sized W H sp1).
  { split; [exact HW|]. split; [exact HH|]. split; assumption. }
  assert (Hvb : valid (mBounds sp1) = true).
  { unfold sp1. simpl. rewrite Hb. apply valid_spec. simpl. lia. }
  assert (Hready1 : forall c, c ∈ layers (mLayerMap sp) -> layer_ready h1 c).
  { intros c Hc. destruct (Hready c Hc) as (sc0 & w0 & hh0 & Hsc0 & S00 & Hpx0 & Hpy0).
    exists sc0, w0, hh0. rewrite Hoth1 by (intros ->; tauto). auto. }
  assert (Hcol : for_each (layers (mLayerMap sp)) (collect_dirty P) h1 = Some h1).
  { apply (collect_loop_whole P _ h1 sp1 HP1); [reflexivity|exact Hvb|].
    intros c Hc. destruct (Hready1 c Hc) as (sc0 & _ & _ & Hsc0 & _). eauto. }
  assert (Hacc : accumulated_dirty P h1 = Some (Rect4 0 0 W H)).
  { unfold accumulated_dirty. rewrite HP1. simpl. rewrite Hcol. simpl. rewrite HP1.
    simpl. rewrite Hb. reflexivity. }
  assert (Hvd : valid (Rect4 0 0 W H) = true) by (apply valid_spec; simpl; lia).
  assert (Hdone : forall d', length d' = length (mData sp) ->
            exists sc' out,
              Screen_renderDone (Rect4 0 0 W H) d' sc = Some (sc', out ++ [OutFlush]) /\
              glyphs out = map shown d').
  { intros d' Hl. eexists _, _. split.
    - apply (renderDone_rows W H); try assumption; try lia.
    - rewrite draw_rows_glyphs. rewrite Z.sub_0_r.
      replace H with (Z.of_nat (Z.to_nat H)) at 1 by lia.
      rewrite rows_concat by lia. rewrite take_ge; [reflexivity|].
      rewrite Hl, Hlen. nia. }
  destruct (mLayerMap sp) as [|e m] eqn:Em.
  - pose proof (render_root_no_layers fuel P h1 sp1 HP1 Em Hroot) as Hr.
    unfold sp1 at 1 in Hr. simpl in Hr. rewrite Hb in Hr. specialize (Hr Hvd).
    destruct (Hdone (mData sp) eq_refl) as (sc' & out & Hd1 & Hd2).
    eexists h1, _, _, (mData sp), sc', out.
    split; [exact Hclear|]. split; [exact Hr|]. split.
    { rewrite (heap_insert_lookup_eq _ _ _ _ HP1). reflexivity. }
    split; [reflexivity|]. split; [intros Hne; exfalso; apply Hne; reflexivity|].
    split; assumption.
  - assert (Hmap : mLayerMap sp1 <> []) by (unfold sp1; simpl; rewrite Em; discriminate).
    destruct (render_root_layers fuel P h1 sp1 W H (Rect4 0 0 W H) HP1 Sp1 Hroot Hmap)
      as (h2 & d' & Hr & HP2 & Hl & _ & Hcell).
    { unfold sp1. simpl. rewrite Em. exact Hnin. }
    { unfold sp1. simpl. rewrite Em. exact Hready1. }
    { exact Hacc. }
    { exact Hvd. }
    { unfold encloses. simpl. lia. }
    destruct (Hdone d' Hl) as (sc' & out & Hd1 & Hd2).
    exists h1, [OutStr (String.append (esc "[0m"%string)
                       (String.append (esc "[2J"%string) (esc "[1;1H"%string)));
             OutFlush], h2, d', sc', out.
    split; [exact Hclear|]. split; [exact Hr|]. split.
    { rewrite HP2. reflexivity. }
    split; [intros E; discriminate E|]. split; [|split; assumption].
    intros _ cx cy Hcx Hcy. rewrite (Hcell cx cy Hcx Hcy).
    assert (Hin : insideb (Rect4 0 0 W H) (mkPoint cx cy) = true).
    { unfold insideb. simpl.
      destruct (Z.leb_spec 0 cx), (Z.ltb_spec cx W), (Z.leb_spec 0 cy), (Z.ltb_spec cy H);
        try reflexivity; lia. }
    rewrite Hin. unfold sp1. simpl. rewrite Em. apply paint_ext.
    intros c Hc. unfold layer_cell. rewrite Hoth1; [reflexivity|].
    intros ->. exact (Hnin Hc).
Qed.

Lemma settled_heap_layers_ready c :
  c ∈ layers [(0, [1%nat])] -> layer_ready settled_heap c.
Proof.
  intros Hin. simpl in Hin. apply list_elem_of_singleton in Hin. subst c.
  exists (default Surface0 (settled_heap !! 1%nat)), 2, 2.
  split; [reflexivity|]. split; [|simpl; lia].
  unfold sized. simpl. repeat split; lia.
Qed.

Lemma clear_then_render_repaints_witness :
  exists h1 out1 h2,
    Screen_clear (mkScreen 0 (Rect4 0 0 10 10) blank false (-1)) settled_heap
    = Some (h1, out1) /\
    render 1 0 h1 = Some (h2, [mkHook 0 (Rect4 0 0 10 10)]).
Proof.
  destruct (clear_then_render_repaints 0 (mkScreen 0 (Rect4 0 0 10 10) blank false (-1))
              settled_heap (default Surface0 (settled_heap !! 0%nat)) 10 10)
    as (h1 & out1 & h2 & _ & _ & _ & Hc & Hr & _).
  - reflexivity.
  - unfold sized. simpl. repeat split; lia.
  - lia.
  - lia.
  - reflexivity.
  - reflexivity.
  - intros Hin. simpl in Hin. apply list_elem_of_singleton in Hin. discriminate Hin.
  - exact settled_heap_layers_ready.
  - exists h1, out1, h2. split; [exact Hc|exact Hr].
Defined.

(** ** Moving a layer, then rendering *)

(** [blend] writes to the destination alone. *)
Lemma blend_others this other src_crop pos (g g' : heap) rc :
  blend this other src_crop pos g = Some (rc, g') ->
  forall q, q <> this -> g' !! q = g !! q.
Proof.
  set (R := fun a b : heap => forall q, q <> this -> b !! q = a !! q).
  assert (Rrefl : forall a, R a a) by (intros a q _; reflexivity).
  assert (Rtrans : forall a b c, R a b -> R b c -> R a c).
  { intros a b c Hab Hbc q Hq. rewrite (Hbc q Hq). apply Hab, Hq. }
  unfold blend. intros H. bind_inv H. bind_inv H.
  destruct (negb _ || negb _).
  - injection H as _ <-. apply Rrefl.
  - bind_inv H. bind_inv H. injection H as _ <-.
    apply (Rtrans _ l).
    + unfold for_ in E1. apply (loop_rel R _ Rrefl Rtrans) in E1; [exact E1|].
      intros yy a b Hin. unfold for_ in Hin.
      apply (loop_rel R _ Rrefl Rtrans) in Hin; [exact Hin|].
      intros xx a0 b0 Hc. unfold blend_cell in Hc. bind_inv Hc.
      destruct (negb (is_transparent c)); [|injection Hc as <-; apply Rrefl].
      unfold write_cell in Hc. bind_inv Hc. bind_inv Hc. injection Hc as <-.
      intros q Hq. apply list_lookup_insert_ne. congruence.
    + apply update_Some in E2 as (s1 & _ & ->).
      intros q Hq. apply list_lookup_insert_ne. congruence.
Qed.

(** A step of the second loop of [render] leaves every surface but the
    parent and the layer as it is, and the layer with a reset dirty
    rectangle if it is visible and not empty. *)
Lemma blend_layer_exact P c (g g' : heap) sc :
  blend_layer P c g = Some g' -> P <> c -> g !! c = Some sc ->
  g' !! c = Some (if mVisible sc && valid (mBounds sc) then set_mDirty Rect0 sc else sc) /\
  forall q, q <> P -> q <> c -> g' !! q = g !! q.
Proof.
  unfold blend_layer. intros H Hne Hc. rewrite Hc in H. simpl in H.
  destruct (mVisible sc && valid (mBounds sc)).
  - bind_inv H. bind_inv H. destruct p as [rc g1]. simpl in H.
    pose proof (blend_others _ _ _ _ _ _ _ E0) as Hoth.
    apply update_Some in H as (s1 & Hs1 & ->).
    rewrite (Hoth c) in Hs1 by congruence. rewrite Hc in Hs1. injection Hs1 as <-.
    split.
    + apply list_lookup_insert_eq. apply lookup_lt_is_Some.
      rewrite (Hoth c) by congruence. eauto.
    + intros q Hq Hqc. rewrite list_lookup_insert_ne by congruence. apply Hoth, Hq.
  - injection H as <-. split; [exact Hc|]. reflexivity.
Qed.

Lemma blend_loop_exact P : forall kids (g g' : heap),
  for_each kids (blend_layer P) g = Some g' -> P ∉ kids ->
  forall c sc, c <> P -> g !! c = Some sc ->
    g' !! c = Some (if decide (c ∈ kids)
                    then if mVisible sc && valid (mBounds sc) then set_mDirty Rect0 sc else sc
                    else sc).
Proof.
  induction kids as [|k kids IH]; simpl; intros g g' H Hnin c sc Hc Hsc.
  - injection H as <-. exact Hsc.
  - destruct (blend_layer P k g) as [g1|] eqn:Hk; [|discriminate H].
    assert (HPk : P <> k) by (intros ->; apply Hnin; left).
    assert (Hnin' : P ∉ kids) by (intros Hin; apply Hnin; right; exact Hin).
    destruct (decide (c = k)) as [->|Hck].
    + destruct (blend_layer_exact P k g g1 sc Hk HPk Hsc) as [Hself _].
      rewrite (IH g1 g' H Hnin' k _ Hc Hself).
      destruct (decide (k ∈ k :: kids)) as [_|Hn]; [|exfalso; apply Hn; left].
      destruct (mVisible sc && valid (mBounds sc)) eqn:Ev.
      * change (mVisible (set_mDirty Rect0 sc)) with (mVisible sc).
        change (mBounds (set_mDirty Rect0 sc)) with (mBounds sc). rewrite Ev.
        destruct (decide (k ∈ kids)); reflexivity.
      * rewrite Ev. destruct (decide (k ∈ kids)); reflexivity.
    + assert (Hk1 : g1 !! c = Some sc).
      { destruct (lookup_lt_is_Some_2 g k) as [sk Hsk].
        { unfold blend_layer in Hk. destruct (g !! k) eqn:E; [|discriminate Hk].
          eapply lookup_lt_Some, E. }
        destruct (blend_layer_exact P k g g1 sk Hk HPk Hsk) as [_ Hoth].
        rewrite Hoth by assumption. exact Hsc. }
      rewrite (IH g1 g' H Hnin' c sc Hc Hk1).
      destruct (decide (c ∈ kids)) as [Hin|Hni];
        destruct (decide (c ∈ k :: kids)) as [Hin'|Hni']; try reflexivity.
      * exfalso. apply Hni'. right. exact Hin.
      * exfalso. apply elem_of_cons in Hin'. destruct Hin'; tauto.
Qed.

(** [render] on a root leaves a visible, non-empty layer as it was, with a
    reset dirty rectangle. *)
Lemma render_root_resets_layer fuel P (h h' : heap) out sp D c sc :
  render (S fuel) P h = Some (h', out) ->
  h !! P = Some sp -> mParent sp = None -> P ∉ layers (mLayerMap sp) ->
  accumulated_dirty P h = Some D -> valid D = true ->
  c ∈ layers (mLayerMap sp) -> h !! c = Some sc ->
  mVisible sc = true -> valid (mBounds sc) = true ->
  h' !! c = Some (set_mDirty Rect0 sc).
Proof.
  intros Hr HP Hroot Hnin Hacc HvD Hin Hc Hvis Hvb.
  assert (HcP : c <> P) by (intros ->; tauto).
  rewrite render_S in Hr. unfold render_body in Hr. rewrite HP in Hr. simpl in Hr.
  unfold accumulated_dirty in Hacc. rewrite HP in Hacc. simpl in Hacc.
  destruct (for_each (layers (mLayerMap sp)) (collect_dirty P) h) as [g1|] eqn:Hcol;
    [|discriminate Hacc].
  simpl in Hr, Hacc.
  destruct (g1 !! P) as [t1|] eqn:Ht1; [|discriminate Hacc].
  simpl in Hr, Hacc. injection Hacc as Hacc. rewrite Hacc, HvD in Hr. simpl in Hr.
  destruct (collect_loop_shape P _ _ _ _ Hcol HP) as [d Eg1].
  assert (Hc1 : g1 !! c = Some sc).
  { rewrite Eg1. rewrite list_lookup_insert_ne by congruence. exact Hc. }
  pose proof (collect_loop_frame _ _ _ _ Hcol) as F1.
  match type of Hr with
  | (?m ≫= _) = _ => destruct m as [g2|] eqn:Hclr; [|discriminate Hr]
  end.
  simpl in Hr.
  assert (Hc2 : g2 !! c = Some sc /\ frame P g1 g2).
  { destruct (mLayerMap t1).
    - injection Hclr as <-. split; [exact Hc1|apply frame_refl].
    - destruct (on_surface P (clear _) g1) as [[rc gc]|] eqn:Eclr;
        [|discriminate Hclr].
      simpl in Hclr. injection Hclr as <-.
      pose proof (clear_frame _ _ _ _ _ Eclr) as Fc.
      apply on_surface_Some in Eclr as (s & s' & _ & _ & ->).
      split; [|exact Fc]. rewrite list_lookup_insert_ne by congruence. exact Hc1. }
  destruct Hc2 as [Hc2 F2].
  destruct (for_each (layers (mLayerMap sp)) (blend_layer P) g2) as [g3|] eqn:Hbl;
    [|discriminate Hr].
  simpl in Hr.
  pose proof (blend_loop_exact P _ _ _ Hbl Hnin c sc HcP Hc2) as Hc3.
  rewrite decide_True in Hc3 by exact Hin. rewrite Hvis, Hvb in Hc3. simpl in Hc3.
  pose proof (blend_loop_frame _ _ _ _ Hbl) as F3.
  destruct (g3 !! P) as [t3|] eqn:Ht3; [|discriminate Hr]. simpl in Hr.
  pose proof (frame_trans _ _ _ _ (frame_trans _ _ _ _ F1 F2) F3) as [_ F].
  destruct (F P sp t3 HP Ht3) as [(_ & _ & _ & Hpar & _) _].
  rewrite Hpar, Hroot in Hr. simpl in Hr. rewrite Ht3 in Hr. simpl in Hr.
  destruct (update P (set_mDirty Rect0) g3) as [g5|] eqn:Hup; [|discriminate Hr].
  simpl in Hr. injection Hr as <- _.
  apply update_Some in Hup as (s & _ & ->).
  rewrite list_lookup_insert_ne by congruence. exact Hc3.
Qed.

(** The first loop of [render] when one layer alone is visible and dirty:
    its rectangle is invalidated on the parent, once. *)
Lemma collect_loop_single P C r : forall kids (g : heap) t,
  g !! P = Some t -> P ∉ kids -> C <> P ->
  (exists s, g !! C = Some s /\ mVisible s = true /\ valid (mDirty s) = true /\
     to_parent (mDirty s) (mPos s) = r) ->
  (forall c, c ∈ kids -> c <> C ->
     exists s, g !! c = Some s /\ mVisible s && valid (mDirty s) = false) ->
  for_each kids (collect_dirty P) g =
  Some (if decide (C ∈ kids) then <[P := invalidate_rect r t]> g else g).
Proof.
  induction kids as [|c kids IH]; intros g t HP Hnin HCP HC Hoth.
  - simpl. destruct (decide (C ∈ [])) as [Hin|_]; [inversion Hin|reflexivity].
  - assert (Hnin' : P ∉ kids) by (intros Hin; apply Hnin; right; exact Hin).
    assert (HcP : c <> P) by (intros ->; apply Hnin; left).
    simpl. destruct (decide (c = C)) as [->|HcC].
    + destruct HC as (s & Hs & Hvis & Hvd & Hr).
      unfold collect_dirty at 1. rewrite Hs. simpl. rewrite Hvis, Hvd. simpl.
      rewrite (update_lookup _ _ _ _ HP). rewrite Hr.
      rewrite (IH _ (invalidate_rect r t)).
      * rewrite invalidate_rect_twice, list_insert_insert_eq.
        destruct (decide (C ∈ C :: kids)) as [_|Hn]; [|exfalso; apply Hn; left].
        f_equal. destruct (decide (C ∈ kids)); reflexivity.
      * apply (heap_insert_lookup_eq _ _ _ _ HP).
      * exact Hnin'.
      * exact HCP.
      * exists s. rewrite heap_insert_lookup_ne by congruence. auto.
      * intros c Hc HcC. destruct (Hoth c ltac:(right; exact Hc) HcC) as (s' & Hs' & Hv').
        exists s'. rewrite heap_insert_lookup_ne by (intros ->; tauto). auto.
    + destruct (Hoth c ltac:(left) HcC) as (s & Hs & Hv).
      unfold collect_dirty at 1. rewrite Hs. simpl. rewrite Hv.
      rewrite (IH g t HP Hnin' HCP HC).
      * f_equal. destruct (decide (C ∈ kids)) as [Hin|Hni];
          destruct (decide (C ∈ c :: kids)) as [Hin'|Hni']; try reflexivity.
        -- exfalso. apply Hni'. right. exact Hin.
        -- exfalso. apply elem_of_cons in Hin'. destruct Hin'; [congruence|tauto].
      * intros c' Hc' Hc'C. apply Hoth; [right; exact Hc'|exact Hc'C].
Qed.

(** C5 (amended).  A parentless surface [P], wider and taller than one
    cell, with any number of layers, all of them clean and as the compositor
    expects them, and among them the visible, non-empty child [C] at (1, 1).
    Then [move] of [C] to (5, 5) returns 0 and leaves [C] at (5, 5), and a
    following [render] on [P] (or on [C], when [C] has no layers of its own)
    returns and invokes the hook of [P] once, with the bounding rectangle of
    the old and the new footprint clipped to the bounds of [P].  That
    rectangle contains both clipped footprints, and in the buffer of [P] each
    of its cells is redrawn: it becomes what the layers paint over blank,
    [C] painting from its new place only and every other layer as before,
    so the vacated cells no longer show [C]; the cells outside the rectangle
    are untouched.  With [C] the only layer the redrawn cell is the child's
    cell where the child now lies (unless transparent) and blank
    elsewhere. *)
Theorem move_child_then_render (fuel : nat) (P C : ptr) (h : heap) (sp sc : Surface)
    (W H w hh : Z) :
  P <> C ->
  h !! P = Some sp -> h !! C = Some sc ->
  sized W H sp -> sized w hh sc -> 1 < W -> 1 < H -> 0 < w -> 0 < hh ->
  mParent sp = None -> mParent sc = Some P ->
  C ∈ layers (mLayerMap sp) -> P ∉ layers (mLayerMap sp) ->
  (forall c, c ∈ layers (mLayerMap sp) -> layer_ready h c) ->
  (forall c s, c ∈ layers (mLayerMap sp) -> h !! c = Some s -> valid (mDirty s) = false) ->
  mVisible sc = true -> mPos sc = mkPoint 1 1 ->
  valid (mDirty sp) = false ->
  exists h1 h2 d' old new D,
    old = bounds sc /\ old = Rect4 1 1 (1 + w) (1 + hh) /\
    (exists sc1, h1 !! C = Some sc1 /\ mPos sc1 = mkPoint 5 5 /\ new = bounds sc1) /\
    new = Rect4 5 5 (5 + w) (5 + hh) /\
    D = intersect (mBounds sp) (boundingRect old new) /\
    covers D (intersect (mBounds sp) old) /\ covers D (intersect (mBounds sp) new) /\
    move_to C (mkPoint 5 5) h = Some (0, h1) /\
    render (S fuel) P h1 = Some (h2, [mkHook P D]) /\
    (mLayerMap sc = [] ->
     render (S (S fuel)) C h1 = Some (h2, [mkHook P D; mkHook C Rect0])) /\
    h2 !! P = Some (set_mDirty Rect0 (set_mData d' sp)) /\
    (forall cx cy, 0 <= cx < W -> 0 <= cy < H ->
       cell_at W d' cx cy =
       if insideb D (mkPoint cx cy)
       then paint h1 (layers (mLayerMap sp)) cx cy (Some blank)
       else cell_at W (mData sp) cx cy) /\
    (forall cx cy,
       layer_cell h1 C cx cy =
       if insideb new (mkPoint cx cy) then
         match cell_at w (mData sc) (cx - 5) (cy - 5) with
         | Some ch => if is_transparent ch then None else Some ch
         | None => None
         end
       else None) /\
    (forall c cx cy, c <> C -> layer_cell h1 c cx cy = layer_cell h c cx cy) /\
    (layers (mLayerMap sp) = [C] ->
     forall cx cy, 0 <= cx < W -> 0 <= cy < H ->
       cell_at W d' cx cy =
       if insideb D (mkPoint cx cy) then
         if insideb new (mkPoint cx cy) then
           match cell_at w (mData sc) (cx - 5) (cy - 5) with
           | Some ch => if is_transparent ch then Some blank else Some ch
           | None => Some blank
           end
         else Some blank
       else cell_at W (mData sp) cx cy).
Proof.
  intros Hne HP HC Sp Sc HW1 HH1 Hw0 Hh0 HparP HparC HCin Hnin Hready Hclean Hvis Hpos HdP.
  pose proof Sp as (HW & HH & HbP & HlP). pose proof Sc as (Hw & Hh & HbC & HlC).
  assert (Eold : bounds sc = Rect4 1 1 (1 + w) (1 + hh)).
  { apply (bounds_sized w hh); [exact Sc | exact Hpos | lia | lia]. }
  set (sc1 := set_mPos (mkPoint 5 5) (invalidate sc)).
  assert (Ssc1 : sized w hh sc1) by (repeat split; assumption || apply Hw || apply Hh).
  assert (Enew : bounds sc1 = Rect4 5 5 (5 + w) (5 + hh)).
  { apply (bounds_sized w hh); [exact Ssc1 | reflexivity | lia | lia]. }
  set (old := Rect4 1 1 (1 + w) (1 + hh)). set (new := Rect4 5 5 (5 + w) (5 + hh)).
  set (D := intersect (mBounds sp) (boundingRect old new)).
  set (sp1 := invalidate_rect old sp).
  assert (Ssp1 : sized W H sp1) by (apply sized_invalidate_rect, Sp).
  assert (Hmap1 : mLayerMap sp1 = mLayerMap sp).
  { unfold sp1, invalidate_rect. destruct (valid (mDirty sp)); reflexivity. }
  assert (Hpar1 : mParent sp1 = None).
  { rewrite <- HparP. unfold sp1, invalidate_rect. destruct (valid (mDirty sp)); reflexivity. }
  (* the store after [move] *)
  set (h1 := <[C := sc1]> (<[P := sp1]> (<[C := invalidate sc]> h))).
  assert (Hmove : move_to C (mkPoint 5 5) h = Some (0, h1)).
  { unfold move_to, invalidate_in_parent. rewrite HC. simpl. rewrite HparC.
    rewrite (update_lookup _ _ _ _ HC). simpl.
    rewrite (heap_insert_lookup_eq _ _ _ _ HC). simpl.
    assert (HPa : <[C := invalidate sc]> h !! P = Some sp).
    { rewrite heap_insert_lookup_ne by congruence. exact HP. }
    rewrite (update_lookup _ _ _ _ HPa). simpl.
    change (bounds (invalidate sc)) with (bounds sc). rewrite Eold. fold old sp1.
    assert (HCb : <[P := sp1]> (<[C := invalidate sc]> h) !! C = Some (invalidate sc)).
    { rewrite heap_insert_lookup_ne by exact Hne. eapply heap_insert_lookup_eq, HC. }
    rewrite (update_lookup _ _ _ _ HCb). reflexivity. }
  assert (HP1 : h1 !! P = Some sp1).
  { unfold h1. rewrite heap_insert_lookup_ne by congruence.
    eapply heap_insert_lookup_eq. rewrite heap_insert_lookup_ne by congruence. exact HP. }
  assert (HC1 : h1 !! C = Some sc1).
  { unfold h1. eapply heap_insert_lookup_eq.
    rewrite heap_insert_lookup_ne by exact Hne. eapply heap_insert_lookup_eq, HC. }
  assert (Hoth1 : forall q, q <> P -> q <> C -> h1 !! q = h !! q).
  { intros q HqP HqC. unfold h1. rewrite !heap_insert_lookup_ne by congruence. reflexivity. }
  (* the dirty rectangle [render] accumulates *)
  assert (Hd1 : mDirty sp1 = intersect (mBounds sp) old).
  { unfold sp1. rewrite invalidate_rect_mDirty, HdP. reflexivity. }
  assert (HvC1 : valid (mDirty sc1) = true).
  { simpl. rewrite HbC. apply valid_spec. simpl. lia. }
  assert (Etp : to_parent (mDirty sc1) (mPos sc1) = new).
  { change (mDirty sc1) with (mBounds sc). change (mPos sc1) with (mkPoint 5 5).
    rewrite HbC. apply to_parent_origin; lia. }
  assert (ED : mDirty (invalidate_rect new sp1) = D).
  { rewrite invalidate_rect_mDirty, Hd1.
    change (mBounds sp1) with (mBounds (invalidate_rect old sp)).
    rewrite invalidate_rect_mBounds.
    assert (Hv1 : valid (intersect (mBounds sp) old) = true).
    { rewrite HbP. apply valid_spec. unfold old. simpl. lia. }
    rewrite Hv1. unfold D. rewrite HbP. unfold old, new, intersect, boundingRect, Rect4.
    simpl. f_equal; f_equal; lia. }
  assert (HvD : valid D = true).
  { unfold D. rewrite HbP. apply valid_spec. unfold old, new. simpl. lia. }
  assert (HencD : encloses (Rect4 0 0 W H) D).
  { unfold D. rewrite HbP. apply intersect_enclosed_l. }
  assert (Hcol : for_each (layers (mLayerMap sp)) (collect_dirty P) h1 =
                 Some (<[P := invalidate_rect new sp1]> h1)).
  { rewrite (collect_loop_single P C new _ h1 sp1 HP1 Hnin).
    - rewrite decide_True by exact HCin. reflexivity.
    - congruence.
    - exists sc1. repeat split; [exact HC1|exact Hvis|exact HvC1|exact Etp].
    - intros c Hc HcC. destruct (Hready c Hc) as (s & _ & _ & Hs & _).
      exists s. rewrite Hoth1 by (congruence || (intros ->; tauto)).
      split; [exact Hs|]. rewrite (Hclean c s Hc Hs). apply andb_false_r. }
  assert (Hacc : accumulated_dirty P h1 = Some D).
  { unfold accumulated_dirty. rewrite HP1. simpl. rewrite Hmap1, Hcol. simpl.
    rewrite (heap_insert_lookup_eq _ _ _ _ HP1). simpl. rewrite ED. reflexivity. }
  assert (Hready1 : forall c, c ∈ layers (mLayerMap sp1) -> layer_ready h1 c).
  { rewrite Hmap1. intros c Hc. destruct (decide (c = C)) as [->|HcC].
    - exists sc1, w, hh. split; [exact HC1|]. split; [exact Ssc1|]. simpl. lia.
    - destruct (Hready c Hc) as (s & w0 & hh0 & Hs & S0 & Hpx0 & Hpy0).
      exists s, w0, hh0. rewrite Hoth1 by (congruence || (intros ->; tauto)). auto. }
  assert (Hne1 : mLayerMap sp1 <> []).
  { rewrite Hmap1. intros E. rewrite E in HCin. inversion HCin. }
  assert (Hnin1 : P ∉ layers (mLayerMap sp1)) by (rewrite Hmap1; exact Hnin).
  destruct (render_root_layers fuel P h1 sp1 W H D HP1 Ssp1 Hpar1 Hne1 Hnin1 Hready1
              Hacc HvD HencD) as (h2 & d' & Hr & HP2 & _ & _ & Hcell).
  rewrite Hmap1 in Hcell.
  assert (HC2 : h2 !! C = Some (set_mDirty Rect0 sc1)).
  { apply (render_root_resets_layer fuel P h1 h2 [mkHook P D] sp1 D C sc1 Hr HP1 Hpar1
             Hnin1 Hacc HvD); [rewrite Hmap1; exact HCin|exact HC1|exact Hvis|].
    change (mBounds sc1) with (mBounds sc). rewrite HbC. apply valid_spec. simpl. lia. }
  assert (Hcell1 : forall cx cy,
             layer_cell h1 C cx cy =
             if insideb new (mkPoint cx cy) then
               match cell_at w (mData sc) (cx - 5) (cy - 5) with
               | Some ch => if is_transparent ch then None else Some ch
               | None => None
               end
             else None).
  { intros cx cy. unfold layer_cell. rewrite HC1. simpl.
    change (bounds (set_mPos (mkPoint 5 5) (invalidate sc))) with (bounds sc1).
    rewrite Enew. fold new. rewrite Hvis, HbC.
    assert (Hv : valid (Rect4 0 0 w hh) = true) by (apply valid_spec; simpl; lia).
    rewrite Hv. simpl.
    assert (Ew : width (Rect4 0 0 w hh) = w).
    { unfold width. simpl. rewrite Z.sub_0_r. apply to_size_small. lia. }
    rewrite Ew. destruct (insideb new (mkPoint cx cy)); [|reflexivity].
    destruct (cell_at w (mData sc) (cx - 5) (cy - 5)); reflexivity. }
  exists h1, h2, d', old, new, D.
  split; [symmetry; exact Eold|]. split; [reflexivity|].
  split; [exists sc1; split; [exact HC1|]; split; [reflexivity|symmetry; exact Enew]|].
  split; [reflexivity|]. split; [reflexivity|].
  split; [|split].
  { apply encloses_covers. unfold D. rewrite HbP.
    unfold encloses, intersect, boundingRect, old, new. simpl. lia. }
  { apply encloses_covers. unfold D. rewrite HbP.
    unfold encloses, intersect, boundingRect, old, new. simpl. lia. }
  split; [exact Hmove|]. split; [exact Hr|].
  assert (Hcells : forall cx cy, 0 <= cx < W -> 0 <= cy < H ->
             cell_at W d' cx cy =
             if insideb D (mkPoint cx cy)
             then paint h1 (layers (mLayerMap sp)) cx cy (Some blank)
             else cell_at W (mData sp) cx cy).
  { intros cx cy Hcx Hcy. rewrite (Hcell cx cy Hcx Hcy).
    destruct (insideb D _); [reflexivity|].
    unfold sp1. rewrite invalidate_rect_mData. reflexivity. }
  split; [|split; [|split; [exact Hcells|split; [exact Hcell1|split]]]].
  - (* [render] on the child climbs to the parent *)
    intros HmapC.
    rewrite render_S. unfold render_body. rewrite HC1. simpl.
    change (mLayerMap sc1) with (mLayerMap sc). rewrite HmapC. simpl.
    rewrite HC1. simpl. change (mDirty sc1) with (mBounds sc) in *. rewrite HvC1. simpl.
    rewrite HmapC. simpl. rewrite HC1. simpl. rewrite HparC.
    rewrite <- (render_S fuel P h1), Hr. simpl.
    rewrite HC2. simpl. rewrite (update_lookup _ _ _ _ HC2). simpl.
    f_equal. f_equal. apply list_insert_id. exact HC2.
  - rewrite HP2. f_equal. unfold sp1, invalidate_rect.
    destruct (valid (mDirty sp)); reflexivity.
  - intros c cx cy HcC. unfold layer_cell.
    destruct (decide (c = P)) as [->|HcP].
    + rewrite HP1, HP. unfold sp1, invalidate_rect.
      destruct (valid (mDirty sp)); reflexivity.
    + rewrite Hoth1 by assumption. reflexivity.
  - intros Hone cx cy Hcx Hcy. rewrite (Hcells cx cy Hcx Hcy), Hone.
    destruct (insideb D (mkPoint cx cy)); [|reflexivity].
    simpl. rewrite Hcell1.
    destruct (insideb new (mkPoint cx cy)); [|reflexivity].
    destruct (cell_at w (mData sc) (cx - 5) (cy - 5)) as [ch|]; [|reflexivity].
    destruct (is_transparent ch); reflexivity.
Qed.

Lemma two_layers_cases (c : ptr) :
  c ∈ layers [(0, [1%nat]); (1, [2%nat])] -> c = 1%nat \/ c = 2%nat.
Proof.
  intros Hin. simpl in Hin. apply elem_of_cons in Hin as [Hin|Hin]; [left; exact Hin|].
  apply list_elem_of_singleton in Hin. right. exact Hin.
Qed.

Lemma move_child_then_render_witness :
  exists h1 h2 sc1,
    move_to 1%nat (mkPoint 5 5) two_layers_heap = Some (0, h1) /\
    h1 !! 1%nat = Some sc1 /\ mPos sc1 = mkPoint 5 5 /\
    render 1 0%nat h1 = Some (h2, [mkHook 0%nat (Rect4 1 1 7 7)]) /\
    render 2 1%nat h1 = Some (h2, [mkHook 0%nat (Rect4 1 1 7 7); mkHook 1%nat Rect0]).
Proof.
  destruct (move_child_then_render 0 0%nat 1%nat two_layers_heap
              (default Surface0 (two_layers_heap !! 0%nat))
              (default Surface0 (two_layers_heap !! 1%nat)) 10 10 2 2)
    as (h1 & h2 & d' & old & new & D & _ & Eo & (sc1 & Hsc1 & Hp1 & _) & En & ED & _ & _
        & Hm & Hr & Hr' & _).
  - discriminate.
  - reflexivity.
  - reflexivity.
  - repeat split; (reflexivity || lia).
  - repeat split; (reflexivity || lia).
  - lia.
  - lia.
  - lia.
  - lia.
  - reflexivity.
  - reflexivity.
  - simpl. left.
  - intros Hin. apply two_layers_cases in Hin. destruct Hin; discriminate.
  - intros c Hin. apply two_layers_cases in Hin. destruct Hin as [->| ->].
    + exists (default Surface0 (two_layers_heap !! 1%nat)), 2, 2.
      split; [reflexivity|]. split; [|simpl; lia].
      unfold sized. simpl. repeat split; lia.
    + exists (default Surface0 (two_layers_heap !! 2%nat)), 3, 3.
      split; [reflexivity|]. split; [|simpl; lia].
      unfold sized. simpl. repeat split; lia.
  - intros c s Hin Hs. apply two_layers_cases in Hin.
    destruct Hin as [->| ->]; injection Hs as <-; reflexivity.
  - reflexivity.
  - reflexivity.
  - reflexivity.
  - subst old new D. exists h1, h2, sc1. split; [exact Hm|]. split; [exact Hsc1|].
    split; [exact Hp1|]. split; [exact Hr|]. apply Hr'. reflexivity.
Defined.

(** ** The further theorems at concrete inputs *)

Lemma run_ops_tree_ok os (h h' : heap) : run_ops os h = Some h' -> tree_ok h -> tree_ok h'.
Proof.
  intros H T. eapply (run_ops_inv tree_ok); [|exact H|exact T].
  intros o g g' _. apply run_op_tree_ok.
Qed.

Lemma settled_heap_built :
  run_ops [OpNew 10 10; OpNew 2 2; OpFill 1 glyph_b Rect0;
           OpAddLayerAt 0 1 (mkPoint 1 1) 0; OpRender 1 0] [] = Some settled_heap.
Proof. vm_compute. reflexivity. Qed.

Lemma settled_heap_tree_ok : tree_ok settled_heap.
Proof. exact (run_ops_tree_ok _ _ _ settled_heap_built tree_ok_nil). Qed.

Lemma fill_contract_witness :
  fill glyph_b Rect0 (mkSurface (Rect4 0 0 2 2) Rect0 (mkPoint 0 0) true None
                        (replicate 4 blank) [])
  = Some (0, invalidate_rect (Rect4 0 0 2 2)
               (set_mData (replicate (Z.to_nat (2 * 2)) glyph_b)
                  (mkSurface (Rect4 0 0 2 2) Rect0 (mkPoint 0 0) true None
                     (replicate 4 blank) []))).
Proof.
  apply (fill_contract 2 2 (mkSurface (Rect4 0 0 2 2) Rect0 (mkPoint 0 0) true None
                              (replicate 4 blank) []) glyph_b Rect0).
  - unfold sized. simpl. repeat split; lia.
  - reflexivity.
Defined.

Lemma new_Surface_fresh_witness :
  (exists r, new_Surface 3 2 [] = Some r /\
     r = ([] ++ [mkSurface (Rect4 0 0 3 2) (Rect4 0 0 3 2) (mkPoint 0 0) true None
                   (replicate (Z.to_nat (3 * 2)) blank) []], length (@nil Surface))) /\
  new_Surface 2147483647 2147483647 [] = None.
Proof.
  split.
  - eexists. split; [reflexivity|].
    apply (new_Surface_fresh 3 2 []); [lia|lia|reflexivity].
  - apply (new_Surface_fresh 2147483647 2147483647 []); [lia|lia|].
    vm_compute. reflexivity.
Defined.

Lemma resize_contract_witness :
  (exists h', resize 0 5 4 glass_heap = Some (0, h') /\ length h' = length glass_heap) /\
  resize 0 2147483647 2147483647 glass_heap = None.
Proof.
  assert (Ht : glass_heap !! 0%nat = Some (default Surface0 (glass_heap !! 0%nat)))
    by reflexivity.
  assert (Hself : mParent (default Surface0 (glass_heap !! 0%nat)) <> Some 0%nat)
    by (simpl; discriminate).
  assert (Hpar : forall q, mParent (default Surface0 (glass_heap !! 0%nat)) = Some q ->
            is_Some (glass_heap !! q)) by (intros q Hq; simpl in Hq; discriminate Hq).
  split.
  - assert (Hr : resize 0 5 4 glass_heap
                 = Some (0, snd (default (0, []) (resize 0 5 4 glass_heap))))
      by (vm_compute; reflexivity).
    destruct (resize_contract 0 5 4 glass_heap _ Ht ltac:(lia) ltac:(lia) Hself Hpar)
      as (_ & _ & Hc).
    destruct (Hc _ _ Hr) as (_ & Hl & _).
    eexists. split; [exact Hr|exact Hl].
  - apply (resize_contract 0 2147483647 2147483647 glass_heap _ Ht
             ltac:(lia) ltac:(lia) Hself Hpar).
    vm_compute. reflexivity.
Defined.

Lemma blend_result_code_witness :
  blend 0 1 (Rect4 2 2 1 1) (mkPoint 0 0) glass_heap = Some (- EINVAL, glass_heap).
Proof.
  apply (blend_result_code 0 1 (Rect4 2 2 1 1) (mkPoint 0 0) glass_heap
           (default Surface0 (glass_heap !! 0%nat)) (default Surface0 (glass_heap !! 1%nat))).
  - reflexivity.
  - reflexivity.
  - reflexivity.
Defined.

Lemma glass_heap_dirty_ok : heap_dirty_ok glass_heap.
Proof.
  intros p s Hp. destruct p as [|[|p]]; try discriminate Hp; injection Hp as <-;
    intros _; apply encloses_covers; vm_compute; repeat split; discriminate.
Qed.

Lemma resize_not_shrinking_keeps_dirty_in_bounds_witness :
  exists h', resize 0 5 4 glass_heap = Some (0, h') /\ heap_dirty_ok h'.
Proof.
  eexists. split; [vm_compute; reflexivity|].
  eapply (resize_not_shrinking_keeps_dirty_in_bounds 0 5 4 glass_heap _ 0
            (default Surface0 (glass_heap !! 0%nat))).
  - reflexivity.
  - apply encloses_covers. vm_compute. repeat split; discriminate.
  - vm_compute. reflexivity.
  - exact glass_heap_dirty_ok.
Defined.

Lemma addLayer_attaches_witness :
  exists h' c2, addLayer_at 0 1 (mkPoint 1 1) 7 glass_heap = Some (0, h') /\
    h' !! 1%nat = Some c2 /\ mPos c2 = mkPoint 1 1 /\ mParent c2 = Some 0%nat /\
    containsLayer 0%nat 1%nat h' = Some true.
Proof.
  destruct (addLayer_attaches 0 1 (mkPoint 1 1) 7 glass_heap
              (default Surface0 (glass_heap !! 0%nat))
              (default Surface0 (glass_heap !! 1%nat))) as (_ & H2 & _ & H4 & _).
  - discriminate.
  - reflexivity.
  - reflexivity.
  - reflexivity.
  - eexists _, _. split; [exact H2|]. split; [exact H4|].
    split; [reflexivity|]. split; [reflexivity|]. vm_compute. reflexivity.
Defined.

Lemma addLayer_removeLayer_roundtrip_witness :
  exists h1, addLayer 0 1 7 glass_heap = Some (0, h1) /\
    removeLayer 0 1 h1
    = Some (0, <[0%nat := invalidate_rect
                            (bounds (default Surface0 (glass_heap !! 1%nat)))
                            (default Surface0 (glass_heap !! 0%nat))]> glass_heap).
Proof.
  destruct (addLayer_removeLayer_roundtrip 0 1 7 glass_heap
              (default Surface0 (glass_heap !! 0%nat))
              (default Surface0 (glass_heap !! 1%nat))) as (h1 & H1 & _ & H2 & _).
  - discriminate.
  - reflexivity.
  - reflexivity.
  - reflexivity.
  - split; [constructor|]. split; constructor.
  - intros Hin. vm_compute in Hin. inversion Hin.
  - exists h1. split; [exact H1|exact H2].
Defined.

Lemma child_layer_operations_succeed_witness :
  exists h', moveZ 1 4 settled_heap = Some (0, h').
Proof.
  destruct (child_layer_operations_succeed 0 1 settled_heap
              (default Surface0 (settled_heap !! 1%nat)))
    as (t & _ & _ & _ & _ & Hz).
  - exact settled_heap_tree_ok.
  - reflexivity.
  - reflexivity.
  - discriminate.
  - exact (Hz 4).
Defined.




Lemma hide_then_render_erases_witness :
  exists h1 h2 D, hide 1 settled_heap = Some h1 /\
    render 1 0 h1 = Some (h2, [mkHook 0 D]) /\
    covers D (Rect4 1 1 3 3).
Proof.
  destruct (hide_then_render_erases 0 0 1 settled_heap
              (default Surface0 (settled_heap !! 0%nat))
              (default Surface0 (settled_heap !! 1%nat)) 10 10)
    as (h1 & h2 & d' & D & Hh & Hr & Hc & _).
  - discriminate.
  - reflexivity.
  - reflexivity.
  - reflexivity.
  - unfold sized. simpl. repeat split; lia.
  - reflexivity.
  - simpl. apply list_elem_of_singleton. reflexivity.
  - intros Hin. simpl in Hin. apply list_elem_of_singleton in Hin. discriminate Hin.
  - exact settled_heap_layers_ready.
  - intros Hv. vm_compute in Hv. discriminate Hv.
  - reflexivity.
  - exists h1, h2, D. split; [exact Hh|]. split; [exact Hr|exact Hc].
Defined.

Lemma remove_last_layer_keeps_picture_witness :
  exists h1 h2 sp2, removeLayer 0 1 settled_heap = Some (0, h1) /\
    render 1 0 h1 = Some (h2, [mkHook 0 (Rect4 1 1 3 3)]) /\
    h2 !! 0%nat = Some sp2 /\
    mData sp2 = mData (default Surface0 (settled_heap !! 0%nat)).
Proof.
  destruct (remove_last_layer_keeps_picture 0 0 1 settled_heap
              (default Surface0 (settled_heap !! 0%nat))
              (default Surface0 (settled_heap !! 1%nat)) 0)
    as (h1 & h2 & sp2 & Hrm & Hr & Hp & Hd & _).
  - discriminate.
  - reflexivity.
  - reflexivity.
  - reflexivity.
  - reflexivity.
  - reflexivity.
  - reflexivity.
  - reflexivity.
  - exists h1, h2, sp2. split; [exact Hrm|]. split; [exact Hr|]. split; [exact Hp|exact Hd].
Defined.

Lemma renderDone_prints_dirty_cells_witness :
  exists sc' out,
    Screen_renderDone (Rect4 1 0 3 2) (replicate 6 glyph_b)
      (mkScreen 0 (Rect4 0 0 3 2) blank false (-1)) = Some (sc', out ++ [OutFlush]) /\
    glyphs (out ++ [OutFlush]) = [98; 98; 98; 98].
Proof.
  destruct (renderDone_prints_dirty_cells 3 2 1 0 3 2 (replicate 6 glyph_b)
              (mkScreen 0 (Rect4 0 0 3 2) blank false (-1)))
    as (sc' & out & Hr & _ & Hg & _); try lia; try reflexivity.
  exists sc', out. split; [exact Hr|]. rewrite Hg. reflexivity.
Defined.
